(** * datara: schema codec, schema diff and checksum ledger

    A shallow embedding of the Go sources of [akmalulginan/datara]:

    - [Strs]     the functions of Go's [strings], [strconv] and [fmt] that the
                 sources call, on byte strings;
    - [Datara]   [datara.go]: the naming helpers [pluralize], [toSnakeCase];
    - [Codec]    the schema model, [ValidateSQLType], [ParseSchema], [ToSQL],
                 [FromSQL] and [CompareSchema] of package [datara];
    - [Executor] [internal/schema/executor.go]: the textual diff;
    - [Ledger]   [cmd/datara/main.go]: checksums, manifest and schema state.

    Go strings are byte sequences and so are Rocq's [string]s.  Where Go's
    library is Unicode-aware (white space, letter case, [%q]) the embedding
    implements the ASCII part; on inputs with bytes above 127 the two can
    differ.  A statement that depends on such a function is about ASCII
    text: it carries the hypothesis [plain] on the texts it reads, or it
    is a relation between runs that holds whatever these functions do.

    A Go [map] is a [gmap]; a [range] over a map visits its keys in an order
    that the language leaves open, so every such loop takes the order of the
    visit as an argument. *)

From Stdlib Require Import ZArith Ascii String List Lia Bool Permutation.
From stdpp Require Import gmap strings list fin_maps sorting.

Local Open Scope Z_scope.

(* ===================================================================== *)
(** * Go's string library on byte strings *)
(* ===================================================================== *)

Module Strs.

Definition byte_of (c : ascii) : Z := Z.of_N (N_of_ascii c).
Definition len (s : string) : Z := Z.of_nat (String.length s).

(** A character given by its code, for the literals [\n], [\t], ... *)
Definition chr (n : N) : ascii := ascii_of_N n.
Definition nl : string := String (chr 10) EmptyString.
Definition backtick : string := String (chr 96) EmptyString.
Definition dquote_c : ascii := chr 34.
Definition dquote : string := String dquote_c EmptyString.

Fixpoint HasPrefix (s prefix : string) {struct prefix} : bool :=
  match prefix, s with
  | EmptyString, _ => true
  | String _ _, EmptyString => false
  | String p prefix', String c s' => Ascii.eqb p c && HasPrefix s' prefix'
  end.

Fixpoint drop (n : nat) (s : string) : string :=
  match n, s with
  | O, _ => s
  | S _, EmptyString => EmptyString
  | S n', String _ s' => drop n' s'
  end.

Fixpoint take (n : nat) (s : string) : string :=
  match n, s with
  | O, _ => EmptyString
  | S _, EmptyString => EmptyString
  | S n', String c s' => String c (take n' s')
  end.

Definition HasSuffix (s suffix : string) : bool :=
  (String.length suffix <=? String.length s)%nat &&
  String.eqb (drop (String.length s - String.length suffix) s) suffix.

(** [s[lo:hi]] where the source has made sure that [0 <= lo <= hi <= len s]. *)
Definition sub (s : string) (lo hi : Z) : string :=
  take (Z.to_nat (hi - lo)) (drop (Z.to_nat lo) s).

(** [s[lo:]]. *)
Definition from (s : string) (lo : Z) : string := drop (Z.to_nat lo) s.

(** [s[lo:hi]] with Go's bounds check: [None] is the run-time panic
    "slice bounds out of range". *)
Definition slice (s : string) (lo hi : Z) : option string :=
  if (0 <=? lo) && (lo <=? hi) && (hi <=? len s) then Some (sub s lo hi) else None.

Fixpoint index_nat (s substr : string) : option nat :=
  if HasPrefix s substr then Some O
  else match s with
       | EmptyString => None
       | String _ s' => option_map S (index_nat s' substr)
       end.

(** [strings.Index]: the first position of [substr], or [-1]. *)
Definition Index (s substr : string) : Z :=
  match index_nat s substr with
  | Some n => Z.of_nat n
  | None => -1
  end.

Fixpoint last_index_nat (s substr : string) : option nat :=
  match s with
  | EmptyString => if HasPrefix s substr then Some O else None
  | String _ s' =>
      match last_index_nat s' substr with
      | Some n => Some (S n)
      | None => if HasPrefix s substr then Some O else None
      end
  end.

(** [strings.LastIndex]. *)
Definition LastIndex (s substr : string) : Z :=
  match last_index_nat s substr with
  | Some n => Z.of_nat n
  | None => -1
  end.

Definition Contains (s substr : string) : bool :=
  match index_nat s substr with Some _ => true | None => false end.

(** [strings.Split] for a separator that is not empty (the only use in the
    sources).  [skip] counts the bytes of a separator still to be passed. *)
Fixpoint split_go (sep s : string) (skip : nat) : list string :=
  match s with
  | EmptyString => [EmptyString]
  | String c s' =>
      match skip with
      | S k => split_go sep s' k
      | O =>
          if HasPrefix s sep
          then EmptyString :: split_go sep s' (String.length sep - 1)
          else match split_go sep s' O with
               | h :: t => String c h :: t
               | [] => [String c EmptyString]
               end
      end
  end.

Definition Split (s sep : string) : list string := split_go sep s O.

(** [strings.SplitN(s, sep, 2)]: cut at the first separator only. *)
Definition SplitN2 (s sep : string) : list string :=
  match index_nat s sep with
  | Some n => [take n s; drop (n + String.length sep) s]
  | None => [s]
  end.

(** [strings.Join]. *)
Definition Join (l : list string) (sep : string) : string := String.concat sep l.

(** [strings.ReplaceAll] for a pattern that is not empty. *)
Fixpoint replace_go (old new s : string) (skip : nat) : string :=
  match s with
  | EmptyString => EmptyString
  | String c s' =>
      match skip with
      | S k => replace_go old new s' k
      | O =>
          if HasPrefix s old
          then new +:+ replace_go old new s' (String.length old - 1)
          else String c (replace_go old new s' O)
      end
  end.

Definition ReplaceAll (s old new : string) : string := replace_go old new s O.

(** White space of [unicode.IsSpace] below 128: tab, line feed, vertical tab,
    form feed, carriage return and space. *)
Definition is_space (c : ascii) : bool :=
  let n := N_of_ascii c in ((9 <=? n) && (n <=? 13) || (n =? 32))%N.

Definition is_upper (c : ascii) : bool :=
  let n := N_of_ascii c in ((65 <=? n) && (n <=? 90))%N.

Definition is_lower (c : ascii) : bool :=
  let n := N_of_ascii c in ((97 <=? n) && (n <=? 122))%N.

Definition is_digit (c : ascii) : bool :=
  let n := N_of_ascii c in ((48 <=? n) && (n <=? 57))%N.

Definition to_lower (c : ascii) : ascii :=
  if is_upper c then ascii_of_N (N_of_ascii c + 32) else c.

Definition to_upper (c : ascii) : ascii :=
  if is_lower c then ascii_of_N (N_of_ascii c - 32) else c.

Fixpoint map_bytes (f : ascii -> ascii) (s : string) : string :=
  match s with
  | EmptyString => EmptyString
  | String c s' => String (f c) (map_bytes f s')
  end.

Definition ToLower : string -> string := map_bytes to_lower.
Definition ToUpper : string -> string := map_bytes to_upper.

Definition is_empty (s : string) : bool :=
  match s with EmptyString => true | String _ _ => false end.

Fixpoint TrimLeftFunc (f : ascii -> bool) (s : string) : string :=
  match s with
  | EmptyString => EmptyString
  | String c s' => if f c then TrimLeftFunc f s' else s
  end.

Fixpoint TrimRightFunc (f : ascii -> bool) (s : string) : string :=
  match s with
  | EmptyString => EmptyString
  | String c s' =>
      let r := TrimRightFunc f s' in
      if is_empty r && f c then EmptyString else String c r
  end.

Definition TrimSpace (s : string) : string :=
  TrimRightFunc is_space (TrimLeftFunc is_space s).

Fixpoint mem_byte (c : ascii) (cutset : string) : bool :=
  match cutset with
  | EmptyString => false
  | String d cutset' => Ascii.eqb c d || mem_byte c cutset'
  end.

(** [strings.Trim], [strings.TrimRight]: strip the bytes of [cutset]. *)
Definition Trim (s cutset : string) : string :=
  TrimRightFunc (fun c => mem_byte c cutset) (TrimLeftFunc (fun c => mem_byte c cutset) s).

Definition TrimRight (s cutset : string) : string :=
  TrimRightFunc (fun c => mem_byte c cutset) s.

Definition TrimSuffix (s suffix : string) : string :=
  if HasSuffix s suffix then take (String.length s - String.length suffix) s else s.

(** [strings.Fields]: the maximal runs of bytes that are not white space.
    A byte that is not white space starts a field when white space (or
    nothing) follows it, and else joins the field that follows. *)
Fixpoint Fields (s : string) : list string :=
  match s with
  | EmptyString => []
  | String c s' =>
      if is_space c then Fields s'
      else
        match s' with
        | EmptyString => [String c EmptyString]
        | String d _ =>
            if is_space d then String c EmptyString :: Fields s'
            else match Fields s' with
                 | w :: ws => String c w :: ws
                 | [] => [String c EmptyString]
                 end
        end
  end.

(** ** Numbers *)

Definition digit_char (d : Z) : ascii := ascii_of_N (Z.to_N (48 + d)).

Fixpoint utoa_go (fuel : nat) (n : Z) (acc : string) : string :=
  match fuel with
  | O => acc
  | S fuel' =>
      let acc' := String (digit_char (n mod 10)) acc in
      if n <? 10 then acc' else utoa_go fuel' (n / 10) acc'
  end.

(** The verb [%d]: decimal digits, with a minus sign below zero. *)
Definition Itoa (n : Z) : string :=
  if n <? 0 then String "-" (utoa_go (S (Z.to_nat (Z.log2 (- n)))) (- n) EmptyString)
  else utoa_go (S (Z.to_nat (Z.log2 n))) n EmptyString.

Fixpoint digits_value (s : string) (acc : Z) : option Z :=
  match s with
  | EmptyString => Some acc
  | String c s' =>
      if is_digit c then digits_value s' (10 * acc + (byte_of c - 48)) else None
  end.

Definition min_int : Z := - 2 ^ 63.
Definition max_int : Z := 2 ^ 63 - 1.

(** [strconv.Atoi] on a 64-bit platform: an optional sign, then at least one
    decimal digit and nothing else; [None] is the error (syntax or range). *)
Definition Atoi (s : string) : option Z :=
  let signed (neg : bool) (ds : string) :=
    if is_empty ds then None
    else match digits_value ds 0 with
         | Some v =>
             let n := if neg then - v else v in
             if (min_int <=? n) && (n <=? max_int) then Some n else None
         | None => None
         end in
  match s with
  | String "-" ds => signed true ds
  | String "+" ds => signed false ds
  | _ => signed false s
  end.

(** ** The verb [%q] *)

Definition hex_digit (d : Z) : ascii :=
  if d <? 10 then ascii_of_N (Z.to_N (48 + d)) else ascii_of_N (Z.to_N (87 + d)).

(** [strconv.Quote] on ASCII: the text between double quotes with the
    escapes of a Go string literal. *)
Definition quote_byte (c : ascii) : string :=
  let n := byte_of c in
  if n =? 34 then "\" +:+ dquote
  else if n =? 92 then "\\"
  else if n =? 7 then "\a"
  else if n =? 8 then "\b"
  else if n =? 12 then "\f"
  else if n =? 10 then "\n"
  else if n =? 13 then "\r"
  else if n =? 9 then "\t"
  else if n =? 11 then "\v"
  else if (32 <=? n) && (n <? 127) then String c EmptyString
  else "\x" +:+ String (hex_digit (n / 16)) (String (hex_digit (n mod 16)) EmptyString).

Fixpoint quote_body (s : string) : string :=
  match s with
  | EmptyString => EmptyString
  | String c s' => quote_byte c +:+ quote_body s'
  end.

Definition Quote (s : string) : string := dquote +:+ quote_body s +:+ dquote.

End Strs.

Import Strs.

(** Every byte of the text is below 128.  On such text Go's Unicode-aware
    functions (white space, letter case, [%q]) do what their embedding
    does. *)
Fixpoint plain (s : string) : bool :=
  match s with
  | EmptyString => true
  | String c s' => (N_of_ascii c <? 128)%N && plain s'
  end.

(** Results of Go functions that return [(value, error)]; [Panic] is a
    run-time panic, which is neither. *)
Inductive Result (A : Type) : Type :=
  | Ok (a : A)
  | Err (msg : string)
  | Panic.
Arguments Ok {A} a.
Arguments Err {A} msg.
Arguments Panic {A}.

Definition is_ok {A} (r : Result A) : bool :=
  match r with Ok _ => true | _ => false end.
Definition is_err {A} (r : Result A) : bool :=
  match r with Err _ => true | _ => false end.

(* ===================================================================== *)
(** * datara.go: the naming helpers *)
(* ===================================================================== *)

Module Datara.

Definition pluralize (s : string) : string :=
  if is_empty s then "s"
  else if HasSuffix s "s" then s +:+ "es"
  else if HasSuffix s "y" then sub s 0 (len s - 1) +:+ "ies"
  else s +:+ "s".

(** The loop of [toSnakeCase]: [first] is [i = 0], [prev] the previous
    character, and the character after [r] is [s[i+1]]. *)
Fixpoint snake_loop (first : bool) (prev : ascii) (s : string) : string :=
  match s with
  | EmptyString => EmptyString
  | String r s' =>
      let next_is_lower :=
        match s' with String n _ => is_lower n | EmptyString => false end in
      let body := String (to_lower r) (snake_loop false r s') in
      if negb first && is_upper r && (is_lower prev || next_is_lower)
      then String "_" body else body
  end.

Definition toSnakeCase (s : string) : string := snake_loop true zero s.

End Datara.

(* ===================================================================== *)
(** * Package datara: schema model and SQL codec *)
(* ===================================================================== *)

Module Codec.

(** ** The schema model *)

(** The dynamic values that a [Column.Default] (an [interface{}]) holds in
    this package.  A [float64] is carried with its [%f] rendering. *)
Inductive DefaultValue : Type :=
  | DNil
  | DString (s : string)
  | DBool (b : bool)
  | DInt (n : Z)
  | DFloat (rendered : string).

Record Column : Type := mkColumn {
  ColName : string;
  ColType : string;
  ColLength : Z;
  Nullable : bool;
  Default : DefaultValue;
  AutoIncrement : bool;
  IsPrimaryKey : bool;
  IsUnique : bool }.

Record Index : Type := mkIndex {
  IdxName : string;
  IdxColumns : list string;
  IdxType : string;
  Unique : bool }.

Record PrimaryKey : Type := mkPrimaryKey {
  PkName : string;
  PkColumns : list string }.

Record ForeignKey : Type := mkForeignKey {
  FkName : string;
  FkColumns : list string;
  ReferenceTable : string;
  ReferenceColumns : list string;
  OnDelete : string;
  OnUpdate : string }.

Record Table : Type := mkTable {
  TblName : string;
  Columns : list Column;
  Indexes : list Index;
  ForeignKeys : list ForeignKey;
  TblPrimaryKey : option PrimaryKey }.

Record Schema : Type := mkSchema { Tables : list Table }.

(** ** ValidateSQLType *)

Record SQLType : Type := mkSQLType {
  Name : string;
  Length : Z;
  Precision : Z;
  Scale : Z;
  Unsigned : bool }.

Definition set_Name (v : string) (t : SQLType) : SQLType :=
  mkSQLType v (Length t) (Precision t) (Scale t) (Unsigned t).
Definition set_Length (v : Z) (t : SQLType) : SQLType :=
  mkSQLType (Name t) v (Precision t) (Scale t) (Unsigned t).
Definition set_Precision (v : Z) (t : SQLType) : SQLType :=
  mkSQLType (Name t) (Length t) v (Scale t) (Unsigned t).
Definition set_Scale (v : Z) (t : SQLType) : SQLType :=
  mkSQLType (Name t) (Length t) (Precision t) v (Unsigned t).

(** Lines 87-97: upper case, trimmed, and without the word UNSIGNED. *)
Definition normalize (sqlType : string) : bool * string :=
  let sqlType := ToUpper (TrimSpace sqlType) in
  if Contains sqlType "UNSIGNED"
  then (true, TrimSpace (ReplaceAll sqlType "UNSIGNED" EmptyString))
  else (false, sqlType).

(** Lines 107-123: the text between the parentheses. *)
Definition parseParams (params : string) (result : SQLType) : SQLType :=
  if Contains params ","
  then match Split params "," with
       | [p0; p1] =>
           let result :=
             match Atoi (TrimSpace p0) with
             | Some p => set_Precision p result
             | None => result
             end in
           match Atoi (TrimSpace p1) with
           | Some s => set_Scale s result
           | None => result
           end
       | _ => result
       end
  else match Atoi params with
       | Some l => set_Length l result
       | None => result
       end.

Definition when_zero (v : Z) (d : Z) : Z := if v =? 0 then d else v.

(** Lines 129-192: the [switch] on the base name. *)
Definition applyDefaults (sqlType : string) (result : SQLType) : Result SQLType :=
  let name := Name result in
  if String.eqb name "TINYINT" then Ok (set_Length (when_zero (Length result) 4) result)
  else if String.eqb name "SMALLINT" then Ok (set_Length (when_zero (Length result) 6) result)
  else if String.eqb name "MEDIUMINT" then Ok (set_Length (when_zero (Length result) 9) result)
  else if String.eqb name "INT" || String.eqb name "INTEGER" then
    let result := set_Name "INT" result in
    Ok (set_Length (when_zero (Length result) 11) result)
  else if String.eqb name "BIGINT" then Ok (set_Length (when_zero (Length result) 20) result)
  else if String.eqb name "DECIMAL" || String.eqb name "NUMERIC" then
    let result := set_Name "DECIMAL" result in
    let result := set_Precision (when_zero (Precision result) 10) result in
    Ok (set_Scale (when_zero (Scale result) 2) result)
  else if String.eqb name "FLOAT" then
    Ok (set_Precision (when_zero (Precision result) 10) result)
  else if String.eqb name "DOUBLE" || String.eqb name "REAL" then
    let result := set_Name "DOUBLE" result in
    Ok (set_Precision (when_zero (Precision result) 16) result)
  else if String.eqb name "VARCHAR" || String.eqb name "CHAR" then
    if Length result =? 0
    then if String.eqb (Name result) "VARCHAR"
         then Ok (set_Length 255 result)
         else Ok (set_Length 1 result)
    else Ok result
  else if String.eqb name "TEXT" || String.eqb name "TINYTEXT"
          || String.eqb name "MEDIUMTEXT" || String.eqb name "LONGTEXT" then
    Ok (set_Length 0 result)
  else if String.eqb name "DATETIME" || String.eqb name "TIMESTAMP"
          || String.eqb name "DATE" || String.eqb name "TIME" then
    Ok (set_Length 0 result)
  else if String.eqb name "BOOLEAN" || String.eqb name "BOOL" then
    Ok (set_Length 1 (set_Name "TINYINT" result))
  else if String.eqb name "ENUM" then Ok result
  else if String.eqb name "JSON" then Ok (set_Length 0 result)
  else Err ("tipe data tidak didukung: " +:+ sqlType).

Definition ValidateSQLType (sqlType : string) : Result SQLType :=
  let '(unsigned, sqlType) := normalize sqlType in
  let result := mkSQLType EmptyString 0 0 0 unsigned in
  if Contains sqlType "("
  then
    let base := sub sqlType 0 (Strs.Index sqlType "(") in
    match slice sqlType (Strs.Index sqlType "(" + 1) (Strs.Index sqlType ")") with
    | None => Panic
    | Some params => applyDefaults sqlType (parseParams params (set_Name base result))
    end
  else applyDefaults sqlType (set_Name sqlType result).

(** ** ParseSchema: from Go struct types to the model *)

(** What [reflect] tells the package about a field type: its kind, whether
    it is [time.Time], and what a pointer points to. *)
Inductive GoType : Type :=
  | TBool | TInt | TInt8 | TInt16 | TInt32 | TInt64
  | TUint | TUint8 | TUint16 | TUint32 | TUint64
  | TFloat32 | TFloat64
  | TString
  | TTime
  | TPtr (elem : GoType)
  | TOther.

Record StructField : Type := mkStructField {
  FieldName : string;
  FieldType : GoType;
  IsExported : bool;
  Anonymous : bool }.

Record StructType : Type := mkStructType {
  TypeName : string;
  Fields : list StructField }.

(** An argument of [ParseSchema]: a struct, a pointer to a struct, or
    anything else (a string, a nil pointer, a number, ...). *)
Inductive Model : Type :=
  | MStruct (t : StructType)
  | MPtrToStruct (t : StructType)
  | MOther.

Definition snake_upper_loop_step (first : bool) (r : ascii) : string :=
  if negb first && is_upper r then String "_" (String r EmptyString)
  else String r EmptyString.

Fixpoint snake_upper_loop (first : bool) (s : string) : string :=
  match s with
  | EmptyString => EmptyString
  | String r s' => snake_upper_loop_step first r +:+ snake_upper_loop false s'
  end.

(** [toSnakeCase] calls itself on a shorter string; [fuel] bounds the depth
    of the calls. *)
Fixpoint toSnakeCase_fuel (fuel : nat) (s : string) : string :=
  if String.eqb s "ID" then "id"
  else
    match fuel with
    | S fuel' =>
        if HasSuffix s "ID"
        then toSnakeCase_fuel fuel' (TrimSuffix s "ID") +:+ "_id"
        else ToLower (snake_upper_loop true s)
    | O => ToLower (snake_upper_loop true s)
    end.

Definition toSnakeCase (s : string) : string :=
  toSnakeCase_fuel (String.length s) s.

Definition column_named (name type : string) (nullable : bool)
    (dflt : DefaultValue) (autoinc pk : bool) : Column :=
  mkColumn name type 0 nullable dflt autoinc pk false.

Definition handleSpecialFields (name : string) : option Column :=
  if String.eqb name "id" then
    Some (column_named "id" "BIGINT" false DNil true true)
  else if String.eqb name "created_at" then
    Some (column_named "created_at" "TIMESTAMP" false
            (DString "CURRENT_TIMESTAMP") false false)
  else if String.eqb name "updated_at" then
    Some (column_named "updated_at" "TIMESTAMP" false
            (DString "CURRENT_TIMESTAMP ON UPDATE CURRENT_TIMESTAMP") false false)
  else if String.eqb name "deleted_at" then
    Some (column_named "deleted_at" "TIMESTAMP" true DNil false false)
  else if String.eqb name "last_login_at" then
    Some (column_named "last_login_at" "TIMESTAMP" true DNil false false)
  else None.

(** The SQL type is the empty string for a kind that is not numeric. *)
Definition handleNumericType (t : GoType) : string * DefaultValue :=
  match t with
  | TBool => ("TINYINT(1)", DInt 0)
  | TInt8 => ("TINYINT", DNil)
  | TInt16 => ("SMALLINT", DNil)
  | TInt | TInt32 => ("INT", DNil)
  | TInt64 => ("BIGINT", DNil)
  | TUint8 => ("TINYINT UNSIGNED", DNil)
  | TUint16 => ("SMALLINT UNSIGNED", DNil)
  | TUint | TUint32 => ("INT UNSIGNED", DNil)
  | TUint64 => ("BIGINT UNSIGNED", DNil)
  | TFloat32 => ("FLOAT", DNil)
  | TFloat64 => ("DOUBLE", DNil)
  | _ => (EmptyString, DNil)
  end.

Definition one_of (name : string) (l : list string) : bool :=
  existsb (String.eqb name) l.

(** Type, unique, nullable, default. *)
Definition handleStringType (name : string) : string * bool * bool * DefaultValue :=
  if one_of name ["email"; "username"] then ("VARCHAR(255)", true, false, DNil)
  else if one_of name ["password"] then ("VARCHAR(255)", false, false, DNil)
  else if one_of name ["phone"; "phone_number"] then ("VARCHAR(20)", false, true, DNil)
  else if one_of name ["status"; "role"] then ("VARCHAR(50)", false, false, DString "user")
  else if one_of name ["address"; "bio"] then ("TEXT", false, true, DNil)
  else if one_of name ["avatar"; "website"; "location"] then ("VARCHAR(255)", false, true, DNil)
  else if one_of name ["is_active"; "is_verified"] then ("TINYINT(1)", false, false, DInt 1)
  else if HasSuffix name "_id" then ("BIGINT UNSIGNED", false, false, DNil)
  else ("VARCHAR(255)", false, false, DNil).

Definition set_type (v : string) (c : Column) : Column :=
  mkColumn (ColName c) v (ColLength c) (Nullable c) (Default c)
           (AutoIncrement c) (IsPrimaryKey c) (IsUnique c).
Definition set_nullable (v : bool) (c : Column) : Column :=
  mkColumn (ColName c) (ColType c) (ColLength c) v (Default c)
           (AutoIncrement c) (IsPrimaryKey c) (IsUnique c).
Definition set_default (v : DefaultValue) (c : Column) : Column :=
  mkColumn (ColName c) (ColType c) (ColLength c) (Nullable c) v
           (AutoIncrement c) (IsPrimaryKey c) (IsUnique c).
Definition set_unique (v : bool) (c : Column) : Column :=
  mkColumn (ColName c) (ColType c) (ColLength c) (Nullable c) (Default c)
           (AutoIncrement c) (IsPrimaryKey c) v.
Definition set_length (v : Z) (c : Column) : Column :=
  mkColumn (ColName c) (ColType c) v (Nullable c) (Default c)
           (AutoIncrement c) (IsPrimaryKey c) (IsUnique c).
Definition set_autoinc (v : bool) (c : Column) : Column :=
  mkColumn (ColName c) (ColType c) (ColLength c) (Nullable c) (Default c)
           v (IsPrimaryKey c) (IsUnique c).

Definition is_nil (d : DefaultValue) : bool :=
  match d with DNil => true | _ => false end.

Definition createColumn (name : string) (fieldType : GoType) : Column :=
  let column := mkColumn (toSnakeCase name) EmptyString 0 false DNil false false false in
  match fieldType with
  | TPtr _ => set_nullable true column
  | _ => column
  end.

(** [setColumnType] receives the field's own type: for a pointer field its
    kind is the pointer kind, so none of the typed cases applies. *)
Definition setColumnType (column : Column) (fieldType : GoType) : Column :=
  match handleSpecialFields (ColName column) with
  | Some specialColumn => specialColumn
  | None =>
      let '(sqlType, defaultVal) := handleNumericType fieldType in
      if negb (is_empty sqlType) then
        let column := set_type sqlType column in
        if negb (is_nil defaultVal) then set_default defaultVal column else column
      else
        match fieldType with
        | TString =>
            let '(sqlType, isUnique, isNullable, defaultVal) :=
              handleStringType (ColName column) in
            let column := set_unique isUnique (set_type sqlType column) in
            let column := if isNullable then set_nullable true column else column in
            if negb (is_nil defaultVal) then set_default defaultVal column else column
        | TTime => set_nullable true (set_type "DATETIME" column)
        | _ => set_type "VARCHAR(255)" column
        end
  end.

Definition newColumn (field : StructField) : option Column :=
  if negb (IsExported field) then None
  else Some (setColumnType (createColumn (FieldName field) (FieldType field))
                           (FieldType field)).

Definition with_column (table : Table) (column : Column) : Table :=
  let table :=
    mkTable (TblName table) (Columns table ++ [column]) (Indexes table)
            (ForeignKeys table) (TblPrimaryKey table) in
  let table :=
    if IsPrimaryKey column
    then mkTable (TblName table) (Columns table) (Indexes table) (ForeignKeys table)
                 (Some (mkPrimaryKey ("pk_" +:+ TblName table) [ColName column]))
    else table in
  let table :=
    if IsUnique column
    then mkTable (TblName table) (Columns table)
                 (Indexes table ++
                  [mkIndex ("idx_" +:+ TblName table +:+ "_" +:+ ColName column +:+ "_unique")
                           [ColName column] "BTREE" true])
                 (ForeignKeys table) (TblPrimaryKey table)
    else table in
  if HasSuffix (ColName column) "_id"
  then
    let refTableName := TrimSuffix (ColName column) "_id" +:+ "s" in
    let fk := mkForeignKey ("fk_" +:+ TblName table +:+ "_" +:+ ColName column)
                           [ColName column] refTableName ["id"] "RESTRICT" "RESTRICT" in
    mkTable (TblName table) (Columns table)
            (Indexes table ++
             [mkIndex ("idx_" +:+ TblName table +:+ "_" +:+ ColName column)
                      [ColName column] "BTREE" false])
            (ForeignKeys table ++ [fk]) (TblPrimaryKey table)
  else table.

Definition parseStruct (t : StructType) : Table :=
  fold_left
    (fun table field =>
       if Anonymous field then table
       else match newColumn field with
            | Some column => with_column table column
            | None => table
            end)
    (Fields t)
    (mkTable (toSnakeCase (TypeName t) +:+ "s") [] [] [] None).

Definition addRelations (schema : Schema) : Schema :=
  mkSchema
    (map (fun table =>
            mkTable (TblName table) (Columns table)
              (fold_left
                 (fun indexes fk =>
                    indexes ++
                    [mkIndex ("idx_" +:+ TblName table +:+ "_" +:+ Join (FkColumns fk) "_")
                             (FkColumns fk) "BTREE" false])
                 (ForeignKeys table) (Indexes table))
              (ForeignKeys table) (TblPrimaryKey table))
         (Tables schema)).

Definition ParseSchema (models : list Model) : Schema :=
  addRelations
    (mkSchema
       (fold_left
          (fun tables model =>
             match model with
             | MStruct t | MPtrToStruct t => tables ++ [parseStruct t]
             | MOther => tables
             end)
          models [])).

(** ** Serialize: Model to DDL *)

Definition bq (s : string) : string := backtick +:+ s +:+ backtick.

(** The separator of quoted column lists: backtick, comma, backtick. *)
Definition bq_sep : string := backtick +:+ "," +:+ backtick.

Definition quote1 : string := "'".
Definition quote2 : string := "''".

(** The [DEFAULT] clause of [createTableSQL] (lines 785-804). *)
Definition defaultClause (d : DefaultValue) : string :=
  match d with
  | DNil => EmptyString
  | DString v =>
      if String.eqb v "CURRENT_TIMESTAMP" || Contains v "CURRENT_TIMESTAMP ON UPDATE"
      then " DEFAULT " +:+ v
      else " DEFAULT '" +:+ ReplaceAll v quote1 quote2 +:+ "'"
  | DBool v => if v then " DEFAULT 1" else " DEFAULT 0"
  | DInt v => " DEFAULT " +:+ Itoa v
  | DFloat rendered => " DEFAULT " +:+ rendered
  end.

Definition columnLine (column : Column) : string :=
  "  " +:+ bq (ColName column) +:+ " "
  +:+ (if HasSuffix (ColType column) "UNSIGNED"
       then TrimSuffix (ColType column) " UNSIGNED" +:+ " UNSIGNED"
       else ColType column)
  +:+ (if Nullable column then " NULL" else " NOT NULL")
  +:+ (if AutoIncrement column then " AUTO_INCREMENT" else EmptyString)
  +:+ defaultClause (Default column).

(** The column loop: a comma and a line break after every column but the
    last ([i < len(table.Columns)-1]). *)
Fixpoint columnLines (columns : list Column) : string :=
  match columns with
  | [] => EmptyString
  | [column] => columnLine column
  | column :: rest => columnLine column +:+ "," +:+ nl +:+ columnLines rest
  end.

Definition primaryKeyClause (pk : option PrimaryKey) : string :=
  match pk with
  | Some pk =>
      if (0 <? Z.of_nat (length (PkColumns pk)))
      then "," +:+ nl +:+ "  PRIMARY KEY (" +:+ bq (Join (PkColumns pk) bq_sep) +:+ ")"
      else EmptyString
  | None => EmptyString
  end.

(** One index loop of lines 829-847: [addedIndexes] is the set of column
    keys already written, [sql] the text so far. *)
Definition indexLoop (word : string) (indexes : list Index)
    (st : string * gset string) : string * gset string :=
  fold_left
    (fun '(sql, addedIndexes) index =>
       let indexKey := Join (IdxColumns index) "_" in
       if decide (indexKey ∈ addedIndexes) then (sql, addedIndexes)
       else (sql +:+ "," +:+ nl +:+ "  " +:+ word +:+ bq (IdxName index)
                 +:+ " (" +:+ bq (Join (IdxColumns index) bq_sep) +:+ ")",
             {[indexKey]} ∪ addedIndexes))
    indexes st.

Definition foreignKeyLoop (fks : list ForeignKey) (sql : string) : string :=
  fst (fold_left
    (fun '(sql, addedFKs) fk =>
       let fkKey := ReferenceTable fk +:+ "_" +:+ Join (FkColumns fk) "_" in
       if decide (fkKey ∈ addedFKs) then (sql, addedFKs)
       else (sql +:+ "," +:+ nl +:+ "  "
                 +:+ "CONSTRAINT " +:+ bq (FkName fk)
                 +:+ " FOREIGN KEY (" +:+ bq (Join (FkColumns fk) bq_sep)
                 +:+ ") REFERENCES " +:+ bq (ReferenceTable fk)
                 +:+ " (" +:+ bq (Join (ReferenceColumns fk) bq_sep) +:+ ")"
                 +:+ (if negb (is_empty (OnDelete fk))
                      then " ON DELETE " +:+ OnDelete fk else EmptyString)
                 +:+ (if negb (is_empty (OnUpdate fk))
                      then " ON UPDATE " +:+ OnUpdate fk else EmptyString),
             {[fkKey]} ∪ addedFKs))
    fks (sql, (∅ : gset string))).

Definition createTableSQL (table : Table) : string :=
  let sql := "CREATE TABLE " +:+ bq (TblName table) +:+ " (" +:+ nl in
  let sql := sql +:+ columnLines (Columns table) in
  let sql := sql +:+ primaryKeyClause (TblPrimaryKey table) in
  let uniqueIndexes := filter (fun index => Unique index = true) (Indexes table) in
  let normalIndexes := filter (fun index => Unique index = false) (Indexes table) in
  let '(sql, addedIndexes) := indexLoop "UNIQUE KEY " uniqueIndexes (sql, ∅) in
  let '(sql, _) := indexLoop "KEY " normalIndexes (sql, addedIndexes) in
  let sql := foreignKeyLoop (ForeignKeys table) sql in
  sql +:+ nl +:+ ") ENGINE=InnoDB DEFAULT CHARSET=utf8mb4 COLLATE=utf8mb4_unicode_ci;".

Definition dropTableSQL (table : Table) : string :=
  "DROP TABLE IF EXISTS " +:+ bq (TblName table) +:+ ";".

(** [ToDownSQL]: [i] runs from [len(s.Tables)-1] down to [0]; [n] counts the
    indices still to visit, so the current index is [n - 1]. *)
Fixpoint toDownLoop (tables : list Table) (n : nat) (sql : string) : string :=
  match n with
  | O => sql
  | S i =>
      let sql := if (i <? length tables - 1)%nat then sql +:+ nl else sql in
      match nth_error tables i with
      | Some table => toDownLoop tables i (sql +:+ dropTableSQL table)
      | None => toDownLoop tables i sql
      end
  end.

Definition ToDownSQL (s : Schema) : string :=
  toDownLoop (Tables s) (length (Tables s)) EmptyString.

(** [ToSQL]: the loop over the tables with its index [i]. *)
Fixpoint toSQLLoop (tables : list Table) (i : nat) (sql : string) : string :=
  match tables with
  | [] => sql
  | table :: rest =>
      let sql := if (0 <? i)%nat then sql +:+ nl +:+ nl else sql in
      toSQLLoop rest (S i) (sql +:+ createTableSQL table)
  end.

Definition ToSQL (s : Schema) : string :=
  let sql := "-- migrate:up" +:+ nl +:+ nl in
  let sql := toSQLLoop (Tables s) 0 sql in
  let sql := sql +:+ nl +:+ nl +:+ "-- migrate:down" +:+ nl +:+ nl in
  sql +:+ ToDownSQL s.

(** ** Parse: DDL to Model *)

(** The idiom of [FromSQL] for a name between the first two backticks:
    [start := Index(s, "`")], [end := Index(s[start+1:], "`")] and
    [s[start+1 : start+1+end]]; the empty string when either is [-1]. *)
Definition betweenBackticks (s : string) : string :=
  let start := Strs.Index s backtick in
  if negb (start =? -1) then
    let end_ := Strs.Index (from s (start + 1)) backtick in
    if negb (end_ =? -1) then sub s (start + 1) (start + 1 + end_)
    else EmptyString
  else EmptyString.

(** The idiom for the text in the first parentheses:
    [start := Index(s, "(")], [end := Index(s[start:], ")")] and
    [s[start+1 : start+end]]. *)
Definition betweenParens (s : string) : option string :=
  let start := Strs.Index s "(" in
  if negb (start =? -1) then
    let end_ := Strs.Index (from s start) ")" in
    if negb (end_ =? -1) then Some (sub s (start + 1) (start + end_))
    else None
  else None.

(** A column list: the backticks removed, then split at comma-space. *)
Definition columnList (colStr : string) : list string :=
  Split (ReplaceAll colStr backtick EmptyString) ", ".

(** [fmt.Sscanf(s, "%d", &n)]: leading blanks, a sign, then digits or
    underscores, read by [strconv.ParseInt] in base ten; [None] leaves [n]
    as it was. *)
Fixpoint skipSpace (s : string) : option string :=
  match s with
  | EmptyString => Some s
  | String c s' =>
      if Ascii.eqb c (chr 10) then None
      else if is_space c then skipSpace s' else Some s
  end.

Fixpoint numberToken (s : string) : string :=
  match s with
  | EmptyString => EmptyString
  | String c s' =>
      if is_digit c || Ascii.eqb c "_" then String c (numberToken s')
      else EmptyString
  end.

Definition Sscanf_d (s : string) : option Z :=
  match skipSpace s with
  | None => None
  | Some s =>
      let '(sign, s) :=
        match s with
        | String "+" s' => ("+", s')
        | String "-" s' => ("-", s')
        | _ => (EmptyString, s)
        end in
      let tok := numberToken s in
      if is_empty tok then None else Atoi (sign +:+ tok)
  end.

(** The text after a keyword up to the next space (lines 961-966 and
    1080-1095): [rest] starts right after the keyword. *)
Definition wordAfter (rest : string) : string :=
  let end_ := Strs.Index rest " " in
  if negb (end_ =? -1) then TrimSpace (sub rest 0 end_) else TrimSpace rest.

(** One line of the column loop (lines 919-980); [None] is [continue]. *)
Definition parseColumnLine (line : string) : option Column :=
  let line := TrimSpace line in
  if negb (HasPrefix line backtick) then None
  else
    let columnName := betweenBackticks line in
    if is_empty columnName then None
    else
      let parts := Strs.Fields line in
      if (Z.of_nat (length parts) <? 3) then None
      else
        let column :=
          mkColumn columnName (ToUpper (nth 2 parts EmptyString)) 0
                   false DNil false false false in
        let column :=
          if Contains line "NOT NULL" then set_nullable false column
          else set_nullable true column in
        let column :=
          if Contains line "AUTO_INCREMENT" then set_autoinc true column
          else column in
        let column :=
          if Contains line "DEFAULT" then
            let idx := Strs.Index line "DEFAULT" in
            if negb (idx =? -1)
            then set_default (DString (wordAfter (from line (idx + 7)))) column
            else column
          else column in
        let column :=
          if Contains (ColType column) "VARCHAR" || Contains (ColType column) "CHAR" then
            match betweenParens line with
            | Some digits =>
                match Sscanf_d digits with
                | Some n => set_length n column
                | None => column
                end
            | None => column
            end
          else column in
        Some column.

Definition parsePrimaryKey (tableName tableSQL : string) : option PrimaryKey :=
  if Contains tableSQL "PRIMARY KEY" then
    let start := Strs.Index tableSQL "PRIMARY KEY" in
    if negb (start =? -1) then
      match betweenParens (from tableSQL start) with
      | Some keyStr => Some (mkPrimaryKey ("pk_" +:+ tableName) (columnList keyStr))
      | None => None
      end
    else None
  else None.

Definition parseIndexLine (line : string) : option Index :=
  let line := TrimSpace line in
  if HasPrefix line "UNIQUE KEY" || HasPrefix line "KEY" then
    Some (mkIndex (betweenBackticks line)
                  (match betweenParens line with
                   | Some colStr => columnList colStr
                   | None => []
                   end)
                  "BTREE"
                  (HasPrefix line "UNIQUE"))
  else None.

Definition parseForeignKeyLine (line : string) : option ForeignKey :=
  let line := TrimSpace line in
  if Contains line "FOREIGN KEY" then
    let name := betweenBackticks line in
    let columns :=
      let start := Strs.Index line "FOREIGN KEY" in
      if negb (start =? -1) then
        match betweenParens (from line start) with
        | Some colStr => columnList colStr
        | None => []
        end
      else [] in
    let '(refTable, refColumns) :=
      let start := Strs.Index line "REFERENCES" in
      if negb (start =? -1) then
        let rest := from line (start + 10) in
        (betweenBackticks rest,
         match betweenParens rest with
         | Some colStr => columnList colStr
         | None => []
         end)
      else (EmptyString, []) in
    let onDelete :=
      if Contains line "ON DELETE"
      then wordAfter (from line (Strs.Index line "ON DELETE" + 9))
      else EmptyString in
    let onUpdate :=
      if Contains line "ON UPDATE"
      then wordAfter (from line (Strs.Index line "ON UPDATE" + 9))
      else EmptyString in
    Some (mkForeignKey name columns refTable refColumns onDelete onUpdate)
  else None.

(** One fragment between two [CREATE TABLE]s; [None] is [continue]. *)
Definition parseTableSQL (tableSQL : string) : option Table :=
  if is_empty (TrimSpace tableSQL) then None
  else
    let tableName := betweenBackticks tableSQL in
    if is_empty tableName then None
    else
      let lines := Split tableSQL nl in
      Some (mkTable tableName
              (omap parseColumnLine lines)
              (if Contains tableSQL "UNIQUE KEY" || Contains tableSQL "KEY"
               then omap parseIndexLine lines else [])
              (if Contains tableSQL "FOREIGN KEY"
               then omap parseForeignKeyLine lines else [])
              (parsePrimaryKey tableName tableSQL)).

Definition FromSQL (sql : string) : Schema :=
  if is_empty sql then mkSchema []
  else mkSchema (omap parseTableSQL (Split sql "CREATE TABLE")).

(** ** CompareSchema *)

Definition findTable (tables : list Table) (name : string) : option Table :=
  find (fun t => String.eqb (TblName t) name) tables.

Definition hasColumn (columns : list Column) (name : string) : bool :=
  existsb (fun c => String.eqb (ColName c) name) columns.

(** The [DEFAULT] clause of [CompareSchema] (lines 623-647); nothing else
    than these dynamic types reaches its [%v] case in this embedding. *)
Definition alterDefaultClause (d : DefaultValue) : string :=
  match d with
  | DNil => EmptyString
  | DString str =>
      if String.eqb str "CURRENT_TIMESTAMP"
         || String.eqb str "CURRENT_TIMESTAMP ON UPDATE CURRENT_TIMESTAMP"
      then " DEFAULT " +:+ str
      else if String.eqb str "true" then " DEFAULT 1"
      else if String.eqb str "false" then " DEFAULT 0"
      else " DEFAULT '" +:+ str +:+ "'"
  | DBool b => if b then " DEFAULT 1" else " DEFAULT 0"
  | DInt n => " DEFAULT " +:+ Itoa n
  | DFloat rendered => " DEFAULT " +:+ rendered
  end.

Definition addColumnSQL (newTable : Table) (newColumn : Column) : string :=
  "ALTER TABLE " +:+ bq (TblName newTable) +:+ " ADD COLUMN " +:+ bq (ColName newColumn)
  +:+ " " +:+ ColType newColumn
  +:+ (if (0 <? ColLength newColumn)
          && (Contains (ColType newColumn) "VARCHAR" || Contains (ColType newColumn) "CHAR")
       then "(" +:+ Itoa (ColLength newColumn) +:+ ")" else EmptyString)
  +:+ (if Nullable newColumn then " NULL" else " NOT NULL")
  +:+ alterDefaultClause (Default newColumn)
  +:+ ";"
  +:+ nl +:+ nl +:+ "-- migrate:down" +:+ nl +:+ nl
  +:+ "ALTER TABLE " +:+ bq (TblName newTable) +:+ " DROP COLUMN "
  +:+ bq (ColName newColumn) +:+ ";".

Definition separated (sql : string) : string :=
  if negb (is_empty sql) then sql +:+ nl +:+ nl else sql.

(** [old] is [None] for a nil pointer. *)
Definition CompareSchema (s : Schema) (old : option Schema) : string :=
  let compare (oldTables : list Table) :=
    fold_left
      (fun sql newTable =>
         match findTable oldTables (TblName newTable) with
         | None => separated sql +:+ createTableSQL newTable
         | Some oldTable =>
             fold_left
               (fun sql newColumn =>
                  if hasColumn (Columns oldTable) (ColName newColumn) then sql
                  else separated sql +:+ addColumnSQL newTable newColumn)
               (Columns newTable) sql
         end)
      (Tables s) EmptyString in
  match old with
  | None => ToSQL s
  | Some old =>
      if (length (Tables old) =? 0)%nat then ToSQL s else compare (Tables old)
  end.

End Codec.

(* ===================================================================== *)
(** * internal/schema/executor.go: the textual diff *)
(* ===================================================================== *)

Module Executor.

Definition bind {A B} (k : A -> Result B) (r : Result A) : Result B :=
  match r with
  | Ok a => k a
  | Err msg => Err msg
  | Panic => Panic
  end.

#[global] Instance Result_bind : MBind Result := @bind.

(** A slice expression that panics when its bounds are out of range. *)
Definition checked_slice (s : string) (lo hi : Z) : Result string :=
  match slice s lo hi with
  | Some t => Ok t
  | None => Panic
  end.

(** [for k, v := range m] visiting the keys in [order]. *)
Definition range_map {V A} (m : gmap string V) (order : list string)
    (body : string -> V -> A -> A) (init : A) : A :=
  fold_left
    (fun acc k => match m !! k with Some v => body k v acc | None => acc end)
    order init.

(** An order in which a [range] can visit the map: every key once. *)
Definition visits {V} (m : gmap string V) (order : list string) : Prop :=
  order ≡ₚ (map_to_list m).*1.

Definition formatMigration (upSQL downSQL : string) : string :=
  "-- migrate:up" +:+ nl +:+ nl +:+ upSQL +:+ nl +:+ nl
  +:+ "-- migrate:down" +:+ nl +:+ nl +:+ downSQL.

(** The characters that [extractTableName] trims: double quote, the two
    parentheses and the space. *)
Definition nameCutset : string := dquote +:+ "() ".

Fixpoint extractTableName_loop (parts : list string) : string :=
  match parts with
  | [] => EmptyString
  | part :: rest =>
      if String.eqb part "TABLE"
      then match rest with
           | next :: _ => Trim next nameCutset
           | [] => EmptyString
           end
      else extractTableName_loop rest
  end.

Definition extractTableName (stmt : string) : string :=
  extractTableName_loop (Split stmt " ").

Definition parseTables (schema : string) : gmap string string :=
  fold_left
    (fun tables stmt =>
       let stmt := TrimSpace stmt in
       if is_empty stmt then tables
       else if HasPrefix stmt "CREATE TABLE" then
         let tableName := extractTableName stmt in
         if negb (is_empty tableName) then <[tableName := stmt]> tables else tables
       else tables)
    (Split schema ";") ∅.

(** The byte loop of [splitKeepingParentheses]; [current] is the builder. *)
Fixpoint splitLoop (s : string) (parenCount : Z) (current : string) : list string :=
  match s with
  | EmptyString => if negb (is_empty current) then [current] else []
  | String c s' =>
      if Ascii.eqb c "(" then splitLoop s' (parenCount + 1) (current +:+ "(")
      else if Ascii.eqb c ")" then splitLoop s' (parenCount - 1) (current +:+ ")")
      else if Ascii.eqb c "," then
        if parenCount =? 0 then current :: splitLoop s' parenCount EmptyString
        else splitLoop s' parenCount (current +:+ ",")
      else splitLoop s' parenCount (current +:+ String c EmptyString)
  end.

Definition splitKeepingParentheses (s : string) : list string :=
  splitLoop s 0 EmptyString.

(** The branch of [parseColumns] for a definition that mentions
    [decimal(]: the rewritten text after the column name. *)
Definition decimalRest (rest : string) : Result string :=
  let precisionStart := Index rest "(" in
  let precisionEnd := LastIndex rest ")" in
  if negb (precisionStart =? -1) && negb (precisionEnd =? -1) then
    precision ← checked_slice rest (precisionStart + 1) precisionEnd;
    match Split precision "," with
    | [p0; p1] =>
        let p := TrimSpace p0 in
        let s := TrimSpace p1 in
        let defaultValue :=
          if precisionEnd + 1 <? len rest
          then TrimSpace (from rest (precisionEnd + 1)) else EmptyString in
        Ok ("decimal(" +:+ p +:+ "," +:+ s +:+ ") " +:+ defaultValue)
    | _ => Ok rest
    end
  else Ok rest.

(** One round of the loop of [parseColumns]. *)
Definition parseColumnDef (columns : gmap string string) (colDef : string)
    : Result (gmap string string) :=
  let colDef := TrimSpace colDef in
  let plain :=
    match SplitN2 colDef " " with
    | [name; _] => <[Trim name dquote := colDef]> columns
    | _ => columns
    end in
  if is_empty colDef || HasPrefix colDef "PRIMARY KEY" then Ok columns
  else if Contains colDef "decimal(" then
    match SplitN2 colDef " " with
    | [name; rest] =>
        let colName := Trim name dquote in
        rest ← decimalRest rest;
        Ok (<[colName := colName +:+ " " +:+ rest]> columns)
    | _ => Ok plain
    end
  else Ok plain.

Fixpoint parseColumnDefs (columnDefs : list string) (columns : gmap string string)
    : Result (gmap string string) :=
  match columnDefs with
  | [] => Ok columns
  | colDef :: rest =>
      columns ← parseColumnDef columns colDef;
      parseColumnDefs rest columns
  end.

Definition parseColumns (tableDef : string) : Result (gmap string string) :=
  let start := Index tableDef "(" in
  let end_ := LastIndex tableDef ")" in
  if (start =? -1) || (end_ =? -1) then Ok ∅
  else
    body ← checked_slice tableDef (start + 1) end_;
    parseColumnDefs (splitKeepingParentheses body) ∅.

Definition cleanColumnDef (def : string) : string :=
  let def := TrimSpace def in
  let def := TrimRight def ";" in
  if Contains def "decimal(" then
    match SplitN2 def " " with
    | [colName; rest] =>
        let rest := ReplaceAll rest "decimal(" "decimal (" in
        let rest := ReplaceAll rest "," ", " in
        colName +:+ " " +:+ rest
    | _ => def
    end
  else def.

Definition extractColumnType (colDef : string) : string :=
  match SplitN2 colDef " " with
  | [_; rest] => hd EmptyString (Split rest " ")
  | _ => EmptyString
  end.

(** The orders of the three [range] loops of [compareTableDefinitions]. *)
Record ColumnOrders : Type := mkColumnOrders {
  droppedColumnsOrder : list string;
  newColumnsOrder : list string;
  modifiedColumnsOrder : list string }.

Definition Statements : Type := (list string * list string)%type.

Definition droppedColumn (tableName : string) (newColumns : gmap string string)
    (colName oldColDef : string) (acc : Statements) : Statements :=
  let '(upStatements, downStatements) := acc in
  match newColumns !! colName with
  | None =>
      let downStatements :=
        downStatements ++
        ["ALTER TABLE " +:+ Quote tableName +:+ " ADD COLUMN " +:+ oldColDef] in
      let upStatements :=
        upStatements ++
        ["ALTER TABLE " +:+ Quote tableName +:+ " DROP COLUMN " +:+ Quote colName] in
      (upStatements, downStatements)
  | Some _ => acc
  end.

Definition newColumn (tableName : string) (oldColumns : gmap string string)
    (colName colDef : string) (acc : Statements) : Statements :=
  let '(upStatements, downStatements) := acc in
  match oldColumns !! colName with
  | None =>
      let downStatements :=
        downStatements ++
        ["ALTER TABLE " +:+ Quote tableName +:+ " DROP COLUMN " +:+ Quote colName] in
      let colDef := cleanColumnDef colDef in
      let upStatements :=
        upStatements ++
        ["ALTER TABLE " +:+ Quote tableName +:+ " ADD COLUMN " +:+ colDef] in
      (upStatements, downStatements)
  | Some _ => acc
  end.

Definition modifiedColumn (tableName : string) (oldColumns : gmap string string)
    (colName newColDef : string) (acc : Statements) : Statements :=
  let '(upStatements, downStatements) := acc in
  match oldColumns !! colName with
  | None => acc
  | Some oldColDef =>
      if negb (String.eqb oldColDef newColDef) then
        let newType := extractColumnType newColDef in
        let oldType := extractColumnType oldColDef in
        let downStatements :=
          downStatements ++
          ["ALTER TABLE " +:+ Quote tableName +:+ " ALTER COLUMN " +:+ Quote colName
           +:+ " TYPE " +:+ oldType] in
        let upStatements :=
          upStatements ++
          ["ALTER TABLE " +:+ Quote tableName +:+ " ALTER COLUMN " +:+ Quote colName
           +:+ " TYPE " +:+ newType] in
        (upStatements, downStatements)
      else acc
  end.

Definition compareTableDefinitions (orders : ColumnOrders)
    (tableName oldDef newDef : string) : Result Statements :=
  oldColumns ← parseColumns oldDef;
  newColumns ← parseColumns newDef;
  let acc : Statements := ([], []) in
  let acc := range_map oldColumns (droppedColumnsOrder orders)
               (droppedColumn tableName newColumns) acc in
  let acc := range_map newColumns (newColumnsOrder orders)
               (newColumn tableName oldColumns) acc in
  let acc := range_map newColumns (modifiedColumnsOrder orders)
               (modifiedColumn tableName oldColumns) acc in
  Ok acc.

(** The orders of the three [range] loops of [generateSchemaDiff], and of
    those of [compareTableDefinitions] for every table it is called on. *)
Record RangeOrders : Type := mkRangeOrders {
  droppedTablesOrder : list string;
  newTablesOrder : list string;
  modifiedTablesOrder : list string;
  columnOrders : string -> ColumnOrders }.

Definition droppedTable (oldTables newTables : gmap string string)
    (tableName oldTable : string) (acc : Statements) : Statements :=
  let '(upStatements, downStatements) := acc in
  match newTables !! tableName with
  | None =>
      (upStatements ++ ["DROP TABLE IF EXISTS " +:+ Quote tableName +:+ " CASCADE"],
       downStatements ++ [oldTable])
  | Some _ => acc
  end.

Definition newTable (oldTables : gmap string string)
    (tableName newTable : string) (acc : Statements) : Statements :=
  let '(upStatements, downStatements) := acc in
  match oldTables !! tableName with
  | None =>
      (upStatements ++ [newTable],
       downStatements ++ ["DROP TABLE IF EXISTS " +:+ Quote tableName +:+ " CASCADE"])
  | Some _ => acc
  end.

Definition modifiedTable (orders : string -> ColumnOrders)
    (oldTables : gmap string string)
    (tableName newTable : string) (acc : Result Statements) : Result Statements :=
  '(upStatements, downStatements) ← acc;
  match oldTables !! tableName with
  | None => Ok (upStatements, downStatements)
  | Some oldTable =>
      '(upStmts, downStmts) ←
        compareTableDefinitions (orders tableName) tableName oldTable newTable;
      if (0 <? Z.of_nat (length upStmts))
      then Ok (upStatements ++ upStmts, downStatements ++ downStmts)
      else Ok (upStatements, downStatements)
  end.

(** The statement lists of [generateSchemaDiff] before they are joined. *)
Definition diffStatements (orders : RangeOrders) (oldSchema newSchema : string)
    : Result Statements :=
  let oldTables := parseTables oldSchema in
  let newTables := parseTables newSchema in
  let acc : Statements := ([], []) in
  let acc := range_map oldTables (droppedTablesOrder orders)
               (droppedTable oldTables newTables) acc in
  let acc := range_map newTables (newTablesOrder orders)
               (newTable oldTables) acc in
  range_map newTables (modifiedTablesOrder orders)
    (modifiedTable (columnOrders orders) oldTables) (Ok acc).

(** [generateSchemaDiff]: its error result is always [nil], so the
    embedding returns the two texts, or panics. *)
Definition generateSchemaDiff (orders : RangeOrders) (oldSchema newSchema : string)
    : Result (string * string) :=
  '(upStatements, downStatements) ← diffStatements orders oldSchema newSchema;
  if (length upStatements =? 0)%nat then Ok (EmptyString, EmptyString)
  else Ok (Join upStatements (";" +:+ nl) +:+ ";",
           Join downStatements (";" +:+ nl) +:+ ";").

(** ** Execute: from the output of the schema program to a migration *)

Definition cleanOutput (sql : string) : string :=
  let sql := TrimRight sql ("% " +:+ String (chr 9) (String (chr 10) (String (chr 13) EmptyString))) in
  let cleaned :=
    omap (fun line =>
            let line := TrimSpace line in
            if negb (is_empty line) then Some line else None)
         (Split sql nl) in
  Join cleaned nl.

Definition formatCreateTable (sql : string) : string :=
  match SplitN2 sql "(" with
  | [head; tail] =>
      let tableDef := TrimSpace head in
      let columnDefs := TrimSpace (TrimSuffix tail ")") in
      let formattedColumns := map (fun col => "  " +:+ TrimSpace col) (Split columnDefs ",") in
      tableDef +:+ " (" +:+ nl +:+ Join formattedColumns ("," +:+ nl) +:+ nl +:+ ")"
  | _ => sql
  end.

Definition formatCreateIndex (sql : string) : string := TrimSpace sql.

Definition formatSQL (sql : string) : string :=
  let formatted :=
    omap (fun stmt =>
            let stmt := TrimSpace stmt in
            if is_empty stmt then None
            else if HasPrefix stmt "CREATE TABLE" then Some (formatCreateTable stmt)
            else if HasPrefix stmt "CREATE" then Some (formatCreateIndex stmt)
            else Some stmt)
         (Split sql ";") in
  Join formatted (";" +:+ nl +:+ nl) +:+ ";".

(** The down part that [Execute] writes for a first migration. *)
Definition firstMigrationDown : string :=
  "DROP TABLE IF EXISTS " +:+ Quote "profiles" +:+ " CASCADE;" +:+ nl
  +:+ "DROP TABLE IF EXISTS " +:+ Quote "users" +:+ " CASCADE;".

(** What a run of [Execute] leaves: the migration text it returns (empty
    for "no changes") and the schema text it saved, if it saved one. *)
Record Executed : Type := mkExecuted {
  migration : string;
  savedSchema : option string }.

(** [Execute] after the schema program has run: [output] is what the
    program printed and [oldSchema] the content of the schema file, [None]
    when the file does not exist.  Failures of the file system and of the
    program are left out. *)
Definition Execute (orders : RangeOrders) (output : string)
    (oldSchema : option string) : Result Executed :=
  let newSchema := TrimSpace output in
  if is_empty newSchema then Ok (mkExecuted EmptyString None)
  else
    let newSchema := formatSQL (cleanOutput newSchema) in
    match oldSchema with
    | None =>
        Ok (mkExecuted (formatMigration newSchema firstMigrationDown) (Some newSchema))
    | Some oldSchema =>
        '(upSQL, downSQL) ← generateSchemaDiff orders oldSchema newSchema;
        if is_empty upSQL then Ok (mkExecuted EmptyString None)
        else Ok (mkExecuted (formatMigration upSQL downSQL) (Some newSchema))
    end.

(** [generateDiff] of the command: the migration file it writes, [None]
    when it reports "No changes detected" and writes nothing. *)
Definition generateDiff (orders : RangeOrders) (output : string)
    (oldSchema : option string) : Result (option string) :=
  executed ← Execute orders output oldSchema;
  let desiredSchema := migration executed in
  if is_empty desiredSchema then Ok None else Ok (Some desiredSchema).

End Executor.

(* ===================================================================== *)
(** * The digests of Go's library: SHA-256 and base64 *)
(* ===================================================================== *)

Module Digest.

(** 32-bit words as [Z] with the wrap-around written out. *)
Definition w32 (x : Z) : Z := x mod 2 ^ 32.
Definition add32 (x y : Z) : Z := w32 (x + y).
Definition rotr (n x : Z) : Z := w32 (Z.lor (Z.shiftr x n) (Z.shiftl x (32 - n))).
Definition shr (n x : Z) : Z := Z.shiftr x n.
Definition not32 (x : Z) : Z := 2 ^ 32 - 1 - x.

Definition Ch (x y z : Z) : Z := Z.lxor (Z.land x y) (Z.land (not32 x) z).
Definition Maj (x y z : Z) : Z :=
  Z.lxor (Z.lxor (Z.land x y) (Z.land x z)) (Z.land y z).
Definition bigSigma0 (x : Z) : Z := Z.lxor (Z.lxor (rotr 2 x) (rotr 13 x)) (rotr 22 x).
Definition bigSigma1 (x : Z) : Z := Z.lxor (Z.lxor (rotr 6 x) (rotr 11 x)) (rotr 25 x).
Definition smallSigma0 (x : Z) : Z := Z.lxor (Z.lxor (rotr 7 x) (rotr 18 x)) (shr 3 x).
Definition smallSigma1 (x : Z) : Z := Z.lxor (Z.lxor (rotr 17 x) (rotr 19 x)) (shr 10 x).

(** The constants of FIPS 180-4: the first 32 bits of the fractional parts
    of the cube roots (for [K256]) and of the square roots (for [H0]) of
    the first primes. *)
Definition is_prime (n : Z) : bool :=
  (2 <=? n) && forallb (fun d => negb (n mod d =? 0))
                       (map Z.of_nat (seq 2 (Z.to_nat (Z.sqrt n) - 1))).

Definition first_primes (k : nat) : list Z :=
  firstn k (filter is_prime (map Z.of_nat (seq 2 400))).

(** The integer cube root, one bit at a time from bit [bits - 1] down. *)
Fixpoint cube_root_bits (bits : nat) (n r : Z) : Z :=
  match bits with
  | O => r
  | S b =>
      let r' := r + 2 ^ Z.of_nat b in
      cube_root_bits b n (if r' * r' * r' <=? n then r' else r)
  end.

Definition frac32_cube_root (p : Z) : Z := w32 (cube_root_bits 40 (p * 2 ^ 96) 0).
Definition frac32_square_root (p : Z) : Z := w32 (Z.sqrt (p * 2 ^ 64)).

Definition K256 : list Z :=
  Eval vm_compute in map frac32_cube_root (first_primes 64).

Definition H0 : list Z :=
  Eval vm_compute in map frac32_square_root (first_primes 8).

Fixpoint bytes_of_string (s : string) : list Z :=
  match s with
  | EmptyString => []
  | String c s' => byte_of c :: bytes_of_string s'
  end.

Fixpoint string_of_bytes (l : list Z) : string :=
  match l with
  | [] => EmptyString
  | b :: l' => String (ascii_of_N (Z.to_N b)) (string_of_bytes l')
  end.

(** The big-endian bytes of [x], [n] of them. *)
Fixpoint be_bytes (n : nat) (x : Z) : list Z :=
  match n with
  | O => []
  | S n' => (Z.shiftr x (8 * Z.of_nat n')) mod 256 :: be_bytes n' x
  end.

(** The message followed by the bit 1, zeros, and its length in bits on
    eight bytes, a multiple of 64 bytes in all. *)
Definition pad (msg : list Z) : list Z :=
  let l := Z.of_nat (length msg) in
  let zeros := Z.to_nat ((55 - l) mod 64) in
  msg ++ [128] ++ repeat 0 zeros ++ be_bytes 8 (8 * l).

Fixpoint words_of_bytes (n : nat) (l : list Z) : list Z :=
  match n, l with
  | S n', b0 :: b1 :: b2 :: b3 :: l' =>
      (b0 * 2 ^ 24 + b1 * 2 ^ 16 + b2 * 2 ^ 8 + b3) :: words_of_bytes n' l'
  | _, _ => []
  end.

(** The message schedule: [w] holds the words so far, newest first. *)
Fixpoint schedule (n : nat) (w : list Z) : list Z :=
  match n with
  | O => w
  | S n' =>
      let at_ i := nth i w 0 in
      let next := add32 (add32 (smallSigma1 (at_ 1%nat)) (at_ 6%nat))
                        (add32 (smallSigma0 (at_ 14%nat)) (at_ 15%nat)) in
      schedule n' (next :: w)
  end.

Definition round (st : list Z) (kw : Z * Z) : list Z :=
  match st with
  | [a; b; c; d; e; f; g; h] =>
      let t1 := add32 (add32 (add32 h (bigSigma1 e)) (add32 (Ch e f g) (fst kw))) (snd kw) in
      let t2 := add32 (bigSigma0 a) (Maj a b c) in
      [add32 t1 t2; a; b; c; add32 d t1; e; f; g]
  | _ => st
  end.

Definition compress (h : list Z) (block : list Z) : list Z :=
  let w := rev (schedule 48 (rev (words_of_bytes 16 block))) in
  let st := fold_left round (combine K256 w) h in
  map (fun p => add32 (fst p) (snd p)) (combine h st).

Fixpoint blocks (n : nat) (l : list Z) : list (list Z) :=
  match n with
  | O => []
  | S n' =>
      match l with
      | [] => []
      | _ => firstn 64 l :: blocks n' (skipn 64 l)
      end
  end.

(** [sha256.Sum256]: the 32 bytes of the digest. *)
Definition Sum256 (content : string) : string :=
  let padded := pad (bytes_of_string content) in
  let h := fold_left compress (blocks (length padded) padded) H0 in
  string_of_bytes (flat_map (be_bytes 4) h).

(** ** base64.StdEncoding *)

Definition alphabet : string :=
  "ABCDEFGHIJKLMNOPQRSTUVWXYZabcdefghijklmnopqrstuvwxyz0123456789+/".

Definition b64_char (v : Z) : ascii :=
  match String.get (Z.to_nat (v mod 64)) alphabet with
  | Some c => c
  | None => "="%char
  end.

(** Three bytes give four characters; one or two left over are padded
    with [=]. *)
Fixpoint b64_go (fuel : nat) (l : list Z) : string :=
  match fuel with
  | O => EmptyString
  | S fuel' =>
      match l with
      | [] => EmptyString
      | [b0] =>
          String (b64_char (b0 / 4))
            (String (b64_char (b0 mod 4 * 16)) "==")
      | [b0; b1] =>
          String (b64_char (b0 / 4))
            (String (b64_char (b0 mod 4 * 16 + b1 / 16))
               (String (b64_char (b1 mod 16 * 4)) "="))
      | b0 :: b1 :: b2 :: l' =>
          String (b64_char (b0 / 4))
            (String (b64_char (b0 mod 4 * 16 + b1 / 16))
               (String (b64_char (b1 mod 16 * 4 + b2 / 64))
                  (String (b64_char (b2 mod 64)) (b64_go fuel' l'))))
      end
  end.

Definition EncodeToString (src : string) : string :=
  let l := bytes_of_string src in b64_go (S (length l)) l.

End Digest.

(* ===================================================================== *)
(** * cmd/datara/main.go: checksum ledger and persisted schema state *)
(* ===================================================================== *)

Module Ledger.

Import Executor.

(** ** The migrations directory *)

(** An entry of the directory: a regular file, a sub-directory, or an
    entry that cannot be opened. *)
Inductive Node : Type :=
  | File (content : string)
  | Directory
  | Unreadable.

(** The state of [config.Migration.Dir]: [None] when it does not exist. *)
Definition Dir : Type := option (gmap string Node).

(** What a call of package [os] gives: a value, the error for which
    [os.IsNotExist] holds, or another error. *)
Inductive OsResult (A : Type) : Type :=
  | Done (a : A)
  | NotExist
  | Failed.
Arguments Done {A} a.
Arguments NotExist {A}.
Arguments Failed {A}.

Definition ReadFile (dir : Dir) (name : string) : OsResult string :=
  match dir with
  | None => NotExist
  | Some entries =>
      match entries !! name with
      | None => NotExist
      | Some (File content) => Done content
      | Some Directory => Failed
      | Some Unreadable => Failed
      end
  end.

(** [os.Create] followed by the writes, or [os.WriteFile]. *)
Definition WriteFile (dir : Dir) (name content : string) : OsResult Dir :=
  match dir with
  | None => NotExist
  | Some entries =>
      match entries !! name with
      | Some Directory | Some Unreadable => Failed
      | _ => Done (Some (<[name := File content]> entries))
      end
  end.

Definition MkdirAll (dir : Dir) : Dir :=
  match dir with
  | None => Some ∅
  | Some entries => Some entries
  end.

(** [sort.Strings]: the keys in increasing byte order. *)
Definition sortStrings (l : list string) : list string := merge_sort String.le l.

(** [os.ReadDir]: the entries, sorted by file name. *)
Definition ReadDir (dir : Dir) : OsResult (list (string * Node)) :=
  match dir with
  | None => NotExist
  | Some entries =>
      Done (omap (fun name => (fun node => (name, node)) <$> entries !! name)
                 (sortStrings (map_to_list entries).*1))
  end.

(** ** Checksums *)

Definition calculateFileHash (content : string) : string :=
  "h1:" +:+ Digest.EncodeToString (Digest.Sum256 content).

Definition calculateSQLHash (sql : string) : string := calculateFileHash sql.

(** [bufio.Scanner] with [ScanLines]: the lines without their line ends;
    a line of [MaxScanTokenSize] bytes or more stops the scan with
    [ErrTooLong], which the flag reports. *)
Definition MaxScanTokenSize : Z := 64 * 1024.

Definition dropCR (line : string) : string :=
  if HasSuffix line (String (chr 13) EmptyString) then sub line 0 (len line - 1) else line.

Fixpoint scanLines (segments : list string) : list string * bool :=
  match segments with
  | [] => ([], false)
  | segment :: rest =>
      if MaxScanTokenSize <=? len segment then ([], true)
      else
        match rest with
        | [] => (if is_empty segment then [] else [dropCR segment], false)
        | _ => let '(lines, tooLong) := scanLines rest in (dropCR segment :: lines, tooLong)
        end
  end.

Definition Scan (content : string) : list string * bool := scanLines (Split content nl).

Definition checksumLine (checksums : gmap string string) (line : string)
    : gmap string string :=
  match Fields line with
  | [name; hash] => <[name := hash]> checksums
  | _ => checksums
  end.

(** [readChecksumFile]: the first line (the global hash) is skipped. *)
Definition readChecksumFile (dir : Dir) : Result (gmap string string) :=
  match ReadFile dir "datara.sum" with
  | NotExist => Ok ∅
  | Failed => Err "open datara.sum"
  | Done content =>
      let '(lines, tooLong) := Scan content in
      let checksums := fold_left checksumLine (tl lines) ∅ in
      if tooLong then Err "bufio.Scanner: token too long" else Ok checksums
  end.

Fixpoint readAll (dir : Dir) (filenames : list string) (allContent : string)
    : Result string :=
  match filenames with
  | [] => Ok allContent
  | filename :: rest =>
      match ReadFile dir filename with
      | Done content => readAll dir rest (allContent +:+ content)
      | _ => Err ("read " +:+ filename)
      end
  end.

Definition isDir (node : Node) : bool :=
  match node with Directory => true | _ => false end.

Definition calculateGlobalHash (dir : Dir) : Result string :=
  match ReadDir dir with
  | NotExist => Ok (calculateFileHash EmptyString)
  | Failed => Err "read directory"
  | Done files =>
      let filenames :=
        omap (fun file : string * Node =>
                if negb (isDir (snd file)) && HasSuffix (fst file) ".sql"
                then Some (fst file) else None)
             files in
      let filenames := sortStrings filenames in
      allContent ← readAll dir filenames EmptyString;
      Ok (calculateFileHash allContent)
  end.

(** The text of the manifest: the global hash, then a line per file. *)
Fixpoint manifestLines (checksums : gmap string string) (filenames : list string)
    : string :=
  match filenames with
  | [] => EmptyString
  | filename :: rest =>
      filename +:+ " " +:+ default EmptyString (checksums !! filename) +:+ nl
      +:+ manifestLines checksums rest
  end.

(** [writeChecksumFile]; [order] is the order of its [range]. *)
Definition writeChecksumFile (order : list string) (checksums : gmap string string)
    (globalHash : string) (dir : Dir) : Result Dir :=
  let filenames :=
    range_map checksums order (fun filename _ filenames => filenames ++ [filename]) [] in
  let filenames := sortStrings filenames in
  match WriteFile dir "datara.sum"
          (globalHash +:+ nl +:+ manifestLines checksums filenames) with
  | Done dir => Ok dir
  | _ => Err "create datara.sum"
  end.



(** ** Persisted schema state *)

Definition saveLastSchema (schema : Codec.Schema) (dir : Dir) : Result Dir :=
  match WriteFile (MkdirAll dir) "datara.schema" (Codec.ToSQL schema) with
  | Done dir => Ok dir
  | _ => Err "failed to write schema file"
  end.

Definition loadLastSchema (dir : Dir) : Result Codec.Schema :=
  match ReadFile dir "datara.schema" with
  | NotExist => Ok (Codec.mkSchema [])
  | Failed => Err "failed to read schema file"
  | Done content =>
      if (len content =? 0) then Ok (Codec.mkSchema [])
      else Ok (Codec.FromSQL content)
  end.

End Ledger.

#[local] Arguments String.append !_ _ / : simpl nomatch.

(* ===================================================================== *)
(** * Facts about byte strings *)
(* ===================================================================== *)

Section StringFacts.

Lemma app_assoc_s (a b c : string) : (a +:+ b) +:+ c = a +:+ (b +:+ c).
Proof. induction a as [|x a IH]; simpl; [reflexivity | now rewrite IH]. Qed.

Lemma app_nil_r_s (a : string) : a +:+ EmptyString = a.
Proof. induction a as [|x a IH]; simpl; [reflexivity | now rewrite IH]. Qed.

Lemma length_app_s (a b : string) :
  String.length (a +:+ b) = (String.length a + String.length b)%nat.
Proof. induction a as [|x a IH]; simpl; [reflexivity | now rewrite IH]. Qed.

Lemma HasPrefix_app (p s : string) : HasPrefix (p +:+ s) p = true.
Proof.
  induction p as [|x p IH]; simpl; [reflexivity |].
  now rewrite Ascii.eqb_refl, IH.
Qed.

Lemma HasPrefix_inv (s p : string) :
  HasPrefix s p = true -> exists t, s = p +:+ t.
Proof.
  revert s; induction p as [|x p IH]; intros s H; simpl in *.
  - now exists s.
  - destruct s as [|c s]; [discriminate |].
    apply andb_true_iff in H as [Hc Hp].
    apply Ascii.eqb_eq in Hc as ->.
    destruct (IH _ Hp) as [t ->]. now exists t.
Qed.

Lemma drop_app_length (a b : string) : drop (String.length a) (a +:+ b) = b.
Proof. induction a as [|x a IH]; simpl; [now destruct b | exact IH]. Qed.

Lemma take_app_length (a b : string) : take (String.length a) (a +:+ b) = a.
Proof. induction a as [|x a IH]; simpl; [now destruct b | now rewrite IH]. Qed.

Lemma take_drop_s (n : nat) (s : string) : take n s +:+ drop n s = s.
Proof.
  revert s; induction n as [|n IH]; intros [|c s]; simpl; try reflexivity.
  now rewrite IH.
Qed.

Lemma HasSuffix_app (a suffix : string) : HasSuffix (a +:+ suffix) suffix = true.
Proof.
  unfold HasSuffix. rewrite length_app_s.
  apply andb_true_iff; split; [apply Nat.leb_le; lia |].
  replace (String.length a + String.length suffix - String.length suffix)%nat
    with (String.length a) by lia.
  rewrite drop_app_length. apply String.eqb_refl.
Qed.

Lemma HasSuffix_inv (s suffix : string) :
  HasSuffix s suffix = true ->
  s = take (String.length s - String.length suffix) s +:+ suffix.
Proof.
  unfold HasSuffix. intros H. apply andb_true_iff in H as [_ H].
  apply String.eqb_eq in H.
  pose proof (take_drop_s (String.length s - String.length suffix) s) as E.
  rewrite H in E. now symmetry.
Qed.

End StringFacts.

(* ===================================================================== *)
(** * Naming *)
(* ===================================================================== *)

Section Naming.

Lemma is_empty_app_char (p : string) (c : ascii) :
  is_empty (p +:+ String c EmptyString) = false.
Proof. now destruct p. Qed.

Lemma HasSuffix_last_char (p : string) (c d : ascii) :
  HasSuffix (p +:+ String c EmptyString) (String d EmptyString) = Ascii.eqb c d.
Proof.
  unfold HasSuffix. rewrite length_app_s. simpl String.length.
  replace (String.length p + 1 - 1)%nat with (String.length p) by lia.
  rewrite drop_app_length.
  replace (1 <=? String.length p + 1)%nat with true
    by (symmetry; apply Nat.leb_le; lia).
  simpl. now destruct (Ascii.eqb c d).
Qed.

Lemma sub_all_but_last (p : string) (c : ascii) :
  sub (p +:+ String c EmptyString) 0 (len (p +:+ String c EmptyString) - 1) = p.
Proof.
  unfold sub, len. rewrite length_app_s. simpl String.length.
  replace (Z.to_nat (Z.of_nat (String.length p + 1) - 1 - 0)) with (String.length p) by lia.
  simpl drop. apply take_app_length.
Qed.

(** [pluralize] on a name that ends in [s]: [es] is appended. *)
Lemma pluralize_s (p : string) : Datara.pluralize (p +:+ "s") = p +:+ "ses".
Proof.
  unfold Datara.pluralize.
  rewrite is_empty_app_char, HasSuffix_last_char. simpl.
  now rewrite app_assoc_s.
Qed.

(** [pluralize] on a name that ends in [y]: the [y] becomes [ies]. *)
Lemma pluralize_y (p : string) : Datara.pluralize (p +:+ "y") = p +:+ "ies".
Proof.
  unfold Datara.pluralize.
  rewrite is_empty_app_char, !HasSuffix_last_char. simpl.
  now rewrite sub_all_but_last.
Qed.

(** [pluralize] on any other name that is not empty: [s] is appended. *)
Lemma pluralize_other (s : string) :
  is_empty s = false -> HasSuffix s "s" = false -> HasSuffix s "y" = false ->
  Datara.pluralize s = s +:+ "s".
Proof. unfold Datara.pluralize. now intros -> -> ->. Qed.

Lemma pluralize_empty : Datara.pluralize EmptyString = "s".
Proof. reflexivity. Qed.

(** The examples of the naming test of [datara_test.go] hold for
    [datara.go]. *)
Lemma naming_examples_datara :
  Datara.pluralize "status" = "statuses"
  /\ Datara.pluralize "user" = "users"
  /\ Datara.toSnakeCase "UserAPIKey" = "user_api_key"
  /\ Datara.toSnakeCase "ID" = "id".
Proof. repeat split; reflexivity. Qed.

Lemma TrimSuffix_length (s suffix : string) :
  HasSuffix s suffix = true ->
  (String.length (TrimSuffix s suffix) + String.length suffix = String.length s)%nat.
Proof.
  intros H. unfold TrimSuffix. rewrite H.
  pose proof (HasSuffix_inv _ _ H) as E.
  apply (f_equal String.length) in E. rewrite length_app_s in E. lia.
Qed.

Lemma toSnakeCase_fuel_irrelevant (fuel1 fuel2 : nat) (s : string) :
  (String.length s <= fuel1)%nat -> (String.length s <= fuel2)%nat ->
  Codec.toSnakeCase_fuel fuel1 s = Codec.toSnakeCase_fuel fuel2 s.
Proof.
  revert fuel2 s. induction fuel1 as [|fuel1 IH]; intros fuel2 s H1 H2.
  - destruct s; [| simpl in H1; lia]. now destruct fuel2.
  - destruct fuel2 as [|fuel2].
    + destruct s; [reflexivity | simpl in H2; lia].
    + simpl. destruct (String.eqb s "ID"); [reflexivity |].
      destruct (HasSuffix s "ID") eqn:Hsuf; [| reflexivity].
      apply TrimSuffix_length in Hsuf. simpl in Hsuf.
      f_equal. apply IH; lia.
Qed.

(** The recursion of the codec's [toSnakeCase] as the source writes it:
    the fuel that the embedding gives is enough for every call. *)
Lemma toSnakeCase_unfold (s : string) :
  Codec.toSnakeCase s =
  if String.eqb s "ID" then "id"
  else if HasSuffix s "ID"
       then Codec.toSnakeCase (TrimSuffix s "ID") +:+ "_id"
       else ToLower (Codec.snake_upper_loop true s).
Proof.
  unfold Codec.toSnakeCase.
  destruct (String.length s) as [|n] eqn:Hn.
  - destruct s; [reflexivity | discriminate].
  - simpl. destruct (String.eqb s "ID"); [reflexivity |].
    destruct (HasSuffix s "ID") eqn:Hsuf; [| reflexivity].
    apply TrimSuffix_length in Hsuf. simpl in Hsuf.
    f_equal. apply toSnakeCase_fuel_irrelevant; lia.
Qed.

(** C7. The naming examples on the codec's [toSnakeCase] (the function the
    claim cites): [ID] gives [id], but [UserAPIKey] gives [user_a_p_i_key],
    an underscore before every capital, where the claim (and the test
    [TestToSnakeCase] of the repository) expect [user_api_key]; the
    [toSnakeCase] of [datara.go] gives the expected text. *)
Theorem toSnakeCase_acronym_split :
  Codec.toSnakeCase "ID" = "id"
  /\ Codec.toSnakeCase "UserAPIKey" = "user_a_p_i_key"
  /\ Codec.toSnakeCase "UserAPIKey" <> "user_api_key"
  /\ Datara.toSnakeCase "UserAPIKey" = "user_api_key".
Proof. repeat split; try reflexivity. discriminate. Qed.

End Naming.

(* ===================================================================== *)
(** * ValidateSQLType *)
(* ===================================================================== *)

(** The base names of the [switch] of [ValidateSQLType]. *)
Definition supportedTypes : list string :=
  ["TINYINT"; "SMALLINT"; "MEDIUMINT"; "INT"; "INTEGER"; "BIGINT";
   "DECIMAL"; "NUMERIC"; "FLOAT"; "DOUBLE"; "REAL"; "VARCHAR"; "CHAR";
   "TEXT"; "TINYTEXT"; "MEDIUMTEXT"; "LONGTEXT";
   "DATETIME"; "TIMESTAMP"; "DATE"; "TIME"; "BOOLEAN"; "BOOL"; "ENUM"; "JSON"].

(** The base type name: upper case, trimmed, without UNSIGNED, and cut at
    the first opening parenthesis. *)
Definition baseName (sqlType : string) : string :=
  let t := snd (Codec.normalize sqlType) in
  if Contains t "(" then sub t 0 (Index t "(") else t.

(** The text has no opening parenthesis, or its first closing parenthesis
    stands after its first opening one. *)
Definition parensClosed (sqlType : string) : bool :=
  let t := snd (Codec.normalize sqlType) in
  negb (Contains t "(") || (Index t "(" <? Index t ")").

Section SQLTypes.

Lemma index_nat_le (s substr : string) (n : nat) :
  index_nat s substr = Some n -> (n <= String.length s)%nat.
Proof.
  revert n. induction s as [|c s IH]; intros n; simpl.
  - destruct (HasPrefix _ _); intros [= <-]; lia.
  - destruct (HasPrefix _ _); [intros [= <-]; lia |].
    destruct (index_nat s substr) as [m|]; simpl; [| discriminate].
    intros [= <-]. specialize (IH m eq_refl). lia.
Qed.

Lemma Index_bounds (s substr : string) : -1 <= Index s substr <= len s.
Proof.
  unfold Index, len. destruct (index_nat s substr) as [n|] eqn:E; [| lia].
  apply index_nat_le in E. lia.
Qed.

Lemma Contains_Index (s substr : string) :
  Contains s substr = negb (Index s substr =? -1).
Proof.
  unfold Contains, Index. destruct (index_nat s substr) as [n|]; [| reflexivity].
  symmetry. apply negb_true_iff, Z.eqb_neq. lia.
Qed.

Lemma parseParams_Name (params : string) (r : Codec.SQLType) :
  Codec.Name (Codec.parseParams params r) = Codec.Name r.
Proof.
  unfold Codec.parseParams.
  destruct (Contains params ",").
  - destruct (Split params ",") as [|p0 [|p1 [|p2 l]]]; try reflexivity.
    destruct (Atoi (TrimSpace p0)), (Atoi (TrimSpace p1)); reflexivity.
  - destruct (Atoi params); reflexivity.
Qed.

(** The [switch] returns an error exactly on a name it does not list. *)
Lemma applyDefaults_supported (sqlType : string) (r : Codec.SQLType) :
  is_ok (Codec.applyDefaults sqlType r) = Codec.one_of (Codec.Name r) supportedTypes
  /\ is_err (Codec.applyDefaults sqlType r)
     = negb (Codec.one_of (Codec.Name r) supportedTypes).
Proof.
  unfold Codec.applyDefaults, Codec.one_of, supportedTypes. simpl existsb.
  repeat (match goal with
          | |- context [String.eqb (Codec.Name r) ?c] =>
              destruct (String.eqb (Codec.Name r) c);
              simpl;
              [ repeat match goal with
                       | |- context [if ?b then _ else _] => destruct b
                       end; simpl; rewrite ?orb_true_r; split; reflexivity |]
          end).
  split; reflexivity.
Qed.

(** Where the parentheses are closed, [ValidateSQLType] returns an error
    exactly when the base name is not supported, and a result otherwise. *)
Lemma ValidateSQLType_closed (sqlType : string) :
  parensClosed sqlType = true ->
  is_ok (Codec.ValidateSQLType sqlType) = Codec.one_of (baseName sqlType) supportedTypes
  /\ is_err (Codec.ValidateSQLType sqlType)
     = negb (Codec.one_of (baseName sqlType) supportedTypes).
Proof.
  unfold parensClosed, baseName, Codec.ValidateSQLType.
  destruct (Codec.normalize sqlType) as [unsigned t]. simpl snd.
  destruct (Contains t "(") eqn:Hc; simpl negb; simpl orb.
  - intros Hlt. apply Z.ltb_lt in Hlt.
    pose proof (Index_bounds t "(") as B1.
    pose proof (Index_bounds t ")") as B2.
    rewrite Contains_Index in Hc. apply negb_true_iff, Z.eqb_neq in Hc.
    unfold slice.
    replace (0 <=? Index t "(" + 1) with true by (symmetry; apply Z.leb_le; lia).
    replace (Index t "(" + 1 <=? Index t ")") with true by (symmetry; apply Z.leb_le; lia).
    replace (Index t ")" <=? len t) with true by (symmetry; apply Z.leb_le; lia).
    simpl andb. cbv iota.
    destruct (applyDefaults_supported t
                (Codec.parseParams (sub t (Index t "(" + 1) (Index t ")"))
                   (Codec.set_Name (sub t 0 (Index t "("))
                      (Codec.mkSQLType EmptyString 0 0 0 unsigned)))) as [H1 H2].
    rewrite parseParams_Name in H1, H2. simpl in H1, H2. now split.
  - intros _.
    destruct (applyDefaults_supported t
                (Codec.set_Name t (Codec.mkSQLType EmptyString 0 0 0 unsigned))) as [H1 H2].
    simpl in H1, H2. now split.
Qed.

(** Where they are not, it panics. *)
Lemma ValidateSQLType_open (sqlType : string) :
  parensClosed sqlType = false -> Codec.ValidateSQLType sqlType = Panic.
Proof.
  unfold parensClosed, Codec.ValidateSQLType.
  destruct (Codec.normalize sqlType) as [unsigned t]. simpl snd.
  destruct (Contains t "(") eqn:Hc; simpl negb; simpl orb; [| discriminate].
  intros Hlt. apply Z.ltb_ge in Hlt.
  unfold slice.
  replace (Index t "(" + 1 <=? Index t ")") with false by (symmetry; apply Z.leb_gt; lia).
  now rewrite andb_false_r.
Qed.

(** C8. On the text [VARCHAR(], whose base name [VARCHAR] is supported,
    [ValidateSQLType] neither succeeds nor returns an error: the slice
    [sqlType[i+1 : Index(sqlType, ")")]] has the upper bound [-1] and the
    function panics. *)
Theorem ValidateSQLType_panics_on_open_parenthesis :
  Codec.ValidateSQLType "VARCHAR(" = Panic
  /\ baseName "VARCHAR(" = "VARCHAR"
  /\ Codec.one_of (baseName "VARCHAR(") supportedTypes = true
  /\ is_ok (Codec.ValidateSQLType "VARCHAR(") = false
  /\ is_err (Codec.ValidateSQLType "VARCHAR(") = false.
Proof. repeat split; reflexivity. Qed.

End SQLTypes.

(* ===================================================================== *)
(** * The migration document *)
(* ===================================================================== *)

(** A schema of two tables, the second with an index and a foreign key to
    the first. *)
Definition shopSchema : Codec.Schema :=
  Codec.mkSchema
    [Codec.mkTable "users"
       [Codec.mkColumn "id" "BIGINT" 20 false Codec.DNil true true false;
        Codec.mkColumn "name" "VARCHAR(255)" 255 true (Codec.DString "guest") false false false]
       [] [] (Some (Codec.mkPrimaryKey "PRIMARY" ["id"]));
     Codec.mkTable "orders"
       [Codec.mkColumn "id" "BIGINT" 20 false Codec.DNil true true false;
        Codec.mkColumn "user_id" "BIGINT UNSIGNED" 20 false Codec.DNil false false false]
       [Codec.mkIndex "idx_orders_user_id" ["user_id"] "BTREE" false]
       [Codec.mkForeignKey "fk_orders_user_id" ["user_id"] "users" ["id"]
          "RESTRICT" EmptyString]
       (Some (Codec.mkPrimaryKey "PRIMARY" ["id"]))].

Section Document.

Lemma Join_cons (x : string) (l : list string) (sep : string) :
  Join (x :: l) sep =
  x +:+ match l with [] => EmptyString | _ :: _ => sep +:+ Join l sep end.
Proof. destruct l; simpl; [now rewrite app_nil_r_s | reflexivity]. Qed.

(** The loop of [ToSQL] from index [i]: the text so far, then the tables
    that remain, each after a blank line unless it is the very first. *)
Lemma toSQLLoop_joined (tables : list Codec.Table) (i : nat) (sql : string) :
  Codec.toSQLLoop tables i sql =
  sql +:+ match tables with
          | [] => EmptyString
          | _ :: _ =>
              (if (0 <? i)%nat then nl +:+ nl else EmptyString)
              +:+ Join (map Codec.createTableSQL tables) (nl +:+ nl)
          end.
Proof.
  revert i sql. induction tables as [|table rest IH]; intros i sql.
  - simpl. now rewrite app_nil_r_s.
  - cbn [Codec.toSQLLoop map]. rewrite IH, Join_cons.
    destruct rest as [|table' rest]; cbn [map].
    + rewrite !app_nil_r_s. destruct (0 <? i)%nat; now rewrite ?app_assoc_s.
    + replace (0 <? S i)%nat with true by reflexivity.
      destruct (0 <? i)%nat; now rewrite ?app_assoc_s.
Qed.

Lemma firstn_succ_nth {A} (l : list A) (i : nat) (x : A) :
  nth_error l i = Some x -> firstn (S i) l = firstn i l ++ [x].
Proof.
  revert i. induction l as [|y l IH]; intros [|i]; simpl; try discriminate.
  - now intros [= ->].
  - intros H. now rewrite <- IH.
Qed.

Lemma Join_snoc_rev (l : list string) (x sep : string) :
  Join (x :: l) sep = x +:+ (if (0 <? length l)%nat then sep else EmptyString) +:+ Join l sep.
Proof. rewrite Join_cons. destruct l; simpl; [reflexivity | reflexivity]. Qed.

(** The loop of [ToDownSQL] with [n] indices left: the text so far, then
    the first [n] tables from the last to the first, each after a line
    break unless it is the last table of the schema. *)
Lemma toDownLoop_joined (tables : list Codec.Table) (n : nat) (sql : string) :
  (n <= length tables)%nat ->
  Codec.toDownLoop tables n sql =
  sql +:+ (if (0 <? n)%nat && (n <? length tables)%nat then nl else EmptyString)
      +:+ Join (map Codec.dropTableSQL (rev (firstn n tables))) nl.
Proof.
  revert sql. induction n as [|n IH]; intros sql Hn.
  - simpl. now rewrite app_nil_r_s.
  - cbn [Codec.toDownLoop].
    destruct (nth_error tables n) as [table|] eqn:Hnth;
      [| apply nth_error_None in Hnth; lia].
    rewrite IH by lia.
    rewrite (firstn_succ_nth _ _ _ Hnth), rev_app_distr. cbn [rev app map].
    rewrite Join_snoc_rev, length_map, length_rev, length_firstn.
    replace (n `min` length tables)%nat with n by lia.
    replace (n <? length tables)%nat with true by (symmetry; apply Nat.ltb_lt; lia).
    replace (0 <? S n)%nat with true by reflexivity.
    replace (n <? length tables - 1)%nat with (S n <? length tables)%nat
      by (destruct (Nat.ltb_spec (S n) (length tables)), (Nat.ltb_spec n (length tables - 1)); lia).
    rewrite andb_true_r. cbn [andb].
    destruct (S n <? length tables)%nat; now rewrite !app_assoc_s.
Qed.

Lemma ToDownSQL_joined (s : Codec.Schema) :
  Codec.ToDownSQL s = Join (map Codec.dropTableSQL (rev (Codec.Tables s))) nl.
Proof.
  unfold Codec.ToDownSQL. rewrite toDownLoop_joined by lia.
  rewrite Nat.ltb_irrefl, andb_false_r, firstn_all. reflexivity.
Qed.

Lemma ToSQL_joined (s : Codec.Schema) :
  Codec.ToSQL s =
    "-- migrate:up" +:+ nl +:+ nl
    +:+ Join (map Codec.createTableSQL (Codec.Tables s)) (nl +:+ nl)
    +:+ nl +:+ nl +:+ "-- migrate:down" +:+ nl +:+ nl
    +:+ Join (map Codec.dropTableSQL (rev (Codec.Tables s))) nl.
Proof.
  unfold Codec.ToSQL. rewrite toSQLLoop_joined, ToDownSQL_joined.
  replace (0 <? 0)%nat with false by reflexivity.
  destruct (Codec.Tables s); cbn [map]; now rewrite ?app_nil_r_s, !app_assoc_s.
Qed.

Lemma columnLines_joined (columns : list Codec.Column) :
  Codec.columnLines columns = Join (map Codec.columnLine columns) ("," +:+ nl).
Proof.
  induction columns as [|c columns IH]; [reflexivity |].
  destruct columns as [|d columns]; [reflexivity |].
  change (Codec.columnLines (c :: d :: columns))
    with (Codec.columnLine c +:+ "," +:+ nl +:+ Codec.columnLines (d :: columns)).
  rewrite IH. cbn [map]. unfold Join. cbn [String.concat].
  now rewrite !app_assoc_s.
Qed.

Lemma columnLine_starts (column : Codec.Column) :
  HasPrefix (Codec.columnLine column) ("  " +:+ Codec.bq (Codec.ColName column) +:+ " ")
  = true.
Proof.
  unfold Codec.columnLine.
  match goal with |- HasPrefix (_ +:+ _ +:+ _ +:+ ?r) ?p = true =>
    replace (("  " +:+ Codec.bq (Codec.ColName column) +:+ " " +:+ r)) with (p +:+ r)
      by (now rewrite !app_assoc_s)
  end.
  apply HasPrefix_app.
Qed.

(** The index loops only append to the text. *)
Lemma indexLoop_appends (word : string) (indexes : list Codec.Index)
    (sql : string) (added : gset string) :
  exists extra added',
    Codec.indexLoop word indexes (sql, added) = (sql +:+ extra, added').
Proof.
  unfold Codec.indexLoop. revert sql added.
  induction indexes as [|index indexes IH]; intros sql added.
  - exists EmptyString, added. cbn [fold_left]. now rewrite app_nil_r_s.
  - cbn [fold_left].
    destruct (decide (Join (Codec.IdxColumns index) "_" ∈ added)); [apply IH |].
    destruct (IH (sql +:+ "," +:+ nl +:+ "  " +:+ word +:+ Codec.bq (Codec.IdxName index)
                      +:+ " (" +:+ Codec.bq (Join (Codec.IdxColumns index) Codec.bq_sep)
                      +:+ ")")
                 ({[Join (Codec.IdxColumns index) "_"]} ∪ added)) as (extra & added' & E).
    rewrite E. eexists _, added'. now rewrite !app_assoc_s.
Qed.

Lemma foreignKeyLoop_appends (fks : list Codec.ForeignKey) (sql : string) :
  exists extra, Codec.foreignKeyLoop fks sql = sql +:+ extra.
Proof.
  unfold Codec.foreignKeyLoop. generalize (∅ : gset string). revert sql.
  induction fks as [|fk fks IH]; intros sql added.
  - exists EmptyString. cbn [fold_left fst]. now rewrite app_nil_r_s.
  - cbn [fold_left].
    destruct (decide (Codec.ReferenceTable fk +:+ "_" +:+ Join (Codec.FkColumns fk) "_"
                      ∈ added)); [apply IH |].
    match goal with |- context [fold_left _ fks (?s, ?a)] =>
      destruct (IH s a) as [extra E] end.
    rewrite E. eexists. now rewrite !app_assoc_s.
Qed.

(** A statement of [createTableSQL]: the header with the name of the
    table, the lines of the columns, the key and constraint clauses, and
    the footer. *)
Lemma createTableSQL_statement (table : Codec.Table) :
  exists constraints,
    Codec.createTableSQL table
    = "CREATE TABLE " +:+ Codec.bq (Codec.TblName table) +:+ " (" +:+ nl
      +:+ Join (map Codec.columnLine (Codec.Columns table)) ("," +:+ nl)
      +:+ constraints +:+ nl
      +:+ ") ENGINE=InnoDB DEFAULT CHARSET=utf8mb4 COLLATE=utf8mb4_unicode_ci;".
Proof.
  unfold Codec.createTableSQL. cbv zeta.
  set (header := "CREATE TABLE " +:+ Codec.bq (Codec.TblName table) +:+ " (" +:+ nl).
  set (sql := (header +:+ Codec.columnLines (Codec.Columns table))
              +:+ Codec.primaryKeyClause (Codec.TblPrimaryKey table)).
  destruct (indexLoop_appends "UNIQUE KEY "
              (filter (fun index => Codec.Unique index = true) (Codec.Indexes table))
              sql ∅) as (e1 & a1 & E1).
  rewrite E1.
  destruct (indexLoop_appends "KEY "
              (filter (fun index => Codec.Unique index = false) (Codec.Indexes table))
              (sql +:+ e1) a1) as (e2 & a2 & E2).
  rewrite E2.
  destruct (foreignKeyLoop_appends (Codec.ForeignKeys table) ((sql +:+ e1) +:+ e2))
    as (e3 & E3).
  rewrite E3.
  exists (Codec.primaryKeyClause (Codec.TblPrimaryKey table) +:+ e1 +:+ e2 +:+ e3).
  unfold sql, header. rewrite columnLines_joined. now rewrite !app_assoc_s.
Qed.

(** C5. [ToSQL] writes the marker [-- migrate:up], the [CREATE TABLE]
    statements in the order of the schema's tables, the marker
    [-- migrate:down], and one [DROP TABLE IF EXISTS] per table in the
    reverse order; it is the document of [formatMigration] for these two
    parts.  The statement of a table is the header [CREATE TABLE] with
    the table's name between backticks, one line per column in the order
    of the columns, each starting with the column's name between
    backticks, the key and constraint clauses, and the footer. *)
Theorem ToSQL_document (s : Codec.Schema) :
  Codec.ToSQL s =
    "-- migrate:up" +:+ nl +:+ nl
    +:+ Join (map Codec.createTableSQL (Codec.Tables s)) (nl +:+ nl)
    +:+ nl +:+ nl +:+ "-- migrate:down" +:+ nl +:+ nl
    +:+ Join (map Codec.dropTableSQL (rev (Codec.Tables s))) nl
  /\ Codec.ToSQL s =
     Executor.formatMigration
       (Join (map Codec.createTableSQL (Codec.Tables s)) (nl +:+ nl))
       (Codec.ToDownSQL s)
  /\ (forall table, exists constraints,
        Codec.createTableSQL table
        = "CREATE TABLE " +:+ Codec.bq (Codec.TblName table) +:+ " (" +:+ nl
          +:+ Join (map Codec.columnLine (Codec.Columns table)) ("," +:+ nl)
          +:+ constraints +:+ nl
          +:+ ") ENGINE=InnoDB DEFAULT CHARSET=utf8mb4 COLLATE=utf8mb4_unicode_ci;")
  /\ (forall column,
        HasPrefix (Codec.columnLine column)
          ("  " +:+ Codec.bq (Codec.ColName column) +:+ " ") = true)
  /\ (forall table, Codec.dropTableSQL table =
        "DROP TABLE IF EXISTS " +:+ Codec.bq (Codec.TblName table) +:+ ";").
Proof.
  split; [| split; [| split; [| split]]].
  - apply ToSQL_joined.
  - rewrite ToSQL_joined, ToDownSQL_joined. unfold Executor.formatMigration.
    now rewrite ?app_assoc_s.
  - apply createTableSQL_statement.
  - apply columnLine_starts.
  - reflexivity.
Qed.

(** The document of [shopSchema]. *)
Lemma ToSQL_document_witness :
  Codec.ToSQL shopSchema =
  Join
    ["-- migrate:up";
     EmptyString;
     "CREATE TABLE `users` (";
     "  `id` BIGINT NOT NULL AUTO_INCREMENT,";
     "  `name` VARCHAR(255) NULL DEFAULT 'guest',";
     "  PRIMARY KEY (`id`)";
     ") ENGINE=InnoDB DEFAULT CHARSET=utf8mb4 COLLATE=utf8mb4_unicode_ci;";
     EmptyString;
     "CREATE TABLE `orders` (";
     "  `id` BIGINT NOT NULL AUTO_INCREMENT,";
     "  `user_id` BIGINT UNSIGNED NOT NULL,";
     "  PRIMARY KEY (`id`),";
     "  KEY `idx_orders_user_id` (`user_id`),";
     "  CONSTRAINT `fk_orders_user_id` FOREIGN KEY (`user_id`) REFERENCES `users` (`id`) ON DELETE RESTRICT";
     ") ENGINE=InnoDB DEFAULT CHARSET=utf8mb4 COLLATE=utf8mb4_unicode_ci;";
     EmptyString;
     "-- migrate:down";
     EmptyString;
     "DROP TABLE IF EXISTS `orders`;";
     "DROP TABLE IF EXISTS `users`;"] nl.
Proof.
  rewrite (proj1 (ToSQL_document shopSchema)). vm_compute. reflexivity.
Defined.

End Document.

(* ===================================================================== *)
(** * The round trip of the codec *)
(* ===================================================================== *)

(** A struct [Account] with the fields [ID int64], [Status string] and
    [OwnerID uint64], and the schema that [ParseSchema] makes of it. *)
Definition accountStruct : Codec.StructType :=
  Codec.mkStructType "Account"
    [Codec.mkStructField "ID" Codec.TInt64 true false;
     Codec.mkStructField "Status" Codec.TString true false;
     Codec.mkStructField "OwnerID" Codec.TUint64 true false].

Definition accountsModel : Codec.Schema :=
  Codec.ParseSchema [Codec.MStruct accountStruct].

(** Per table its name and, per column, name, type, nullability and
    default. *)
Definition columnFacts (s : Codec.Schema)
    : list (string * list (string * string * bool * Codec.DefaultValue)) :=
  map (fun t =>
         (Codec.TblName t,
          map (fun c => (Codec.ColName c, Codec.ColType c, Codec.Nullable c, Codec.Default c))
              (Codec.Columns t)))
      (Codec.Tables s).

(** The foreign keys of a schema with their two actions. *)
Definition foreignKeyFacts (s : Codec.Schema) : list (string * string * string) :=
  flat_map (fun t =>
              map (fun fk => (Codec.FkName fk, Codec.OnDelete fk, Codec.OnUpdate fk))
                  (Codec.ForeignKeys t))
           (Codec.Tables s).

Section RoundTrip.

(** C1. For the schema of [Account], a model that [ParseSchema] emits,
    [FromSQL (ToSQL model)] keeps the table and the column names but not
    the column types (the third word of the line, [NOT] or [UNSIGNED], is
    taken for the type), nor the default of [status], nor the actions of
    the foreign key: the round trip does not reproduce the model. *)
Theorem roundtrip_loses_types_and_defaults :
  columnFacts accountsModel =
    [("accounts",
      [("id", "BIGINT", false, Codec.DNil);
       ("status", "VARCHAR(50)", false, Codec.DString "user");
       ("owner_id", "BIGINT UNSIGNED", false, Codec.DNil)])]
  /\ columnFacts (Codec.FromSQL (Codec.ToSQL accountsModel)) =
    [("accounts",
      [("id", "NOT", false, Codec.DNil);
       ("status", "NOT", false, Codec.DString EmptyString);
       ("owner_id", "UNSIGNED", false, Codec.DNil)])]
  /\ foreignKeyFacts accountsModel = [("fk_accounts_owner_id", "RESTRICT", "RESTRICT")]
  /\ foreignKeyFacts (Codec.FromSQL (Codec.ToSQL accountsModel)) =
     [("fk_accounts_owner_id", EmptyString, EmptyString)]
  /\ columnFacts (Codec.FromSQL (Codec.ToSQL accountsModel)) <> columnFacts accountsModel.
Proof. repeat split; try (vm_compute; reflexivity). vm_compute. discriminate. Qed.

End RoundTrip.

(* ===================================================================== *)
(** * Missing files *)
(* ===================================================================== *)

(** The directory has no entry of this name (or does not exist). *)
Definition absent (dir : Ledger.Dir) (name : string) : Prop :=
  match dir with
  | None => True
  | Some entries => entries !! name = None
  end.

Section MissingFiles.

Lemma ReadFile_absent (dir : Ledger.Dir) (name : string) :
  absent dir name -> Ledger.ReadFile dir name = Ledger.NotExist.
Proof. destruct dir as [entries|]; simpl; [intros -> |]; reflexivity. Qed.

(** C9. Without a manifest file [readChecksumFile] returns the empty set
    of checksums and no error; without a state file, or with an empty one,
    [loadLastSchema] returns a schema with no table and no error. *)
Theorem missing_files_read_as_empty (dir : Ledger.Dir) :
  (absent dir "datara.sum" -> Ledger.readChecksumFile dir = Ok ∅)
  /\ (absent dir "datara.schema"
      \/ Ledger.ReadFile dir "datara.schema" = Ledger.Done EmptyString ->
      Ledger.loadLastSchema dir = Ok (Codec.mkSchema [])).
Proof.
  split.
  - intros H. unfold Ledger.readChecksumFile. now rewrite (ReadFile_absent _ _ H).
  - intros [H | H]; unfold Ledger.loadLastSchema.
    + now rewrite (ReadFile_absent _ _ H).
    + now rewrite H.
Qed.

Lemma missing_files_read_as_empty_witness :
  (Ledger.readChecksumFile (Some ∅) = Ok ∅)
  /\ Ledger.loadLastSchema (Some {["datara.schema" := Ledger.File EmptyString]})
     = Ok (Codec.mkSchema []).
Proof.
  split.
  - apply (missing_files_read_as_empty (Some ∅)). reflexivity.
  - apply (missing_files_read_as_empty
             (Some {["datara.schema" := Ledger.File EmptyString]})).
    right. reflexivity.
Defined.

End MissingFiles.

(* ===================================================================== *)
(** * The textual diff *)
(* ===================================================================== *)

(** The keys of a map, in the order of [map_to_list]. *)
Definition keys {V} (m : gmap string V) : list string := (map_to_list m).*1.

Section RangeFacts.

Context {V : Type}.

Lemma range_map_cons {A} (m : gmap string V) (k : string) (order : list string)
    (body : string -> V -> A -> A) (init : A) :
  Executor.range_map m (k :: order) body init =
  Executor.range_map m order body
    (match m !! k with Some v => body k v init | None => init end).
Proof. reflexivity. Qed.

(** A loop whose body changes nothing on the entries of the map. *)
Lemma range_map_unchanged {A} (m : gmap string V) (order : list string)
    (body : string -> V -> A -> A) (init : A) :
  (forall k v, m !! k = Some v -> body k v init = init) ->
  Executor.range_map m order body init = init.
Proof.
  intros H. induction order as [|k order IH]; [reflexivity |].
  rewrite range_map_cons. destruct (m !! k) as [v|] eqn:E; [rewrite (H k v E) |]; exact IH.
Qed.

(** A loop whose body appends to the two statement lists. *)
Lemma range_map_appends (m : gmap string V) (order : list string)
    (body : string -> V -> Executor.Statements -> Executor.Statements)
    (f : string -> V -> Executor.Statements) (acc : Executor.Statements) :
  (forall k v up down, m !! k = Some v ->
     body k v (up, down) = (up ++ (f k v).1, down ++ (f k v).2)) ->
  Executor.range_map m order body acc =
  (acc.1 ++ flat_map (fun k => match m !! k with Some v => (f k v).1 | None => [] end) order,
   acc.2 ++ flat_map (fun k => match m !! k with Some v => (f k v).2 | None => [] end) order).
Proof.
  intros H. revert acc. induction order as [|k order IH]; intros [up down].
  - simpl. now rewrite !app_nil_r.
  - rewrite range_map_cons. cbn [flat_map].
    destruct (m !! k) as [v|] eqn:E.
    + rewrite (H k v up down E), IH. cbn [fst snd]. now rewrite !app_assoc.
    + rewrite IH. reflexivity.
Qed.

Lemma visits_keys (m : gmap string V) : Executor.visits m (keys m).
Proof. unfold Executor.visits, keys. reflexivity. Qed.

Lemma visits_elem (m : gmap string V) (order : list string) (k : string) :
  Executor.visits m order -> (k ∈ order <-> is_Some (m !! k)).
Proof.
  intros Hv. unfold Executor.visits in Hv. rewrite Hv.
  rewrite list_elem_of_fmap. split.
  - intros [[k' v] [-> Hin]]. apply elem_of_map_to_list in Hin. now exists v.
  - intros [v Hv']. exists (k, v). split; [reflexivity |]. now apply elem_of_map_to_list.
Qed.

Lemma visits_NoDup (m : gmap string V) (order : list string) :
  Executor.visits m order -> NoDup order.
Proof. intros Hv. unfold Executor.visits in Hv. rewrite Hv. apply NoDup_fst_map_to_list. Qed.

Lemma visits_empty (order : list string) :
  Executor.visits (∅ : gmap string V) order -> order = [].
Proof.
  unfold Executor.visits. rewrite map_to_list_empty. simpl.
  intros H. now apply Permutation_nil_r in H.
Qed.

End RangeFacts.

(** The statement list has one entry per table name of the new schema. *)
Definition createStatements (newTables : gmap string string) (names : list string)
    : list string :=
  map (fun name => default EmptyString (newTables !! name)) names.

Definition dropStatements (names : list string) : list string :=
  map (fun name => "DROP TABLE IF EXISTS " +:+ Quote name +:+ " CASCADE") names.

Section DiffFacts.

Lemma bind_Ok {A B} (a : A) (k : A -> Result B) : (Ok a ≫= k) = k a.
Proof. reflexivity. Qed.

(** Every entry of [parseTables] is a statement that starts with
    [CREATE TABLE], under the name that [extractTableName] finds in it. *)
Lemma parseTables_entry (schema name stmt : string) :
  Executor.parseTables schema !! name = Some stmt ->
  HasPrefix stmt "CREATE TABLE" = true
  /\ Executor.extractTableName stmt = name
  /\ is_empty name = false.
Proof.
  unfold Executor.parseTables.
  generalize (Split schema ";").
  assert (Hinv : forall (l : list string) (m0 : gmap string string),
    (forall n s, m0 !! n = Some s ->
       HasPrefix s "CREATE TABLE" = true /\ Executor.extractTableName s = n
       /\ is_empty n = false) ->
    forall n s,
      fold_left
        (fun tables stmt =>
           let stmt := TrimSpace stmt in
           if is_empty stmt then tables
           else if HasPrefix stmt "CREATE TABLE" then
             let tableName := Executor.extractTableName stmt in
             if negb (is_empty tableName) then <[tableName := stmt]> tables else tables
           else tables) l m0 !! n = Some s ->
      HasPrefix s "CREATE TABLE" = true /\ Executor.extractTableName s = n
      /\ is_empty n = false).
  { induction l as [|x l IH]; intros m0 H0 n s; [apply H0 |].
    cbn [fold_left]. apply IH. clear IH n s.
    cbv zeta. intros n s.
    destruct (is_empty (TrimSpace x)); [apply H0 |].
    destruct (HasPrefix (TrimSpace x) "CREATE TABLE") eqn:Hp; [| apply H0].
    destruct (is_empty (Executor.extractTableName (TrimSpace x))) eqn:He; [apply H0 |].
    cbn [negb]. intros Hl. apply lookup_insert_Some in Hl as [[<- <-] | [_ Hl]].
    - auto.
    - now apply H0. }
  intros l. apply Hinv. intros n s. rewrite lookup_empty. discriminate.
Qed.

(** A table definition compared with itself gives no statement. *)
Lemma compareTableDefinitions_same (co : Executor.ColumnOrders)
    (tableName def : string) (columns : gmap string string) :
  Executor.parseColumns def = Ok columns ->
  Executor.compareTableDefinitions co tableName def def = Ok ([], []).
Proof.
  intros Hc. unfold Executor.compareTableDefinitions. rewrite Hc, !bind_Ok.
  rewrite (range_map_unchanged columns (Executor.droppedColumnsOrder co)).
  2:{ intros k v Hk. unfold Executor.droppedColumn. now rewrite Hk. }
  rewrite (range_map_unchanged columns (Executor.newColumnsOrder co)).
  2:{ intros k v Hk. unfold Executor.newColumn. now rewrite Hk. }
  rewrite (range_map_unchanged columns (Executor.modifiedColumnsOrder co)).
  2:{ intros k v Hk. unfold Executor.modifiedColumn. rewrite Hk.
      now rewrite String.eqb_refl. }
  reflexivity.
Qed.

(** A schema text compared with itself gives no statement, whatever the
    order of the loops, when none of its table definitions makes
    [parseColumns] panic. *)
Lemma diffStatements_same (orders : Executor.RangeOrders) (schema : string) :
  (forall name def, Executor.parseTables schema !! name = Some def ->
     is_ok (Executor.parseColumns def) = true) ->
  Executor.diffStatements orders schema schema = Ok ([], []).
Proof.
  intros Hok. unfold Executor.diffStatements.
  set (tables := Executor.parseTables schema) in *.
  rewrite (range_map_unchanged tables (Executor.droppedTablesOrder orders)).
  2:{ intros k v Hk. unfold Executor.droppedTable. now rewrite Hk. }
  rewrite (range_map_unchanged tables (Executor.newTablesOrder orders)).
  2:{ intros k v Hk. unfold Executor.newTable. now rewrite Hk. }
  apply range_map_unchanged.
  intros k v Hk. unfold Executor.modifiedTable. rewrite bind_Ok, Hk.
  specialize (Hok k v Hk).
  destruct (Executor.parseColumns v) as [columns| |] eqn:Hc; try discriminate.
  now rewrite (compareTableDefinitions_same _ _ _ _ Hc).
Qed.

(** With no table in the old schema, only the second loop adds statements:
    per table name of the new schema, in the order of that loop, the
    table's statement to [up] and its [DROP TABLE] to [down]. *)
Lemma diffStatements_from_empty (orders : Executor.RangeOrders)
    (oldSchema newSchema : string) :
  Executor.parseTables oldSchema = ∅ ->
  Executor.visits (Executor.parseTables newSchema) (Executor.newTablesOrder orders) ->
  Executor.diffStatements orders oldSchema newSchema =
  Ok (createStatements (Executor.parseTables newSchema) (Executor.newTablesOrder orders),
      dropStatements (Executor.newTablesOrder orders)).
Proof.
  intros Hold Hv. unfold Executor.diffStatements. rewrite Hold.
  set (newTables := Executor.parseTables newSchema) in *.
  rewrite (range_map_unchanged (∅ : gmap string string)).
  2:{ intros k v Hk. now rewrite lookup_empty in Hk. }
  rewrite (range_map_appends newTables _ _
             (fun k v => ([v], ["DROP TABLE IF EXISTS " +:+ Quote k +:+ " CASCADE"]))).
  2:{ intros k v up down Hk. unfold Executor.newTable. now rewrite lookup_empty. }
  cbn [fst snd app].
  rewrite range_map_unchanged.
  2:{ intros k v Hk. unfold Executor.modifiedTable.
      rewrite bind_Ok. now rewrite lookup_empty. }
  f_equal. f_equal.
  - unfold createStatements.
    assert (Hall : Forall (fun k => is_Some (newTables !! k)) (Executor.newTablesOrder orders)).
    { apply Forall_forall. intros k Hk. now apply (visits_elem newTables _ k Hv). }
    clear Hv. induction Hall as [|k l [v Hk] _ IH]; [reflexivity |].
    cbn [flat_map map]. rewrite Hk, IH. reflexivity.
  - unfold dropStatements.
    assert (Hall : Forall (fun k => is_Some (newTables !! k)) (Executor.newTablesOrder orders)).
    { apply Forall_forall. intros k Hk. now apply (visits_elem newTables _ k Hv). }
    clear Hv. induction Hall as [|k l [v Hk] _ IH]; [reflexivity |].
    cbn [flat_map map]. rewrite Hk, IH. reflexivity.
Qed.

End DiffFacts.

(* ===================================================================== *)
(** * The diff and the order of the loops *)
(* ===================================================================== *)

(** The orders of [compareTableDefinitions] visit the columns it parses. *)
Definition columnsVisited (co : Executor.ColumnOrders) (oldDef newDef : string) : Prop :=
  forall oldColumns newColumns,
    Executor.parseColumns oldDef = Ok oldColumns ->
    Executor.parseColumns newDef = Ok newColumns ->
    Executor.visits oldColumns (Executor.droppedColumnsOrder co)
    /\ Executor.visits newColumns (Executor.newColumnsOrder co)
    /\ Executor.visits newColumns (Executor.modifiedColumnsOrder co).

(** Orders that a run of [generateSchemaDiff] on these two texts can
    take: every [range] visits each key of its map once. *)
Definition validOrders (orders : Executor.RangeOrders) (oldSchema newSchema : string)
    : Prop :=
  Executor.visits (Executor.parseTables oldSchema) (Executor.droppedTablesOrder orders)
  /\ Executor.visits (Executor.parseTables newSchema) (Executor.newTablesOrder orders)
  /\ Executor.visits (Executor.parseTables newSchema) (Executor.modifiedTablesOrder orders)
  /\ forall name oldDef newDef,
       Executor.parseTables oldSchema !! name = Some oldDef ->
       Executor.parseTables newSchema !! name = Some newDef ->
       columnsVisited (Executor.columnOrders orders name) oldDef newDef.

(** Two results agree up to the order of the statements: both panic, or
    both are lists with the same statements, each as often. *)
Definition sameUpToOrder (r1 r2 : Result Executor.Statements) : Prop :=
  match r1, r2 with
  | Ok (up1, down1), Ok (up2, down2) => up1 ≡ₚ up2 /\ down1 ≡ₚ down2
  | Panic, Panic => True
  | _, _ => False
  end.

(** The orders of [map_to_list], which are valid for every pair of texts. *)
Definition columnKeys (def : string) : list string :=
  match Executor.parseColumns def with
  | Ok columns => keys columns
  | _ => []
  end.

Definition canonicalOrders (oldSchema newSchema : string) : Executor.RangeOrders :=
  let oldTables := Executor.parseTables oldSchema in
  let newTables := Executor.parseTables newSchema in
  Executor.mkRangeOrders (keys oldTables) (keys newTables) (keys newTables)
    (fun name =>
       let oldDef := default EmptyString (oldTables !! name) in
       let newDef := default EmptyString (newTables !! name) in
       Executor.mkColumnOrders (columnKeys oldDef) (columnKeys newDef) (columnKeys newDef)).

Section OrderFacts.


Lemma flat_map_perm_ext {A B} (f g : A -> list B) (l l' : list A) :
  l ≡ₚ l' -> (forall x, x ∈ l -> f x ≡ₚ g x) -> flat_map f l ≡ₚ flat_map g l'.
Proof.
  intros Hp Hfg.
  transitivity (flat_map g l); [| now apply Permutation_flat_map].
  clear Hp. induction l as [|x l IH]; [reflexivity |]. cbn [flat_map].
  apply Permutation_app.
  - apply Hfg. left.
  - apply IH. intros y Hy. apply Hfg. now right.
Qed.

Lemma visits_perm {V} (m : gmap string V) (order order' : list string) :
  Executor.visits m order -> Executor.visits m order' -> order ≡ₚ order'.
Proof. unfold Executor.visits. intros -> ->. reflexivity. Qed.

(** What [compareTableDefinitions] adds for the columns it has parsed. *)
Definition droppedColumnStatements (tableName : string) (newColumns : gmap string string)
    (colName oldColDef : string) : Executor.Statements :=
  match newColumns !! colName with
  | None =>
      (["ALTER TABLE " +:+ Quote tableName +:+ " DROP COLUMN " +:+ Quote colName],
       ["ALTER TABLE " +:+ Quote tableName +:+ " ADD COLUMN " +:+ oldColDef])
  | Some _ => ([], [])
  end.

Definition newColumnStatements (tableName : string) (oldColumns : gmap string string)
    (colName colDef : string) : Executor.Statements :=
  match oldColumns !! colName with
  | None =>
      (["ALTER TABLE " +:+ Quote tableName +:+ " ADD COLUMN " +:+ Executor.cleanColumnDef colDef],
       ["ALTER TABLE " +:+ Quote tableName +:+ " DROP COLUMN " +:+ Quote colName])
  | Some _ => ([], [])
  end.

Definition modifiedColumnStatements (tableName : string) (oldColumns : gmap string string)
    (colName newColDef : string) : Executor.Statements :=
  match oldColumns !! colName with
  | None => ([], [])
  | Some oldColDef =>
      if negb (String.eqb oldColDef newColDef) then
        (["ALTER TABLE " +:+ Quote tableName +:+ " ALTER COLUMN " +:+ Quote colName
          +:+ " TYPE " +:+ Executor.extractColumnType newColDef],
         ["ALTER TABLE " +:+ Quote tableName +:+ " ALTER COLUMN " +:+ Quote colName
          +:+ " TYPE " +:+ Executor.extractColumnType oldColDef])
      else ([], [])
  end.

Definition over {V} (m : gmap string V) (f : string -> V -> Executor.Statements)
    (order : list string) : Executor.Statements :=
  (flat_map (fun k => match m !! k with Some v => (f k v).1 | None => [] end) order,
   flat_map (fun k => match m !! k with Some v => (f k v).2 | None => [] end) order).

Definition columnChanges (co : Executor.ColumnOrders) (tableName : string)
    (oldColumns newColumns : gmap string string) : Executor.Statements :=
  let a := over oldColumns (droppedColumnStatements tableName newColumns)
                (Executor.droppedColumnsOrder co) in
  let b := over newColumns (newColumnStatements tableName oldColumns)
                (Executor.newColumnsOrder co) in
  let c := over newColumns (modifiedColumnStatements tableName oldColumns)
                (Executor.modifiedColumnsOrder co) in
  (a.1 ++ b.1 ++ c.1, a.2 ++ b.2 ++ c.2).

Lemma range_map_over {V} (m : gmap string V) (order : list string)
    (body : string -> V -> Executor.Statements -> Executor.Statements)
    (f : string -> V -> Executor.Statements) (acc : Executor.Statements) :
  (forall k v up down, m !! k = Some v ->
     body k v (up, down) = (up ++ (f k v).1, down ++ (f k v).2)) ->
  Executor.range_map m order body acc =
  (acc.1 ++ (over m f order).1, acc.2 ++ (over m f order).2).
Proof. apply range_map_appends. Qed.

Lemma compareTableDefinitions_parsed (co : Executor.ColumnOrders)
    (tableName oldDef newDef : string) (oldColumns newColumns : gmap string string) :
  Executor.parseColumns oldDef = Ok oldColumns ->
  Executor.parseColumns newDef = Ok newColumns ->
  Executor.compareTableDefinitions co tableName oldDef newDef =
  Ok (columnChanges co tableName oldColumns newColumns).
Proof.
  intros Ho Hn. unfold Executor.compareTableDefinitions. rewrite Ho, Hn, !bind_Ok.
  rewrite (range_map_over oldColumns _ (Executor.droppedColumn tableName newColumns)
             (droppedColumnStatements tableName newColumns)).
  2:{ intros k v up down _. unfold Executor.droppedColumn, droppedColumnStatements.
      destruct (newColumns !! k); cbn [fst snd]; rewrite ?app_nil_r; reflexivity. }
  rewrite (range_map_over newColumns _ (Executor.newColumn tableName oldColumns)
             (newColumnStatements tableName oldColumns)).
  2:{ intros k v up down _. unfold Executor.newColumn, newColumnStatements.
      destruct (oldColumns !! k); cbv zeta; cbn [fst snd]; rewrite ?app_nil_r; reflexivity. }
  rewrite (range_map_over newColumns _ (Executor.modifiedColumn tableName oldColumns)
             (modifiedColumnStatements tableName oldColumns)).
  2:{ intros k v up down _. unfold Executor.modifiedColumn, modifiedColumnStatements.
      destruct (oldColumns !! k); cbn [fst snd]; [| now rewrite ?app_nil_r].
      destruct (negb _); cbv zeta; cbn [fst snd]; rewrite ?app_nil_r; reflexivity. }
  unfold columnChanges. cbn [fst snd app]. now rewrite !app_assoc.
Qed.

Lemma over_perm {V} (m : gmap string V) (f : string -> V -> Executor.Statements)
    (order order' : list string) :
  order ≡ₚ order' ->
  (over m f order).1 ≡ₚ (over m f order').1 /\ (over m f order).2 ≡ₚ (over m f order').2.
Proof. intros Hp. split; cbn; now apply Permutation_flat_map. Qed.

Lemma columnChanges_perm (co co' : Executor.ColumnOrders) (tableName : string)
    (oldColumns newColumns : gmap string string) :
  Executor.droppedColumnsOrder co ≡ₚ Executor.droppedColumnsOrder co' ->
  Executor.newColumnsOrder co ≡ₚ Executor.newColumnsOrder co' ->
  Executor.modifiedColumnsOrder co ≡ₚ Executor.modifiedColumnsOrder co' ->
  (columnChanges co tableName oldColumns newColumns).1
    ≡ₚ (columnChanges co' tableName oldColumns newColumns).1
  /\ (columnChanges co tableName oldColumns newColumns).2
    ≡ₚ (columnChanges co' tableName oldColumns newColumns).2.
Proof.
  intros H1 H2 H3. unfold columnChanges. cbn [fst snd].
  destruct (over_perm oldColumns (droppedColumnStatements tableName newColumns) _ _ H1).
  destruct (over_perm newColumns (newColumnStatements tableName oldColumns) _ _ H2).
  destruct (over_perm newColumns (modifiedColumnStatements tableName oldColumns) _ _ H3).
  split; repeat apply Permutation_app; assumption.
Qed.

End OrderFacts.

(** [parseColumns] on a definition: whether it returns, and the columns. *)
Definition parses (def : string) : bool := is_ok (Executor.parseColumns def).

Definition columnsOf (def : string) : gmap string string :=
  match Executor.parseColumns def with
  | Ok columns => columns
  | _ => ∅
  end.

(** What the third loop of [generateSchemaDiff] adds for one table name. *)
Definition tableChanges (orders : string -> Executor.ColumnOrders)
    (oldTables newTables : gmap string string) (name : string) : Executor.Statements :=
  match newTables !! name, oldTables !! name with
  | Some newDef, Some oldDef =>
      let s := columnChanges (orders name) name (columnsOf oldDef) (columnsOf newDef) in
      if 0 <? Z.of_nat (length s.1) then s else ([], [])
  | _, _ => ([], [])
  end.

(** The table is in both schemas and one of its definitions makes
    [parseColumns] panic. *)
Definition tablePanics (oldTables newTables : gmap string string) (name : string) : bool :=
  match newTables !! name, oldTables !! name with
  | Some newDef, Some oldDef => negb (parses oldDef && parses newDef)
  | _, _ => false
  end.

Section TableFacts.

Lemma checked_slice_not_err (s : string) (lo hi : Z) (msg : string) :
  Executor.checked_slice s lo hi <> Err msg.
Proof. unfold Executor.checked_slice. now destruct (slice s lo hi). Qed.

Lemma decimalRest_not_err (rest msg : string) : Executor.decimalRest rest <> Err msg.
Proof.
  unfold Executor.decimalRest.
  destruct (_ && _); [| discriminate].
  destruct (Executor.checked_slice _ _ _) as [p| |] eqn:E; cbn; try discriminate.
  - destruct (Split p ",") as [|p0 [|p1 [|p2 l]]]; discriminate.
  - now apply checked_slice_not_err in E.
Qed.

Lemma parseColumnDef_not_err (columns : gmap string string) (colDef msg : string) :
  Executor.parseColumnDef columns colDef <> Err msg.
Proof.
  unfold Executor.parseColumnDef. cbv zeta.
  destruct (_ || _); [discriminate |].
  destruct (Contains _ _); [| discriminate].
  destruct (SplitN2 _ _) as [|name [|rest [|x l]]]; try discriminate.
  destruct (Executor.decimalRest rest) as [r| |] eqn:E; cbn; try discriminate.
  now apply decimalRest_not_err in E.
Qed.

Lemma parseColumnDefs_not_err (columnDefs : list string) (columns : gmap string string)
    (msg : string) :
  Executor.parseColumnDefs columnDefs columns <> Err msg.
Proof.
  revert columns. induction columnDefs as [|colDef rest IH]; intros columns; cbn.
  - discriminate.
  - destruct (Executor.parseColumnDef columns colDef) as [c| |] eqn:E; cbn.
    + apply IH.
    + now apply parseColumnDef_not_err in E.
    + discriminate.
Qed.

Lemma parseColumns_not_err (def msg : string) : Executor.parseColumns def <> Err msg.
Proof.
  unfold Executor.parseColumns. cbv zeta.
  destruct (_ || _); [discriminate |].
  destruct (Executor.checked_slice _ _ _) as [body| |] eqn:E; cbn.
  - apply parseColumnDefs_not_err.
  - now apply checked_slice_not_err in E.
  - discriminate.
Qed.

Lemma parses_columnsOf (def : string) :
  parses def = true -> Executor.parseColumns def = Ok (columnsOf def).
Proof.
  unfold parses, columnsOf. now destruct (Executor.parseColumns def).
Qed.

Lemma parses_false (def : string) :
  parses def = false -> Executor.parseColumns def = Panic.
Proof.
  unfold parses. destruct (Executor.parseColumns def) as [c|msg|] eqn:E; try easy.
  now apply parseColumns_not_err in E.
Qed.

Lemma compareTableDefinitions_panics (co : Executor.ColumnOrders)
    (tableName oldDef newDef : string) :
  parses oldDef && parses newDef = false ->
  Executor.compareTableDefinitions co tableName oldDef newDef = Panic.
Proof.
  intros H. unfold Executor.compareTableDefinitions.
  destruct (parses oldDef) eqn:Ho.
  - cbn in H. rewrite (parses_columnsOf _ Ho), bind_Ok, (parses_false _ H). reflexivity.
  - now rewrite (parses_false _ Ho).
Qed.

(** One round of the third loop. *)
Lemma modifiedTable_step (orders : string -> Executor.ColumnOrders)
    (oldTables newTables : gmap string string) (name newDef : string)
    (acc : Executor.Statements) :
  newTables !! name = Some newDef ->
  Executor.modifiedTable orders oldTables name newDef (Ok acc) =
  if tablePanics oldTables newTables name then Panic
  else Ok (acc.1 ++ (tableChanges orders oldTables newTables name).1,
           acc.2 ++ (tableChanges orders oldTables newTables name).2).
Proof.
  intros Hn. destruct acc as [up down].
  unfold Executor.modifiedTable, tablePanics, tableChanges. rewrite bind_Ok, Hn.
  destruct (oldTables !! name) as [oldDef|]; [| cbn; now rewrite !app_nil_r].
  destruct (parses oldDef && parses newDef) eqn:Hp; cbn [negb].
  - apply andb_true_iff in Hp as [Ho Hn'].
    rewrite (compareTableDefinitions_parsed _ _ _ _ _ _
               (parses_columnsOf _ Ho) (parses_columnsOf _ Hn')), bind_Ok.
    destruct (columnChanges _ _ _ _) as [ups downs]. cbn [fst snd].
    destruct (0 <? Z.of_nat (length ups)); cbn [fst snd]; now rewrite ?app_nil_r.
  - now rewrite compareTableDefinitions_panics.
Qed.

Lemma modifiedTable_after_panic (orders : string -> Executor.ColumnOrders)
    (oldTables : gmap string string) (m : gmap string string) (order : list string) :
  Executor.range_map m order (Executor.modifiedTable orders oldTables) Panic = Panic.
Proof. apply range_map_unchanged. reflexivity. Qed.

(** The third loop: it panics when it meets a table that does, and
    otherwise adds the changes of every table it visits. *)
Lemma modifiedTables_loop (orders : string -> Executor.ColumnOrders)
    (oldTables newTables : gmap string string) (order : list string)
    (acc : Executor.Statements) :
  Executor.range_map newTables order (Executor.modifiedTable orders oldTables) (Ok acc) =
  if existsb (tablePanics oldTables newTables) order then Panic
  else Ok (acc.1 ++ flat_map (fun k => (tableChanges orders oldTables newTables k).1) order,
           acc.2 ++ flat_map (fun k => (tableChanges orders oldTables newTables k).2) order).
Proof.
  revert acc. induction order as [|k order IH]; intros acc.
  - cbn. now rewrite !app_nil_r; destruct acc.
  - rewrite range_map_cons. cbn [existsb flat_map].
    destruct (newTables !! k) as [newDef|] eqn:Hn.
    + rewrite (modifiedTable_step _ _ newTables _ _ _ Hn).
      destruct (tablePanics oldTables newTables k); cbn [orb].
      * apply modifiedTable_after_panic.
      * rewrite IH. destruct (existsb _ order); [reflexivity |].
        cbn [fst snd]. now rewrite !app_assoc.
    + rewrite IH.
      assert (Hp : tablePanics oldTables newTables k = false)
        by (unfold tablePanics; now rewrite Hn).
      assert (Hc : tableChanges orders oldTables newTables k = ([], []))
        by (unfold tableChanges; now rewrite Hn).
      rewrite Hp, Hc. reflexivity.
Qed.

End TableFacts.

Definition droppedTableStatements (newTables : gmap string string)
    (tableName oldTable : string) : Executor.Statements :=
  match newTables !! tableName with
  | None => (["DROP TABLE IF EXISTS " +:+ Quote tableName +:+ " CASCADE"], [oldTable])
  | Some _ => ([], [])
  end.

Definition newTableStatements (oldTables : gmap string string)
    (tableName newTable : string) : Executor.Statements :=
  match oldTables !! tableName with
  | None => ([newTable], ["DROP TABLE IF EXISTS " +:+ Quote tableName +:+ " CASCADE"])
  | Some _ => ([], [])
  end.

Section DiffOrder.

(** [diffStatements] in closed form: the statements of the three loops
    one after the other, or a panic of the third loop. *)
Lemma diffStatements_closed_form (orders : Executor.RangeOrders)
    (oldSchema newSchema : string) :
  let oldTables := Executor.parseTables oldSchema in
  let newTables := Executor.parseTables newSchema in
  let a := over oldTables (droppedTableStatements newTables)
                (Executor.droppedTablesOrder orders) in
  let b := over newTables (newTableStatements oldTables)
                (Executor.newTablesOrder orders) in
  let c := fun k => tableChanges (Executor.columnOrders orders) oldTables newTables k in
  Executor.diffStatements orders oldSchema newSchema =
  if existsb (tablePanics oldTables newTables) (Executor.modifiedTablesOrder orders)
  then Panic
  else Ok (a.1 ++ b.1 ++ flat_map (fun k => (c k).1) (Executor.modifiedTablesOrder orders),
           a.2 ++ b.2 ++ flat_map (fun k => (c k).2) (Executor.modifiedTablesOrder orders)).
Proof.
  cbv zeta. unfold Executor.diffStatements.
  set (oldTables := Executor.parseTables oldSchema).
  set (newTables := Executor.parseTables newSchema).
  rewrite (range_map_over oldTables _ (Executor.droppedTable oldTables newTables)
             (droppedTableStatements newTables)).
  2:{ intros k v up down _. unfold Executor.droppedTable, droppedTableStatements.
      destruct (newTables !! k); cbn [fst snd]; rewrite ?app_nil_r; reflexivity. }
  rewrite (range_map_over newTables _ (Executor.newTable oldTables)
             (newTableStatements oldTables)).
  2:{ intros k v up down _. unfold Executor.newTable, newTableStatements.
      destruct (oldTables !! k); cbn [fst snd]; rewrite ?app_nil_r; reflexivity. }
  rewrite modifiedTables_loop. cbn [fst snd app].
  destruct (existsb _ _); [reflexivity |]. now rewrite !app_assoc.
Qed.

Lemma existsb_perm {A} (f : A -> bool) (l l' : list A) :
  l ≡ₚ l' -> existsb f l = existsb f l'.
Proof.
  intros Hp. induction Hp; cbn; try congruence.
  - now destruct (f x), (f y).
Qed.

Lemma tableChanges_perm (orders1 orders2 : string -> Executor.ColumnOrders)
    (oldTables newTables : gmap string string) (name : string) :
  tablePanics oldTables newTables name = false ->
  (forall oldDef newDef,
     oldTables !! name = Some oldDef -> newTables !! name = Some newDef ->
     columnsVisited (orders1 name) oldDef newDef
     /\ columnsVisited (orders2 name) oldDef newDef) ->
  (tableChanges orders1 oldTables newTables name).1
    ≡ₚ (tableChanges orders2 oldTables newTables name).1
  /\ (tableChanges orders1 oldTables newTables name).2
    ≡ₚ (tableChanges orders2 oldTables newTables name).2.
Proof.
  unfold tablePanics, tableChanges. intros Hp Hv.
  destruct (newTables !! name) as [newDef|]; [| now split].
  destruct (oldTables !! name) as [oldDef|]; [| now split].
  apply negb_false_iff, andb_true_iff in Hp as [Ho Hn].
  destruct (Hv oldDef newDef eq_refl eq_refl) as [H1 H2].
  destruct (H1 _ _ (parses_columnsOf _ Ho) (parses_columnsOf _ Hn)) as (A1 & B1 & C1).
  destruct (H2 _ _ (parses_columnsOf _ Ho) (parses_columnsOf _ Hn)) as (A2 & B2 & C2).
  destruct (columnChanges_perm (orders1 name) (orders2 name) name
              (columnsOf oldDef) (columnsOf newDef)
              (visits_perm _ _ _ A1 A2) (visits_perm _ _ _ B1 B2) (visits_perm _ _ _ C1 C2))
    as [Pu Pd].
  cbv zeta.
  rewrite (Permutation_length Pu).
  destruct (0 <? Z.of_nat (length _)); now split.
Qed.

(** The amended C2, on the statement lists. *)
Lemma diffStatements_up_to_order (orders1 orders2 : Executor.RangeOrders)
    (oldSchema newSchema : string) :
  validOrders orders1 oldSchema newSchema ->
  validOrders orders2 oldSchema newSchema ->
  sameUpToOrder (Executor.diffStatements orders1 oldSchema newSchema)
                (Executor.diffStatements orders2 oldSchema newSchema).
Proof.
  intros (A1 & B1 & C1 & D1) (A2 & B2 & C2 & D2).
  rewrite !diffStatements_closed_form.
  set (oldTables := Executor.parseTables oldSchema) in *.
  set (newTables := Executor.parseTables newSchema) in *.
  pose proof (visits_perm _ _ _ A1 A2) as PA.
  pose proof (visits_perm _ _ _ B1 B2) as PB.
  pose proof (visits_perm _ _ _ C1 C2) as PC.
  rewrite <- (existsb_perm _ _ _ PC).
  destruct (existsb _ _) eqn:Hex; [exact I |].
  assert (Hno : forall k, k ∈ Executor.modifiedTablesOrder orders1 ->
                          tablePanics oldTables newTables k = false).
  { intros k Hk. destruct (tablePanics oldTables newTables k) eqn:E; [| reflexivity].
    assert (existsb (tablePanics oldTables newTables)
              (Executor.modifiedTablesOrder orders1) = true) as Hc; [| congruence].
    apply existsb_exists. exists k. split; [now apply list_elem_of_In | exact E]. }
  unfold sameUpToOrder.
  destruct (over_perm oldTables (droppedTableStatements newTables) _ _ PA) as [Pa1 Pa2].
  destruct (over_perm newTables (newTableStatements oldTables) _ _ PB) as [Pb1 Pb2].
  split; repeat apply Permutation_app; try assumption.
  - apply flat_map_perm_ext; [exact PC |].
    intros k Hk. apply tableChanges_perm; [now apply Hno |].
    intros oldDef newDef Ho Hn. split; [now apply D1 | now apply D2].
  - apply flat_map_perm_ext; [exact PC |].
    intros k Hk. apply tableChanges_perm; [now apply Hno |].
    intros oldDef newDef Ho Hn. split; [now apply D1 | now apply D2].
Qed.

End DiffOrder.

(* ===================================================================== *)
(** * Example texts *)
(* ===================================================================== *)

(** Two tables and an index as the schema program prints them: columns,
    a primary key, a [decimal] column and a foreign key. *)
Definition usersTable : string :=
  "CREATE TABLE " +:+ Quote "users" +:+ " (" +:+ Quote "id" +:+ " bigserial, "
  +:+ Quote "name" +:+ " text, PRIMARY KEY (" +:+ Quote "id" +:+ "))".

Definition postsTable : string :=
  "CREATE TABLE " +:+ Quote "posts" +:+ " (" +:+ Quote "id" +:+ " bigint, "
  +:+ Quote "user_id" +:+ " bigint, " +:+ Quote "score" +:+ " decimal(10,2), CONSTRAINT "
  +:+ Quote "fk_posts_user" +:+ " FOREIGN KEY (" +:+ Quote "user_id" +:+ ") REFERENCES "
  +:+ Quote "users" +:+ " (" +:+ Quote "id" +:+ "))".

Definition postsIndex : string :=
  "CREATE INDEX " +:+ Quote "idx_posts_user" +:+ " ON " +:+ Quote "posts"
  +:+ " (" +:+ Quote "user_id" +:+ ")".

Definition blogOutput : string :=
  usersTable +:+ ";" +:+ nl +:+ postsTable +:+ ";" +:+ nl +:+ postsIndex +:+ ";" +:+ nl.

(** The text that [Execute] saves for it and compares on the next run. *)
Definition blogSchema : string :=
  Executor.formatSQL (Executor.cleanOutput (TrimSpace blogOutput)).

Definition twoTables : string := "CREATE TABLE a (x int);CREATE TABLE b (y int);".

Definition noColumnOrders : string -> Executor.ColumnOrders :=
  fun _ => Executor.mkColumnOrders [] [] [].

Definition ordersAB : Executor.RangeOrders :=
  Executor.mkRangeOrders [] ["a"; "b"] ["a"; "b"] noColumnOrders.

Definition ordersBA : Executor.RangeOrders :=
  Executor.mkRangeOrders [] ["b"; "a"] ["b"; "a"] noColumnOrders.



Section DiffClaims.

Lemma generateSchemaDiff_statements (orders : Executor.RangeOrders)
    (oldSchema newSchema : string) (up down : list string) :
  Executor.diffStatements orders oldSchema newSchema = Ok (up, down) ->
  Executor.generateSchemaDiff orders oldSchema newSchema =
  if (length up =? 0)%nat then Ok (EmptyString, EmptyString)
  else Ok (Join up (";" +:+ nl) +:+ ";", Join down (";" +:+ nl) +:+ ";").
Proof. intros H. unfold Executor.generateSchemaDiff. now rewrite H. Qed.

(** For a schema text of ASCII bytes none of whose table definitions makes
    [parseColumns] panic, the diff of the text with itself is the pair of
    empty texts, whatever the order of the loops; [Execute] then returns
    the empty migration and saves nothing, and [generateDiff] writes no
    migration file. *)
Lemma diff_of_a_schema_with_itself (orders : Executor.RangeOrders) (schema : string) :
  plain schema = true ->
  map_Forall (fun _ def => parses def = true) (Executor.parseTables schema) ->
  Executor.generateSchemaDiff orders schema schema = Ok (EmptyString, EmptyString)
  /\ forall output,
       Executor.formatSQL (Executor.cleanOutput (TrimSpace output)) = schema ->
       Executor.Execute orders output (Some schema)
         = Ok (Executor.mkExecuted EmptyString None)
       /\ Executor.generateDiff orders output (Some schema) = Ok None.
Proof.
  intros _ Hparse.
  assert (Hdiff : Executor.generateSchemaDiff orders schema schema
                  = Ok (EmptyString, EmptyString)).
  { rewrite (generateSchemaDiff_statements _ _ _ [] []); [reflexivity |].
    apply diffStatements_same. intros name def Hdef. exact (Hparse name def Hdef). }
  split; [exact Hdiff |].
  intros output Hout.
  assert (Hex : Executor.Execute orders output (Some schema)
                = Ok (Executor.mkExecuted EmptyString None)).
  { unfold Executor.Execute.
    destruct (is_empty (TrimSpace output)); [reflexivity |].
    rewrite Hout, Hdiff. reflexivity. }
  split; [exact Hex |].
  unfold Executor.generateDiff. rewrite Hex. reflexivity.
Qed.




Lemma blogSchema_parses :
  map_Forall (fun _ def => parses def = true) (Executor.parseTables blogSchema).
Proof.
  apply map_Forall_to_list.
  assert (E : map_to_list (Executor.parseTables blogSchema)
              = map_to_list (Executor.parseTables blogSchema)) by reflexivity.
  revert E. generalize (map_to_list (Executor.parseTables blogSchema)) at 1 3.
  intros l E. vm_compute in E. subst l.
  repeat constructor.
Defined.

Lemma diff_of_a_schema_with_itself_witness :
  length (keys (Executor.parseTables blogSchema)) = 2%nat
  /\ Executor.generateSchemaDiff (canonicalOrders blogSchema blogSchema)
       blogSchema blogSchema = Ok (EmptyString, EmptyString)
  /\ Executor.generateDiff (canonicalOrders blogSchema blogSchema)
       blogOutput (Some blogSchema) = Ok None.
Proof.
  split; [vm_compute; reflexivity |].
  destruct (diff_of_a_schema_with_itself (canonicalOrders blogSchema blogSchema)
              blogSchema eq_refl blogSchema_parses) as [Hdiff Hrun].
  split; [exact Hdiff |].
  exact (proj2 (Hrun blogOutput eq_refl)).
Defined.

End DiffClaims.

(** Both results are the empty pair ("no changes"), or both are not. *)
Definition sameEmptiness (r1 r2 : Result (string * string)) : Prop :=
  match r1, r2 with
  | Ok (up1, _), Ok (up2, _) => is_empty up1 = is_empty up2
  | Panic, Panic => True
  | _, _ => False
  end.

Section OrderClaims.

Lemma visits_two (m : gmap string string) (a b : string) :
  keys m = [a; b] \/ keys m = [b; a] -> Executor.visits m [a; b].
Proof.
  unfold Executor.visits, keys. intros [-> | ->]; [reflexivity | apply perm_swap].
Qed.

Lemma twoTables_keys : keys (Executor.parseTables twoTables) = ["a"; "b"]
                       \/ keys (Executor.parseTables twoTables) = ["b"; "a"].
Proof. vm_compute. auto. Qed.

Lemma visits_none : Executor.visits (Executor.parseTables EmptyString) [].
Proof. unfold Executor.visits. vm_compute. constructor. Qed.

Lemma ordersAB_valid : validOrders ordersAB EmptyString twoTables.
Proof.
  split; [exact visits_none |]. split; [| split].
  - apply visits_two, twoTables_keys.
  - apply visits_two, twoTables_keys.
  - intros name oldDef newDef H. exfalso. revert H. apply lookup_empty_Some.
Qed.

Lemma ordersBA_valid : validOrders ordersBA EmptyString twoTables.
Proof.
  split; [exact visits_none |]. split; [| split].
  - apply visits_two. destruct twoTables_keys; auto.
  - apply visits_two. destruct twoTables_keys; auto.
  - intros name oldDef newDef H. exfalso. revert H. apply lookup_empty_Some.
Qed.

(** C2, as stated, fails: for an empty old schema and a new schema with
    the tables [a] and [b], a run that visits [a] first and a run that
    visits [b] first are both runs of [generateSchemaDiff], and their
    [up] texts differ. *)
Lemma diff_depends_on_map_order :
  validOrders ordersAB EmptyString twoTables
  /\ validOrders ordersBA EmptyString twoTables
  /\ Executor.generateSchemaDiff ordersAB EmptyString twoTables =
     Ok ("CREATE TABLE a (x int);" +:+ nl +:+ "CREATE TABLE b (y int);",
         "DROP TABLE IF EXISTS " +:+ Quote "a" +:+ " CASCADE;" +:+ nl
         +:+ "DROP TABLE IF EXISTS " +:+ Quote "b" +:+ " CASCADE;")
  /\ Executor.generateSchemaDiff ordersBA EmptyString twoTables =
     Ok ("CREATE TABLE b (y int);" +:+ nl +:+ "CREATE TABLE a (x int);",
         "DROP TABLE IF EXISTS " +:+ Quote "b" +:+ " CASCADE;" +:+ nl
         +:+ "DROP TABLE IF EXISTS " +:+ Quote "a" +:+ " CASCADE;")
  /\ Executor.generateSchemaDiff ordersAB EmptyString twoTables
     <> Executor.generateSchemaDiff ordersBA EmptyString twoTables.
Proof.
  split; [exact ordersAB_valid |]. split; [exact ordersBA_valid |].
  split; [vm_compute; reflexivity |]. split; [vm_compute; reflexivity |].
  vm_compute. discriminate.
Qed.

(** C2, amended. Two runs of [generateSchemaDiff] on the same pair of
    texts, each with its own order of the maps, both panic or both return:
    then their [up] lists hold the same statements, each as often, and so
    do their [down] lists, only the order can differ; and both report "no
    changes" or neither does. *)
Theorem diff_determined_up_to_order (orders1 orders2 : Executor.RangeOrders)
    (oldSchema newSchema : string) :
  validOrders orders1 oldSchema newSchema ->
  validOrders orders2 oldSchema newSchema ->
  sameUpToOrder (Executor.diffStatements orders1 oldSchema newSchema)
                (Executor.diffStatements orders2 oldSchema newSchema)
  /\ sameEmptiness (Executor.generateSchemaDiff orders1 oldSchema newSchema)
                   (Executor.generateSchemaDiff orders2 oldSchema newSchema).
Proof.
  intros H1 H2.
  pose proof (diffStatements_up_to_order _ _ _ _ H1 H2) as Hs.
  split; [exact Hs |].
  unfold sameUpToOrder in Hs. unfold sameEmptiness, Executor.generateSchemaDiff.
  destruct (Executor.diffStatements orders1 oldSchema newSchema) as [[up1 down1]| |];
    destruct (Executor.diffStatements orders2 oldSchema newSchema) as [[up2 down2]| |];
    try contradiction; try exact I.
  destruct Hs as [Pu _]. rewrite !bind_Ok. cbv beta iota.
  rewrite <- (Permutation_length Pu).
  destruct up1 as [|x up1]; cbn [length Nat.eqb]; [reflexivity |].
  cbv beta iota.
  destruct (Join (x :: up1) (";" +:+ nl)) eqn:E1, (Join up2 (";" +:+ nl)) eqn:E2;
    reflexivity.
Qed.

Lemma diff_determined_up_to_order_witness :
  sameUpToOrder (Executor.diffStatements ordersAB EmptyString twoTables)
                (Executor.diffStatements ordersBA EmptyString twoTables).
Proof.
  exact (proj1 (diff_determined_up_to_order ordersAB ordersBA EmptyString twoTables
                  ordersAB_valid ordersBA_valid)).
Defined.

End OrderClaims.

(** The old schema of [CompareSchema] is nil or has no table. *)
Definition emptySchema (old : option Codec.Schema) : Prop :=
  match old with
  | None => True
  | Some o => Codec.Tables o = []
  end.

Section AdditiveDiff.

(** C4, as stated, fails on [CompareSchema]: with a nil old schema its
    short cut returns [ToSQL], whose down part drops the table without
    CASCADE, so that the output has no [CASCADE] at all. *)
Lemma CompareSchema_drops_without_cascade :
  length (Codec.Tables accountsModel) = 1%nat
  /\ Codec.CompareSchema accountsModel None = Codec.ToSQL accountsModel
  /\ Contains (Codec.CompareSchema accountsModel None)
       ("DROP TABLE IF EXISTS " +:+ Codec.bq "accounts" +:+ ";") = true
  /\ Contains (Codec.CompareSchema accountsModel None) "CASCADE" = false.
Proof. repeat split; vm_compute; reflexivity. Qed.

(** C4, amended. With a nil or table-less old schema [CompareSchema]
    short-cuts to [ToSQL]: one [CREATE TABLE] statement per table in
    schema order (the header with the table's name between backticks, the
    lines of its columns, its key and constraint clauses, the footer),
    then one [DROP TABLE IF EXISTS], without CASCADE, per table in reverse
    order.  With an old text that has no table [generateSchemaDiff], on
    ASCII texts, adds statements in its second loop only: per table name
    of the new text, in the order of that loop, the table's
    [CREATE TABLE] statement to [up] and its
    [DROP TABLE IF EXISTS ... CASCADE] to [down]. *)
Theorem additive_diff_from_empty_schema :
  (forall (s : Codec.Schema) (old : option Codec.Schema),
     emptySchema old ->
     Codec.CompareSchema s old =
       "-- migrate:up" +:+ nl +:+ nl
       +:+ Join (map Codec.createTableSQL (Codec.Tables s)) (nl +:+ nl)
       +:+ nl +:+ nl +:+ "-- migrate:down" +:+ nl +:+ nl
       +:+ Join (map (fun t => "DROP TABLE IF EXISTS " +:+ Codec.bq (Codec.TblName t) +:+ ";")
                     (rev (Codec.Tables s))) nl)
  /\ (forall table, exists constraints,
        Codec.createTableSQL table
        = "CREATE TABLE " +:+ Codec.bq (Codec.TblName table) +:+ " (" +:+ nl
          +:+ Join (map Codec.columnLine (Codec.Columns table)) ("," +:+ nl)
          +:+ constraints +:+ nl
          +:+ ") ENGINE=InnoDB DEFAULT CHARSET=utf8mb4 COLLATE=utf8mb4_unicode_ci;")
  /\ (forall column,
        HasPrefix (Codec.columnLine column)
          ("  " +:+ Codec.bq (Codec.ColName column) +:+ " ") = true)
  /\ (forall (orders : Executor.RangeOrders) (oldSchema newSchema : string),
        plain oldSchema = true ->
        plain newSchema = true ->
        Executor.parseTables oldSchema = ∅ ->
        Executor.visits (Executor.parseTables newSchema) (Executor.newTablesOrder orders) ->
        let names := Executor.newTablesOrder orders in
        let creates := createStatements (Executor.parseTables newSchema) names in
        Executor.diffStatements orders oldSchema newSchema = Ok (creates, dropStatements names)
        /\ Executor.generateSchemaDiff orders oldSchema newSchema =
           (if (length names =? 0)%nat then Ok (EmptyString, EmptyString)
            else Ok (Join creates (";" +:+ nl) +:+ ";",
                     Join (dropStatements names) (";" +:+ nl) +:+ ";"))
        /\ NoDup names
        /\ (forall name, name ∈ names <-> is_Some (Executor.parseTables newSchema !! name))
        /\ Forall (fun stmt => HasPrefix stmt "CREATE TABLE" = true) creates).
Proof.
  split; [| split; [| split]].
  - intros s old Hold.
    assert (E : Codec.CompareSchema s old = Codec.ToSQL s).
    { unfold Codec.CompareSchema. destruct old as [o|]; [| reflexivity].
      simpl in Hold. now rewrite Hold. }
    rewrite E. apply ToSQL_joined.
  - apply createTableSQL_statement.
  - apply columnLine_starts.
  - intros orders oldSchema newSchema _ _ Hold Hv names creates.
    pose proof (diffStatements_from_empty orders oldSchema newSchema Hold Hv) as Hd.
    split; [exact Hd |]. split; [| split; [| split]].
    + rewrite (generateSchemaDiff_statements _ _ _ _ _ Hd).
      unfold creates, createStatements. now rewrite length_map.
    + exact (visits_NoDup _ _ Hv).
    + intros name. exact (visits_elem _ _ name Hv).
    + unfold creates, createStatements. apply Forall_forall. intros stmt Hin.
      apply list_elem_of_In, in_map_iff in Hin as [name [<- Hname]].
      apply list_elem_of_In, (visits_elem _ _ name Hv) in Hname as [def Hdef].
      rewrite Hdef. cbn. now apply parseTables_entry in Hdef.
Qed.

Lemma additive_diff_from_empty_schema_witness :
  Contains (Codec.CompareSchema accountsModel None) "CASCADE" = false
  /\ HasPrefix (Codec.CompareSchema accountsModel None)
       ("-- migrate:up" +:+ nl +:+ nl +:+ "CREATE TABLE `accounts` (" +:+ nl
        +:+ "  `id` BIGINT NOT NULL AUTO_INCREMENT," +:+ nl) = true
  /\ Executor.diffStatements ordersAB EmptyString twoTables =
     Ok (["CREATE TABLE a (x int)"; "CREATE TABLE b (y int)"],
         ["DROP TABLE IF EXISTS " +:+ Quote "a" +:+ " CASCADE";
          "DROP TABLE IF EXISTS " +:+ Quote "b" +:+ " CASCADE"]).
Proof.
  destruct additive_diff_from_empty_schema as (Hcompare & _ & _ & Hdiff).
  split; [| split].
  - rewrite (Hcompare accountsModel None I). vm_compute. reflexivity.
  - rewrite (Hcompare accountsModel None I). vm_compute. reflexivity.
  - destruct (Hdiff ordersAB EmptyString twoTables eq_refl eq_refl eq_refl
                (visits_two _ _ _ twoTables_keys)) as [Hd _].
    rewrite Hd. vm_compute. reflexivity.
Defined.

End AdditiveDiff.

(* ===================================================================== *)
(** * The checksum ledger *)
(* ===================================================================== *)

(** [names] lists, in increasing byte order and once each, the names for
    which [member] holds. *)
Definition sortedNames (member : string -> Prop) (names : list string) : Prop :=
  Sorted String.le names /\ NoDup names /\ forall name, name ∈ names <-> member name.

(** A regular file whose name ends in [.sql]. *)
Definition sqlFile (entries : gmap string Ledger.Node) (name : string) : Prop :=
  (exists content, entries !! name = Some (Ledger.File content))
  /\ HasSuffix name ".sql" = true.

(** The test of [calculateGlobalHash] on a directory entry. *)
Definition keptFile (entries : gmap string Ledger.Node) (name : string) : bool :=
  match entries !! name with
  | Some node => negb (Ledger.isDir node) && HasSuffix name ".sql"
  | None => false
  end.

Definition contentOf (entries : gmap string Ledger.Node) (name : string) : string :=
  match entries !! name with
  | Some (Ledger.File content) => content
  | _ => EmptyString
  end.

(** The contents of the named files one after the other. *)
Definition concatenation (entries : gmap string Ledger.Node) (names : list string) : string :=
  String.concat EmptyString (map (contentOf entries) names).

(** The lines of a manifest after its first: name, space, hash. *)
Definition checksumLines (checksums : gmap string string) (names : list string)
    : list string :=
  map (fun name => name +:+ " " +:+ default EmptyString (checksums !! name)) names.

Definition manifestText (globalHash : string) (lines : list string) : string :=
  globalHash +:+ nl +:+ String.concat EmptyString (map (fun line => line +:+ nl) lines).

Section LedgerFacts.

Lemma sortedNames_unique (member : string -> Prop) (l1 l2 : list string) :
  sortedNames member l1 -> sortedNames member l2 -> l1 = l2.
Proof.
  intros (S1 & N1 & M1) (S2 & N2 & M2).
  apply (Sorted_unique String.le); try assumption.
  apply NoDup_Permutation; try assumption.
  intros x. now rewrite M1, M2.
Qed.

Lemma sortStrings_sortedNames (member : string -> Prop) (l : list string) :
  NoDup l -> (forall name, name ∈ l <-> member name) ->
  sortedNames member (Ledger.sortStrings l).
Proof.
  intros Hn Hm. unfold Ledger.sortStrings. split; [| split].
  - apply Sorted_merge_sort. apply _.
  - now rewrite merge_sort_Permutation.
  - intros name. now rewrite merge_sort_Permutation.
Qed.

Lemma concat_nil_cons (x : string) (l : list string) :
  String.concat EmptyString (x :: l) = x +:+ String.concat EmptyString l.
Proof. destruct l; cbn; [now rewrite app_nil_r_s | reflexivity]. Qed.

(** [readAll] on files that can all be read. *)
Lemma readAll_files (entries : gmap string Ledger.Node) (names : list string)
    (allContent : string) :
  Forall (fun name => exists content, entries !! name = Some (Ledger.File content)) names ->
  Ledger.readAll (Some entries) names allContent =
  Ok (allContent +:+ concatenation entries names).
Proof.
  intros H. revert allContent. induction H as [|name names [content Hc] _ IH];
    intros allContent.
  - cbn. now rewrite app_nil_r_s.
  - cbn [Ledger.readAll Ledger.ReadFile]. rewrite Hc, IH.
    unfold concatenation. cbn [map]. rewrite concat_nil_cons.
    unfold contentOf at 2. rewrite Hc. now rewrite app_assoc_s.
Qed.

Lemma keys_NoDup {V} (m : gmap string V) : NoDup (map_to_list m).*1.
Proof. apply NoDup_fst_map_to_list. Qed.

Lemma keys_elem {V} (m : gmap string V) (k : string) :
  k ∈ (map_to_list m).*1 <-> is_Some (m !! k).
Proof. exact (visits_elem m _ k (visits_keys m)). Qed.

(** The names that [calculateGlobalHash] keeps of a directory listing. *)
Lemma ReadDir_filenames (entries : gmap string Ledger.Node) (l : list string) :
  omap (fun file : string * Ledger.Node =>
          if negb (Ledger.isDir file.2) && HasSuffix file.1 ".sql"
          then Some file.1 else None)
       (omap (fun name => (fun node => (name, node)) <$> entries !! name) l)
  = filter (fun name => keptFile entries name = true) l.
Proof.
  induction l as [|name l IH]; [reflexivity |].
  change (omap ?f (name :: l)) with
    (match f name with Some y => y :: omap f l | None => omap f l end).
  rewrite filter_cons.
  assert (K : keptFile entries name =
              match entries !! name with
              | Some node => negb (Ledger.isDir node) && HasSuffix name ".sql"
              | None => false
              end) by reflexivity.
  destruct (entries !! name) as [node|] eqn:E; cbn [fmap option_fmap option_map].
  - change (omap ?f ((name, node) :: ?t)) with
      (match f (name, node) with Some y => y :: omap f t | None => omap f t end).
    cbn [fst snd].
    destruct (negb (Ledger.isDir node) && HasSuffix name ".sql") eqn:B.
    + rewrite decide_True by exact K. now rewrite IH.
    + rewrite decide_False by (rewrite K; discriminate). exact IH.
  - rewrite decide_False by (rewrite K; discriminate). exact IH.
Qed.

Lemma keptFile_sqlFile (entries : gmap string Ledger.Node) (name : string) :
  (forall name, HasSuffix name ".sql" = true -> entries !! name <> Some Ledger.Unreadable) ->
  keptFile entries name = true <-> sqlFile entries name.
Proof.
  intros Hread. unfold keptFile, sqlFile. split.
  - destruct (entries !! name) as [[content| |]|] eqn:E; cbn; try discriminate.
    + intros H. split; [now exists content | exact H].
    + intros H. now destruct (Hread name H).
  - intros [[content ->] H]. exact H.
Qed.

(** The second conjunct of C6 on a directory that exists. *)
Lemma calculateGlobalHash_sorted (entries : gmap string Ledger.Node) :
  (forall name, HasSuffix name ".sql" = true -> entries !! name <> Some Ledger.Unreadable) ->
  exists names,
    sortedNames (sqlFile entries) names
    /\ Ledger.calculateGlobalHash (Some entries) =
       Ok (Ledger.calculateFileHash (concatenation entries names)).
Proof.
  intros Hread.
  set (kept := filter (fun name => keptFile entries name = true)
                 (Ledger.sortStrings (map_to_list entries).*1)).
  assert (Hkept : NoDup kept /\ forall name, name ∈ kept <-> sqlFile entries name).
  { split.
    - unfold kept. apply NoDup_filter. unfold Ledger.sortStrings.
      rewrite merge_sort_Permutation. apply keys_NoDup.
    - intros name. unfold kept. rewrite list_elem_of_filter.
      unfold Ledger.sortStrings. rewrite merge_sort_Permutation, keys_elem.
      rewrite (keptFile_sqlFile _ _ Hread). split; [tauto |].
      intros Hs. split; [exact Hs |]. destruct Hs as [[content Hc] _].
      now exists (Ledger.File content). }
  destruct Hkept as [Hnd Hmem].
  exists (Ledger.sortStrings kept). split.
  - now apply sortStrings_sortedNames.
  - unfold Ledger.calculateGlobalHash, Ledger.ReadDir.
    rewrite ReadDir_filenames. fold kept.
    rewrite readAll_files.
    + reflexivity.
    + apply Forall_forall. intros name Hin.
      unfold Ledger.sortStrings in Hin. rewrite merge_sort_Permutation in Hin.
      apply Hmem in Hin. exact (proj1 Hin).
Qed.

End LedgerFacts.

(** No file [*.sql] of the directory is unreadable. *)
Definition sqlFilesReadable (entries : gmap string Ledger.Node) : Prop :=
  map_Forall (fun name node => HasSuffix name ".sql" = true -> node <> Ledger.Unreadable)
             entries.

(** The name is free, or that of a regular file. *)
Definition writable (entries : gmap string Ledger.Node) (name : string) : Prop :=
  match entries !! name with
  | Some Ledger.Directory | Some Ledger.Unreadable => False
  | _ => True
  end.

(** A directory with two migrations, a text file and a sub-directory. *)
Definition exampleEntries : gmap string Ledger.Node :=
  <["20240102.sql" := Ledger.File "B"]>
    (<["20240101.sql" := Ledger.File "A"]>
       (<["notes.txt" := Ledger.File "zzz"]>
          (<["old.sql" := Ledger.Directory]> ∅))).

Definition exampleChecksums : gmap string string :=
  <["20240102.sql" := Ledger.calculateFileHash "B"]>
    (<["20240101.sql" := Ledger.calculateFileHash "A"]> ∅).

Section LedgerClaims.

Lemma manifestLines_text (checksums : gmap string string) (names : list string)
    (globalHash : string) :
  globalHash +:+ nl +:+ Ledger.manifestLines checksums names =
  manifestText globalHash (checksumLines checksums names).
Proof.
  unfold manifestText. do 2 f_equal.
  induction names as [|name names IH]; [reflexivity |].
  cbn [Ledger.manifestLines checksumLines map]. rewrite concat_nil_cons.
  unfold checksumLines in IH. rewrite <- IH. now rewrite !app_assoc_s.
Qed.

Lemma range_map_collects {V} (m : gmap string V) (order acc : list string) :
  Forall (fun k => is_Some (m !! k)) order ->
  Executor.range_map m order (fun filename _ filenames => filenames ++ [filename]) acc
  = acc ++ order.
Proof.
  intros H. revert acc. induction H as [|k order [v Hk] _ IH]; intros acc.
  - now rewrite app_nil_r.
  - rewrite range_map_cons, Hk, IH. now rewrite <- app_assoc.
Qed.

Lemma writeChecksumFile_sorted (order : list string) (checksums : gmap string string)
    (globalHash : string) (entries : gmap string Ledger.Node) :
  Executor.visits checksums order ->
  writable entries "datara.sum" ->
  exists names,
    sortedNames (fun name => is_Some (checksums !! name)) names
    /\ Ledger.writeChecksumFile order checksums globalHash (Some entries) =
       Ok (Some (<["datara.sum" :=
                   Ledger.File (manifestText globalHash (checksumLines checksums names))]>
                 entries)).
Proof.
  intros Hv Hw. exists (Ledger.sortStrings order). split.
  - apply sortStrings_sortedNames.
    + exact (visits_NoDup _ _ Hv).
    + intros name. exact (visits_elem _ _ name Hv).
  - unfold Ledger.writeChecksumFile.
    rewrite range_map_collects.
    2:{ apply Forall_forall. intros k Hk. now apply (visits_elem checksums order k Hv). }
    cbn [app]. rewrite manifestLines_text.
    unfold Ledger.WriteFile. unfold writable in Hw.
    destruct (entries !! "datara.sum") as [[c| |]|]; try contradiction; reflexivity.
Qed.

Lemma sqlFilesReadable_lookup (entries : gmap string Ledger.Node) :
  sqlFilesReadable entries ->
  forall name, HasSuffix name ".sql" = true -> entries !! name <> Some Ledger.Unreadable.
Proof. intros H name Hs Hl. exact (H name _ Hl Hs eq_refl). Qed.

(** C6. The file hash is [h1:] followed by the base64 text of the SHA-256
    digest; the global hash is the file hash of the contents, one after
    the other, of the regular files [*.sql] of the migrations directory in
    increasing order of their names (of nothing when there is no such
    directory); and the manifest that [writeChecksumFile] writes has the
    global hash on its first line and then one line, name and hash, per
    recorded file in increasing order of the names, whatever the order of
    the map. *)
Theorem checksum_ledger_contract :
  (forall content,
     Ledger.calculateFileHash content
     = "h1:" +:+ Digest.EncodeToString (Digest.Sum256 content))
  /\ Ledger.calculateGlobalHash None = Ok (Ledger.calculateFileHash EmptyString)
  /\ (forall entries,
        sqlFilesReadable entries ->
        exists names,
          sortedNames (sqlFile entries) names
          /\ Ledger.calculateGlobalHash (Some entries) =
             Ok (Ledger.calculateFileHash (concatenation entries names)))
  /\ (forall order checksums globalHash entries,
        Executor.visits checksums order ->
        writable entries "datara.sum" ->
        exists names,
          sortedNames (fun name => is_Some (checksums !! name)) names
          /\ Ledger.writeChecksumFile order checksums globalHash (Some entries) =
             Ok (Some (<["datara.sum" :=
                         Ledger.File (manifestText globalHash
                                        (checksumLines checksums names))]> entries))).
Proof.
  split; [reflexivity |]. split; [reflexivity |]. split.
  - intros entries Hr. apply calculateGlobalHash_sorted.
    now apply sqlFilesReadable_lookup.
  - intros order checksums globalHash entries. apply writeChecksumFile_sorted.
Qed.

Lemma exampleEntries_readable : sqlFilesReadable exampleEntries.
Proof.
  apply map_Forall_to_list.
  assert (E : map_to_list exampleEntries = map_to_list exampleEntries) by reflexivity.
  revert E. generalize (map_to_list exampleEntries) at 1 3.
  intros l E. vm_compute in E. subst l.
  repeat constructor; intros _; discriminate.
Qed.

Lemma exampleNames_sorted :
  sortedNames (sqlFile exampleEntries) ["20240101.sql"; "20240102.sql"].
Proof.
  split; [| split].
  - repeat constructor.
  - apply NoDup_cons. split; [| apply NoDup_singleton].
    intros H. apply list_elem_of_singleton in H. discriminate.
  - intros name. split.
    + intros H. apply list_elem_of_In in H. cbn in H.
      destruct H as [E | [E | []]]; subst name;
        (split; [eexists; reflexivity | reflexivity]).
    + intros [[content Hc] Hs]. unfold exampleEntries in Hc.
      repeat (apply lookup_insert_Some in Hc as [[<- Hc] | [_ Hc]];
              [try discriminate; set_solver |]).
      now rewrite lookup_empty in Hc.
Qed.

Lemma exampleChecksums_visited :
  Executor.visits exampleChecksums ["20240102.sql"; "20240101.sql"].
Proof.
  apply visits_two.
  assert (E : keys exampleChecksums = keys exampleChecksums) by reflexivity.
  revert E. generalize (keys exampleChecksums) at 1 3 4.
  intros l E. vm_compute in E. subst l. auto.
Qed.

Lemma checksum_ledger_contract_witness :
  Ledger.calculateGlobalHash (Some exampleEntries) = Ok (Ledger.calculateFileHash "AB")
  /\ exists names,
       sortedNames (fun name => is_Some (exampleChecksums !! name)) names
       /\ Ledger.writeChecksumFile ["20240102.sql"; "20240101.sql"] exampleChecksums
            (Ledger.calculateFileHash "AB") (Some exampleEntries) =
          Ok (Some (<["datara.sum" :=
                      Ledger.File (manifestText (Ledger.calculateFileHash "AB")
                                     (checksumLines exampleChecksums names))]>
                    exampleEntries)).
Proof.
  destruct checksum_ledger_contract as (_ & _ & Hglobal & Hwrite).
  split.
  - destruct (Hglobal exampleEntries exampleEntries_readable) as (names & Hnames & ->).
    rewrite (sortedNames_unique _ _ _ Hnames exampleNames_sorted). reflexivity.
  - apply Hwrite; [exact exampleChecksums_visited | exact I].
Defined.

End LedgerClaims.

(* ===================================================================== *)
(** * Reading a manifest back *)
(* ===================================================================== *)

Fixpoint no_space (s : string) : bool :=
  match s with
  | EmptyString => true
  | String c s' => negb (is_space c) && no_space s'
  end.

(** A text that [strings.Fields] returns as one field: not empty and
    without white space. *)
Definition token (s : string) : Prop := is_empty s = false /\ no_space s = true.

(** The sum of the lengths of the words and of one more byte per word. *)
Fixpoint spread (words : list string) : nat :=
  match words with
  | [] => 0
  | w :: ws => String.length w + 1 + spread ws
  end.

Definition starts_with_space (s : string) : bool :=
  match s with
  | EmptyString => true
  | String c _ => is_space c
  end.

Section FieldsFacts.

Lemma Fields_token_app (w s : string) :
  token w -> starts_with_space s = true -> Fields (w +:+ s) = w :: Fields s.
Proof.
  intros [Hne Hns] Hs. induction w as [|c w IH]; [discriminate |].
  cbn [no_space] in Hns. apply andb_true_iff in Hns as [Hc Hw].
  apply negb_true_iff in Hc.
  destruct w as [|d w].
  - cbn [String.append Fields]. rewrite Hc.
    destruct s as [|e s]; [reflexivity |]. cbn in Hs. now rewrite Hs.
  - specialize (IH eq_refl Hw).
    change (String c (String d w) +:+ s) with (String c (String d w +:+ s)).
    cbn [Fields]. rewrite Hc.
    change (String d w +:+ s) with (String d (w +:+ s)) in *.
    cbn [no_space] in Hw. apply andb_true_iff in Hw as [Hd _].
    apply negb_true_iff in Hd. rewrite Hd, IH. reflexivity.
Qed.

Lemma Fields_pair (name hash : string) :
  token name -> token hash -> Fields (name +:+ " " +:+ hash) = [name; hash].
Proof.
  intros Hn Hh. rewrite (Fields_token_app name) by (assumption || reflexivity).
  change (" " +:+ hash) with (String " " hash). cbn [Fields is_space].
  change (Fields (String " " hash)) with (Fields hash).
  rewrite <- (app_nil_r_s hash) at 1.
  now rewrite (Fields_token_app hash) by (assumption || reflexivity).
Qed.

Lemma Fields_tokens (s : string) : Forall token (Fields s).
Proof.
  induction s as [|c s IH]; [constructor |].
  cbn [Fields]. destruct (is_space c) eqn:Hc; [exact IH |].
  assert (Hone : token (String c EmptyString)).
  { split; [reflexivity |]. cbn. now rewrite Hc. }
  destruct s as [|d s]; [constructor; [exact Hone | constructor] |].
  destruct (is_space d); [now constructor |].
  destruct (Fields (String d s)) as [|w ws]; [constructor; [exact Hone | constructor] |].
  apply Forall_cons in IH as [[Hw1 Hw2] Hws]. constructor; [| exact Hws].
  split; [reflexivity |]. cbn. now rewrite Hc, Hw2.
Qed.

(** The fields of a text and the white space between them fit in it. *)
Lemma Fields_spread (s : string) :
  (spread (Fields s) <= String.length s + (if starts_with_space s then 0 else 1))%nat.
Proof.
  induction s as [|c s IH]; [cbn; lia |].
  cbn [Fields starts_with_space]. destruct (is_space c) eqn:Hc.
  - cbn [String.length]. destruct (starts_with_space s); lia.
  - destruct s as [|d s]; [cbn; lia |].
    cbn [starts_with_space] in IH.
    destruct (is_space d) eqn:Hd.
    + cbn [spread String.length] in *. lia.
    + destruct (Fields (String d s)) as [|w ws]; cbn [spread String.length] in *; lia.
Qed.

Lemma Fields_pair_length (s name hash : string) :
  Fields s = [name; hash] ->
  (String.length name + String.length hash + 1 <= String.length s)%nat.
Proof.
  intros H. pose proof (Fields_spread s) as Hs. rewrite H in Hs.
  cbn [spread] in Hs. destruct (starts_with_space s); lia.
Qed.

End FieldsFacts.

Fixpoint no_newline (s : string) : bool :=
  match s with
  | EmptyString => true
  | String c s' => negb (Ascii.eqb c (chr 10)) && no_newline s'
  end.

Section ScanFacts.

Lemma no_space_no_newline (s : string) : no_space s = true -> no_newline s = true.
Proof.
  induction s as [|c s IH]; [reflexivity |]. cbn [no_space no_newline].
  intros H. apply andb_true_iff in H as [Hc Hs]. rewrite (IH Hs), andb_true_r.
  destruct (Ascii.eqb_spec c (chr 10)) as [-> |]; [discriminate | reflexivity].
Qed.

Lemma no_newline_app (a b : string) :
  no_newline (a +:+ b) = no_newline a && no_newline b.
Proof.
  induction a as [|c a IH]; [reflexivity |].
  change (String c a +:+ b) with (String c (a +:+ b)).
  cbn [no_newline]. now rewrite IH, andb_assoc.
Qed.

Lemma Split_line (a rest : string) :
  no_newline a = true -> Split (a +:+ nl +:+ rest) nl = a :: Split rest nl.
Proof.
  unfold Split. intros Ha. induction a as [|c a IH].
  - reflexivity.
  - cbn [no_newline] in Ha. apply andb_true_iff in Ha as [Hc Ha].
    change (String c a +:+ nl +:+ rest) with (String c (a +:+ nl +:+ rest)).
    cbn [split_go]. rewrite (IH Ha).
    replace (HasPrefix (String c (a +:+ nl +:+ rest)) nl) with false; [reflexivity |].
    unfold nl. cbn [HasPrefix]. apply negb_true_iff in Hc.
    rewrite Ascii.eqb_sym in Hc. now rewrite Hc.
Qed.

Lemma Split_lines (lines : list string) :
  Forall (fun line => no_newline line = true) lines ->
  Split (String.concat EmptyString (map (fun line => line +:+ nl) lines)) nl
  = lines ++ [EmptyString].
Proof.
  induction 1 as [|line lines Hl _ IH]; [reflexivity |].
  cbn [map]. rewrite concat_nil_cons, app_assoc_s, (Split_line _ _ Hl), IH. reflexivity.
Qed.

Lemma Split_manifestText (globalHash : string) (lines : list string) :
  no_newline globalHash = true ->
  Forall (fun line => no_newline line = true) lines ->
  Split (manifestText globalHash lines) nl = globalHash :: lines ++ [EmptyString].
Proof.
  intros Hg Hl. unfold manifestText. now rewrite (Split_line _ _ Hg), (Split_lines _ Hl).
Qed.

(** A line that the scanner returns as it stands in the file: shorter
    than the limit and without a carriage return at its end. *)
Definition plainLine (line : string) : Prop :=
  len line < Ledger.MaxScanTokenSize /\ Ledger.dropCR line = line.

Lemma scanLines_plain (lines : list string) :
  Forall plainLine lines ->
  Ledger.scanLines (lines ++ [EmptyString]) = (lines, false).
Proof.
  induction 1 as [|line lines [Hlen Hcr] _ IH]; [reflexivity |].
  cbn [app Ledger.scanLines].
  replace (Ledger.MaxScanTokenSize <=? len line) with false
    by (symmetry; apply Z.leb_gt; exact Hlen).
  destruct (lines ++ [EmptyString]) as [|x l] eqn:E; [now destruct lines |].
  rewrite IH, Hcr. reflexivity.
Qed.

End ScanFacts.

Section HashFacts.

Lemma round_length (st : list Z) (kw : Z * Z) :
  length (Digest.round st kw) = length st.
Proof.
  unfold Digest.round.
  destruct st as [|a [|b [|c [|d [|e [|f [|g [|h [|i st]]]]]]]]]; reflexivity.
Qed.

Lemma rounds_length (kws : list (Z * Z)) (st : list Z) :
  length (fold_left Digest.round kws st) = length st.
Proof.
  revert st. induction kws as [|kw kws IH]; intros st; [reflexivity |].
  cbn [fold_left]. now rewrite IH, round_length.
Qed.

Lemma compress_length (h block : list Z) : length (Digest.compress h block) = length h.
Proof.
  unfold Digest.compress. rewrite length_map, length_combine, rounds_length. lia.
Qed.

Lemma compress_all_length (blocks : list (list Z)) (h : list Z) :
  length (fold_left Digest.compress blocks h) = length h.
Proof.
  revert h. induction blocks as [|b blocks IH]; intros h; [reflexivity |].
  cbn [fold_left]. now rewrite IH, compress_length.
Qed.

Lemma be_bytes_length (n : nat) (x : Z) : length (Digest.be_bytes n x) = n.
Proof. induction n as [|n IH]; cbn; [reflexivity | now rewrite IH]. Qed.

Lemma words_bytes_length (h : list Z) :
  length (flat_map (Digest.be_bytes 4) h) = (4 * length h)%nat.
Proof.
  induction h as [|x h IH]; [reflexivity |].
  cbn [flat_map]. rewrite length_app, be_bytes_length, IH. cbn [length]. lia.
Qed.

Lemma string_of_bytes_length (l : list Z) :
  String.length (Digest.string_of_bytes l) = length l.
Proof. induction l as [|b l IH]; cbn; [reflexivity | now rewrite IH]. Qed.

Lemma bytes_of_string_length (s : string) :
  length (Digest.bytes_of_string s) = String.length s.
Proof. induction s as [|c s IH]; cbn; [reflexivity | now rewrite IH]. Qed.

(** The digest has 32 bytes. *)
Lemma Sum256_length (content : string) : String.length (Digest.Sum256 content) = 32%nat.
Proof.
  unfold Digest.Sum256.
  rewrite string_of_bytes_length, words_bytes_length, compress_all_length.
  reflexivity.
Qed.

Lemma b64_char_not_space (v : Z) : is_space (Digest.b64_char v) = false.
Proof.
  unfold Digest.b64_char. generalize (Z.to_nat (v mod 64)). intros n.
  do 64 (destruct n as [|n]; [reflexivity |]). reflexivity.
Qed.

Lemma b64_no_space (fuel : nat) (l : list Z) : no_space (Digest.b64_go fuel l) = true.
Proof.
  revert l. induction fuel as [|fuel IH]; intros l; [reflexivity |].
  destruct l as [|b0 [|b1 [|b2 l]]]; cbn [Digest.b64_go no_space];
    rewrite ?b64_char_not_space, ?IH; reflexivity.
Qed.

Lemma b64_length_32 (l : list Z) :
  length l = 32%nat -> String.length (Digest.b64_go (S (length l)) l) = 44%nat.
Proof.
  intros H. rewrite H.
  do 32 (destruct l as [|? l]; [discriminate |]).
  destruct l; [reflexivity | discriminate].
Qed.

(** The text of a hash is [h1:] and 44 characters of base64: 47 bytes
    without white space. *)
Lemma calculateFileHash_token (content : string) :
  token (Ledger.calculateFileHash content)
  /\ String.length (Ledger.calculateFileHash content) = 47%nat.
Proof.
  unfold Ledger.calculateFileHash, Digest.EncodeToString. split; [split |].
  - reflexivity.
  - cbn [String.append no_space]. cbn [is_space]. apply b64_no_space.
  - rewrite length_app_s, b64_length_32; [reflexivity |].
    now rewrite bytes_of_string_length, Sum256_length.
Qed.

End HashFacts.

(** An entry that a manifest line carries: two tokens on a line shorter
    than the scanner's limit. *)
Definition entryOK (name hash : string) : Prop :=
  token name /\ token hash
  /\ len name + len hash + 1 < Ledger.MaxScanTokenSize.

Section ReadBack.

Lemma last_char_split (s : string) :
  is_empty s = false -> exists p c, s = p +:+ String c EmptyString.
Proof.
  induction s as [|c s IH]; [discriminate |]. intros _.
  destruct s as [|d s].
  - now exists EmptyString, c.
  - destruct (IH eq_refl) as (p & e & E). exists (String c p), e.
    rewrite E. reflexivity.
Qed.

Lemma no_space_app (a b : string) :
  no_space (a +:+ b) = no_space a && no_space b.
Proof.
  induction a as [|c a IH]; [reflexivity |].
  change (String c a +:+ b) with (String c (a +:+ b)).
  cbn [no_space]. now rewrite IH, andb_assoc.
Qed.

Lemma token_no_CR_suffix (a h : string) :
  token h -> HasSuffix (a +:+ h) (String (chr 13) EmptyString) = false.
Proof.
  intros [Hne Hns]. destruct (last_char_split h Hne) as (p & c & ->).
  rewrite <- app_assoc_s, HasSuffix_last_char.
  rewrite no_space_app in Hns. apply andb_true_iff in Hns as [_ Hc].
  cbn [no_space] in Hc. rewrite andb_true_r in Hc.
  destruct (Ascii.eqb_spec c (chr 13)) as [-> |]; [discriminate | reflexivity].
Qed.

Lemma len_app (a b : string) : len (a +:+ b) = len a + len b.
Proof. unfold len. rewrite length_app_s. lia. Qed.

Lemma checksumLine_plain (name hash : string) :
  entryOK name hash -> plainLine (name +:+ " " +:+ hash).
Proof.
  intros (Hn & Hh & Hlen). split.
  - rewrite !len_app. change (len " ") with 1. lia.
  - unfold Ledger.dropCR.
    rewrite <- (app_assoc_s name " " hash) at 1.
    now rewrite (token_no_CR_suffix _ _ Hh).
Qed.

Lemma token_plain (h : string) :
  token h -> len h < Ledger.MaxScanTokenSize -> plainLine h.
Proof.
  intros Hh Hlen. split; [exact Hlen |]. unfold Ledger.dropCR.
  change h with (EmptyString +:+ h) at 1.
  now rewrite (token_no_CR_suffix _ _ Hh).
Qed.

Lemma length_take_le (n : nat) (s : string) :
  (String.length (take n s) <= String.length s)%nat.
Proof.
  revert n. induction s as [|c s IH]; intros [|n]; cbn; try lia.
  specialize (IH n). lia.
Qed.

Lemma dropCR_shorter (line : string) : len (Ledger.dropCR line) <= len line.
Proof.
  unfold Ledger.dropCR. destruct (HasSuffix line _); [| lia].
  unfold sub. change (drop (Z.to_nat 0) line) with line.
  unfold len at 2 3. apply Nat2Z.inj_le, length_take_le.
Qed.

Lemma scanLines_short (segments lines : list string) (tooLong : bool) :
  Ledger.scanLines segments = (lines, tooLong) ->
  Forall (fun line => len line < Ledger.MaxScanTokenSize) lines.
Proof.
  revert lines tooLong. induction segments as [|segment rest IH]; intros lines tooLong.
  - intros [= <- <-]. constructor.
  - cbn [Ledger.scanLines].
    destruct (Ledger.MaxScanTokenSize <=? len segment) eqn:E; [intros [= <- <-]; constructor |].
    apply Z.leb_gt in E. pose proof (dropCR_shorter segment) as Hd.
    destruct rest as [|x rest].
    + destruct (is_empty segment); intros [= <- <-]; repeat constructor. lia.
    + destruct (Ledger.scanLines (x :: rest)) as [ls tl] eqn:Hs.
      intros [= <- <-]. constructor; [lia |]. now apply (IH ls tl).
Qed.

Lemma checksumLine_entries (checksums : gmap string string) (line : string) :
  map_Forall entryOK checksums ->
  len line < Ledger.MaxScanTokenSize ->
  map_Forall entryOK (Ledger.checksumLine checksums line).
Proof.
  intros Hm Hlen. unfold Ledger.checksumLine.
  destruct (Fields line) as [|name [|hash [|x l]]] eqn:E; try exact Hm.
  apply map_Forall_insert_2; [| exact Hm].
  pose proof (Fields_tokens line) as Ht. rewrite E in Ht.
  apply Forall_cons in Ht as [Hn Ht]. apply Forall_cons in Ht as [Hh _].
  apply Fields_pair_length in E.
  split; [exact Hn |]. split; [exact Hh |]. unfold len in *. lia.
Qed.

(** Every entry that [readChecksumFile] returns stood on a line of the
    file as two tokens. *)
Lemma readChecksumFile_entries (dir : Ledger.Dir) (checksums : gmap string string) :
  Ledger.readChecksumFile dir = Ok checksums -> map_Forall entryOK checksums.
Proof.
  unfold Ledger.readChecksumFile.
  destruct (Ledger.ReadFile dir "datara.sum") as [content| |].
  - destruct (Ledger.Scan content) as [lines tooLong] eqn:Hs.
    destruct tooLong; [discriminate |]. intros [= <-].
    apply scanLines_short in Hs.
    assert (Htl : Forall (fun line => len line < Ledger.MaxScanTokenSize) (tl lines)).
    { destruct Hs; [constructor | assumption]. }
    clear Hs. revert Htl. generalize (tl lines). intros l Hl.
    assert (Hinit : map_Forall entryOK (∅ : gmap string string)) by apply map_Forall_empty.
    revert Hinit. generalize (∅ : gmap string string).
    induction Hl as [|line l Hline _ IH]; intros m Hm; [exact Hm |].
    cbn [fold_left]. apply IH. now apply checksumLine_entries.
  - intros [= <-]. apply map_Forall_empty.
  - discriminate.
Qed.

(** Reading the lines of a manifest gives back the map they were written
    from. *)
Lemma fold_checksumLines (checksums : gmap string string) (names : list string)
    (acc : gmap string string) (k : string) :
  Forall (fun name => exists hash, checksums !! name = Some hash /\ entryOK name hash) names ->
  fold_left Ledger.checksumLine (checksumLines checksums names) acc !! k
  = if decide (k ∈ names) then checksums !! k else acc !! k.
Proof.
  intros H. revert acc. induction H as [|name names (hash & Hl & Hn & Hh & _) _ IH];
    intros acc.
  - cbn. rewrite decide_False by apply not_elem_of_nil. reflexivity.
  - unfold checksumLines in *. cbn [map fold_left]. rewrite Hl. cbn [default].
    rewrite IH. unfold Ledger.checksumLine. change (id hash) with hash.
    rewrite (Fields_pair _ _ Hn Hh).
    destruct (decide (k ∈ names)) as [Hin | Hnin].
    + rewrite decide_True by now right. reflexivity.
    + destruct (decide (k = name)) as [-> | Hne].
      * rewrite decide_True by left. now rewrite lookup_insert_eq.
      * rewrite decide_False by (rewrite elem_of_cons; tauto).
        now rewrite lookup_insert_ne.
Qed.

Lemma readChecksumFile_written (entries : gmap string Ledger.Node)
    (checksums : gmap string string) (globalHash : string) (names : list string) :
  map_Forall entryOK checksums ->
  sortedNames (fun name => is_Some (checksums !! name)) names ->
  token globalHash -> len globalHash < Ledger.MaxScanTokenSize ->
  Ledger.readChecksumFile
    (Some (<["datara.sum" :=
             Ledger.File (manifestText globalHash (checksumLines checksums names))]> entries))
  = Ok checksums.
Proof.
  intros Hm (_ & _ & Hmem) Hg Hglen.
  assert (Hall : Forall (fun name => exists hash,
                           checksums !! name = Some hash /\ entryOK name hash) names).
  { apply Forall_forall. intros name Hin. apply Hmem in Hin as [hash Hl].
    exists hash. split; [exact Hl | exact (Hm name hash Hl)]. }
  assert (Hplain : Forall plainLine (checksumLines checksums names)).
  { unfold checksumLines. apply Forall_fmap, (Forall_impl _ _ _ Hall).
    intros name (hash & Hl & Hok). unfold compose. rewrite Hl.
    now apply checksumLine_plain. }
  unfold Ledger.readChecksumFile, Ledger.ReadFile. rewrite lookup_insert_eq.
  unfold Ledger.Scan. rewrite Split_manifestText.
  - change (globalHash :: checksumLines checksums names ++ [EmptyString])
      with ((globalHash :: checksumLines checksums names) ++ [EmptyString]).
    rewrite scanLines_plain.
    + cbn [tl]. f_equal. apply map_eq. intros k.
      rewrite (fold_checksumLines _ _ _ _ Hall).
      destruct (decide (k ∈ names)) as [Hin | Hnin]; [reflexivity |].
      rewrite lookup_empty. symmetry. apply eq_None_not_Some. now rewrite <- Hmem.
    + constructor; [| exact Hplain]. now apply token_plain.
  - apply no_space_no_newline, Hg.
  - unfold checksumLines. apply Forall_fmap, (Forall_impl _ _ _ Hall).
    intros name (hash & Hl & Hn & Hh & _). unfold compose. rewrite Hl.
    change (default EmptyString (Some hash)) with hash.
    rewrite !no_newline_app, (no_space_no_newline _ (proj2 Hn)),
      (no_space_no_newline _ (proj2 Hh)).
    reflexivity.
Qed.



End ReadBack.




Section UpdateClaims.



End UpdateClaims.

(** A directory whose manifest records the first of its two migrations. *)
Definition firstChecksums : gmap string string :=
  <["20240101.sql" := Ledger.calculateFileHash "A"]> ∅.

Definition recordedEntries : gmap string Ledger.Node :=
  <["datara.sum" :=
    Ledger.File (manifestText (Ledger.calculateFileHash "A")
                   (checksumLines firstChecksums ["20240101.sql"]))]>
    (<["20240102.sql" := Ledger.File "B"]>
       (<["20240101.sql" := Ledger.File "A"]> ∅)).

Section UpdateExample.

Lemma recordedEntries_read :
  Ledger.readChecksumFile (Some recordedEntries) = Ok firstChecksums.
Proof. vm_compute. reflexivity. Qed.




(** A name with a blank in it is written to the manifest but is not read
    back from it: its line has three fields. *)
Lemma name_with_blank_not_read_back :
  Ledger.readChecksumFile
    (Some (<["datara.sum" :=
             Ledger.File (manifestText "h1:g" ["my file.sql h1:x"])]> ∅))
  = Ok ∅.
Proof. vm_compute. reflexivity. Qed.







End UpdateExample.

(* ===================================================================== *)
(** * Splitting at a byte *)
(* ===================================================================== *)

(** The byte [c] does not occur in [s]. *)
Fixpoint lacks (c : ascii) (s : string) : bool :=
  match s with
  | EmptyString => true
  | String d s' => negb (Ascii.eqb d c) && lacks c s'
  end.

(** The separator made of the one byte [c]. *)
Definition sep1 (c : ascii) : string := String c EmptyString.

Section SeparatorFacts.

Variable c : ascii.

Lemma lacks_app (a b : string) : lacks c (a +:+ b) = lacks c a && lacks c b.
Proof.
  induction a as [|d a IH]; [reflexivity |].
  change (String d a +:+ b) with (String d (a +:+ b)).
  cbn [lacks]. now rewrite IH, andb_assoc.
Qed.

Lemma Split_nil : Split EmptyString (sep1 c) = [EmptyString].
Proof. reflexivity. Qed.

Lemma Split_cons (d : ascii) (s : string) :
  Split (String d s) (sep1 c) =
  if Ascii.eqb d c then EmptyString :: Split s (sep1 c)
  else match Split s (sep1 c) with
       | h :: t => String d h :: t
       | [] => [String d EmptyString]
       end.
Proof.
  unfold Split, sep1. cbn [split_go HasPrefix String.length Nat.sub].
  rewrite Ascii.eqb_sym. destruct (Ascii.eqb d c); [| reflexivity].
  now destruct s.
Qed.

Lemma Split_not_nil (s : string) : Split s (sep1 c) <> [].
Proof.
  destruct s as [|d s]; [discriminate |]. rewrite Split_cons.
  destruct (Ascii.eqb d c); [discriminate |].
  destruct (Split s (sep1 c)); discriminate.
Qed.

(** A text cut at a separator: the pieces of the two sides. *)
Lemma Split_app (a b : string) :
  Split (a +:+ sep1 c +:+ b) (sep1 c) = Split a (sep1 c) ++ Split b (sep1 c).
Proof.
  induction a as [|d a IH].
  - change (EmptyString +:+ sep1 c +:+ b) with (String c b).
    rewrite Split_cons, Ascii.eqb_refl. reflexivity.
  - change (String d a +:+ sep1 c +:+ b) with (String d (a +:+ sep1 c +:+ b)).
    rewrite !Split_cons, IH. destruct (Ascii.eqb d c); [reflexivity |].
    pose proof (Split_not_nil a) as Hn.
    destruct (Split a (sep1 c)) as [|h t]; [contradiction | reflexivity].
Qed.

Lemma Split_lacks (s : string) : lacks c s = true -> Split s (sep1 c) = [s].
Proof.
  induction s as [|d s IH]; [reflexivity |]. cbn [lacks]. intros H.
  apply andb_true_iff in H as [Hd Hs]. apply negb_true_iff in Hd.
  now rewrite Split_cons, Hd, (IH Hs).
Qed.

Lemma Split_pieces (s : string) : Forall (fun p => lacks c p = true) (Split s (sep1 c)).
Proof.
  induction s as [|d s IH]; [repeat constructor |]. rewrite Split_cons.
  destruct (Ascii.eqb d c) eqn:E; [constructor; [reflexivity | exact IH] |].
  destruct (Split s (sep1 c)) as [|h t].
  - repeat constructor. cbn [lacks]. now rewrite E.
  - apply Forall_cons in IH as [Hh Ht]. constructor; [| exact Ht].
    cbn [lacks]. now rewrite E, Hh.
Qed.

Lemma Join_cons2 (x y : string) (l : list string) (sep : string) :
  Join (x :: y :: l) sep = x +:+ sep +:+ Join (y :: l) sep.
Proof. reflexivity. Qed.

(** [Split] undoes [Join] on pieces that do not hold the separator. *)
Lemma Split_Join (x : string) (l : list string) :
  Forall (fun p => lacks c p = true) (x :: l) ->
  Split (Join (x :: l) (sep1 c)) (sep1 c) = x :: l.
Proof.
  revert x. induction l as [|y l IH]; intros x H.
  - apply Forall_cons in H as [Hx _]. now apply Split_lacks.
  - apply Forall_cons in H as [Hx H]. rewrite Join_cons2, Split_app, (Split_lacks _ Hx).
    now rewrite (IH y H).
Qed.

(** [Join] undoes [Split]. *)
Lemma Join_Split (s : string) : Join (Split s (sep1 c)) (sep1 c) = s.
Proof.
  induction s as [|d s IH]; [reflexivity |]. rewrite Split_cons.
  pose proof (Split_not_nil s) as Hn.
  destruct (Ascii.eqb_spec d c) as [-> | Hd].
  - destruct (Split s (sep1 c)) as [|h t]; [contradiction |].
    rewrite Join_cons2. rewrite IH. reflexivity.
  - destruct (Split s (sep1 c)) as [|h t]; [contradiction |].
    destruct t as [|y t].
    + cbn in IH |- *. now rewrite IH.
    + rewrite Join_cons2 in IH |- *. rewrite <- IH. reflexivity.
Qed.

Lemma Contains_lacks (s : string) : Contains s (sep1 c) = negb (lacks c s).
Proof.
  unfold Contains, sep1. induction s as [|d s IH]; [reflexivity |].
  cbn [index_nat HasPrefix lacks]. rewrite Ascii.eqb_sym.
  destruct (Ascii.eqb d c); [now destruct s |].
  cbn [andb negb]. destruct (index_nat s (String c EmptyString)); cbn in *; congruence.
Qed.

End SeparatorFacts.

(* ===================================================================== *)
(** * More on the textual diff *)
(* ===================================================================== *)

(** As many up statements as down statements. *)
Definition paired (s : Executor.Statements) : Prop := length s.1 = length s.2.

Section DiffShape.

Lemma over_paired {V} (m : gmap string V) (f : string -> V -> Executor.Statements)
    (order : list string) :
  (forall k v, paired (f k v)) -> paired (over m f order).
Proof.
  intros H. unfold paired, over. cbn [fst snd].
  induction order as [|k order IH]; [reflexivity |].
  cbn [flat_map]. rewrite !length_app, IH.
  destruct (m !! k) as [v|]; [now rewrite (H k v) | reflexivity].
Qed.

Lemma columnChanges_paired (co : Executor.ColumnOrders) (tableName : string)
    (oldColumns newColumns : gmap string string) :
  paired (columnChanges co tableName oldColumns newColumns).
Proof.
  unfold columnChanges. cbv zeta. unfold paired. cbn [fst snd].
  rewrite !length_app.
  rewrite (over_paired oldColumns (droppedColumnStatements tableName newColumns)).
  2:{ intros k v. unfold droppedColumnStatements. now destruct (newColumns !! k). }
  rewrite (over_paired newColumns (newColumnStatements tableName oldColumns)).
  2:{ intros k v. unfold newColumnStatements. now destruct (oldColumns !! k). }
  rewrite (over_paired newColumns (modifiedColumnStatements tableName oldColumns)).
  2:{ intros k v. unfold modifiedColumnStatements.
      destruct (oldColumns !! k); [| reflexivity]. now destruct (negb _). }
  reflexivity.
Qed.

Lemma tableChanges_paired (orders : string -> Executor.ColumnOrders)
    (oldTables newTables : gmap string string) (name : string) :
  paired (tableChanges orders oldTables newTables name).
Proof.
  unfold tableChanges. destruct (newTables !! name); [| reflexivity].
  destruct (oldTables !! name); [| reflexivity].
  cbv zeta. destruct (0 <? _); [apply columnChanges_paired | reflexivity].
Qed.

Lemma flat_map_paired {A} (f : A -> Executor.Statements) (l : list A) :
  (forall x, paired (f x)) ->
  length (flat_map (fun x => (f x).1) l) = length (flat_map (fun x => (f x).2) l).
Proof.
  intros H. induction l as [|x l IH]; [reflexivity |].
  cbn [flat_map]. rewrite !length_app, IH. now rewrite (H x).
Qed.

(** X1. Whenever [generateSchemaDiff] builds its statement lists, the up
    list and the down list have the same length: every change it emits
    comes with one statement that undoes it, whatever the order of the
    loops. *)
Theorem diff_statements_come_in_pairs (orders : Executor.RangeOrders)
    (oldSchema newSchema : string) (up down : list string) :
  Executor.diffStatements orders oldSchema newSchema = Ok (up, down) ->
  length up = length down.
Proof.
  rewrite diffStatements_closed_form. cbv zeta.
  destruct (existsb _ _); [discriminate |]. intros [= <- <-].
  pose proof (over_paired (Executor.parseTables oldSchema)
                (droppedTableStatements (Executor.parseTables newSchema))
                (Executor.droppedTablesOrder orders)) as Ha.
  pose proof (over_paired (Executor.parseTables newSchema)
                (newTableStatements (Executor.parseTables oldSchema))
                (Executor.newTablesOrder orders)) as Hb.
  pose proof (flat_map_paired
                (tableChanges (Executor.columnOrders orders)
                   (Executor.parseTables oldSchema) (Executor.parseTables newSchema))
                (Executor.modifiedTablesOrder orders)) as Hc.
  unfold paired, over in Ha, Hb. cbn [fst snd] in Ha, Hb.
  rewrite !length_app, Ha, Hb, Hc.
  - reflexivity.
  - intros name. apply tableChanges_paired.
  - intros k v. unfold newTableStatements. now destruct (_ !! k).
  - intros k v. unfold droppedTableStatements. now destruct (_ !! k).
Qed.

Lemma diff_statements_come_in_pairs_witness :
  Executor.diffStatements ordersAB EmptyString twoTables
  = Ok (["CREATE TABLE a (x int)"; "CREATE TABLE b (y int)"],
        ["DROP TABLE IF EXISTS " +:+ Quote "a" +:+ " CASCADE";
         "DROP TABLE IF EXISTS " +:+ Quote "b" +:+ " CASCADE"])
  /\ length ["CREATE TABLE a (x int)"; "CREATE TABLE b (y int)"]
     = length ["DROP TABLE IF EXISTS " +:+ Quote "a" +:+ " CASCADE";
               "DROP TABLE IF EXISTS " +:+ Quote "b" +:+ " CASCADE"].
Proof.
  assert (H : Executor.diffStatements ordersAB EmptyString twoTables
              = Ok (["CREATE TABLE a (x int)"; "CREATE TABLE b (y int)"],
                    ["DROP TABLE IF EXISTS " +:+ Quote "a" +:+ " CASCADE";
                     "DROP TABLE IF EXISTS " +:+ Quote "b" +:+ " CASCADE"]))
    by (vm_compute; reflexivity).
  split; [exact H |].
  exact (diff_statements_come_in_pairs ordersAB EmptyString twoTables _ _ H).
Defined.

End DiffShape.

(** One round of the loop of [parseTables]. *)
Definition tableStep (tables : gmap string string) (stmt : string) : gmap string string :=
  let stmt := TrimSpace stmt in
  if is_empty stmt then tables
  else if HasPrefix stmt "CREATE TABLE" then
    let tableName := Executor.extractTableName stmt in
    if negb (is_empty tableName) then <[tableName := stmt]> tables else tables
  else tables.

(** The statement has no semicolon. *)
Definition unbroken (stmt : string) : Prop := Contains stmt ";" = false.

Section OtherStatements.

Lemma parseTables_fold (schema : string) :
  Executor.parseTables schema = fold_left tableStep (Split schema ";") ∅.
Proof. reflexivity. Qed.

Lemma unbroken_lacks (stmt : string) : unbroken stmt -> lacks ";" stmt = true.
Proof.
  unfold unbroken. change ";"%string with (sep1 ";"). rewrite Contains_lacks.
  now destruct (lacks ";" stmt).
Qed.

Lemma parseTables_Join (statements : list string) :
  Forall unbroken statements ->
  Executor.parseTables (Join statements ";") = fold_left tableStep statements ∅.
Proof.
  intros H. rewrite parseTables_fold. destruct statements as [|x l]; [reflexivity |].
  change ";"%string with (sep1 ";"). rewrite Split_Join; [reflexivity |].
  apply (Forall_impl _ _ _ H). intros stmt. apply unbroken_lacks.
Qed.

Lemma tableStep_other (tables : gmap string string) (stmt : string) :
  HasPrefix (TrimSpace stmt) "CREATE TABLE" = false -> tableStep tables stmt = tables.
Proof. intros H. unfold tableStep. rewrite H. now destruct (is_empty _). Qed.

Lemma parseTables_other (before after : list string) (stmt : string) :
  Forall unbroken (before ++ stmt :: after) ->
  HasPrefix (TrimSpace stmt) "CREATE TABLE" = false ->
  Executor.parseTables (Join (before ++ stmt :: after) ";")
  = Executor.parseTables (Join (before ++ after) ";").
Proof.
  intros H Hp. rewrite !parseTables_Join; [| | exact H].
  - rewrite !fold_left_app. cbn [fold_left]. now rewrite tableStep_other.
  - apply Forall_app in H as [Hb Ha]. apply Forall_cons in Ha as [_ Ha].
    now apply Forall_app.
Qed.

(** X2. The diff reads the [CREATE TABLE] statements only: a statement of
    another kind (a [CREATE INDEX], an [ALTER], a comment), put anywhere
    among the statements of the old or of the new schema text, changes
    nothing in the result of [generateSchemaDiff], so no migration is ever
    made for it. *)
Theorem diff_ignores_other_statements (orders : Executor.RangeOrders)
    (schema : string) (before after : list string) (stmt : string) :
  Forall unbroken (before ++ stmt :: after) ->
  HasPrefix (TrimSpace stmt) "CREATE TABLE" = false ->
  Executor.generateSchemaDiff orders schema (Join (before ++ stmt :: after) ";")
  = Executor.generateSchemaDiff orders schema (Join (before ++ after) ";")
  /\ Executor.generateSchemaDiff orders (Join (before ++ stmt :: after) ";") schema
     = Executor.generateSchemaDiff orders (Join (before ++ after) ";") schema.
Proof.
  intros H Hp. pose proof (parseTables_other before after stmt H Hp) as E.
  unfold Executor.generateSchemaDiff, Executor.diffStatements. rewrite E. split; reflexivity.
Qed.

Lemma diff_ignores_other_statements_witness :
  Executor.generateSchemaDiff ordersAB EmptyString
    (Join (["CREATE TABLE a (x int)"] ++ "CREATE INDEX i ON a (x)" :: ["CREATE TABLE b (y int)"]) ";")
  = Executor.generateSchemaDiff ordersAB EmptyString
      (Join (["CREATE TABLE a (x int)"] ++ ["CREATE TABLE b (y int)"]) ";")
  /\ Executor.generateSchemaDiff ordersAB
       (Join (["CREATE TABLE a (x int)"] ++ "CREATE INDEX i ON a (x)" :: ["CREATE TABLE b (y int)"]) ";")
       EmptyString
     = Executor.generateSchemaDiff ordersAB
         (Join (["CREATE TABLE a (x int)"] ++ ["CREATE TABLE b (y int)"]) ";") EmptyString.
Proof.
  apply (diff_ignores_other_statements ordersAB EmptyString
           ["CREATE TABLE a (x int)"] ["CREATE TABLE b (y int)"] "CREATE INDEX i ON a (x)").
  - repeat constructor.
  - reflexivity.
Defined.

End OtherStatements.

Section TypeWord.

Lemma over_nothing {V} (m : gmap string V) (f : string -> V -> Executor.Statements)
    (order : list string) :
  (forall k v, m !! k = Some v -> f k v = ([], [])) -> over m f order = ([], []).
Proof.
  intros H. unfold over. induction order as [|k order IH]; [reflexivity |].
  cbn [flat_map]. injection IH as -> ->.
  destruct (m !! k) as [v|] eqn:E; [now rewrite (H k v E) | reflexivity].
Qed.

Lemma over_same {V} (m : gmap string V) (f : string -> V -> Executor.Statements)
    (order : list string) :
  (forall k v, m !! k = Some v -> (f k v).1 = (f k v).2) ->
  (over m f order).1 = (over m f order).2.
Proof.
  intros H. unfold over. cbn [fst snd]. induction order as [|k order IH]; [reflexivity |].
  cbn [flat_map]. rewrite IH.
  destruct (m !! k) as [v|] eqn:E; [now rewrite (H k v E) | reflexivity].
Qed.

(** X3. [compareTableDefinitions] compares the whole definition of a
    column but writes only its type word.  When the two definitions of a
    table have the same columns and every column keeps its type word (the
    change is in [NOT NULL], [DEFAULT], ...), the up statements are the
    same as the down statements: each changed column gets an
    [ALTER COLUMN ... TYPE] with the type it already has, in both
    directions. *)
Theorem constraint_changes_alter_to_the_same_type (co : Executor.ColumnOrders)
    (tableName oldDef newDef : string) (oldColumns newColumns : gmap string string) :
  Executor.parseColumns oldDef = Ok oldColumns ->
  Executor.parseColumns newDef = Ok newColumns ->
  (forall colName, is_Some (oldColumns !! colName) <-> is_Some (newColumns !! colName)) ->
  (forall colName oldColDef newColDef,
     oldColumns !! colName = Some oldColDef ->
     newColumns !! colName = Some newColDef ->
     Executor.extractColumnType oldColDef = Executor.extractColumnType newColDef) ->
  exists statements,
    Executor.compareTableDefinitions co tableName oldDef newDef = Ok (statements, statements)
    /\ statements
       = flat_map
           (fun colName =>
              match newColumns !! colName, oldColumns !! colName with
              | Some newColDef, Some oldColDef =>
                  if String.eqb oldColDef newColDef then []
                  else ["ALTER TABLE " +:+ Quote tableName +:+ " ALTER COLUMN "
                        +:+ Quote colName +:+ " TYPE "
                        +:+ Executor.extractColumnType oldColDef]
              | _, _ => []
              end)
           (Executor.modifiedColumnsOrder co).
Proof.
  intros Hold Hnew Hkeys Htype.
  rewrite (compareTableDefinitions_parsed co tableName oldDef newDef _ _ Hold Hnew).
  unfold columnChanges. cbv zeta.
  rewrite (over_nothing oldColumns (droppedColumnStatements tableName newColumns)).
  2:{ intros k v E. unfold droppedColumnStatements.
      destruct (proj1 (Hkeys k) (ex_intro _ v E)) as [w ->]. reflexivity. }
  rewrite (over_nothing newColumns (newColumnStatements tableName oldColumns)).
  2:{ intros k v E. unfold newColumnStatements.
      destruct (proj2 (Hkeys k) (ex_intro _ v E)) as [w ->]. reflexivity. }
  cbn [fst snd app].
  assert (Hup : (over newColumns (modifiedColumnStatements tableName oldColumns)
                   (Executor.modifiedColumnsOrder co)).1
                = flat_map
                    (fun colName =>
                       match newColumns !! colName, oldColumns !! colName with
                       | Some newColDef, Some oldColDef =>
                           if String.eqb oldColDef newColDef then []
                           else ["ALTER TABLE " +:+ Quote tableName +:+ " ALTER COLUMN "
                                 +:+ Quote colName +:+ " TYPE "
                                 +:+ Executor.extractColumnType oldColDef]
                       | _, _ => []
                       end)
                    (Executor.modifiedColumnsOrder co)).
  { unfold over. cbn [fst]. apply flat_map_ext. intros k.
    unfold modifiedColumnStatements.
    destruct (newColumns !! k) as [n|] eqn:En; [| reflexivity].
    destruct (oldColumns !! k) as [o|] eqn:Eo; [| reflexivity].
    destruct (String.eqb o n); [reflexivity |]. cbn [negb fst].
    now rewrite (Htype k o n Eo En). }
  eexists. split; [| exact Hup].
  rewrite <- (over_same newColumns (modifiedColumnStatements tableName oldColumns)).
  - now destruct (over newColumns _ _).
  - intros k v E. unfold modifiedColumnStatements.
    destruct (oldColumns !! k) as [o|] eqn:Eo; [| reflexivity].
    destruct (negb _); [| reflexivity]. cbn [fst snd].
    now rewrite (Htype k o v Eo E).
Qed.

End TypeWord.

(** A column that loses its [NOT NULL]. *)
Definition strictColumn : string := "CREATE TABLE t (x int NOT NULL)".
Definition looseColumn : string := "CREATE TABLE t (x int)".

Section TypeWordExample.

Lemma constraint_changes_alter_to_the_same_type_witness :
  exists statements,
    Executor.compareTableDefinitions (Executor.mkColumnOrders ["x"] ["x"] ["x"])
      "t" strictColumn looseColumn = Ok (statements, statements)
    /\ statements
       = flat_map
           (fun colName =>
              match ({["x" := "x int"]} : gmap string string) !! colName,
                    ({["x" := "x int NOT NULL"]} : gmap string string) !! colName with
              | Some newColDef, Some oldColDef =>
                  if String.eqb oldColDef newColDef then []
                  else ["ALTER TABLE " +:+ Quote "t" +:+ " ALTER COLUMN "
                        +:+ Quote colName +:+ " TYPE "
                        +:+ Executor.extractColumnType oldColDef]
              | _, _ => []
              end)
           ["x"].
Proof.
  apply (constraint_changes_alter_to_the_same_type
           (Executor.mkColumnOrders ["x"] ["x"] ["x"]) "t" strictColumn looseColumn
           {["x" := "x int NOT NULL"]} {["x" := "x int"]}).
  - vm_compute. reflexivity.
  - vm_compute. reflexivity.
  - intros colName. split; intros [v H];
      apply lookup_singleton_Some in H as [<- _]; eexists; apply lookup_singleton_eq.
  - intros colName o n Ho Hn.
    apply lookup_singleton_Some in Ho as [<- <-].
    apply lookup_singleton_Some in Hn as [_ <-]. reflexivity.
Defined.

End TypeWordExample.

(* ===================================================================== *)
(** * More on ValidateSQLType *)
(* ===================================================================== *)

(** The names that a validated type can carry: the aliases [INTEGER],
    [NUMERIC], [REAL], [BOOLEAN] and [BOOL] are not among them. *)
Definition canonicalNames : list string :=
  ["TINYINT"; "SMALLINT"; "MEDIUMINT"; "INT"; "BIGINT"; "DECIMAL"; "FLOAT"; "DOUBLE";
   "VARCHAR"; "CHAR"; "TEXT"; "TINYTEXT"; "MEDIUMTEXT"; "LONGTEXT";
   "DATETIME"; "TIMESTAMP"; "DATE"; "TIME"; "ENUM"; "JSON"].

Definition sizedNames : list string :=
  ["TINYINT"; "SMALLINT"; "MEDIUMINT"; "INT"; "BIGINT"; "VARCHAR"; "CHAR"].

Definition unsizedNames : list string :=
  ["TEXT"; "TINYTEXT"; "MEDIUMTEXT"; "LONGTEXT";
   "DATETIME"; "TIMESTAMP"; "DATE"; "TIME"; "JSON"].

(** What the [switch] of [ValidateSQLType] leaves in the fields. *)
Definition defaultsApplied (r : Codec.SQLType) : Prop :=
  Codec.one_of (Codec.Name r) canonicalNames = true
  /\ (Codec.one_of (Codec.Name r) sizedNames = true -> Codec.Length r <> 0)
  /\ (Codec.one_of (Codec.Name r) unsizedNames = true -> Codec.Length r = 0)
  /\ (Codec.Name r = "DECIMAL" -> Codec.Precision r <> 0 /\ Codec.Scale r <> 0)
  /\ (Codec.one_of (Codec.Name r) ["FLOAT"; "DOUBLE"] = true -> Codec.Precision r <> 0).

Section TypeFacts.

Lemma when_zero_not_zero (v d : Z) : d <> 0 -> Codec.when_zero v d <> 0.
Proof. unfold Codec.when_zero. destruct (Z.eqb_spec v 0); congruence. Qed.

Ltac settle l :=
  cbn; try destruct (Z.eqb_spec l 0);
  intros r [= <-]; unfold defaultsApplied; cbn;
  repeat split; intros; try discriminate; try reflexivity;
  try (apply when_zero_not_zero; discriminate); try congruence.

Lemma applyDefaults_defaultsApplied (sqlType : string) (result r : Codec.SQLType) :
  Codec.applyDefaults sqlType result = Ok r -> defaultsApplied r.
Proof.
  revert r. destruct result as [n l p s u]. unfold Codec.applyDefaults. cbn [Codec.Name].
  repeat (match goal with
          | |- context [String.eqb n ?lit] =>
              destruct (String.eqb_spec n lit) as [-> | ?]
          end; [solve [settle l] |]).
  cbn. discriminate.
Qed.

(** X4. A type that [ValidateSQLType] returns carries one of twenty names
    (an alias is replaced by the name it stands for), and the defaults are
    in place: a length that is not zero for the integer and character
    types, no length for the text, date and JSON types, a precision and a
    scale for [DECIMAL], a precision for [FLOAT] and [DOUBLE]. *)
Theorem ValidateSQLType_applies_defaults (sqlType : string) (r : Codec.SQLType) :
  Codec.ValidateSQLType sqlType = Ok r -> defaultsApplied r.
Proof.
  unfold Codec.ValidateSQLType.
  destruct (Codec.normalize sqlType) as [unsigned t].
  destruct (Contains t "(").
  - destruct (slice t _ _); [| discriminate]. apply applyDefaults_defaultsApplied.
  - apply applyDefaults_defaultsApplied.
Qed.

Lemma ValidateSQLType_applies_defaults_witness :
  Codec.ValidateSQLType "integer unsigned" = Ok (Codec.mkSQLType "INT" 11 0 0 true)
  /\ defaultsApplied (Codec.mkSQLType "INT" 11 0 0 true).
Proof.
  assert (H : Codec.ValidateSQLType "integer unsigned"
              = Ok (Codec.mkSQLType "INT" 11 0 0 true)) by reflexivity.
  split; [exact H |].
  exact (ValidateSQLType_applies_defaults _ _ H).
Defined.

(** X5. On ASCII text, [ValidateSQLType] panics exactly when the
    normalized text has an opening parenthesis and its first closing
    parenthesis does not stand after its first opening one: there is no
    closing parenthesis, or the first one comes before, as in [INT)(5)].
    In every other case it returns an error when the base name is not
    supported and a type when it is. *)
Theorem ValidateSQLType_outcome (sqlType : string) :
  plain sqlType = true ->
  (Codec.ValidateSQLType sqlType = Panic <-> parensClosed sqlType = false)
  /\ is_ok (Codec.ValidateSQLType sqlType)
     = parensClosed sqlType && Codec.one_of (baseName sqlType) supportedTypes
  /\ is_err (Codec.ValidateSQLType sqlType)
     = parensClosed sqlType && negb (Codec.one_of (baseName sqlType) supportedTypes).
Proof.
  intros _. destruct (parensClosed sqlType) eqn:Hc.
  - destruct (ValidateSQLType_closed sqlType Hc) as [Hok Herr].
    cbn [andb]. split; [| split; [exact Hok | exact Herr]].
    split; [intros Hp | discriminate]. rewrite Hp in Hok, Herr.
    change (is_ok Panic) with false in Hok. change (is_err Panic) with false in Herr.
    destruct (Codec.one_of (baseName sqlType) supportedTypes); discriminate.
  - rewrite (ValidateSQLType_open sqlType Hc). repeat split; reflexivity.
Qed.

Lemma ValidateSQLType_outcome_witness :
  plain " decimal(12, 4) " = true
  /\ (Codec.ValidateSQLType " decimal(12, 4) " = Panic
      <-> parensClosed " decimal(12, 4) " = false)
  /\ is_ok (Codec.ValidateSQLType " decimal(12, 4) ")
     = parensClosed " decimal(12, 4) "
       && Codec.one_of (baseName " decimal(12, 4) ") supportedTypes
  /\ is_err (Codec.ValidateSQLType " decimal(12, 4) ")
     = parensClosed " decimal(12, 4) "
       && negb (Codec.one_of (baseName " decimal(12, 4) ") supportedTypes).
Proof.
  split; [reflexivity |].
  apply (ValidateSQLType_outcome " decimal(12, 4) "). reflexivity.
Defined.

(** A closing parenthesis before the first opening one: the slice
    [sqlType[5:3]] is out of range. *)
Lemma ValidateSQLType_closing_first :
  parensClosed "INT)(5)" = false /\ Codec.ValidateSQLType "INT)(5)" = Panic.
Proof. split; reflexivity. Qed.

End TypeFacts.

(* ===================================================================== *)
(** * More on ParseSchema *)
(* ===================================================================== *)

(** The struct types among the arguments of [ParseSchema]. *)
Definition structs (models : list Codec.Model) : list Codec.StructType :=
  omap (fun model =>
          match model with
          | Codec.MStruct t | Codec.MPtrToStruct t => Some t
          | Codec.MOther => None
          end)
       models.

(** The column of a field, if it gets one. *)
Definition fieldColumn (field : Codec.StructField) : option Codec.Column :=
  if Codec.Anonymous field then None else Codec.newColumn field.

(** The indexes that [addRelations] appends for the foreign keys. *)
Definition relationIndexes (table : Codec.Table) : list Codec.Index :=
  map (fun fk =>
         Codec.mkIndex ("idx_" +:+ Codec.TblName table +:+ "_" +:+ Join (Codec.FkColumns fk) "_")
                       (Codec.FkColumns fk) "BTREE" false)
      (Codec.ForeignKeys table).

Definition related (table : Codec.Table) : Codec.Table :=
  Codec.mkTable (Codec.TblName table) (Codec.Columns table)
    (Codec.Indexes table ++ relationIndexes table)
    (Codec.ForeignKeys table) (Codec.TblPrimaryKey table).

(** The SQL types that [setColumnType] writes. *)
Definition emittedTypes : list string :=
  ["BIGINT"; "TIMESTAMP"; "TINYINT(1)"; "TINYINT"; "SMALLINT"; "INT";
   "TINYINT UNSIGNED"; "SMALLINT UNSIGNED"; "INT UNSIGNED"; "BIGINT UNSIGNED";
   "FLOAT"; "DOUBLE"; "VARCHAR(255)"; "VARCHAR(20)"; "VARCHAR(50)"; "TEXT"; "DATETIME"].

Section ParseSchemaFacts.

Lemma omap_ext_fun {A B} (f g : A -> option B) (l : list A) :
  (forall x, f x = g x) -> omap f l = omap g l.
Proof.
  intros H. induction l as [|x l IH]; [reflexivity |].
  change (omap f (x :: l)) with (match f x with Some y => y :: omap f l | None => omap f l end).
  change (omap g (x :: l)) with (match g x with Some y => y :: omap g l | None => omap g l end).
  now rewrite H, IH.
Qed.

Lemma relation_indexes (table : Codec.Table) (indexes : list Codec.Index)
    (fks : list Codec.ForeignKey) :
  fold_left
    (fun indexes fk =>
       indexes ++
       [Codec.mkIndex ("idx_" +:+ Codec.TblName table +:+ "_" +:+ Join (Codec.FkColumns fk) "_")
                      (Codec.FkColumns fk) "BTREE" false])
    fks indexes
  = indexes ++
    map (fun fk =>
           Codec.mkIndex ("idx_" +:+ Codec.TblName table +:+ "_" +:+ Join (Codec.FkColumns fk) "_")
                         (Codec.FkColumns fk) "BTREE" false)
        fks.
Proof.
  revert indexes. induction fks as [|fk fks IH]; intros indexes; [now rewrite app_nil_r |].
  cbn [fold_left map]. rewrite IH. now rewrite <- app_assoc.
Qed.

(** [ParseSchema] in closed form: one table per struct among its
    arguments, in their order, each with the indexes of [addRelations]. *)
Lemma ParseSchema_tables (models : list Codec.Model) :
  Codec.Tables (Codec.ParseSchema models)
  = map (fun t => related (Codec.parseStruct t)) (structs models).
Proof.
  unfold Codec.ParseSchema, Codec.addRelations. cbn [Codec.Tables].
  assert (E : forall acc,
             fold_left
               (fun tables model =>
                  match model with
                  | Codec.MStruct t | Codec.MPtrToStruct t => tables ++ [Codec.parseStruct t]
                  | Codec.MOther => tables
                  end) models acc
             = acc ++ map Codec.parseStruct (structs models)).
  { induction models as [|model models IH]; intros acc; [now rewrite app_nil_r |].
    cbn [fold_left]. rewrite IH. unfold structs.
    destruct model; cbn [omap list_omap]; cbn; rewrite <- ?app_assoc; reflexivity. }
  rewrite E. cbn [app]. rewrite map_map. apply map_ext. intros t.
  unfold related, relationIndexes. now rewrite relation_indexes.
Qed.

Lemma with_column_columns (table : Codec.Table) (column : Codec.Column) :
  Codec.Columns (Codec.with_column table column) = Codec.Columns table ++ [column].
Proof.
  unfold Codec.with_column. cbv zeta.
  destruct (Codec.IsPrimaryKey column), (Codec.IsUnique column),
    (HasSuffix (Codec.ColName column) "_id"); reflexivity.
Qed.

Lemma with_column_name (table : Codec.Table) (column : Codec.Column) :
  Codec.TblName (Codec.with_column table column) = Codec.TblName table.
Proof.
  unfold Codec.with_column. cbv zeta.
  destruct (Codec.IsPrimaryKey column), (Codec.IsUnique column),
    (HasSuffix (Codec.ColName column) "_id"); reflexivity.
Qed.

(** The loop of [parseStruct] from a table built so far. *)
Definition fieldsLoop (fields : list Codec.StructField) (table : Codec.Table) : Codec.Table :=
  fold_left
    (fun table field =>
       if Codec.Anonymous field then table
       else match Codec.newColumn field with
            | Some column => Codec.with_column table column
            | None => table
            end)
    fields table.

Lemma fieldsLoop_cons (field : Codec.StructField) (fields : list Codec.StructField)
    (table : Codec.Table) :
  fieldsLoop (field :: fields) table
  = fieldsLoop fields
      (match fieldColumn field with
       | Some column => Codec.with_column table column
       | None => table
       end).
Proof. unfold fieldsLoop, fieldColumn. cbn [fold_left]. now destruct (Codec.Anonymous field). Qed.

Lemma fieldsLoop_columns (fields : list Codec.StructField) (table : Codec.Table) :
  Codec.Columns (fieldsLoop fields table) = Codec.Columns table ++ omap fieldColumn fields.
Proof.
  revert table. induction fields as [|field fields IH]; intros table.
  - cbn. now rewrite app_nil_r.
  - rewrite fieldsLoop_cons, IH.
    change (omap fieldColumn (field :: fields))
      with (match fieldColumn field with
            | Some y => y :: omap fieldColumn fields
            | None => omap fieldColumn fields
            end).
    destruct (fieldColumn field); [| reflexivity].
    now rewrite with_column_columns, <- app_assoc.
Qed.

Lemma fieldsLoop_name (fields : list Codec.StructField) (table : Codec.Table) :
  Codec.TblName (fieldsLoop fields table) = Codec.TblName table.
Proof.
  revert table. induction fields as [|field fields IH]; intros table; [reflexivity |].
  rewrite fieldsLoop_cons, IH. destruct (fieldColumn field); [| reflexivity].
  apply with_column_name.
Qed.

Lemma parseStruct_columns (t : Codec.StructType) :
  Codec.Columns (Codec.parseStruct t) = omap fieldColumn (Codec.Fields t).
Proof. exact (fieldsLoop_columns (Codec.Fields t) _). Qed.

Lemma parseStruct_name (t : Codec.StructType) :
  Codec.TblName (Codec.parseStruct t) = Codec.toSnakeCase (Codec.TypeName t) +:+ "s".
Proof. exact (fieldsLoop_name (Codec.Fields t) _). Qed.

Lemma setColumnType_emitted (column : Codec.Column) (fieldType : Codec.GoType) :
  Codec.one_of (Codec.ColType (Codec.setColumnType column fieldType)) emittedTypes = true.
Proof.
  unfold Codec.setColumnType, Codec.handleSpecialFields.
  repeat (match goal with
          | |- context [String.eqb (Codec.ColName column) ?lit] =>
              destruct (String.eqb (Codec.ColName column) lit)
          end; [reflexivity |]).
  destruct fieldType; try reflexivity.
  cbn [Codec.handleNumericType is_empty negb]. cbv iota. unfold Codec.handleStringType.
  repeat (match goal with
          | |- context [Codec.one_of (Codec.ColName column) ?l] =>
              destruct (Codec.one_of (Codec.ColName column) l)
          end; [reflexivity |]).
  destruct (HasSuffix _ _); reflexivity.
Qed.

Lemma emitted_validates (sqlType : string) :
  Codec.one_of sqlType emittedTypes = true ->
  exists r, Codec.ValidateSQLType sqlType = Ok r.
Proof.
  unfold Codec.one_of, emittedTypes. cbn [existsb].
  repeat (match goal with
          | |- context [String.eqb sqlType ?lit] =>
              destruct (String.eqb_spec sqlType lit) as [-> | ?]
          end; [intros _; eexists; vm_compute; reflexivity |]).
  discriminate.
Qed.

(** X6. Every column type that [ParseSchema] writes is one that
    [ValidateSQLType] accepts, whatever the structs it is given. *)
Theorem ParseSchema_column_types_validate (models : list Codec.Model)
    (table : Codec.Table) (column : Codec.Column) :
  table ∈ Codec.Tables (Codec.ParseSchema models) ->
  column ∈ Codec.Columns table ->
  exists r, Codec.ValidateSQLType (Codec.ColType column) = Ok r.
Proof.
  rewrite ParseSchema_tables. intros Ht Hc.
  apply list_elem_of_fmap in Ht as (t & -> & _).
  cbn [related Codec.Columns] in Hc. rewrite parseStruct_columns in Hc.
  apply list_elem_of_omap in Hc as (field & _ & Hf).
  unfold fieldColumn, Codec.newColumn in Hf.
  destruct (Codec.Anonymous field); [discriminate |].
  destruct (negb (Codec.IsExported field)); [discriminate |].
  injection Hf as <-. apply emitted_validates, setColumnType_emitted.
Qed.

Lemma ParseSchema_column_types_validate_witness :
  exists r,
    Codec.ValidateSQLType
      (Codec.ColType (Codec.mkColumn "owner_id" "BIGINT UNSIGNED" 0 false Codec.DNil
                        false false false)) = Ok r.
Proof.
  apply (ParseSchema_column_types_validate [Codec.MStruct accountStruct]
           (related (Codec.parseStruct accountStruct))).
  - rewrite ParseSchema_tables. apply list_elem_of_here.
  - cbn [related Codec.Columns]. rewrite parseStruct_columns.
    vm_compute. do 2 apply list_elem_of_further. apply list_elem_of_here.
Defined.

End ParseSchemaFacts.

(** The names of the columns of a table. *)
Definition columnNames (table : Codec.Table) : list string :=
  map Codec.ColName (Codec.Columns table).

(** Every name of [cols] is among [names]. *)
Definition named (names cols : list string) : Prop := Forall (fun c => c ∈ names) cols.

(** The primary key, the indexes and the foreign keys of the table are on
    columns of the table. *)
Definition constraintsNamed (table : Codec.Table) : Prop :=
  Forall (fun fk => named (columnNames table) (Codec.FkColumns fk)) (Codec.ForeignKeys table)
  /\ Forall (fun index => named (columnNames table) (Codec.IdxColumns index))
            (Codec.Indexes table)
  /\ match Codec.TblPrimaryKey table with
     | Some pk => named (columnNames table) (Codec.PkColumns pk)
     | None => True
     end.

Section ConstraintFacts.

Lemma named_grows (names : list string) (name : string) (cols : list string) :
  named names cols -> named (names ++ [name]) cols.
Proof.
  unfold named. intros H. apply (Forall_impl _ _ _ H).
  intros c Hc. apply elem_of_app. now left.
Qed.

Lemma named_last (names : list string) (name : string) : named (names ++ [name]) [name].
Proof.
  constructor; [| constructor]. apply elem_of_app. right. apply list_elem_of_here.
Qed.

Lemma Forall_named_grows {A} (f : A -> list string) (names : list string) (name : string)
    (l : list A) :
  Forall (fun x => named names (f x)) l -> Forall (fun x => named (names ++ [name]) (f x)) l.
Proof. intros H. apply (Forall_impl _ _ _ H). intros x. apply named_grows. Qed.

Lemma with_column_named (table : Codec.Table) (column : Codec.Column) :
  constraintsNamed table -> constraintsNamed (Codec.with_column table column).
Proof.
  intros (Hfk & Hidx & Hpk).
  pose proof (Forall_named_grows Codec.FkColumns _ (Codec.ColName column) _ Hfk) as Hfk'.
  pose proof (Forall_named_grows Codec.IdxColumns _ (Codec.ColName column) _ Hidx) as Hidx'.
  pose proof (named_last (columnNames table) (Codec.ColName column)) as Hlast.
  assert (Hpk' : match Codec.TblPrimaryKey table with
                 | Some pk => named (columnNames table ++ [Codec.ColName column])
                                    (Codec.PkColumns pk)
                 | None => True
                 end).
  { destruct (Codec.TblPrimaryKey table); [now apply named_grows | exact I]. }
  unfold constraintsNamed, columnNames. rewrite with_column_columns, map_app.
  cbn [map]. fold (columnNames table).
  unfold Codec.with_column. cbv zeta.
  destruct (Codec.IsPrimaryKey column), (Codec.IsUnique column),
    (HasSuffix (Codec.ColName column) "_id");
    cbn [Codec.ForeignKeys Codec.Indexes Codec.TblPrimaryKey Codec.PkColumns
         Codec.TblName Codec.Columns];
    rewrite ?Forall_app; repeat split;
    try assumption; try (constructor; [exact Hlast | constructor]).
Qed.

Lemma fieldsLoop_named (fields : list Codec.StructField) (table : Codec.Table) :
  constraintsNamed table -> constraintsNamed (fieldsLoop fields table).
Proof.
  revert table. induction fields as [|field fields IH]; intros table H; [exact H |].
  rewrite fieldsLoop_cons. apply IH. destruct (fieldColumn field); [| exact H].
  now apply with_column_named.
Qed.

Lemma parseStruct_named (t : Codec.StructType) : constraintsNamed (Codec.parseStruct t).
Proof.
  apply (fieldsLoop_named (Codec.Fields t)). repeat split; constructor.
Qed.

Lemma related_named (table : Codec.Table) :
  constraintsNamed table -> constraintsNamed (related table).
Proof.
  intros (Hfk & Hidx & Hpk). unfold constraintsNamed, related, columnNames.
  cbn [Codec.ForeignKeys Codec.Indexes Codec.TblPrimaryKey Codec.Columns].
  fold (columnNames table). split; [exact Hfk |]. split; [| exact Hpk].
  apply Forall_app. split; [exact Hidx |].
  unfold relationIndexes. apply Forall_fmap. apply (Forall_impl _ _ _ Hfk).
  intros fk H. exact H.
Qed.

(** X7. In every table that [ParseSchema] builds, the primary key, every
    index (those that [addRelations] adds as well) and every foreign key
    are on columns that the table has. *)
Theorem ParseSchema_constraints_on_own_columns (models : list Codec.Model)
    (table : Codec.Table) :
  table ∈ Codec.Tables (Codec.ParseSchema models) -> constraintsNamed table.
Proof.
  rewrite ParseSchema_tables. intros Ht.
  apply list_elem_of_fmap in Ht as (t & -> & _).
  apply related_named, parseStruct_named.
Qed.

Lemma ParseSchema_constraints_on_own_columns_witness :
  length (Codec.ForeignKeys (related (Codec.parseStruct accountStruct))) = 1%nat
  /\ length (Codec.Indexes (related (Codec.parseStruct accountStruct))) = 2%nat
  /\ constraintsNamed (related (Codec.parseStruct accountStruct)).
Proof.
  split; [reflexivity |]. split; [reflexivity |].
  apply (ParseSchema_constraints_on_own_columns [Codec.MStruct accountStruct]).
  rewrite ParseSchema_tables. apply list_elem_of_here.
Defined.

(** X8. [ParseSchema] makes one table per struct among its arguments (a
    struct or a pointer to one), in their order, and none for any other
    argument; the table is named after the struct type, in snake case with
    an [s] appended, and has one column per exported field that is not
    embedded, in the order of the fields. *)
Theorem ParseSchema_tables_and_columns (models : list Codec.Model) :
  map Codec.TblName (Codec.Tables (Codec.ParseSchema models))
  = map (fun t => Codec.toSnakeCase (Codec.TypeName t) +:+ "s") (structs models)
  /\ map Codec.Columns (Codec.Tables (Codec.ParseSchema models))
     = map (fun t =>
              omap (fun field =>
                      if Codec.Anonymous field || negb (Codec.IsExported field) then None
                      else Some (Codec.setColumnType
                                   (Codec.createColumn (Codec.FieldName field)
                                                       (Codec.FieldType field))
                                   (Codec.FieldType field)))
                   (Codec.Fields t))
           (structs models).
Proof.
  rewrite ParseSchema_tables, !map_map. split; apply map_ext; intros t.
  - cbn [related Codec.TblName]. apply parseStruct_name.
  - cbn [related Codec.Columns]. rewrite parseStruct_columns.
    apply omap_ext_fun. intros field. unfold fieldColumn, Codec.newColumn.
    now destruct (Codec.Anonymous field), (Codec.IsExported field).
Qed.

End ConstraintFacts.

(** The key under which [createTableSQL] remembers an index it wrote. *)
Definition indexKey (index : Codec.Index) : string := Join (Codec.IdxColumns index) "_".

(** Every foreign key of the table has an index that is not unique on the
    same columns. *)
Definition foreignKeysIndexed (table : Codec.Table) : Prop :=
  Forall (fun fk =>
            exists index, index ∈ Codec.Indexes table
                          /\ Codec.Unique index = false
                          /\ Codec.IdxColumns index = Codec.FkColumns fk)
         (Codec.ForeignKeys table).

Section RelationFacts.

Lemma indexLoop_cons (word : string) (index : Codec.Index) (indexes : list Codec.Index)
    (sql : string) (added : gset string) :
  Codec.indexLoop word (index :: indexes) (sql, added)
  = Codec.indexLoop word indexes
      (if decide (indexKey index ∈ added) then (sql, added)
       else (sql +:+ "," +:+ nl +:+ "  " +:+ word +:+ Codec.bq (Codec.IdxName index)
                 +:+ " (" +:+ Codec.bq (Join (Codec.IdxColumns index) Codec.bq_sep) +:+ ")",
             {[indexKey index]} ∪ added)).
Proof. reflexivity. Qed.

Lemma indexLoop_app (word : string) (l1 l2 : list Codec.Index) (st : string * gset string) :
  Codec.indexLoop word (l1 ++ l2) st = Codec.indexLoop word l2 (Codec.indexLoop word l1 st).
Proof. unfold Codec.indexLoop. apply fold_left_app. Qed.

Lemma indexLoop_skips (word : string) (indexes : list Codec.Index)
    (sql : string) (added : gset string) :
  Forall (fun index => indexKey index ∈ added) indexes ->
  Codec.indexLoop word indexes (sql, added) = (sql, added).
Proof.
  induction 1 as [|index indexes Hin _ IH]; [reflexivity |].
  rewrite indexLoop_cons. now rewrite decide_True.
Qed.

Lemma indexLoop_added (word : string) (indexes : list Codec.Index)
    (sql : string) (added : gset string) :
  added ⊆ (Codec.indexLoop word indexes (sql, added)).2
  /\ Forall (fun index => indexKey index ∈ (Codec.indexLoop word indexes (sql, added)).2)
            indexes.
Proof.
  revert sql added. induction indexes as [|index indexes IH]; intros sql added.
  - split; [reflexivity | constructor].
  - rewrite indexLoop_cons. destruct (decide (indexKey index ∈ added)) as [Hin | Hnin].
    + destruct (IH sql added) as [Hsub Hall]. split; [exact Hsub |].
      constructor; [now apply Hsub | exact Hall].
    + match goal with |- context [Codec.indexLoop word indexes (?s, ?a)] =>
        destruct (IH s a) as [Hsub Hall] end.
      split; [intros x Hx; apply Hsub, elem_of_union; now right |].
      constructor; [| exact Hall].
      apply Hsub, elem_of_union. left. now apply elem_of_singleton.
Qed.

Lemma filter_relationIndexes (table : Codec.Table) :
  filter (fun index => Codec.Unique index = true) (relationIndexes table) = []
  /\ filter (fun index => Codec.Unique index = false) (relationIndexes table)
     = relationIndexes table.
Proof.
  unfold relationIndexes. induction (Codec.ForeignKeys table) as [|fk fks [IH1 IH2]].
  - split; reflexivity.
  - cbn [map]. rewrite !filter_cons. cbn [Codec.Unique].
    rewrite decide_False by discriminate. rewrite decide_True by reflexivity.
    now rewrite IH1, IH2.
Qed.

(** The indexes of [addRelations] leave no trace in the DDL of a table
    whose foreign keys have their indexes already. *)
Lemma createTableSQL_related (table : Codec.Table) :
  foreignKeysIndexed table ->
  Codec.createTableSQL (related table) = Codec.createTableSQL table.
Proof.
  intros Hfk. unfold Codec.createTableSQL. cbv zeta.
  cbn [related Codec.TblName Codec.Columns Codec.TblPrimaryKey Codec.Indexes
       Codec.ForeignKeys].
  destruct (filter_relationIndexes table) as [Eu En].
  rewrite !filter_app, Eu, En, app_nil_r.
  match goal with |- context [Codec.indexLoop "UNIQUE KEY " ?l ?st] =>
    destruct (Codec.indexLoop "UNIQUE KEY " l st) as [sql1 added1] end.
  rewrite indexLoop_app.
  match goal with |- context [Codec.indexLoop "KEY " ?l (sql1, added1)] =>
    pose proof (indexLoop_added "KEY " l sql1 added1) as [_ Hall];
    destruct (Codec.indexLoop "KEY " l (sql1, added1)) as [sql2 added2] end.
  cbn [snd] in Hall. rewrite indexLoop_skips; [reflexivity |].
  unfold relationIndexes. apply Forall_fmap. apply (Forall_impl _ _ _ Hfk).
  intros fk (index & Hin & Hu & Hcols). unfold compose, indexKey. cbn [Codec.IdxColumns].
  rewrite <- Hcols. rewrite Forall_forall in Hall. apply (Hall index).
  apply list_elem_of_filter. split; assumption.
Qed.

Lemma foreignKeysIndexed_grows (table : Codec.Table) (indexes : list Codec.Index) :
  foreignKeysIndexed table ->
  Forall (fun fk =>
            exists index, index ∈ Codec.Indexes table ++ indexes
                          /\ Codec.Unique index = false
                          /\ Codec.IdxColumns index = Codec.FkColumns fk)
         (Codec.ForeignKeys table).
Proof.
  intros H. apply (Forall_impl _ _ _ H). intros fk (index & Hin & Hrest).
  exists index. split; [apply elem_of_app; now left | exact Hrest].
Qed.

Lemma with_column_indexed (table : Codec.Table) (column : Codec.Column) :
  foreignKeysIndexed table -> foreignKeysIndexed (Codec.with_column table column).
Proof.
  intros H. unfold foreignKeysIndexed, Codec.with_column. cbv zeta.
  destruct (Codec.IsPrimaryKey column), (Codec.IsUnique column),
    (HasSuffix (Codec.ColName column) "_id");
    cbn [Codec.ForeignKeys Codec.Indexes Codec.TblPrimaryKey Codec.TblName Codec.Columns];
    rewrite ?Forall_app; repeat split;
    try exact H;
    try (rewrite <- ?app_assoc; apply foreignKeysIndexed_grows; exact H);
    try (constructor; [| constructor]; eexists; split;
         [rewrite !elem_of_app; right; apply list_elem_of_here
         | split; reflexivity]).
Qed.

Lemma fieldsLoop_indexed (fields : list Codec.StructField) (table : Codec.Table) :
  foreignKeysIndexed table -> foreignKeysIndexed (fieldsLoop fields table).
Proof.
  revert table. induction fields as [|field fields IH]; intros table H; [exact H |].
  rewrite fieldsLoop_cons. apply IH. destruct (fieldColumn field); [| exact H].
  now apply with_column_indexed.
Qed.

Lemma parseStruct_indexed (t : Codec.StructType) : foreignKeysIndexed (Codec.parseStruct t).
Proof. apply (fieldsLoop_indexed (Codec.Fields t)). constructor. Qed.

(** X9. The indexes that [addRelations] appends for the foreign keys never
    reach the DDL: [parseStruct] has put an index on the same columns
    before, and [createTableSQL] writes one index per column list.  So
    [ToSQL] of the schema of [ParseSchema] is [ToSQL] of the tables of
    [parseStruct] as they are. *)
Theorem addRelations_leaves_the_DDL_unchanged (models : list Codec.Model) :
  Codec.ToSQL (Codec.ParseSchema models)
  = Codec.ToSQL (Codec.mkSchema (map Codec.parseStruct (structs models)))
  /\ Forall (fun t =>
               length (Codec.Indexes (related (Codec.parseStruct t)))
               = (length (Codec.Indexes (Codec.parseStruct t))
                  + length (Codec.ForeignKeys (Codec.parseStruct t)))%nat)
            (structs models).
Proof.
  split.
  - rewrite !ToSQL_joined, ParseSchema_tables. cbn [Codec.Tables].
    rewrite <- !map_rev, !map_map.
    assert (E1 : map (fun t => Codec.createTableSQL (related (Codec.parseStruct t)))
                     (structs models)
                 = map (fun t => Codec.createTableSQL (Codec.parseStruct t)) (structs models)).
    { apply map_ext. intros t. apply createTableSQL_related, parseStruct_indexed. }
    rewrite E1. reflexivity.
  - apply Forall_forall. intros t _. unfold related, relationIndexes.
    cbn [Codec.Indexes]. now rewrite length_app, length_map.
Qed.

End RelationFacts.

(* ===================================================================== *)
(** * More on CompareSchema *)
(* ===================================================================== *)

(** Every table of [s] has a table of its name in [old], and every one of
    its columns a column of its name there. *)
Definition nothingAdded (s old : Codec.Schema) : Prop :=
  Forall (fun newTable =>
            exists oldTable,
              Codec.findTable (Codec.Tables old) (Codec.TblName newTable) = Some oldTable
              /\ Forall (fun newColumn =>
                           Codec.hasColumn (Codec.Columns oldTable)
                                           (Codec.ColName newColumn) = true)
                        (Codec.Columns newTable))
         (Codec.Tables s).

(** The table [accounts] with its first column only, of another type. *)
Definition narrowAccounts : Codec.Schema :=
  Codec.mkSchema
    [Codec.mkTable "accounts"
       [Codec.mkColumn "id" "INT" 0 true Codec.DNil false false false] [] [] None].

Section CompareFacts.

(** X10. [CompareSchema] finds additions only.  When the old schema has a
    table and the new schema brings no table name and no column name that
    the old one lacks, the result is the empty text: a dropped table, a
    dropped column, a changed type, nullability, default, index or foreign
    key gives no statement. *)
Theorem CompareSchema_finds_additions_only (s old : Codec.Schema) :
  Codec.Tables old <> [] ->
  nothingAdded s old ->
  Codec.CompareSchema s (Some old) = EmptyString.
Proof.
  intros Hne Hall. unfold Codec.CompareSchema.
  destruct (Codec.Tables old) as [|t0 ts] eqn:Eold; [contradiction |].
  cbn [length Nat.eqb]. unfold nothingAdded in Hall. rewrite Eold in Hall.
  induction Hall as [|newTable tables (oldTable & Hfind & Hcols) _ IH]; [reflexivity |].
  cbn [fold_left]. rewrite Hfind.
  assert (E : fold_left
                (fun sql newColumn =>
                   if Codec.hasColumn (Codec.Columns oldTable) (Codec.ColName newColumn)
                   then sql
                   else Codec.separated sql +:+ Codec.addColumnSQL newTable newColumn)
                (Codec.Columns newTable) EmptyString = EmptyString).
  { induction Hcols as [|c cs Hc _ IHc]; [reflexivity |].
    cbn [fold_left]. now rewrite Hc. }
  rewrite E. exact IH.
Qed.

Lemma CompareSchema_finds_additions_only_witness :
  Codec.CompareSchema narrowAccounts (Some accountsModel) = EmptyString.
Proof.
  apply (CompareSchema_finds_additions_only narrowAccounts accountsModel).
  - vm_compute. discriminate.
  - constructor; [| constructor]. eexists. split; [vm_compute; reflexivity |].
    constructor; [reflexivity | constructor].
Defined.

End CompareFacts.

(* ===================================================================== *)
(** * More on the naming helpers *)
(* ===================================================================== *)

(** No byte of the text is a capital letter. *)
Fixpoint no_upper (s : string) : bool :=
  match s with
  | EmptyString => true
  | String c s' => negb (is_upper c) && no_upper s'
  end.

Section PluralFacts.

Lemma HasSuffix_snoc2 (p : string) (c d e : ascii) :
  HasSuffix (p +:+ String c (String d EmptyString)) (String e EmptyString) = Ascii.eqb d e.
Proof.
  replace (p +:+ String c (String d EmptyString))
    with ((p +:+ String c EmptyString) +:+ String d EmptyString)
    by (now rewrite app_assoc_s).
  apply HasSuffix_last_char.
Qed.

(** X11. The rules of [pluralize] of [datara.go]: [s] for the empty name,
    [es] after a name that ends in [s], [ies] for the [y] of a name that
    ends in [y], and [s] after any other name; whatever the name, the
    result ends in [s] and is one or two bytes longer. *)
Theorem pluralize_rules :
  Datara.pluralize EmptyString = "s"
  /\ (forall p, Datara.pluralize (p +:+ "s") = p +:+ "ses")
  /\ (forall p, Datara.pluralize (p +:+ "y") = p +:+ "ies")
  /\ (forall s, is_empty s = false -> HasSuffix s "s" = false -> HasSuffix s "y" = false ->
                Datara.pluralize s = s +:+ "s")
  /\ (forall s, HasSuffix (Datara.pluralize s) "s" = true
                /\ len s + 1 <= len (Datara.pluralize s) <= len s + 2).
Proof.
  split; [reflexivity |]. split; [exact pluralize_s |]. split; [exact pluralize_y |].
  split; [exact pluralize_other |].
  intros s. destruct (is_empty s) eqn:He.
  - destruct s; [| discriminate]. split; [reflexivity | vm_compute; split; discriminate].
  - destruct (last_char_split s He) as (p & c & ->).
    destruct (Ascii.eqb_spec c "s") as [-> | Hs].
    + rewrite pluralize_s. split.
      * change "ses"%string with ("s" +:+ String "e" (String "s" EmptyString)).
        rewrite <- app_assoc_s. apply HasSuffix_snoc2.
      * unfold len; rewrite !length_app_s; simpl String.length; lia.
    + destruct (Ascii.eqb_spec c "y") as [-> | Hy].
      * rewrite pluralize_y. split.
        -- change "ies"%string with ("i" +:+ String "e" (String "s" EmptyString)).
           rewrite <- app_assoc_s. apply HasSuffix_snoc2.
        -- unfold len; rewrite !length_app_s; simpl String.length; lia.
      * rewrite pluralize_other.
        -- split; [| unfold len; rewrite !length_app_s; simpl String.length; lia].
           apply (HasSuffix_last_char (p +:+ String c EmptyString) "s" "s").
        -- apply is_empty_app_char.
        -- rewrite HasSuffix_last_char. now apply Ascii.eqb_neq.
        -- rewrite HasSuffix_last_char. now apply Ascii.eqb_neq.
Qed.

Lemma pluralize_rules_witness :
  Datara.pluralize "bus" = "buses"
  /\ Datara.pluralize "city" = "cities"
  /\ Datara.pluralize "user" = "users".
Proof.
  destruct pluralize_rules as (_ & Hs & Hy & Ho & _).
  split; [exact (Hs "bu"%string) |]. split; [exact (Hy "cit"%string) |].
  apply (Ho "user"%string); reflexivity.
Defined.

End PluralFacts.

(** The text without its underscores. *)
Fixpoint letters (s : string) : string :=
  match s with
  | EmptyString => EmptyString
  | String c s' => if Ascii.eqb c "_" then letters s' else String c (letters s')
  end.

Section SnakeFacts.

Lemma to_lower_not_upper (c : ascii) : is_upper (to_lower c) = false.
Proof. destruct c as [[] [] [] [] [] [] [] []]; reflexivity. Qed.

Lemma to_lower_fixed (c : ascii) : is_upper c = false -> to_lower c = c.
Proof. unfold to_lower. now intros ->. Qed.

Lemma no_upper_app (a b : string) : no_upper (a +:+ b) = no_upper a && no_upper b.
Proof.
  induction a as [|c a IH]; [reflexivity |].
  change (String c a +:+ b) with (String c (a +:+ b)).
  cbn [no_upper]. now rewrite IH, andb_assoc.
Qed.

Lemma letters_app (a b : string) : letters (a +:+ b) = letters a +:+ letters b.
Proof.
  induction a as [|c a IH]; [reflexivity |].
  change (String c a +:+ b) with (String c (a +:+ b)).
  cbn [letters]. rewrite IH. now destruct (Ascii.eqb c "_").
Qed.

Lemma ToLower_no_upper (s : string) : no_upper (ToLower s) = true.
Proof.
  induction s as [|c s IH]; [reflexivity |].
  cbn [ToLower map_bytes no_upper]. rewrite to_lower_not_upper. exact IH.
Qed.

Lemma ToLower_fixed (s : string) : no_upper s = true -> ToLower s = s.
Proof.
  induction s as [|c s IH]; [reflexivity |]. cbn [no_upper]. intros H.
  apply andb_true_iff in H as [Hc Hs]. apply negb_true_iff in Hc.
  cbn [ToLower map_bytes]. rewrite (to_lower_fixed _ Hc). f_equal. exact (IH Hs).
Qed.

Lemma ToLower_app (a b : string) : ToLower (a +:+ b) = ToLower a +:+ ToLower b.
Proof.
  unfold ToLower. induction a as [|c a IH]; [reflexivity |].
  change (String c a +:+ b) with (String c (a +:+ b)).
  cbn [map_bytes]. rewrite IH. reflexivity.
Qed.

Lemma snake_loop_no_upper (first : bool) (prev : ascii) (s : string) :
  no_upper (Datara.snake_loop first prev s) = true.
Proof.
  revert first prev. induction s as [|r s IH]; intros first prev; [reflexivity |].
  cbn [Datara.snake_loop]. cbv zeta.
  destruct (negb first && is_upper r && _);
    cbn [no_upper]; rewrite to_lower_not_upper, IH; reflexivity.
Qed.

Lemma snake_loop_fixed (first : bool) (prev : ascii) (s : string) :
  no_upper s = true -> Datara.snake_loop first prev s = s.
Proof.
  revert first prev. induction s as [|r s IH]; intros first prev; [reflexivity |].
  cbn [no_upper]. intros H. apply andb_true_iff in H as [Hr Hs].
  apply negb_true_iff in Hr. cbn [Datara.snake_loop]. cbv zeta.
  rewrite Hr, andb_false_r. cbn [andb]. rewrite (to_lower_fixed _ Hr), (IH _ _ Hs).
  reflexivity.
Qed.

Lemma snake_loop_letters (first : bool) (prev : ascii) (s : string) :
  letters (Datara.snake_loop first prev s) = letters (ToLower s).
Proof.
  revert first prev. induction s as [|r s IH]; intros first prev; [reflexivity |].
  cbn [Datara.snake_loop ToLower map_bytes]. cbv zeta.
  destruct (negb first && is_upper r && _); cbn [letters]; rewrite ?Ascii.eqb_refl;
    cbn [letters]; fold (ToLower s); now rewrite IH.
Qed.

Lemma snake_loop_length (first : bool) (prev : ascii) (s : string) :
  (String.length s <= String.length (Datara.snake_loop first prev s)
   <= 2 * String.length s)%nat.
Proof.
  revert first prev. induction s as [|r s IH]; intros first prev; [cbn; lia |].
  cbn [Datara.snake_loop]. cbv zeta. specialize (IH false r).
  destruct (negb first && is_upper r && _); cbn [String.length]; lia.
Qed.

(** X12. [toSnakeCase] of [datara.go] on an ASCII name: the result has no
    capital letter, holds the letters of the name in lower case with
    nothing but underscores put in, and is at most twice as long; a name
    without capitals is returned as it is, so the function applied twice
    gives what it gives once. *)
Theorem toSnakeCase_normal_form (s : string) :
  plain s = true ->
  no_upper (Datara.toSnakeCase s) = true
  /\ letters (Datara.toSnakeCase s) = letters (ToLower s)
  /\ len s <= len (Datara.toSnakeCase s) <= 2 * len s
  /\ (no_upper s = true -> Datara.toSnakeCase s = s)
  /\ Datara.toSnakeCase (Datara.toSnakeCase s) = Datara.toSnakeCase s.
Proof.
  intros _. unfold Datara.toSnakeCase.
  split; [apply snake_loop_no_upper |]. split; [apply snake_loop_letters |].
  split; [pose proof (snake_loop_length true zero s); unfold len; lia |].
  split; [apply snake_loop_fixed |].
  apply snake_loop_fixed, snake_loop_no_upper.
Qed.

Lemma toSnakeCase_normal_form_witness :
  plain "UserAPIKey" = true
  /\ Datara.toSnakeCase "UserAPIKey" = "user_api_key"
  /\ no_upper (Datara.toSnakeCase "UserAPIKey") = true
  /\ Datara.toSnakeCase (Datara.toSnakeCase "UserAPIKey") = Datara.toSnakeCase "UserAPIKey".
Proof.
  split; [reflexivity |]. split; [reflexivity |].
  destruct (toSnakeCase_normal_form "UserAPIKey" eq_refl) as (Hn & _ & _ & _ & Hi).
  split; [exact Hn | exact Hi].
Defined.

Lemma snake_upper_loop_fixed (first : bool) (s : string) :
  no_upper s = true -> Codec.snake_upper_loop first s = s.
Proof.
  revert first. induction s as [|r s IH]; intros first; [reflexivity |].
  cbn [no_upper]. intros H. apply andb_true_iff in H as [Hr Hs].
  apply negb_true_iff in Hr. cbn [Codec.snake_upper_loop].
  unfold Codec.snake_upper_loop_step. rewrite Hr, andb_false_r, (IH _ Hs). reflexivity.
Qed.

Lemma snake_upper_loop_letters (first : bool) (s : string) :
  letters (ToLower (Codec.snake_upper_loop first s)) = letters (ToLower s).
Proof.
  revert first. induction s as [|r s IH]; intros first; [reflexivity |].
  cbn [Codec.snake_upper_loop]. unfold Codec.snake_upper_loop_step.
  rewrite ToLower_app, letters_app, IH.
  change (String r s) with (String r EmptyString +:+ s).
  rewrite ToLower_app, letters_app.
  destruct (negb first && is_upper r); reflexivity.
Qed.

Lemma toSnakeCase_fuel_no_upper (fuel : nat) (s : string) :
  no_upper (Codec.toSnakeCase_fuel fuel s) = true.
Proof.
  revert s. induction fuel as [|fuel IH]; intros s; cbn [Codec.toSnakeCase_fuel];
    (destruct (String.eqb s "ID"); [reflexivity |]).
  - apply ToLower_no_upper.
  - destruct (HasSuffix s "ID"); [| apply ToLower_no_upper].
    rewrite no_upper_app, IH. reflexivity.
Qed.

Lemma toSnakeCase_fuel_letters (fuel : nat) (s : string) :
  letters (Codec.toSnakeCase_fuel fuel s) = letters (ToLower s).
Proof.
  revert s. induction fuel as [|fuel IH]; intros s; cbn [Codec.toSnakeCase_fuel];
    (destruct (String.eqb_spec s "ID") as [-> | Hne]; [reflexivity |]).
  - apply snake_upper_loop_letters.
  - destruct (HasSuffix s "ID") eqn:Hs; [| apply snake_upper_loop_letters].
    rewrite letters_app, IH. unfold TrimSuffix. rewrite Hs.
    pose proof (HasSuffix_inv _ _ Hs) as E. rewrite E at 3.
    now rewrite ToLower_app, letters_app.
Qed.

Lemma HasSuffix_upper (s : string) : HasSuffix s "ID" = true -> no_upper s = false.
Proof.
  intros Hs. rewrite (HasSuffix_inv _ _ Hs), no_upper_app. apply andb_false_r.
Qed.

Lemma toSnakeCase_fixed (s : string) : no_upper s = true -> Codec.toSnakeCase s = s.
Proof.
  intros H. rewrite toSnakeCase_unfold.
  destruct (String.eqb_spec s "ID") as [-> | _]; [discriminate |].
  destruct (HasSuffix s "ID") eqn:Hs.
  - apply HasSuffix_upper in Hs. congruence.
  - now rewrite (snake_upper_loop_fixed _ _ H), (ToLower_fixed _ H).
Qed.

(** X13. [toSnakeCase] of the codec on an ASCII name: the result has no
    capital letter and holds the letters of the name in lower case with
    nothing but underscores put in; a name without capitals is returned as
    it is, so the function applied twice gives what it gives once; and a
    name that ends in [ID] (and is not [ID]) gets the ending [_id]. *)
Theorem codec_toSnakeCase_normal_form (s : string) :
  plain s = true ->
  no_upper (Codec.toSnakeCase s) = true
  /\ letters (Codec.toSnakeCase s) = letters (ToLower s)
  /\ (no_upper s = true -> Codec.toSnakeCase s = s)
  /\ Codec.toSnakeCase (Codec.toSnakeCase s) = Codec.toSnakeCase s
  /\ (HasSuffix s "ID" = true -> s <> "ID"%string ->
      HasSuffix (Codec.toSnakeCase s) "_id" = true).
Proof.
  intros _.
  split; [apply toSnakeCase_fuel_no_upper |].
  split; [apply toSnakeCase_fuel_letters |].
  split; [apply toSnakeCase_fixed |].
  split; [apply toSnakeCase_fixed, toSnakeCase_fuel_no_upper |].
  intros Hs Hne. rewrite toSnakeCase_unfold, Hs.
  destruct (String.eqb_spec s "ID") as [-> | _]; [contradiction |].
  apply HasSuffix_app.
Qed.

Lemma codec_toSnakeCase_normal_form_witness :
  plain "OwnerID" = true
  /\ Codec.toSnakeCase "OwnerID" = "owner_id"
  /\ no_upper (Codec.toSnakeCase "OwnerID") = true
  /\ HasSuffix (Codec.toSnakeCase "OwnerID") "_id" = true.
Proof.
  split; [reflexivity |]. split; [reflexivity |].
  destruct (codec_toSnakeCase_normal_form "OwnerID" eq_refl) as (Hn & _ & _ & _ & Hid).
  split; [exact Hn |]. apply Hid; [reflexivity | discriminate].
Defined.

End SnakeFacts.

(* ===================================================================== *)
(** * More on the checksum ledger *)
(* ===================================================================== *)

(** Name and hash are ASCII text. *)
Definition plainEntry (name hash : string) : Prop :=
  plain name = true /\ plain hash = true.

(** The line gives the name no entry: it has not exactly two fields, or
    its first field is another name. *)
Definition silentOn (name line : string) : Prop :=
  forall hash, Fields line <> [name; hash].

(** Among the lines, the last one that has exactly two fields with [name]
    as the first has [hash] as the second. *)
Definition lastEntry (lines : list string) (name hash : string) : Prop :=
  exists before line after,
    lines = before ++ line :: after
    /\ Fields line = [name; hash]
    /\ Forall (silentOn name) after.

Section ManifestFacts.

Lemma plain_app (a b : string) : plain (a +:+ b) = plain a && plain b.
Proof.
  induction a as [|c a IH]; [reflexivity |].
  change (String c a +:+ b) with (String c (a +:+ b)).
  cbn [plain]. now rewrite IH, andb_assoc.
Qed.

Lemma b64_char_plain (v : Z) : (N_of_ascii (Digest.b64_char v) <? 128)%N = true.
Proof.
  unfold Digest.b64_char. generalize (Z.to_nat (v mod 64)). intros n.
  do 64 (destruct n as [|n]; [reflexivity |]). reflexivity.
Qed.

Lemma b64_plain (fuel : nat) (l : list Z) : plain (Digest.b64_go fuel l) = true.
Proof.
  revert l. induction fuel as [|fuel IH]; intros l; [reflexivity |].
  destruct l as [|b0 [|b1 [|b2 l]]]; cbn [Digest.b64_go plain];
    rewrite ?b64_char_plain, ?IH; reflexivity.
Qed.

(** X14. The text of a file hash: [h1:] and 44 characters of base64, 47
    bytes in all, ASCII and without white space, whatever the content; so
    a hash always stands as one field on a line of the manifest. *)
Theorem calculateFileHash_shape (content : string) :
  HasPrefix (Ledger.calculateFileHash content) "h1:" = true
  /\ len (Ledger.calculateFileHash content) = 47
  /\ no_space (Ledger.calculateFileHash content) = true
  /\ plain (Ledger.calculateFileHash content) = true
  /\ Fields (Ledger.calculateFileHash content) = [Ledger.calculateFileHash content].
Proof.
  destruct (calculateFileHash_token content) as [[Hne Hns] Hlen].
  split; [reflexivity |]. split; [unfold len; now rewrite Hlen |].
  split; [exact Hns |]. split.
  - unfold Ledger.calculateFileHash, Digest.EncodeToString.
    rewrite plain_app. apply b64_plain.
  - rewrite <- (app_nil_r_s (Ledger.calculateFileHash content)) at 1.
    apply Fields_token_app; [split; assumption | reflexivity].
Qed.

(** X15. What [writeChecksumFile] writes, [readChecksumFile] reads back:
    for a map whose names and hashes are ASCII words (not empty, no white
    space) on lines shorter than the scanner's limit, and a global hash
    that is such a word, the map read from the manifest just written is
    the map that was written, whatever the order of the map. *)
Theorem manifest_round_trip (order : list string) (checksums : gmap string string)
    (globalHash : string) (entries : gmap string Ledger.Node) :
  Executor.visits checksums order ->
  writable entries "datara.sum" ->
  map_Forall entryOK checksums ->
  map_Forall plainEntry checksums ->
  token globalHash -> len globalHash < Ledger.MaxScanTokenSize ->
  exists text,
    Ledger.writeChecksumFile order checksums globalHash (Some entries)
    = Ok (Some (<["datara.sum" := Ledger.File text]> entries))
    /\ Ledger.readChecksumFile (Some (<["datara.sum" := Ledger.File text]> entries))
       = Ok checksums.
Proof.
  intros Hv Hw Hok _ Hg Hlen.
  destruct (writeChecksumFile_sorted order checksums globalHash entries Hv Hw)
    as (names & Hnames & Hwrite).
  eexists. split; [exact Hwrite |].
  now apply readChecksumFile_written.
Qed.

Lemma exampleChecksums_entries :
  map_Forall entryOK exampleChecksums /\ map_Forall plainEntry exampleChecksums.
Proof.
  assert (Hshape : forall content,
            entryOK "20240101.sql" (Ledger.calculateFileHash content)
            /\ entryOK "20240102.sql" (Ledger.calculateFileHash content)).
  { intros content. destruct (calculateFileHash_token content) as [Ht Hl].
    split; (split; [split; reflexivity |]); (split; [exact Ht |]);
      unfold len; rewrite Hl; reflexivity. }
  unfold exampleChecksums. split.
  - apply map_Forall_insert_2; [apply Hshape |].
    apply map_Forall_insert_2; [apply Hshape | apply map_Forall_empty].
  - apply map_Forall_insert_2; [split; [reflexivity | apply calculateFileHash_shape] |].
    apply map_Forall_insert_2; [split; [reflexivity | apply calculateFileHash_shape] |].
    apply map_Forall_empty.
Qed.

Lemma manifest_round_trip_witness :
  exists text,
    Ledger.writeChecksumFile ["20240102.sql"; "20240101.sql"] exampleChecksums
      (Ledger.calculateFileHash "AB") (Some exampleEntries)
    = Ok (Some (<["datara.sum" := Ledger.File text]> exampleEntries))
    /\ Ledger.readChecksumFile (Some (<["datara.sum" := Ledger.File text]> exampleEntries))
       = Ok exampleChecksums.
Proof.
  apply (manifest_round_trip ["20240102.sql"; "20240101.sql"] exampleChecksums
           (Ledger.calculateFileHash "AB") exampleEntries).
  - exact exampleChecksums_visited.
  - exact I.
  - exact (proj1 exampleChecksums_entries).
  - exact (proj2 exampleChecksums_entries).
  - apply calculateFileHash_token.
  - unfold len. rewrite (proj2 (calculateFileHash_token _)). reflexivity.
Defined.

Lemma lastEntry_cons (line : string) (lines : list string) (name hash : string) :
  lastEntry (line :: lines) name hash
  <-> lastEntry lines name hash
      \/ (Fields line = [name; hash] /\ Forall (silentOn name) lines).
Proof.
  split.
  - intros (before & l & after & E & Hf & Hs). destruct before as [|b before].
    + cbn [app] in E. injection E as -> ->. right. now split.
    + cbn [app] in E. injection E as -> ->. left. now exists before, l, after.
  - intros [(before & l & after & -> & Hf & Hs) | [Hf Hs]].
    + now exists (line :: before), l, after.
    + now exists [], line, lines.
Qed.

Lemma checksumLine_lookup (m : gmap string string) (line name hash : string) :
  Ledger.checksumLine m line !! name = Some hash
  <-> Fields line = [name; hash] \/ (silentOn name line /\ m !! name = Some hash).
Proof.
  unfold Ledger.checksumLine, silentOn.
  destruct (Fields line) as [|n [|h [|x t]]] eqn:E;
    try (split; [intros H; right; split; [intros ? ?; discriminate | exact H]
                | intros [? | [_ H]]; [discriminate | exact H]]).
  destruct (decide (n = name)) as [-> | Hn].
  - rewrite lookup_insert_eq. split.
    + intros [= ->]. now left.
    + intros [[= ->] | [Hs _]]; [reflexivity |]. now destruct (Hs h).
  - rewrite lookup_insert_ne by exact Hn. split.
    + intros H. right. split; [| exact H]. intros h' [= -> _]. now destruct Hn.
    + intros [[= -> _] | [_ H]]; [now destruct Hn | exact H].
Qed.

(** The loop of [readChecksumFile]: an entry of the map is the last line
    for its name, or it was in the map before and no line gives its name. *)
Lemma checksumLines_lookup (lines : list string) (m : gmap string string)
    (name hash : string) :
  fold_left Ledger.checksumLine lines m !! name = Some hash
  <-> lastEntry lines name hash
      \/ (Forall (silentOn name) lines /\ m !! name = Some hash).
Proof.
  revert m. induction lines as [|line lines IH]; intros m.
  - cbn [fold_left]. split.
    + intros H. right. split; [constructor | exact H].
    + intros [(before & l & after & E & _) | [_ H]]; [| exact H].
      now destruct before.
  - cbn [fold_left]. rewrite IH, lastEntry_cons, checksumLine_lookup, Forall_cons.
    tauto.
Qed.

(** X16. What [readChecksumFile] reads from an ASCII manifest: the map
    holds a hash for a name exactly when, among the scanned lines after
    the first, the last line that has exactly two fields with the name as
    the first has this hash as the second.  So the first line and the
    lines with another number of fields give no entry, a later line for a
    name overrides an earlier one, and every entry is a pair of words,
    not empty and without white space. *)
Theorem readChecksumFile_reads_words (entries : gmap string Ledger.Node)
    (content : string) (checksums : gmap string string) :
  entries !! "datara.sum" = Some (Ledger.File content) ->
  plain content = true ->
  Ledger.readChecksumFile (Some entries) = Ok checksums ->
  (forall name hash,
     checksums !! name = Some hash
     <-> lastEntry (tl (Ledger.Scan content).1) name hash)
  /\ map_Forall (fun name hash => token name /\ token hash) checksums.
Proof.
  intros Hfile _ Hread. split.
  - intros name hash. unfold Ledger.readChecksumFile in Hread.
    cbn [Ledger.ReadFile] in Hread. rewrite Hfile in Hread.
    destruct (Ledger.Scan content) as [lines tooLong]. cbn [fst].
    destruct tooLong; [discriminate |]. injection Hread as <-.
    rewrite checksumLines_lookup. split; [intros [H | [_ H]] | intros H; now left].
    + exact H.
    + now rewrite lookup_empty in H.
  - pose proof (readChecksumFile_entries _ _ Hread) as H.
    intros name hash Hl. destruct (H name hash Hl) as (Hn & Hh & _). now split.
Qed.

Lemma readChecksumFile_reads_words_witness :
  Ledger.readChecksumFile (Some recordedEntries) = Ok firstChecksums
  /\ lastEntry
       (tl (Ledger.Scan (manifestText (Ledger.calculateFileHash "A")
                           (checksumLines firstChecksums ["20240101.sql"]))).1)
       "20240101.sql" (Ledger.calculateFileHash "A")
  /\ map_Forall (fun name hash => token name /\ token hash) firstChecksums.
Proof.
  destruct (readChecksumFile_reads_words recordedEntries
              (manifestText (Ledger.calculateFileHash "A")
                 (checksumLines firstChecksums ["20240101.sql"]))
              firstChecksums) as [Hlines Hwords].
  - reflexivity.
  - vm_compute. reflexivity.
  - exact recordedEntries_read.
  - split; [exact recordedEntries_read |]. split; [| exact Hwords].
    apply Hlines. apply lookup_insert_eq.
Defined.

End ManifestFacts.

Section GlobalHashFacts.

Lemma sqlFile_agree (entries entries' : gmap string Ledger.Node) (name : string) :
  (forall name, HasSuffix name ".sql" = true -> entries' !! name = entries !! name) ->
  sqlFile entries' name <-> sqlFile entries name.
Proof.
  intros Hagree. unfold sqlFile. split; intros [[content Hc] Hs];
    (split; [exists content | exact Hs]).
  - now rewrite <- (Hagree name Hs).
  - now rewrite (Hagree name Hs).
Qed.

Lemma concatenation_agree (entries entries' : gmap string Ledger.Node)
    (names : list string) :
  (forall name, HasSuffix name ".sql" = true -> entries' !! name = entries !! name) ->
  Forall (fun name => HasSuffix name ".sql" = true) names ->
  concatenation entries' names = concatenation entries names.
Proof.
  intros Hagree Hall. unfold concatenation. f_equal.
  induction Hall as [|name names Hs _ IH]; [reflexivity |].
  cbn [map]. rewrite IH. f_equal. unfold contentOf. now rewrite (Hagree name Hs).
Qed.

(** X17. The global hash reads the regular files [*.sql] and nothing
    else: two states of the migrations directory that hold the same
    entries under the names that end in [.sql] have the same global hash.
    Writing [datara.sum], [datara.schema] or any other file of another
    ending leaves it as it was. *)
Theorem calculateGlobalHash_reads_sql_files_only (entries entries' : gmap string Ledger.Node) :
  sqlFilesReadable entries ->
  (forall name, HasSuffix name ".sql" = true -> entries' !! name = entries !! name) ->
  Ledger.calculateGlobalHash (Some entries') = Ledger.calculateGlobalHash (Some entries).
Proof.
  intros Hr Hagree.
  pose proof (sqlFilesReadable_lookup _ Hr) as Hread.
  assert (Hread' : forall name, HasSuffix name ".sql" = true ->
                                entries' !! name <> Some Ledger.Unreadable).
  { intros name Hs. rewrite (Hagree name Hs). now apply Hread. }
  destruct (calculateGlobalHash_sorted entries Hread) as (names & Hnames & ->).
  destruct (calculateGlobalHash_sorted entries' Hread') as (names' & Hnames' & ->).
  assert (Hsame : sortedNames (sqlFile entries) names').
  { destruct Hnames' as (Hs & Hn & Hm). split; [exact Hs |]. split; [exact Hn |].
    intros name. rewrite Hm. now apply sqlFile_agree. }
  rewrite (sortedNames_unique _ _ _ Hsame Hnames).
  rewrite (concatenation_agree entries entries' names Hagree); [reflexivity |].
  destruct Hnames as (_ & _ & Hm). apply Forall_forall. intros name Hin.
  apply Hm in Hin. apply Hin.
Qed.

Lemma calculateGlobalHash_reads_sql_files_only_witness :
  Ledger.calculateGlobalHash
    (Some (<["datara.sum" := Ledger.File "anything"]> exampleEntries))
  = Ledger.calculateGlobalHash (Some exampleEntries).
Proof.
  apply (calculateGlobalHash_reads_sql_files_only exampleEntries
           (<["datara.sum" := Ledger.File "anything"]> exampleEntries)).
  - exact exampleEntries_readable.
  - intros name Hs. apply lookup_insert_ne. intros <-. discriminate.
Defined.

End GlobalHashFacts.

(* ===================================================================== *)
(** * cmd/datara/main.go: the last migration *)
(* ===================================================================== *)

Module Command.

(** One round of the loop of [getLastMigrationHash]: the file name that
    is kept, [filename > lastFile] being the order of the bytes. *)
Definition later (lastFile filename : string) : string :=
  if HasSuffix filename ".sql" then
    if is_empty lastFile || String.ltb lastFile filename then filename else lastFile
  else lastFile.

(** [getLastMigrationHash]; [order] is the order of its [range]. *)
Definition getLastMigrationHash (order : list string) (dir : Ledger.Dir) : Result string :=
  match Ledger.readChecksumFile dir with
  | Ok checksums =>
      let lastFile :=
        Executor.range_map checksums order
          (fun filename _ lastFile => later lastFile filename) EmptyString in
      if is_empty lastFile then Ok EmptyString
      else match checksums !! lastFile with
           | Some hash => Ok hash
           | None => Err "hash not found for last migration"
           end
  | Err msg => Err msg
  | Panic => Panic
  end.

End Command.

Section LastMigration.

Lemma ltb_leb (a b : string) : String.ltb a b = true -> String.leb a b = true.
Proof. unfold String.ltb, String.leb. now destruct (String.compare a b). Qed.

Lemma ltb_false_leb (a b : string) : String.ltb a b = false -> String.leb b a = true.
Proof.
  unfold String.ltb, String.leb. rewrite (String.compare_antisym a b).
  now destruct (String.compare b a).
Qed.

Lemma leb_refl (a : string) : String.leb a a = true.
Proof.
  destruct (String.leb_total a a) as [H | H]; exact H.
Qed.

Lemma leb_trans (a b c : string) :
  String.leb a b = true -> String.leb b c = true -> String.leb a c = true.
Proof.
  intros H1 H2. apply Is_true_true.
  apply (@transitivity _ String.le _ a b c); apply Is_true_true; assumption.
Qed.

Lemma leb_not_empty (a b : string) :
  is_empty a = false -> String.leb a b = true -> is_empty b = false.
Proof.
  destruct a as [|c a]; [discriminate |]. intros _.
  destruct b; [cbn; discriminate | reflexivity].
Qed.

Lemma later_bounds (lastFile filename : string) :
  is_empty filename = false ->
  (Command.later lastFile filename = lastFile \/
   (Command.later lastFile filename = filename /\ HasSuffix filename ".sql" = true))
  /\ (is_empty lastFile = false ->
      String.leb lastFile (Command.later lastFile filename) = true)
  /\ (HasSuffix filename ".sql" = true ->
      String.leb filename (Command.later lastFile filename) = true
      /\ is_empty (Command.later lastFile filename) = false).
Proof.
  intros Hne. unfold Command.later. destruct (HasSuffix filename ".sql") eqn:Hs.
  - destruct (is_empty lastFile) eqn:He; cbn [orb].
    + split; [right; now split |]. split; [discriminate |].
      intros _. split; [apply leb_refl | exact Hne].
    + destruct (String.ltb lastFile filename) eqn:Hlt.
      * split; [right; now split |]. split; [intros _; now apply ltb_leb |].
        intros _. split; [apply leb_refl | exact Hne].
      * split; [now left |]. split; [intros _; apply leb_refl |].
        intros _. split; [now apply ltb_false_leb | exact He].
  - split; [now left |]. split; [intros _; apply leb_refl | discriminate].
Qed.

(** The loop of [getLastMigrationHash] over a map whose keys are not
    empty: it ends on its start value, or on a key that ends in [.sql];
    and what it ends on is not below any such key. *)
Lemma lastFile_loop {V} (m : gmap string V) (order : list string) (init : string) :
  (forall k, is_Some (m !! k) -> is_empty k = false) ->
  let lastFile :=
    Executor.range_map m order (fun filename _ lastFile => Command.later lastFile filename)
      init in
  (lastFile = init
   \/ (lastFile ∈ order /\ is_Some (m !! lastFile) /\ HasSuffix lastFile ".sql" = true))
  /\ (is_empty init = false -> String.leb init lastFile = true)
  /\ (forall k, k ∈ order -> is_Some (m !! k) -> HasSuffix k ".sql" = true ->
                String.leb k lastFile = true /\ is_empty lastFile = false).
Proof.
  intros Hkeys. cbv zeta. revert init. induction order as [|k order IH]; intros init.
  - cbn. split; [now left |]. split; [intros _; apply leb_refl |].
    intros k Hin. now apply elem_of_nil in Hin.
  - rewrite range_map_cons. destruct (m !! k) as [v|] eqn:Ek.
    + assert (Hk : is_empty k = false) by (apply Hkeys; now exists v).
      destruct (later_bounds init k Hk) as (Hcase & Hinit & Hsql).
      destruct (IH (Command.later init k)) as (H1 & H2 & H3).
      split; [| split].
      * destruct H1 as [-> | (Hin & Hsome & Hs)].
        -- destruct Hcase as [-> | [-> Hs]]; [now left | right].
           split; [apply list_elem_of_here |]. split; [now exists v | exact Hs].
        -- right. split; [now apply list_elem_of_further | now split].
      * intros Hne. apply (leb_trans _ _ _ (Hinit Hne)). apply H2.
        now apply (leb_not_empty init), Hinit.
      * intros k' Hin Hsome Hs. apply elem_of_cons in Hin as [-> | Hin].
        -- destruct (Hsql Hs) as [Hle Hne].
           split; [exact (leb_trans _ _ _ Hle (H2 Hne)) |].
           exact (leb_not_empty _ _ Hne (H2 Hne)).
        -- now apply H3.
    + destruct (IH init) as (H1 & H2 & H3). split; [| split].
      * destruct H1 as [-> | (Hin & Hrest)]; [now left | right].
        split; [now apply list_elem_of_further | exact Hrest].
      * exact H2.
      * intros k' Hin Hsome Hs. apply elem_of_cons in Hin as [-> | Hin].
        -- rewrite Ek in Hsome. now destruct Hsome.
        -- now apply H3.
Qed.


(** X18. [getLastMigrationHash] ranges over a map, and its result does
    not depend on the order: whenever the manifest can be read it returns
    the hash recorded for the greatest file name that ends in [.sql], in
    the order of the bytes, and the empty text when no recorded name ends
    in [.sql]; its error "hash not found" is never returned. *)
Theorem getLastMigrationHash_latest (order : list string) (dir : Ledger.Dir)
    (checksums : gmap string string) :
  Ledger.readChecksumFile dir = Ok checksums ->
  Executor.visits checksums order ->
  (exists hash, Command.getLastMigrationHash order dir = Ok hash)
  /\ ((forall name, is_Some (checksums !! name) -> HasSuffix name ".sql" = false) ->
      Command.getLastMigrationHash order dir = Ok EmptyString)
  /\ (forall name hash,
        checksums !! name = Some hash ->
        HasSuffix name ".sql" = true ->
        (forall other, is_Some (checksums !! other) -> HasSuffix other ".sql" = true ->
                       String.leb other name = true) ->
        Command.getLastMigrationHash order dir = Ok hash).
Proof.
  intros Hread Hv.
  assert (Hkeys : forall k, is_Some (checksums !! k) -> is_empty k = false).
  { intros k [v Hk]. apply (readChecksumFile_entries _ _ Hread k v Hk). }
  unfold Command.getLastMigrationHash. rewrite Hread. cbv zeta.
  destruct (lastFile_loop checksums order EmptyString Hkeys) as (H1 & _ & H3).
  set (lastFile := Executor.range_map checksums order _ EmptyString) in *.
  split; [| split].
  - destruct (is_empty lastFile) eqn:He; [now eexists |].
    destruct H1 as [E | (_ & [hash Hl] & _)]; [rewrite E in He; discriminate |].
    rewrite Hl. now eexists.
  - intros Hnone. destruct H1 as [-> | (_ & Hsome & Hs)]; [reflexivity |].
    rewrite (Hnone _ Hsome) in Hs. discriminate.
  - intros name hash Hl Hs Hmax.
    assert (Hin : name ∈ order) by (apply (visits_elem checksums order name Hv); now exists hash).
    destruct (H3 name Hin (ex_intro _ hash Hl) Hs) as [Hle Hne].
    rewrite Hne. destruct H1 as [E | (_ & Hsome & Hs')]; [rewrite E in Hne; discriminate |].
    rewrite (String.leb_antisym _ _ (Hmax _ Hsome Hs') Hle), Hl. reflexivity.
Qed.


End LastMigration.

(** The example directory with the manifest of its two migrations. *)
Definition ledgerEntries : gmap string Ledger.Node :=
  <["datara.sum" :=
    Ledger.File (manifestText (Ledger.calculateFileHash "AB")
                   (checksumLines exampleChecksums ["20240101.sql"; "20240102.sql"]))]>
    exampleEntries.

Section LastMigrationExample.

Lemma ledgerEntries_read :
  Ledger.readChecksumFile (Some ledgerEntries) = Ok exampleChecksums.
Proof. vm_compute. reflexivity. Qed.

Lemma exampleChecksums_sorted_visit :
  Executor.visits exampleChecksums ["20240101.sql"; "20240102.sql"].
Proof.
  pose proof exampleChecksums_visited as H. unfold Executor.visits in *.
  rewrite <- H. apply perm_swap.
Qed.

Lemma getLastMigrationHash_latest_witness :
  Command.getLastMigrationHash ["20240102.sql"; "20240101.sql"] (Some ledgerEntries)
  = Ok (Ledger.calculateFileHash "B")
  /\ Command.getLastMigrationHash ["20240101.sql"; "20240102.sql"] (Some ledgerEntries)
     = Ok (Ledger.calculateFileHash "B").
Proof.
  assert (Hmax : forall other,
            is_Some (exampleChecksums !! other) -> HasSuffix other ".sql" = true ->
            String.leb other "20240102.sql" = true).
  { intros other [hash Hl] _. unfold exampleChecksums in Hl.
    apply lookup_insert_Some in Hl as [[<- _] | [_ Hl]]; [reflexivity |].
    apply lookup_insert_Some in Hl as [[<- _] | [_ Hl]]; [reflexivity |].
    now rewrite lookup_empty in Hl. }
  split.
  - apply (proj2 (proj2 (getLastMigrationHash_latest ["20240102.sql"; "20240101.sql"]
                           (Some ledgerEntries) exampleChecksums ledgerEntries_read
                           exampleChecksums_visited))
             "20240102.sql" (Ledger.calculateFileHash "B"));
      [apply lookup_insert_eq | reflexivity | exact Hmax].
  - apply (proj2 (proj2 (getLastMigrationHash_latest ["20240101.sql"; "20240102.sql"]
                           (Some ledgerEntries) exampleChecksums ledgerEntries_read
                           exampleChecksums_sorted_visit))
             "20240102.sql" (Ledger.calculateFileHash "B"));
      [apply lookup_insert_eq | reflexivity | exact Hmax].
Defined.

End LastMigrationExample.

Section RecordedExample.


End RecordedExample.

(* ===================================================================== *)
(** * Trimming *)
(* ===================================================================== *)

(** The first byte of the text, if there is one, is not in the class [f]. *)
Definition first_kept (f : ascii -> bool) (s : string) : bool :=
  match s with
  | EmptyString => true
  | String c _ => negb (f c)
  end.

(** The last byte of the text, if there is one, is not in the class [f]. *)
Fixpoint last_kept (f : ascii -> bool) (s : string) : bool :=
  match s with
  | EmptyString => true
  | String c EmptyString => negb (f c)
  | String _ s' => last_kept f s'
  end.

(** Every byte of the text is in the class [f]. *)
Fixpoint all_bytes (f : ascii -> bool) (s : string) : bool :=
  match s with
  | EmptyString => true
  | String c s' => f c && all_bytes f s'
  end.

Section TrimFacts.

Variable f : ascii -> bool.

Lemma TrimLeftFunc_kept (s : string) : first_kept f s = true -> TrimLeftFunc f s = s.
Proof. destruct s as [|c s]; [reflexivity |]. cbn. now destruct (f c). Qed.

Lemma TrimLeftFunc_first (s : string) : first_kept f (TrimLeftFunc f s) = true.
Proof.
  induction s as [|c s IH]; [reflexivity |]. cbn [TrimLeftFunc].
  destruct (f c) eqn:E; [exact IH |]. cbn. now rewrite E.
Qed.

Lemma TrimLeftFunc_all (p s : string) :
  all_bytes f p = true -> TrimLeftFunc f (p +:+ s) = TrimLeftFunc f s.
Proof.
  induction p as [|c p IH]; [reflexivity |]. cbn [all_bytes]. intros H.
  apply andb_true_iff in H as [Hc Hp].
  change (String c p +:+ s) with (String c (p +:+ s)).
  cbn [TrimLeftFunc]. rewrite Hc. now apply IH.
Qed.

Lemma TrimRightFunc_cons (c : ascii) (s : string) :
  TrimRightFunc f (String c s) =
  if is_empty (TrimRightFunc f s) && f c then EmptyString
  else String c (TrimRightFunc f s).
Proof. reflexivity. Qed.

Lemma TrimRightFunc_kept (s : string) : last_kept f s = true -> TrimRightFunc f s = s.
Proof.
  induction s as [|c s IH]; [reflexivity |]. rewrite TrimRightFunc_cons.
  destruct s as [|d s].
  - cbn [last_kept]. intros H. apply negb_true_iff in H. cbn. now rewrite H.
  - cbn [last_kept]. intros H. rewrite (IH H). reflexivity.
Qed.

Lemma TrimRightFunc_last (s : string) : last_kept f (TrimRightFunc f s) = true.
Proof.
  induction s as [|c s IH]; [reflexivity |]. rewrite TrimRightFunc_cons.
  destruct (TrimRightFunc f s) as [|d r] eqn:E.
  - cbn [is_empty andb]. destruct (f c) eqn:Ec; [reflexivity |]. cbn. now rewrite Ec.
  - cbn [is_empty andb]. exact IH.
Qed.

Lemma TrimRightFunc_first (s : string) :
  first_kept f s = true -> first_kept f (TrimRightFunc f s) = true.
Proof.
  destruct s as [|c s]; [reflexivity |]. cbn [first_kept]. intros H.
  rewrite TrimRightFunc_cons. apply negb_true_iff in H. rewrite H, andb_false_r.
  cbn. now rewrite H.
Qed.

Lemma TrimRightFunc_all (p : string) :
  all_bytes f p = true -> TrimRightFunc f p = EmptyString.
Proof.
  induction p as [|c p IH]; [reflexivity |]. cbn [all_bytes]. intros H.
  apply andb_true_iff in H as [Hc Hp]. rewrite TrimRightFunc_cons, (IH Hp), Hc. reflexivity.
Qed.

Lemma TrimRightFunc_app (a b : string) :
  is_empty (TrimRightFunc f b) = false ->
  TrimRightFunc f (a +:+ b) = a +:+ TrimRightFunc f b.
Proof.
  intros Hb. induction a as [|c a IH]; [reflexivity |].
  change (String c a +:+ b) with (String c (a +:+ b)).
  rewrite TrimRightFunc_cons, IH.
  replace (is_empty (a +:+ TrimRightFunc f b)) with false; [reflexivity |].
  destruct a; cbn; [now rewrite Hb | reflexivity].
Qed.

Lemma TrimRightFunc_app_all (s p : string) :
  all_bytes f p = true -> TrimRightFunc f (s +:+ p) = TrimRightFunc f s.
Proof.
  intros Hp. induction s as [|c s IH]; [now apply TrimRightFunc_all |].
  change (String c s +:+ p) with (String c (s +:+ p)).
  now rewrite !TrimRightFunc_cons, IH.
Qed.

Lemma last_kept_app (a b : string) :
  is_empty b = false -> last_kept f (a +:+ b) = last_kept f b.
Proof.
  intros Hb. induction a as [|c a IH]; [reflexivity |].
  change (String c a +:+ b) with (String c (a +:+ b)).
  cbn [last_kept]. destruct (a +:+ b) as [|d r] eqn:E; [| exact IH].
  destruct a; [cbn in E; rewrite E in Hb; discriminate | discriminate].
Qed.

Lemma lacks_TrimLeftFunc (c : ascii) (s : string) :
  lacks c s = true -> lacks c (TrimLeftFunc f s) = true.
Proof.
  induction s as [|d s IH]; [reflexivity |]. cbn [lacks TrimLeftFunc]. intros H.
  destruct (f d); [| exact H]. apply andb_true_iff in H as [_ H]. now apply IH.
Qed.

Lemma lacks_TrimRightFunc (c : ascii) (s : string) :
  lacks c s = true -> lacks c (TrimRightFunc f s) = true.
Proof.
  induction s as [|d s IH]; [reflexivity |]. cbn [lacks]. intros H.
  apply andb_true_iff in H as [Hd H]. rewrite TrimRightFunc_cons.
  destruct (is_empty _ && f d); [reflexivity |]. cbn [lacks]. now rewrite Hd, IH.
Qed.

End TrimFacts.

(** The text has no white space at either end. *)
Definition trimmed (s : string) : bool := first_kept is_space s && last_kept is_space s.

Section TrimSpaceFacts.

Lemma TrimSpace_trimmed (s : string) : trimmed (TrimSpace s) = true.
Proof.
  unfold trimmed, TrimSpace. rewrite TrimRightFunc_last, andb_true_r.
  apply TrimRightFunc_first, TrimLeftFunc_first.
Qed.

Lemma trimmed_TrimSpace (s : string) : trimmed s = true -> TrimSpace s = s.
Proof.
  unfold trimmed, TrimSpace. intros H. apply andb_true_iff in H as [H1 H2].
  now rewrite (TrimLeftFunc_kept _ _ H1), (TrimRightFunc_kept _ _ H2).
Qed.

Lemma TrimSpace_twice (s : string) : TrimSpace (TrimSpace s) = TrimSpace s.
Proof. apply trimmed_TrimSpace, TrimSpace_trimmed. Qed.

Lemma TrimSpace_leading (p s : string) :
  all_bytes is_space p = true -> TrimSpace (p +:+ s) = TrimSpace s.
Proof. intros H. unfold TrimSpace. now rewrite TrimLeftFunc_all. Qed.

Lemma lacks_TrimSpace (c : ascii) (s : string) :
  lacks c s = true -> lacks c (TrimSpace s) = true.
Proof. intros H. unfold TrimSpace. now apply lacks_TrimRightFunc, lacks_TrimLeftFunc. Qed.

Lemma no_space_trimmed (s : string) : no_space s = true -> trimmed s = true.
Proof.
  intros H. unfold trimmed. apply andb_true_iff. split.
  - destruct s as [|c s]; [reflexivity |]. cbn in H |- *.
    now apply andb_true_iff in H as [H _].
  - induction s as [|c s IH]; [reflexivity |]. cbn [no_space] in H.
    apply andb_true_iff in H as [Hc Hs]. cbn [last_kept].
    destruct s; [exact Hc | now apply IH].
Qed.

End TrimSpaceFacts.

(* ===================================================================== *)
(** * Decimal numbers *)
(* ===================================================================== *)

Section NumberFacts.

Lemma digit_char_digit (k : Z) :
  0 <= k < 10 -> is_digit (digit_char k) = true /\ byte_of (digit_char k) - 48 = k.
Proof.
  intros H.
  assert (E : k = 0 \/ k = 1 \/ k = 2 \/ k = 3 \/ k = 4 \/ k = 5 \/ k = 6 \/ k = 7
              \/ k = 8 \/ k = 9) by lia.
  repeat (destruct E as [-> | E]; [split; reflexivity |]). subst k. split; reflexivity.
Qed.

Lemma all_bytes_app (f : ascii -> bool) (a b : string) :
  all_bytes f (a +:+ b) = all_bytes f a && all_bytes f b.
Proof.
  induction a as [|c a IH]; [reflexivity |].
  change (String c a +:+ b) with (String c (a +:+ b)).
  cbn [all_bytes]. now rewrite IH, andb_assoc.
Qed.

(** [utoa_go] writes the decimal digits of [n] in front of [acc]. *)
Lemma utoa_go_digits (fuel : nat) (n : Z) (acc : string) :
  0 <= n -> Z.log2 n < Z.of_nat fuel ->
  exists d,
    utoa_go fuel n acc = d +:+ acc
    /\ all_bytes is_digit d = true
    /\ is_empty d = false
    /\ forall a e, digits_value (d +:+ e) a = digits_value e (a * 10 ^ len d + n).
Proof.
  revert n acc. induction fuel as [|fuel IH]; intros n acc Hn Hfuel.
  - pose proof (Z.log2_nonneg n). lia.
  - cbn [utoa_go]. cbv zeta.
    destruct (digit_char_digit (n mod 10)) as [Hd Hv]; [apply Z.mod_pos_bound; lia |].
    destruct (Z.ltb_spec n 10) as [Hlt | Hge].
    + exists (String (digit_char (n mod 10)) EmptyString).
      split; [reflexivity |]. split; [cbn; now rewrite Hd |]. split; [reflexivity |].
      intros a e. cbn [String.append digits_value]. rewrite Hd, Hv.
      rewrite Z.mod_small by lia. f_equal. change (len _) with 1. lia.
    + destruct (IH (n / 10) (String (digit_char (n mod 10)) acc)) as (d & E & Hall & Hne & Hval).
      * apply Z.div_pos; lia.
      * assert (Hlog : Z.log2 (n / 10) < Z.log2 n); [| lia].
        assert (0 < n / 10) by (apply Z.div_str_pos; lia).
        apply Z.log2_lt_pow2; [assumption |].
        apply Z.div_lt_upper_bound; [lia |].
        destruct (Z.log2_spec n) as [_ Hup]; [lia |].
        rewrite Z.pow_succ_r in Hup by apply Z.log2_nonneg.
        pose proof (Z.pow_pos_nonneg 2 (Z.log2 n) eq_refl (Z.log2_nonneg n)). lia.
      * exists (d +:+ String (digit_char (n mod 10)) EmptyString).
        split; [rewrite E; now rewrite app_assoc_s |].
        split; [rewrite all_bytes_app, Hall; cbn; now rewrite Hd |].
        split; [now destruct d |].
        intros a e. rewrite app_assoc_s, Hval.
        cbn [String.append digits_value]. rewrite Hd, Hv. f_equal.
        rewrite len_app. change (len (String _ EmptyString)) with 1.
        rewrite Z.pow_add_r by (unfold len; lia).
        pose proof (Z.div_mod n 10). lia.
Qed.

(** The digits that [%d] writes for a number that is not negative. *)
Lemma Itoa_digits (n : Z) :
  0 <= n ->
  all_bytes is_digit (Itoa n) = true
  /\ is_empty (Itoa n) = false
  /\ digits_value (Itoa n) 0 = Some n.
Proof.
  intros Hn. unfold Itoa. replace (n <? 0) with false by (symmetry; apply Z.ltb_ge; lia).
  destruct (utoa_go_digits (S (Z.to_nat (Z.log2 n))) n EmptyString Hn) as (d & E & Hall & Hne & Hval).
  { pose proof (Z.log2_nonneg n). lia. }
  rewrite E, app_nil_r_s. split; [exact Hall |]. split; [exact Hne |].
  specialize (Hval 0 EmptyString). rewrite app_nil_r_s in Hval. rewrite Hval.
  cbn [digits_value]. f_equal; lia.
Qed.

Lemma Atoi_digit (c : ascii) (s : string) :
  is_digit c = true ->
  Atoi (String c s) =
  match digits_value (String c s) 0 with
  | Some v => if (min_int <=? v) && (v <=? max_int) then Some v else None
  | None => None
  end.
Proof. destruct c as [[] [] [] [] [] [] [] []]; try discriminate; reflexivity. Qed.

(** [Atoi] reads back what [%d] writes. *)
Lemma Atoi_Itoa (n : Z) : 0 <= n <= max_int -> Atoi (Itoa n) = Some n.
Proof.
  intros Hn. destruct (Itoa_digits n) as (Hall & Hne & Hval); [lia |].
  destruct (Itoa n) as [|c s] eqn:E; [discriminate |].
  cbn [all_bytes] in Hall. apply andb_true_iff in Hall as [Hc _].
  rewrite (Atoi_digit c s Hc), Hval.
  replace (min_int <=? n) with true by (symmetry; apply Z.leb_le; unfold min_int; lia).
  replace (n <=? max_int) with true by (symmetry; apply Z.leb_le; lia).
  reflexivity.
Qed.

Lemma all_bytes_impl (f g : ascii -> bool) (s : string) :
  (forall c, f c = true -> g c = true) -> all_bytes f s = true -> all_bytes g s = true.
Proof.
  intros H. induction s as [|c s IH]; [reflexivity |]. cbn [all_bytes]. intros Hs.
  apply andb_true_iff in Hs as [Hc Hs]. now rewrite (H c Hc), IH.
Qed.

Lemma all_bytes_lacks (f : ascii -> bool) (c : ascii) (s : string) :
  f c = false -> all_bytes f s = true -> lacks c s = true.
Proof.
  intros Hc. induction s as [|d s IH]; [reflexivity |]. cbn [all_bytes lacks]. intros Hs.
  apply andb_true_iff in Hs as [Hd Hs]. rewrite (IH Hs), andb_true_r.
  apply negb_true_iff, Ascii.eqb_neq. intros ->. congruence.
Qed.

End NumberFacts.

(* ===================================================================== *)
(** * Searching across a byte that the pattern does not hold *)
(* ===================================================================== *)

Section BarrierFacts.

Variable c : ascii.

Lemma HasPrefix_barrier (old a r : string) :
  lacks c old = true -> HasPrefix (a +:+ String c r) old = HasPrefix a old.
Proof.
  revert a. induction old as [|p old IH]; intros a; [reflexivity |].
  cbn [lacks]. intros H. apply andb_true_iff in H as [Hp Hold].
  destruct a as [|x a].
  - cbn [String.append HasPrefix]. apply negb_true_iff in Hp. now rewrite Hp.
  - change (String x a +:+ String c r) with (String x (a +:+ String c r)).
    cbn [HasPrefix]. now rewrite (IH a Hold).
Qed.

Lemma HasPrefix_length (s prefix : string) :
  HasPrefix s prefix = true -> (String.length prefix <= String.length s)%nat.
Proof.
  revert s. induction prefix as [|p prefix IH]; intros s; [cbn; lia |].
  destruct s as [|x s]; [discriminate |]. cbn [HasPrefix String.length]. intros H.
  apply andb_true_iff in H as [_ H]. specialize (IH s H). lia.
Qed.

Lemma index_nat_barrier (old a r : string) :
  lacks c old = true -> is_empty old = false ->
  index_nat (a +:+ String c r) old =
  match index_nat a old with
  | Some i => Some i
  | None => option_map (fun j => (String.length a + 1 + j)%nat) (index_nat r old)
  end.
Proof.
  intros Hold Hne. induction a as [|x a IH].
  - cbn [String.append]. cbn [index_nat].
    pose proof (HasPrefix_barrier old EmptyString r Hold) as Hb. cbn [String.append] in Hb.
    rewrite Hb. destruct old as [|p old]; [discriminate |]. cbn [HasPrefix].
    destruct (index_nat r (String p old)); reflexivity.
  - change (String x a +:+ String c r) with (String x (a +:+ String c r)).
    cbn [index_nat].
    pose proof (HasPrefix_barrier old (String x a) r Hold) as Hb.
    change (String x a +:+ String c r) with (String x (a +:+ String c r)) in Hb.
    rewrite Hb, IH. destruct (HasPrefix (String x a) old); [reflexivity |].
    destruct (index_nat a old); [reflexivity |].
    destruct (index_nat r old); reflexivity.
Qed.

Lemma Contains_barrier (old a r : string) :
  lacks c old = true -> is_empty old = false ->
  Contains (a +:+ String c r) old = Contains a old || Contains r old.
Proof.
  intros Hold Hne. unfold Contains. rewrite (index_nat_barrier old a r Hold Hne).
  destruct (index_nat a old); [reflexivity |]. now destruct (index_nat r old).
Qed.

Lemma replace_go_barrier (old new a r : string) (skip : nat) :
  lacks c old = true -> is_empty old = false ->
  (skip <= String.length a)%nat ->
  replace_go old new (a +:+ String c r) skip
  = replace_go old new a skip +:+ String c (replace_go old new r 0).
Proof.
  intros Hold Hne. revert skip. induction a as [|x a IH]; intros skip Hskip.
  - cbn [String.length] in Hskip. replace skip with O by lia.
    cbn [String.append]. cbn [replace_go].
    pose proof (HasPrefix_barrier old EmptyString r Hold) as Hb. cbn [String.append] in Hb.
    rewrite Hb. destruct old as [|p old]; [discriminate |]. reflexivity.
  - change (String x a +:+ String c r) with (String x (a +:+ String c r)).
    cbn [replace_go]. destruct skip as [|k].
    + pose proof (HasPrefix_barrier old (String x a) r Hold) as Hb.
      change (String x a +:+ String c r) with (String x (a +:+ String c r)) in Hb.
      rewrite Hb. destruct (HasPrefix (String x a) old) eqn:Hp.
      * apply HasPrefix_length in Hp. cbn [String.length] in Hp.
        rewrite IH by lia. now rewrite app_assoc_s.
      * rewrite IH by lia. reflexivity.
    + cbn [String.length] in Hskip. apply IH. lia.
Qed.

End BarrierFacts.

Section SearchFacts.

Lemma index_nat_lacks (u : ascii) (old s : string) :
  lacks u s = true -> index_nat s (String u old) = None.
Proof.
  induction s as [|x s IH]; [reflexivity |]. cbn [lacks]. intros H.
  apply andb_true_iff in H as [Hx Hs]. cbn [index_nat HasPrefix].
  apply negb_true_iff in Hx. rewrite Ascii.eqb_sym in Hx. rewrite Hx. cbn [andb].
  now rewrite (IH Hs).
Qed.

Lemma index_nat_None_cons (x : ascii) (s old : string) :
  index_nat (String x s) old = None ->
  HasPrefix (String x s) old = false /\ index_nat s old = None.
Proof.
  cbn [index_nat]. destruct (HasPrefix (String x s) old); [discriminate |].
  destruct (index_nat s old); [discriminate | now split].
Qed.

(** No occurrence: [ReplaceAll] returns the text. *)
Lemma replace_go_none (old new s : string) :
  index_nat s old = None -> replace_go old new s 0 = s.
Proof.
  induction s as [|x s IH]; [reflexivity |]. intros H.
  apply index_nat_None_cons in H as [Hp Hs]. cbn [replace_go]. rewrite Hp.
  now rewrite (IH Hs).
Qed.

Lemma index_nat_first (u : ascii) (a r : string) :
  lacks u a = true -> index_nat (a +:+ String u r) (sep1 u) = Some (String.length a).
Proof.
  induction a as [|x a IH].
  - intros _. cbn. now rewrite Ascii.eqb_refl.
  - cbn [lacks]. intros H. apply andb_true_iff in H as [Hx Ha].
    change (String x a +:+ String u r) with (String x (a +:+ String u r)).
    unfold sep1 in *. cbn [index_nat HasPrefix]. apply negb_true_iff in Hx.
    rewrite Ascii.eqb_sym in Hx. rewrite Hx. cbn [andb]. now rewrite (IH Ha).
Qed.

Lemma Index_first (u : ascii) (a r : string) :
  lacks u a = true -> Index (a +:+ String u r) (sep1 u) = len a.
Proof. intros H. unfold Index. now rewrite (index_nat_first u a r H). Qed.

Lemma sub_prefix (a b : string) : sub (a +:+ b) 0 (len a) = a.
Proof.
  unfold sub, len. cbn [Z.to_nat drop].
  replace (Z.to_nat (Z.of_nat (String.length a) - 0)) with (String.length a) by lia.
  apply take_app_length.
Qed.

Lemma sub_middle (a b r : string) : sub (a +:+ b +:+ r) (len a) (len a + len b) = b.
Proof.
  unfold sub, len. rewrite Nat2Z.id, drop_app_length.
  replace (Z.to_nat (Z.of_nat (String.length a) + Z.of_nat (String.length b)
                     - Z.of_nat (String.length a))) with (String.length b) by lia.
  apply take_app_length.
Qed.

Lemma ToUpper_app (a b : string) : ToUpper (a +:+ b) = ToUpper a +:+ ToUpper b.
Proof.
  unfold ToUpper. induction a as [|x a IH]; [reflexivity |].
  change (String x a +:+ b) with (String x (a +:+ b)).
  cbn [map_bytes]. now rewrite IH.
Qed.

Lemma ToUpper_digits (d : string) : all_bytes is_digit d = true -> ToUpper d = d.
Proof.
  unfold ToUpper. induction d as [|x d IH]; [reflexivity |]. cbn [all_bytes]. intros H.
  apply andb_true_iff in H as [Hx Hd]. cbn [map_bytes]. rewrite (IH Hd). f_equal.
  destruct x as [[] [] [] [] [] [] [] []]; try discriminate; reflexivity.
Qed.

Lemma digits_no_space (d : string) : all_bytes is_digit d = true -> no_space d = true.
Proof.
  induction d as [|x d IH]; [reflexivity |]. cbn [all_bytes no_space]. intros H.
  apply andb_true_iff in H as [Hx Hd]. rewrite (IH Hd), andb_true_r.
  destruct x as [[] [] [] [] [] [] [] []]; try discriminate; reflexivity.
Qed.

End SearchFacts.

(* ===================================================================== *)
(** * Package datara: the texts of the types *)
(* ===================================================================== *)

Module Printing.

(** The method [String] of [SQLType] (lines 196-228): the name, the parameters that the
    [switch] writes for it, and [UNSIGNED]. *)
Definition SQLType_String (t : Codec.SQLType) : string :=
  let name := Codec.Name t in
  let params :=
    if Codec.one_of name ["DECIMAL"; "NUMERIC"] then
      if (0 <? Codec.Precision t) && (0 <? Codec.Scale t)
      then "(" +:+ Itoa (Codec.Precision t) +:+ "," +:+ Itoa (Codec.Scale t) +:+ ")"
      else EmptyString
    else if Codec.one_of name ["FLOAT"; "DOUBLE"] then
      if 0 <? Codec.Precision t then "(" +:+ Itoa (Codec.Precision t) +:+ ")"
      else EmptyString
    else if Codec.one_of name ["VARCHAR"; "CHAR"] then
      if 0 <? Codec.Length t then "(" +:+ Itoa (Codec.Length t) +:+ ")" else EmptyString
    else if Codec.one_of name ["TINYINT"; "SMALLINT"; "MEDIUMINT"; "INT"; "BIGINT"] then
      if 0 <? Codec.Length t then "(" +:+ Itoa (Codec.Length t) +:+ ")" else EmptyString
    else EmptyString in
  name +:+ params +:+ (if Codec.Unsigned t then " UNSIGNED" else EmptyString).

Record EnumType : Type := mkEnumType {
  EnumName : string;
  Values : list string }.

(** The method [String] of [EnumType] (lines 1111-1119): the values between single
    quotes, a quote inside a value doubled. *)
Definition EnumType_String (e : EnumType) : string :=
  "ENUM("
  +:+ Join (map (fun v => "'" +:+ ReplaceAll v Codec.quote1 Codec.quote2 +:+ "'") (Values e)) ","
  +:+ ")".

End Printing.

(** A Go [int] that is positive. *)
Definition positive_int (n : Z) : Prop := 0 < n <= max_int.

(** The types that [ValidateSQLType] reads back from their text as they
    are: an integer or character type with its length, [DECIMAL] with
    precision and scale, and the types without parameters. *)
Definition readsBack (t : Codec.SQLType) : Prop :=
  (Codec.one_of (Codec.Name t) sizedNames = true
   /\ positive_int (Codec.Length t) /\ Codec.Precision t = 0 /\ Codec.Scale t = 0)
  \/ (Codec.Name t = "DECIMAL"%string
      /\ Codec.Length t = 0 /\ positive_int (Codec.Precision t)
      /\ positive_int (Codec.Scale t))
  \/ (Codec.one_of (Codec.Name t) ("ENUM" :: unsizedNames) = true
      /\ Codec.Length t = 0 /\ Codec.Precision t = 0 /\ Codec.Scale t = 0).

(** What the proofs need of a type name. *)
Definition goodName (name : string) : bool :=
  String.eqb (ToUpper name) name && no_space name && negb (is_empty name)
  && negb (Contains name "UNSIGNED") && lacks "(" name && lacks ")" name.

(** The bytes of a parameter list after its opening parenthesis. *)
Definition paramByte (c : ascii) : bool :=
  is_digit c || Ascii.eqb c "," || Ascii.eqb c ")".

Section PrintingFacts.

Lemma paramByte_quiet (c : ascii) :
  paramByte c = true ->
  to_upper c = c /\ is_space c = false /\ Ascii.eqb c "U" = false.
Proof.
  destruct c as [[] [] [] [] [] [] [] []]; try discriminate; intros _; repeat split.
Qed.

Lemma params_quiet (rest : string) :
  all_bytes paramByte rest = true ->
  ToUpper rest = rest /\ no_space rest = true /\ lacks "U" rest = true.
Proof.
  unfold ToUpper. induction rest as [|x rest IH]; [repeat split |].
  cbn [all_bytes]. intros H. apply andb_true_iff in H as [Hx H].
  destruct (IH H) as (H1 & H2 & H3). destruct (paramByte_quiet x Hx) as (Q1 & Q2 & Q3).
  cbn [map_bytes no_space lacks]. now rewrite Q1, Q2, Q3, H1, H2, H3.
Qed.

Lemma digits_params (d : string) :
  all_bytes is_digit d = true -> all_bytes paramByte d = true.
Proof.
  apply all_bytes_impl. intros c Hc. unfold paramByte. now rewrite Hc.
Qed.

(** The text of a name and its parameter list, and what stands between
    the parentheses. *)
Definition printedParams (params inner : string) : Prop :=
  params = "(" +:+ inner +:+ ")"
  /\ all_bytes paramByte inner = true /\ lacks ")" inner = true.

Lemma printed_all (params inner : string) :
  printedParams params inner -> all_bytes paramByte (inner +:+ ")") = true.
Proof. intros (_ & H & _). rewrite all_bytes_app, H. reflexivity. Qed.

Lemma normalize_plain_text (X : string) (u : bool) :
  ToUpper X = X -> no_space X = true -> is_empty X = false ->
  Contains X "UNSIGNED" = false ->
  Codec.normalize (X +:+ (if u then " UNSIGNED" else EmptyString)) = (u, X).
Proof.
  intros Hup Hns Hne Hcont. unfold Codec.normalize. destruct u.
  - assert (Htrim : TrimSpace (X +:+ " UNSIGNED") = X +:+ " UNSIGNED").
    { apply trimmed_TrimSpace. unfold trimmed. apply andb_true_iff. split.
      - destruct X as [|x X]; [discriminate |]. cbn in Hns |- *.
        now apply andb_true_iff in Hns as [Hx _].
      - rewrite last_kept_app by reflexivity. reflexivity. }
    rewrite Htrim, ToUpper_app, Hup.
    change (ToUpper " UNSIGNED") with (String " " "UNSIGNED").
    rewrite (Contains_barrier " " "UNSIGNED" X "UNSIGNED" eq_refl eq_refl), Hcont.
    cbn [orb]. change (Contains "UNSIGNED" "UNSIGNED") with true. cbv iota.
    unfold ReplaceAll.
    rewrite (replace_go_barrier " " "UNSIGNED" EmptyString X "UNSIGNED" 0 eq_refl eq_refl)
      by lia.
    rewrite replace_go_none
      by (unfold Contains in Hcont; now destruct (index_nat X "UNSIGNED")).
    change (replace_go "UNSIGNED" EmptyString "UNSIGNED" 0) with EmptyString.
    f_equal. unfold TrimSpace. rewrite TrimLeftFunc_kept.
    + rewrite TrimRightFunc_app_all by reflexivity.
      apply TrimRightFunc_kept. pose proof (no_space_trimmed X Hns) as Ht.
      unfold trimmed in Ht. now apply andb_true_iff in Ht as [_ Ht].
    + destruct X as [|x X]; [discriminate |]. cbn in Hns |- *.
      now apply andb_true_iff in Hns as [Hx _].
  - rewrite app_nil_r_s, (trimmed_TrimSpace X (no_space_trimmed X Hns)), Hup, Hcont.
    reflexivity.
Qed.

Lemma goodName_facts (name : string) :
  goodName name = true ->
  ToUpper name = name /\ no_space name = true /\ is_empty name = false
  /\ Contains name "UNSIGNED" = false /\ lacks "(" name = true /\ lacks ")" name = true.
Proof.
  unfold goodName. intros H.
  apply andb_true_iff in H as [H H6]. apply andb_true_iff in H as [H H5].
  apply andb_true_iff in H as [H H4]. apply andb_true_iff in H as [H H3].
  apply andb_true_iff in H as [H1 H2]. apply String.eqb_eq in H1.
  apply negb_true_iff in H3, H4. repeat split; assumption.
Qed.

(** The normalized text of a good name alone. *)
Lemma normalize_name (name : string) (u : bool) :
  goodName name = true ->
  Codec.normalize (name +:+ (if u then " UNSIGNED" else EmptyString)) = (u, name)
  /\ Contains name "(" = false.
Proof.
  intros H. destruct (goodName_facts name H) as (Hup & Hns & Hne & Hun & Hopen & _).
  split.
  - now apply normalize_plain_text.
  - change "("%string with (sep1 "("). rewrite Contains_lacks. now rewrite Hopen.
Qed.

(** The normalized text of a good name with a parameter list, and the
    slices that [ValidateSQLType] takes of it. *)
Lemma normalize_params (name params inner : string) (u : bool) :
  goodName name = true -> printedParams params inner ->
  Codec.normalize (name +:+ params +:+ (if u then " UNSIGNED" else EmptyString))
  = (u, name +:+ params)
  /\ Contains (name +:+ params) "(" = true
  /\ sub (name +:+ params) 0 (Index (name +:+ params) "(") = name
  /\ slice (name +:+ params) (Index (name +:+ params) "(" + 1)
           (Index (name +:+ params) ")") = Some inner.
Proof.
  intros H Hp. pose proof (printed_all _ _ Hp) as Hall.
  destruct Hp as (-> & Hinner & Hclose).
  destruct (goodName_facts name H) as (Hup & Hns & Hne & Hun & Hlo & Hlc).
  destruct (params_quiet _ Hall) as (Q1 & Q2 & Q3).
  change ("(" +:+ inner +:+ ")") with (String "(" (inner +:+ ")")).
  assert (Hopen : Index (name +:+ String "(" (inner +:+ ")")) "(" = len name)
    by (apply (Index_first "(" name); assumption).
  assert (Hclosed : Index (name +:+ String "(" (inner +:+ ")")) ")"
                    = len name + 1 + len inner).
  { replace (name +:+ String "(" (inner +:+ ")"))
      with ((name +:+ "(" +:+ inner) +:+ String ")" EmptyString)
      by (now rewrite !app_assoc_s).
    rewrite (Index_first ")" (name +:+ "(" +:+ inner)).
    - rewrite !len_app. change (len "(") with 1. lia.
    - rewrite !lacks_app. now rewrite Hlc, Hclose. }
  split; [| split; [| split]].
  - rewrite <- app_assoc_s. apply normalize_plain_text.
    + rewrite ToUpper_app, Hup. change (ToUpper (String "(" (inner +:+ ")")))
        with (String "(" (ToUpper (inner +:+ ")"))). now rewrite Q1.
    + rewrite no_space_app. cbn [no_space]. now rewrite Hns, Q2.
    + destruct name; [discriminate | reflexivity].
    + rewrite (Contains_barrier "(" "UNSIGNED" name (inner +:+ ")") eq_refl eq_refl).
      rewrite Hun. cbn [orb]. unfold Contains.
      now rewrite (index_nat_lacks "U" "NSIGNED" _ Q3).
  - change "("%string with (sep1 "("). rewrite Contains_lacks, lacks_app.
    cbn [lacks]. rewrite Ascii.eqb_refl. cbn. now rewrite andb_false_r.
  - rewrite Hopen. apply sub_prefix.
  - rewrite Hopen, Hclosed. unfold slice.
    assert (Hlen : len (name +:+ String "(" (inner +:+ ")")) = len name + 1 + len inner + 1).
    { change (String "(" (inner +:+ ")")) with ("(" +:+ inner +:+ ")").
      rewrite !len_app. change (len "(") with 1. change (len ")") with 1. lia. }
    rewrite Hlen.
    replace (0 <=? len name + 1) with true by (symmetry; apply Z.leb_le; unfold len; lia).
    replace (len name + 1 <=? len name + 1 + len inner) with true
      by (symmetry; apply Z.leb_le; unfold len; lia).
    replace (len name + 1 + len inner <=? len name + 1 + len inner + 1) with true
      by (symmetry; apply Z.leb_le; lia).
    cbn [andb]. f_equal.
    replace (name +:+ String "(" (inner +:+ ")"))
      with ((name +:+ "(") +:+ inner +:+ ")") by (now rewrite !app_assoc_s).
    replace (len name + 1) with (len (name +:+ "("))
      by (rewrite len_app; reflexivity).
    apply sub_middle.
Qed.

End PrintingFacts.

Section ReadBackFacts.

Lemma ValidateSQLType_with_params (name params inner : string) (u : bool) :
  goodName name = true -> printedParams params inner ->
  Codec.ValidateSQLType (name +:+ params +:+ (if u then " UNSIGNED" else EmptyString))
  = Codec.applyDefaults (name +:+ params)
      (Codec.parseParams inner
         (Codec.set_Name name (Codec.mkSQLType EmptyString 0 0 0 u))).
Proof.
  intros Hn Hp. destruct (normalize_params name params inner u Hn Hp) as (E1 & E2 & E3 & E4).
  unfold Codec.ValidateSQLType. rewrite E1, E2, E3, E4. reflexivity.
Qed.

Lemma ValidateSQLType_without_params (name : string) (u : bool) :
  goodName name = true ->
  Codec.ValidateSQLType (name +:+ (if u then " UNSIGNED" else EmptyString))
  = Codec.applyDefaults name (Codec.set_Name name (Codec.mkSQLType EmptyString 0 0 0 u)).
Proof.
  intros Hn. destruct (normalize_name name u Hn) as (E1 & E2).
  unfold Codec.ValidateSQLType. rewrite E1, E2. reflexivity.
Qed.

(** One number between the parentheses. *)
Lemma printed_number (n : Z) :
  0 <= n -> printedParams ("(" +:+ Itoa n +:+ ")") (Itoa n).
Proof.
  intros Hn. destruct (Itoa_digits n Hn) as (Hall & _ & _).
  split; [reflexivity |]. split; [now apply digits_params |].
  now apply (all_bytes_lacks is_digit).
Qed.

Lemma parseParams_number (n : Z) (r : Codec.SQLType) :
  0 <= n <= max_int -> Codec.parseParams (Itoa n) r = Codec.set_Length n r.
Proof.
  intros Hn. destruct (Itoa_digits n) as (Hall & _ & _); [lia |].
  unfold Codec.parseParams. change ","%string with (sep1 ",").
  rewrite Contains_lacks, (all_bytes_lacks is_digit "," _ eq_refl Hall).
  cbn [negb]. now rewrite Atoi_Itoa.
Qed.

(** Two numbers and a comma between the parentheses. *)
Lemma printed_pair (p s : Z) :
  0 <= p -> 0 <= s ->
  printedParams ("(" +:+ Itoa p +:+ "," +:+ Itoa s +:+ ")") (Itoa p +:+ "," +:+ Itoa s).
Proof.
  intros Hp Hs. destruct (Itoa_digits p Hp) as (Hap & _ & _).
  destruct (Itoa_digits s Hs) as (Has & _ & _).
  split; [now rewrite !app_assoc_s |]. split.
  - rewrite !all_bytes_app, (digits_params _ Hap), (digits_params _ Has). reflexivity.
  - rewrite !lacks_app, (all_bytes_lacks is_digit ")" _ eq_refl Hap),
      (all_bytes_lacks is_digit ")" _ eq_refl Has). reflexivity.
Qed.

Lemma parseParams_pair (p s : Z) (r : Codec.SQLType) :
  0 <= p <= max_int -> 0 <= s <= max_int ->
  Codec.parseParams (Itoa p +:+ "," +:+ Itoa s) r
  = Codec.set_Scale s (Codec.set_Precision p r).
Proof.
  intros Hp Hs. destruct (Itoa_digits p) as (Hap & _ & _); [lia |].
  destruct (Itoa_digits s) as (Has & _ & _); [lia |].
  unfold Codec.parseParams. change ","%string with (sep1 ",").
  rewrite Contains_lacks, !lacks_app.
  replace (lacks "," (sep1 ",")) with false by reflexivity.
  rewrite andb_false_r. cbn [negb andb].
  rewrite Split_app, !Split_lacks by (now apply (all_bytes_lacks is_digit)).
  cbn [app].
  rewrite !trimmed_TrimSpace by (now apply no_space_trimmed, digits_no_space).
  now rewrite !Atoi_Itoa.
Qed.

Lemma when_zero_positive (v d : Z) : 0 < v -> Codec.when_zero v d = v.
Proof. intros H. unfold Codec.when_zero. destruct (Z.eqb_spec v 0); [lia | reflexivity]. Qed.

Ltac by_name n :=
  repeat (match goal with
          | H : context [String.eqb n ?lit] |- _ =>
              destruct (String.eqb_spec n lit) as [-> | ?]
          end; [ | ]).

(** X19. [ValidateSQLType] reads back what the method [String] of
    [SQLType] writes, for an integer or character type with a positive
    length, for [DECIMAL] with a positive precision and scale, and for the
    types without parameters, signed or unsigned: the text of such a type
    validates to the type itself. *)
Theorem ValidateSQLType_reads_back (t : Codec.SQLType) :
  readsBack t -> Codec.ValidateSQLType (Printing.SQLType_String t) = Ok t.
Proof.
  destruct t as [n l p s u]. unfold readsBack, positive_int.
  cbn [Codec.Name Codec.Length Codec.Precision Codec.Scale].
  intros [(Hn & Hl & -> & ->) | [(-> & -> & Hp & Hs) | (Hn & -> & -> & ->)]].
  - assert (Hpos : (0 <? l) = true) by (apply Z.ltb_lt; lia).
    assert (E : Printing.SQLType_String (Codec.mkSQLType n l 0 0 u)
                = n +:+ ("(" +:+ Itoa l +:+ ")")
                  +:+ (if u then " UNSIGNED" else EmptyString)).
    { unfold Printing.SQLType_String.
      cbn [Codec.Name Codec.Length Codec.Precision Codec.Scale Codec.Unsigned].
      rewrite Hpos. unfold Codec.one_of, sizedNames in *. cbn [existsb] in *.
      by_name n; try reflexivity. discriminate. }
    rewrite E, (ValidateSQLType_with_params n _ (Itoa l) u).
    + rewrite parseParams_number by lia.
      unfold Codec.one_of, sizedNames in Hn. cbn [existsb] in Hn.
      by_name n; try discriminate;
        unfold Codec.applyDefaults; cbn; rewrite ?when_zero_positive by lia;
        try reflexivity;
        replace (l =? 0) with false by (symmetry; apply Z.eqb_neq; lia); reflexivity.
    + unfold Codec.one_of, sizedNames in Hn. cbn [existsb] in Hn.
      by_name n; try reflexivity. discriminate.
    + apply printed_number. lia.
  - assert (Hpos : (0 <? p) && (0 <? s) = true)
      by (apply andb_true_iff; split; apply Z.ltb_lt; lia).
    assert (E : Printing.SQLType_String (Codec.mkSQLType "DECIMAL" 0 p s u)
                = "DECIMAL" +:+ ("(" +:+ Itoa p +:+ "," +:+ Itoa s +:+ ")")
                  +:+ (if u then " UNSIGNED" else EmptyString)).
    { unfold Printing.SQLType_String.
      cbn [Codec.Name Codec.Length Codec.Precision Codec.Scale Codec.Unsigned].
      rewrite Hpos. reflexivity. }
    rewrite E, (ValidateSQLType_with_params "DECIMAL" _ (Itoa p +:+ "," +:+ Itoa s) u).
    + rewrite parseParams_pair by lia.
      unfold Codec.applyDefaults. cbn. rewrite !when_zero_positive by lia. reflexivity.
    + reflexivity.
    + apply printed_pair; lia.
  - assert (E : Printing.SQLType_String (Codec.mkSQLType n 0 0 0 u)
                = n +:+ (if u then " UNSIGNED" else EmptyString)).
    { unfold Printing.SQLType_String.
      cbn [Codec.Name Codec.Length Codec.Precision Codec.Scale Codec.Unsigned].
      unfold Codec.one_of, unsizedNames in *. cbn [existsb] in *.
      by_name n; try reflexivity. discriminate. }
    rewrite E, (ValidateSQLType_without_params n u).
    + unfold Codec.one_of, unsizedNames in Hn. cbn [existsb] in Hn.
      by_name n; try discriminate; reflexivity.
    + unfold Codec.one_of, unsizedNames in Hn. cbn [existsb] in Hn.
      by_name n; try reflexivity. discriminate.
Qed.

End ReadBackFacts.

Section ReadBackExamples.

Lemma ValidateSQLType_reads_back_witness :
  Printing.SQLType_String (Codec.mkSQLType "BIGINT" 20 0 0 true) = "BIGINT(20) UNSIGNED"
  /\ Codec.ValidateSQLType (Printing.SQLType_String (Codec.mkSQLType "BIGINT" 20 0 0 true))
     = Ok (Codec.mkSQLType "BIGINT" 20 0 0 true)
  /\ Codec.ValidateSQLType (Printing.SQLType_String (Codec.mkSQLType "DECIMAL" 0 12 4 false))
     = Ok (Codec.mkSQLType "DECIMAL" 0 12 4 false).
Proof.
  split; [reflexivity |]. split.
  - apply (ValidateSQLType_reads_back (Codec.mkSQLType "BIGINT" 20 0 0 true)).
    left. repeat split; try reflexivity. discriminate.
  - apply (ValidateSQLType_reads_back (Codec.mkSQLType "DECIMAL" 0 12 4 false)).
    right. left. repeat split; try reflexivity; discriminate.
Defined.

(** X20. For [FLOAT] and [DOUBLE] the two methods do not agree: [String]
    writes the precision as the one parameter, and [ValidateSQLType] reads
    one parameter as a length and puts the default precision in.  So the
    text of a [FLOAT] of precision [p] validates to a [FLOAT] of length
    [p] and precision 10, and that of a [DOUBLE] to length [p] and
    precision 16. *)
Theorem ValidateSQLType_reads_precision_as_length (p : Z) (u : bool) :
  positive_int p ->
  Codec.ValidateSQLType (Printing.SQLType_String (Codec.mkSQLType "FLOAT" 0 p 0 u))
  = Ok (Codec.mkSQLType "FLOAT" p 10 0 u)
  /\ Codec.ValidateSQLType (Printing.SQLType_String (Codec.mkSQLType "DOUBLE" 0 p 0 u))
     = Ok (Codec.mkSQLType "DOUBLE" p 16 0 u).
Proof.
  unfold positive_int. intros Hp.
  assert (Hpos : (0 <? p) = true) by (apply Z.ltb_lt; lia).
  assert (E : forall name,
            (name = "FLOAT" \/ name = "DOUBLE") ->
            Printing.SQLType_String (Codec.mkSQLType name 0 p 0 u)
            = name +:+ ("(" +:+ Itoa p +:+ ")")
              +:+ (if u then " UNSIGNED" else EmptyString)).
  { intros name [-> | ->]; unfold Printing.SQLType_String;
      cbn [Codec.Name Codec.Length Codec.Precision Codec.Scale Codec.Unsigned];
      change (Codec.one_of _ ["DECIMAL"; "NUMERIC"]) with false;
      change (Codec.one_of _ ["FLOAT"; "DOUBLE"]) with true;
      cbv iota; rewrite Hpos; reflexivity. }
  split.
  - rewrite (E "FLOAT" (or_introl eq_refl)), (ValidateSQLType_with_params "FLOAT" _ (Itoa p) u);
      [| reflexivity | apply printed_number; lia].
    rewrite parseParams_number by lia. reflexivity.
  - rewrite (E "DOUBLE" (or_intror eq_refl)), (ValidateSQLType_with_params "DOUBLE" _ (Itoa p) u);
      [| reflexivity | apply printed_number; lia].
    rewrite parseParams_number by lia. reflexivity.
Qed.

Lemma ValidateSQLType_reads_precision_as_length_witness :
  Codec.ValidateSQLType "FLOAT" = Ok (Codec.mkSQLType "FLOAT" 0 10 0 false)
  /\ Printing.SQLType_String (Codec.mkSQLType "FLOAT" 0 10 0 false) = "FLOAT(10)"
  /\ Codec.ValidateSQLType (Printing.SQLType_String (Codec.mkSQLType "FLOAT" 0 10 0 false))
     = Ok (Codec.mkSQLType "FLOAT" 10 10 0 false).
Proof.
  split; [reflexivity |]. split; [reflexivity |].
  apply (ValidateSQLType_reads_precision_as_length 10 false).
  split; [reflexivity | discriminate].
Defined.

End ReadBackExamples.

(* ===================================================================== *)
(** * Splitting a column list at its top-level commas *)
(* ===================================================================== *)

Section SplitColumns.

Lemma is_empty_true (s : string) : is_empty s = true -> s = EmptyString.
Proof. now destruct s. Qed.

Lemma app_char_not_empty (p : string) (c : ascii) : p +:+ String c EmptyString <> EmptyString.
Proof. now destruct p. Qed.

(** The loop gives no piece only when there is nothing left to read and the
    builder is empty. *)
Lemma splitLoop_nil (s : string) (parenCount : Z) (current : string) :
  Executor.splitLoop s parenCount current = [] ->
  s = EmptyString /\ current = EmptyString.
Proof.
  revert parenCount current. induction s as [|c s IH]; intros n cur.
  - cbn [Executor.splitLoop]. destruct (is_empty cur) eqn:E; [| discriminate].
    intros _. split; [reflexivity | now apply is_empty_true].
  - cbn [Executor.splitLoop].
    destruct (Ascii.eqb c "(");
      [intros H; apply IH in H as [_ H]; now apply app_char_not_empty in H |].
    destruct (Ascii.eqb c ")");
      [intros H; apply IH in H as [_ H]; now apply app_char_not_empty in H |].
    destruct (Ascii.eqb c ",").
    + destruct (n =? 0); [discriminate |].
      intros H; apply IH in H as [_ H]; now apply app_char_not_empty in H.
    + intros H; apply IH in H as [_ H]; now apply app_char_not_empty in H.
Qed.

Lemma app_char_s (p : string) (c : ascii) (s : string) :
  (p +:+ String c EmptyString) +:+ s = p +:+ String c s.
Proof. now rewrite app_assoc_s. Qed.

(** The pieces, joined with commas, spell the builder and the rest of the
    text, but for one comma at the very end. *)
Lemma splitLoop_joined (s : string) (parenCount : Z) (current : string) :
  let pieces := Executor.splitLoop s parenCount current in
  Join pieces "," = current +:+ s \/ Join pieces "," +:+ "," = current +:+ s.
Proof.
  revert parenCount current. induction s as [|c s IH]; intros n cur; cbn zeta.
  - cbn [Executor.splitLoop]. left. rewrite app_nil_r_s.
    destruct (is_empty cur) eqn:E; [| reflexivity].
    now rewrite (is_empty_true _ E).
  - cbn [Executor.splitLoop].
    destruct (Ascii.eqb_spec c "(") as [-> | _];
      [rewrite <- (app_char_s cur "(" s); apply IH |].
    destruct (Ascii.eqb_spec c ")") as [-> | _];
      [rewrite <- (app_char_s cur ")" s); apply IH |].
    destruct (Ascii.eqb_spec c ",") as [-> | _];
      [| rewrite <- (app_char_s cur c s); apply IH].
    destruct (n =? 0); [| rewrite <- (app_char_s cur "," s); apply IH].
    destruct (Executor.splitLoop s n EmptyString) as [|y rest] eqn:E.
    + apply splitLoop_nil in E as [-> _]. right. reflexivity.
    + rewrite Join_cons2. specialize (IH n EmptyString). rewrite E in IH. cbn zeta in IH.
      change (EmptyString +:+ s) with s in IH.
      destruct IH as [IH | IH]; [left | right].
      * now rewrite IH.
      * rewrite !app_assoc_s. now rewrite IH.
Qed.

(** X21. [splitKeepingParentheses] loses nothing but a comma at the very
    end of the text: its pieces joined with commas are the text again, or
    the text without its last byte, which is then a comma. *)
Theorem splitKeepingParentheses_joins_back (s : string) :
  let pieces := Executor.splitKeepingParentheses s in
  Join pieces "," = s
  \/ (HasSuffix s "," = true /\ Join pieces "," +:+ "," = s).
Proof.
  cbn zeta. unfold Executor.splitKeepingParentheses.
  destruct (splitLoop_joined s 0 EmptyString) as [H | H]; cbn zeta in H;
    change (EmptyString +:+ s) with s in H.
  - now left.
  - right. split; [| exact H]. rewrite <- H. apply HasSuffix_app.
Qed.

End SplitColumns.

(* ===================================================================== *)
(** * Cleaning the output of the schema program *)
(* ===================================================================== *)

(** The bytes that [cleanOutput] strips from the end of the text. *)
Definition outputCutset : string :=
  "% " +:+ String (chr 9) (String (chr 10) (String (chr 13) EmptyString)).

(** What the loop of [cleanOutput] keeps of a line. *)
Definition cleanLine (line : string) : option string :=
  let line := TrimSpace line in
  if negb (is_empty line) then Some line else None.

(** A line as [cleanOutput] leaves it: not empty, no white space at its ends. *)
Definition cleanedLine (line : string) : Prop :=
  trimmed line = true /\ is_empty line = false.

(** The vertical tab and the form feed: white space for [TrimSpace], but
    not in the cut set of [cleanOutput]. *)
Definition vtab : ascii := chr 11.
Definition formfeed : ascii := chr 12.

Section CleanFacts.

Lemma cleanOutput_lines (s : string) :
  Executor.cleanOutput s = Join (omap cleanLine (Split (TrimRight s outputCutset) nl)) nl.
Proof. reflexivity. Qed.

Lemma cleanLine_fixed (y : string) : cleanedLine y -> cleanLine y = Some y.
Proof.
  intros [Ht Hn]. unfold cleanLine. cbv zeta. now rewrite (trimmed_TrimSpace _ Ht), Hn.
Qed.

Lemma cleanLine_Some (line y : string) :
  cleanLine line = Some y -> cleanedLine y /\ y = TrimSpace line.
Proof.
  unfold cleanLine. cbv zeta. destruct (is_empty (TrimSpace line)) eqn:E; [discriminate |].
  cbn [negb]. intros [= <-]. split; [| reflexivity].
  split; [apply TrimSpace_trimmed | exact E].
Qed.

Lemma cleaned_lines (c : ascii) (lines : list string) :
  Forall (fun p => lacks c p = true) lines ->
  Forall (fun y => cleanedLine y /\ lacks c y = true) (omap cleanLine lines).
Proof.
  induction 1 as [|line lines Hl _ IH]; [constructor |]. cbn [omap list_omap].
  destruct (cleanLine line) as [y|] eqn:E; [| exact IH].
  constructor; [| exact IH]. apply cleanLine_Some in E as [Hy ->].
  split; [exact Hy | now apply lacks_TrimSpace].
Qed.

Lemma omap_cleanLine_fixed (l : list string) :
  Forall cleanedLine l -> omap cleanLine l = l.
Proof.
  induction 1 as [|y l Hy _ IH]; [reflexivity |]. cbn [omap list_omap].
  now rewrite (cleanLine_fixed _ Hy), IH.
Qed.

Lemma Split_Join_lines (l : list string) :
  l <> [] -> Forall (fun p => lacks (chr 10) p = true) l -> Split (Join l nl) nl = l.
Proof.
  destruct l as [|x l]; [contradiction |]. intros _ H.
  exact (Split_Join (chr 10) x l H).
Qed.

(** X22. Every line of the text that [cleanOutput] returns is non-empty and
    has no white space at either end, unless the text is empty. *)
Theorem cleanOutput_lines_are_clean (s : string) :
  plain s = true ->
  Executor.cleanOutput s = EmptyString
  \/ Forall cleanedLine (Split (Executor.cleanOutput s) nl).
Proof.
  intros _. rewrite cleanOutput_lines.
  pose proof (cleaned_lines (chr 10) _ (Split_pieces (chr 10) (TrimRight s outputCutset)))
    as H.
  change (sep1 (chr 10)) with nl in H.
  destruct (omap cleanLine (Split (TrimRight s outputCutset) nl)) as [|x l] eqn:E;
    [left; reflexivity | right].
  rewrite Split_Join_lines; [| discriminate |].
  - eapply Forall_impl; [exact H |]. now intros y [Hy _].
  - eapply Forall_impl; [exact H |]. now intros y [_ Hy].
Qed.

Lemma cleanOutput_lines_are_clean_witness :
  Executor.cleanOutput ("  CREATE TABLE t (" +:+ nl +:+ nl +:+ "  id int );  " +:+ nl +:+ "%")
  = "CREATE TABLE t (" +:+ nl +:+ "id int );"
  /\ (Executor.cleanOutput ("  CREATE TABLE t (" +:+ nl +:+ nl +:+ "  id int );  " +:+ nl +:+ "%")
      = EmptyString
      \/ Forall cleanedLine
           (Split (Executor.cleanOutput
                     ("  CREATE TABLE t (" +:+ nl +:+ nl +:+ "  id int );  " +:+ nl +:+ "%")) nl)).
Proof.
  split; [reflexivity |].
  apply (cleanOutput_lines_are_clean
           ("  CREATE TABLE t (" +:+ nl +:+ nl +:+ "  id int );  " +:+ nl +:+ "%")).
  reflexivity.
Defined.

Lemma last_kept_mono (f g : ascii -> bool) (s : string) :
  (forall c, f c = true -> g c = true) -> last_kept g s = true -> last_kept f s = true.
Proof.
  intros Hfg. induction s as [|c s IH]; [reflexivity |]. cbn [last_kept].
  destruct s as [|d s]; [| exact IH].
  intros H. apply negb_true_iff in H. apply negb_true_iff.
  destruct (f c) eqn:E; [| reflexivity]. rewrite (Hfg c E) in H. discriminate.
Qed.

Lemma TrimRightFunc_ext (f g : ascii -> bool) (s : string) :
  all_bytes (fun c => Bool.eqb (f c) (g c)) s = true ->
  TrimRightFunc f s = TrimRightFunc g s.
Proof.
  induction s as [|c s IH]; [reflexivity |]. cbn [all_bytes]. intros H.
  apply andb_true_iff in H as [Hc Hs]. apply eqb_prop in Hc.
  now rewrite !TrimRightFunc_cons, (IH Hs), Hc.
Qed.

(** The last piece of a text that does not end with a byte of the class
    [g], the separator being in the class. *)
Lemma Split_last (g : ascii -> bool) (c : ascii) (s : string) :
  g c = true -> is_empty s = false -> last_kept g s = true ->
  exists init p, Split s (sep1 c) = init ++ [p]
                 /\ is_empty p = false /\ last_kept g p = true.
Proof.
  intros Hc. induction s as [|d s IH]; [discriminate |]. intros _ Hl.
  rewrite Split_cons. destruct s as [|e s].
  - cbn [last_kept] in Hl. destruct (Ascii.eqb_spec d c) as [-> | _].
    + rewrite Hc in Hl. discriminate.
    + exists [], (String d EmptyString). repeat split. exact Hl.
  - destruct (IH eq_refl Hl) as (init & p & E & Hp & Hlp). rewrite E.
    destruct (Ascii.eqb d c).
    + exists (EmptyString :: init), p. repeat split; assumption.
    + destruct init as [|h init]; cbn [app].
      * exists [], (String d p). repeat split. cbn [last_kept].
        destruct p; [discriminate | exact Hlp].
      * exists (String d h :: init), p. repeat split; assumption.
Qed.

Lemma TrimLeftFunc_keeps_end (f g : ascii -> bool) (p : string) :
  (forall c, f c = true -> g c = true) ->
  is_empty p = false -> last_kept g p = true ->
  is_empty (TrimLeftFunc f p) = false /\ last_kept g (TrimLeftFunc f p) = true.
Proof.
  intros Hfg. induction p as [|c p IH]; [discriminate |]. intros _ Hl.
  cbn [TrimLeftFunc]. destruct (f c) eqn:E; [| split; [reflexivity | exact Hl]].
  destruct p as [|d p].
  - cbn [last_kept] in Hl. rewrite (Hfg c E) in Hl. discriminate.
  - apply IH; [reflexivity | exact Hl].
Qed.

Lemma TrimSpace_keeps_end (g : ascii -> bool) (p : string) :
  (forall c, is_space c = true -> g c = true) ->
  is_empty p = false -> last_kept g p = true ->
  is_empty (TrimSpace p) = false /\ last_kept g (TrimSpace p) = true.
Proof.
  intros Hg Hp Hl. unfold TrimSpace.
  destruct (TrimLeftFunc_keeps_end is_space g p Hg Hp Hl) as [Hq Hlq].
  rewrite (TrimRightFunc_kept is_space _ (last_kept_mono _ _ _ Hg Hlq)). now split.
Qed.

Lemma Join_ends (l : list string) (z sep : string) :
  exists a, Join (l ++ [z]) sep = a +:+ z.
Proof.
  induction l as [|x l [a IH]]; [now exists EmptyString |].
  destruct l as [|y l].
  - exists (x +:+ sep). cbn [app]. now rewrite Join_cons2, app_assoc_s.
  - exists (x +:+ sep +:+ a). cbn [app] in *. now rewrite Join_cons2, IH, !app_assoc_s.
Qed.

(** With the white space of [TrimSpace] added to the cut set. *)
Definition wideCut (c : ascii) : bool := mem_byte c outputCutset || is_space c.

Lemma wideCut_byte (c : ascii) :
  Ascii.eqb c vtab = false -> Ascii.eqb c formfeed = false ->
  Bool.eqb (mem_byte c outputCutset) (wideCut c) = true.
Proof. destruct c as [[] [] [] [] [] [] [] []]; intros H1 H2; try reflexivity; discriminate. Qed.

Lemma wideCut_text (s : string) :
  lacks vtab s = true -> lacks formfeed s = true ->
  all_bytes (fun c => Bool.eqb (mem_byte c outputCutset) (wideCut c)) s = true.
Proof.
  induction s as [|c s IH]; [reflexivity |]. cbn [lacks all_bytes]. intros H1 H2.
  apply andb_true_iff in H1 as [Hc1 H1]. apply andb_true_iff in H2 as [Hc2 H2].
  apply negb_true_iff in Hc1, Hc2. now rewrite (wideCut_byte c Hc1 Hc2), IH.
Qed.

(** X23. On a text without vertical tab and form feed, [cleanOutput] is
    idempotent: cleaning the cleaned text gives it back. *)
Theorem cleanOutput_idempotent (s : string) :
  plain s = true -> lacks vtab s = true -> lacks formfeed s = true ->
  Executor.cleanOutput (Executor.cleanOutput s) = Executor.cleanOutput s.
Proof.
  intros _ Hv Hf. rewrite (cleanOutput_lines s). unfold TrimRight.
  rewrite (TrimRightFunc_ext _ wideCut s (wideCut_text s Hv Hf)).
  pose proof (TrimRightFunc_last wideCut s) as Hlast.
  destruct (TrimRightFunc wideCut s) as [|d s1] eqn:Es; [reflexivity |].
  destruct (Split_last wideCut (chr 10) (String d s1) eq_refl eq_refl Hlast)
    as (init & p & E & Hp & Hlp).
  pose proof (cleaned_lines (chr 10) _ (Split_pieces (chr 10) (String d s1))) as Hc.
  change (sep1 (chr 10)) with nl in E, Hc. rewrite E in Hc |- *.
  destruct (TrimSpace_keeps_end wideCut p) as [Hz Hlz];
    [intros c Hc'; unfold wideCut; now rewrite Hc', orb_true_r | exact Hp | exact Hlp |].
  rewrite omap_app in Hc |- *.
  assert (Ep : omap cleanLine [p] = [TrimSpace p]).
  { cbn [omap list_omap]. unfold cleanLine. cbv zeta. now rewrite Hz. }
  rewrite Ep in Hc |- *.
  set (cleaned := omap cleanLine init ++ [TrimSpace p]) in *.
  assert (Hne : cleaned <> []) by (subst cleaned; now destruct (omap cleanLine init)).
  rewrite cleanOutput_lines.
  assert (Hr : TrimRight (Join cleaned nl) outputCutset = Join cleaned nl).
  { unfold TrimRight. apply TrimRightFunc_kept.
    destruct (Join_ends (omap cleanLine init) (TrimSpace p) nl) as [a Ea].
    fold cleaned in Ea. rewrite Ea, last_kept_app by exact Hz.
    apply (last_kept_mono _ wideCut); [| exact Hlz].
    intros c Hc'. unfold wideCut. now rewrite Hc'. }
  rewrite Hr, Split_Join_lines; [| exact Hne |].
  - rewrite omap_cleanLine_fixed; [reflexivity |].
    eapply Forall_impl; [exact Hc |]. now intros y [Hy _].
  - eapply Forall_impl; [exact Hc |]. now intros y [_ Hy].
Qed.

Lemma cleanOutput_idempotent_witness :
  Executor.cleanOutput ("a %" +:+ nl +:+ " b %% " +:+ nl) = "a %" +:+ nl +:+ "b"
  /\ Executor.cleanOutput (Executor.cleanOutput ("a %" +:+ nl +:+ " b %% " +:+ nl))
     = Executor.cleanOutput ("a %" +:+ nl +:+ " b %% " +:+ nl).
Proof.
  split; [reflexivity |].
  apply (cleanOutput_idempotent ("a %" +:+ nl +:+ " b %% " +:+ nl)); reflexivity.
Defined.

End CleanFacts.

(* ===================================================================== *)
(** * What a run of Execute leaves behind *)
(* ===================================================================== *)

Section ExecuteFacts.

Lemma formatMigration_starts (upSQL downSQL : string) :
  HasPrefix (Executor.formatMigration upSQL downSQL) ("-- migrate:up" +:+ nl) = true.
Proof.
  unfold Executor.formatMigration.
  rewrite <- (app_assoc_s "-- migrate:up" nl). apply HasPrefix_app.
Qed.

(** X24. A run of [Execute] that returns without error saves the schema
    exactly when it returns a migration: either the migration is empty and
    nothing is saved, or the migration starts with the [-- migrate:up]
    line and the text saved is the formatted output of the schema program. *)
Theorem Execute_saves_with_the_migration (orders : Executor.RangeOrders)
    (output : string) (oldSchema : option string) (e : Executor.Executed) :
  Executor.Execute orders output oldSchema = Ok e ->
  match Executor.savedSchema e with
  | None => Executor.migration e = EmptyString
  | Some saved =>
      saved = Executor.formatSQL (Executor.cleanOutput (TrimSpace output))
      /\ HasPrefix (Executor.migration e) ("-- migrate:up" +:+ nl) = true
  end.
Proof.
  unfold Executor.Execute.
  destruct (is_empty (TrimSpace output)); [intros [= <-]; reflexivity |].
  destruct oldSchema as [oldSchema|].
  - destruct (Executor.generateSchemaDiff orders oldSchema _) as [[upSQL downSQL]| |];
      try discriminate.
    rewrite bind_Ok. destruct (is_empty upSQL); intros [= <-]; [reflexivity |].
    cbn [Executor.savedSchema Executor.migration].
    split; [reflexivity | apply formatMigration_starts].
  - intros [= <-]. cbn [Executor.savedSchema Executor.migration].
    split; [reflexivity | apply formatMigration_starts].
Qed.

Lemma Execute_saves_with_the_migration_witness :
  exists e, Executor.Execute ordersAB "CREATE TABLE a (x int);" None = Ok e
    /\ Executor.savedSchema e = Some ("CREATE TABLE a (" +:+ nl +:+ "  x int" +:+ nl +:+ ");")
    /\ match Executor.savedSchema e with
       | None => Executor.migration e = EmptyString
       | Some saved =>
           saved = Executor.formatSQL
                     (Executor.cleanOutput (TrimSpace "CREATE TABLE a (x int);"))
           /\ HasPrefix (Executor.migration e) ("-- migrate:up" +:+ nl) = true
       end.
Proof.
  eexists. split; [reflexivity |]. split; [reflexivity |].
  apply (Execute_saves_with_the_migration ordersAB "CREATE TABLE a (x int);" None).
  reflexivity.
Defined.

End ExecuteFacts.

(* ===================================================================== *)
(** * The saved schema and its hash *)
(* ===================================================================== *)

Module SchemaState.

(** The three groups that the loop of [normalizeSchema] fills. *)
Record Groups : Type := mkGroups {
  creates : list string;
  indexes : list string;
  others : list string }.

(** One turn of the loop of [normalizeSchema]. *)
Definition group (g : Groups) (stmt : string) : Groups :=
  let stmt := TrimSpace stmt in
  if is_empty stmt then g
  else if HasPrefix stmt "CREATE TABLE" then
    mkGroups (creates g ++ [stmt]) (indexes g) (others g)
  else if HasPrefix stmt "CREATE UNIQUE INDEX" || HasPrefix stmt "CREATE INDEX" then
    mkGroups (creates g) (indexes g ++ [stmt]) (others g)
  else mkGroups (creates g) (indexes g) (others g ++ [stmt]).

Definition normalizeSchema (schema : string) : string :=
  let statements := Split schema ";" in
  let g := fold_left group statements (mkGroups [] [] []) in
  let normalized :=
    Ledger.sortStrings (creates g) ++ Ledger.sortStrings (indexes g)
    ++ Ledger.sortStrings (others g) in
  Join normalized (";" +:+ nl) +:+ ";".

(** [hex.EncodeToString]: two lower-case hexadecimal digits per byte. *)
Fixpoint EncodeToString (src : string) : string :=
  match src with
  | EmptyString => EmptyString
  | String c src' =>
      String (hex_digit (byte_of c / 16)) (String (hex_digit (byte_of c mod 16))
        (EncodeToString src'))
  end.

Definition calculateHash (s : string) : string := EncodeToString (Digest.Sum256 s).

(** The names of [schemaFile] and [hashFile] in the migrations directory. *)
Definition schemaFile : string := "schema.sql".
Definition hashFile : string := "schema_hash".

(** [saveSchemaState] on the migrations directory. *)
Definition saveSchemaState (schema : string) (dir : Ledger.Dir) : Result Ledger.Dir :=
  match Ledger.WriteFile dir schemaFile schema with
  | Ledger.Done dir =>
      let hash := calculateHash (normalizeSchema schema) in
      match Ledger.WriteFile dir hashFile hash with
      | Ledger.Done dir => Ok dir
      | _ => Err "failed to save hash file"
      end
  | _ => Err "failed to save schema file"
  end.

End SchemaState.

(** The statements of a schema text: its pieces between semicolons without
    the white space around them, the empty ones left out. *)
Definition statement (piece : string) : option string :=
  let stmt := TrimSpace piece in
  if is_empty stmt then None else Some stmt.

Definition statementsOf (schema : string) : list string :=
  omap statement (Split schema ";").

Inductive Kind : Type := TableStatement | IndexStatement | OtherStatement.

#[global] Instance Kind_eq_dec : EqDecision Kind.
Proof. solve_decision. Defined.

(** The group that [normalizeSchema] puts a statement in. *)
Definition kindOf (stmt : string) : Kind :=
  if HasPrefix stmt "CREATE TABLE" then TableStatement
  else if HasPrefix stmt "CREATE UNIQUE INDEX" || HasPrefix stmt "CREATE INDEX"
  then IndexStatement
  else OtherStatement.

Definition isKind (k : Kind) (stmt : string) : bool :=
  match k, kindOf stmt with
  | TableStatement, TableStatement => true
  | IndexStatement, IndexStatement => true
  | OtherStatement, OtherStatement => true
  | _, _ => false
  end.

(** The statements in the order of [normalizeSchema]: the tables, the
    indexes and the rest, each group sorted. *)
Definition normalOrder (stmts : list string) : list string :=
  Ledger.sortStrings (List.filter (isKind TableStatement) stmts)
  ++ Ledger.sortStrings (List.filter (isKind IndexStatement) stmts)
  ++ Ledger.sortStrings (List.filter (isKind OtherStatement) stmts).

Section NormalizeFacts.

Lemma group_pieces (pieces : list string) (g : SchemaState.Groups) :
  fold_left SchemaState.group pieces g =
  let stmts := omap statement pieces in
  SchemaState.mkGroups
    (SchemaState.creates g ++ List.filter (isKind TableStatement) stmts)
    (SchemaState.indexes g ++ List.filter (isKind IndexStatement) stmts)
    (SchemaState.others g ++ List.filter (isKind OtherStatement) stmts).
Proof.
  revert g. induction pieces as [|p pieces IH]; intros g; cbn zeta.
  - cbn [fold_left omap list_omap List.filter]. rewrite !app_nil_r. now destruct g.
  - cbn [fold_left omap list_omap]. rewrite IH. cbn zeta.
    unfold SchemaState.group. cbv zeta.
    change (statement p)
      with (if is_empty (TrimSpace p) then None else Some (TrimSpace p)).
    destruct (is_empty (TrimSpace p)); [reflexivity |].
    cbn [List.filter].
    destruct (HasPrefix (TrimSpace p) "CREATE TABLE") eqn:E1.
    { replace (isKind TableStatement (TrimSpace p)) with true
        by (unfold isKind, kindOf; now rewrite E1).
      replace (isKind IndexStatement (TrimSpace p)) with false
        by (unfold isKind, kindOf; now rewrite E1).
      replace (isKind OtherStatement (TrimSpace p)) with false
        by (unfold isKind, kindOf; now rewrite E1).
      cbn [SchemaState.creates SchemaState.indexes SchemaState.others].
      now rewrite <- app_assoc. }
    destruct (HasPrefix (TrimSpace p) "CREATE UNIQUE INDEX"
              || HasPrefix (TrimSpace p) "CREATE INDEX") eqn:E2.
    { replace (isKind TableStatement (TrimSpace p)) with false
        by (unfold isKind, kindOf; now rewrite E1, E2).
      replace (isKind IndexStatement (TrimSpace p)) with true
        by (unfold isKind, kindOf; now rewrite E1, E2).
      replace (isKind OtherStatement (TrimSpace p)) with false
        by (unfold isKind, kindOf; now rewrite E1, E2).
      cbn [SchemaState.creates SchemaState.indexes SchemaState.others].
      now rewrite <- app_assoc. }
    replace (isKind TableStatement (TrimSpace p)) with false
      by (unfold isKind, kindOf; now rewrite E1, E2).
    replace (isKind IndexStatement (TrimSpace p)) with false
      by (unfold isKind, kindOf; now rewrite E1, E2).
    replace (isKind OtherStatement (TrimSpace p)) with true
      by (unfold isKind, kindOf; now rewrite E1, E2).
    cbn [SchemaState.creates SchemaState.indexes SchemaState.others].
    now rewrite <- app_assoc.
Qed.

(** [normalizeSchema] writes the statements of the text in the normal
    order, a semicolon after each. *)
Lemma normalizeSchema_statements (schema : string) :
  SchemaState.normalizeSchema schema
  = Join (normalOrder (statementsOf schema)) (";" +:+ nl) +:+ ";".
Proof.
  unfold SchemaState.normalizeSchema. cbv zeta. rewrite group_pieces. reflexivity.
Qed.

Lemma filter_perm {A} (f : A -> bool) (l l' : list A) :
  l ≡ₚ l' -> List.filter f l ≡ₚ List.filter f l'.
Proof.
  induction 1 as [| x l l' _ IH | x y l | l1 l2 l3 _ IH1 _ IH2]; cbn [List.filter].
  - reflexivity.
  - destruct (f x); [now constructor | exact IH].
  - destruct (f x), (f y); try reflexivity. apply perm_swap.
  - now transitivity (List.filter f l2).
Qed.

Lemma sortStrings_perm (l l' : list string) :
  l ≡ₚ l' -> Ledger.sortStrings l = Ledger.sortStrings l'.
Proof.
  intros H. unfold Ledger.sortStrings.
  apply (Sorted_unique String.le); try (apply Sorted_merge_sort; apply _).
  now rewrite !merge_sort_Permutation.
Qed.

Lemma normalOrder_perm (l l' : list string) : l ≡ₚ l' -> normalOrder l = normalOrder l'.
Proof.
  intros H. unfold normalOrder.
  now rewrite (sortStrings_perm _ _ (filter_perm (isKind TableStatement) _ _ H)),
    (sortStrings_perm _ _ (filter_perm (isKind IndexStatement) _ _ H)),
    (sortStrings_perm _ _ (filter_perm (isKind OtherStatement) _ _ H)).
Qed.

Lemma saveSchemaState_hash (schema : string) (dir saved : Ledger.Dir) :
  SchemaState.saveSchemaState schema dir = Ok saved ->
  Ledger.ReadFile saved SchemaState.hashFile
  = Ledger.Done (SchemaState.calculateHash (SchemaState.normalizeSchema schema)).
Proof.
  unfold SchemaState.saveSchemaState.
  destruct (Ledger.WriteFile dir SchemaState.schemaFile schema) as [dir1| |]; try discriminate.
  cbv zeta.
  destruct (Ledger.WriteFile dir1 SchemaState.hashFile _) as [dir2| |] eqn:E; try discriminate.
  intros [= <-]. unfold Ledger.WriteFile in E.
  destruct dir1 as [entries|]; [| discriminate].
  destruct (entries !! SchemaState.hashFile) as [[| |]|]; try discriminate;
    injection E as <-; cbn [Ledger.ReadFile]; now rewrite lookup_insert_eq.
Qed.

(** X25. The hash that [saveSchemaState] writes does not depend on the
    order of the statements: two schema texts with the same statements, in
    any order and with any white space around them, are normalized to the
    same text, and the hash files saved for them are the same. *)
Theorem saved_hash_ignores_statement_order (a b : string) :
  plain a = true -> plain b = true ->
  statementsOf a ≡ₚ statementsOf b ->
  SchemaState.normalizeSchema a = SchemaState.normalizeSchema b
  /\ forall dir savedA savedB,
       SchemaState.saveSchemaState a dir = Ok savedA ->
       SchemaState.saveSchemaState b dir = Ok savedB ->
       Ledger.ReadFile savedA SchemaState.hashFile
       = Ledger.ReadFile savedB SchemaState.hashFile.
Proof.
  intros _ _ H.
  assert (E : SchemaState.normalizeSchema a = SchemaState.normalizeSchema b)
    by now rewrite !normalizeSchema_statements, (normalOrder_perm _ _ H).
  split; [exact E |]. intros dir savedA savedB HA HB.
  now rewrite (saveSchemaState_hash _ _ _ HA), (saveSchemaState_hash _ _ _ HB), E.
Qed.

End NormalizeFacts.

Section NormalizeExamples.

Lemma saved_hash_ignores_statement_order_witness :
  SchemaState.normalizeSchema ("CREATE INDEX i ON a (x); CREATE TABLE b (y int);"
                               +:+ nl +:+ "CREATE TABLE a (x int)")
  = "CREATE TABLE a (x int);" +:+ nl +:+ "CREATE TABLE b (y int);" +:+ nl
    +:+ "CREATE INDEX i ON a (x);"
  /\ SchemaState.normalizeSchema ("CREATE INDEX i ON a (x); CREATE TABLE b (y int);"
                                  +:+ nl +:+ "CREATE TABLE a (x int)")
     = SchemaState.normalizeSchema
         "CREATE TABLE a (x int);CREATE INDEX i ON a (x);CREATE TABLE b (y int);".
Proof.
  split; [vm_compute; reflexivity |].
  apply (saved_hash_ignores_statement_order
           ("CREATE INDEX i ON a (x); CREATE TABLE b (y int);"
            +:+ nl +:+ "CREATE TABLE a (x int)")
           "CREATE TABLE a (x int);CREATE INDEX i ON a (x);CREATE TABLE b (y int);");
    try reflexivity.
  vm_compute. etransitivity; [apply perm_skip, perm_swap | apply perm_swap].
Defined.

End NormalizeExamples.

(** A statement as [normalizeSchema] writes it: not empty, no white space
    at its ends, no semicolon. *)
Definition cleanStatement (stmt : string) : Prop :=
  trimmed stmt = true /\ is_empty stmt = false /\ lacks ";" stmt = true.

Section NormalizeTwice.

Lemma statement_clean (stmt : string) : cleanStatement stmt -> statement stmt = Some stmt.
Proof.
  intros (Ht & Hn & _). unfold statement. cbv zeta.
  now rewrite (trimmed_TrimSpace _ Ht), Hn.
Qed.

Lemma statementsOf_clean (schema : string) : Forall cleanStatement (statementsOf schema).
Proof.
  unfold statementsOf. change ";"%string with (sep1 ";").
  pose proof (Split_pieces ";" schema) as H.
  induction H as [|p l Hp _ IH]; [constructor |]. cbn [omap list_omap].
  unfold statement at 1. cbv zeta. destruct (is_empty (TrimSpace p)) eqn:E; [exact IH |].
  constructor; [| exact IH]. split; [apply TrimSpace_trimmed |].
  split; [exact E | now apply lacks_TrimSpace].
Qed.

(** The text after a statement and its semicolon. *)
Lemma statementsOf_cons (stmt rest : string) :
  cleanStatement stmt -> statementsOf (stmt +:+ ";" +:+ rest) = stmt :: statementsOf rest.
Proof.
  intros H. unfold statementsOf. change ";"%string with (sep1 ";").
  rewrite Split_app, (Split_lacks ";" stmt) by apply H.
  cbn [app omap list_omap]. now rewrite (statement_clean _ H).
Qed.

Lemma statementsOf_leading (p rest : string) :
  all_bytes is_space p = true -> lacks ";" p = true ->
  statementsOf (p +:+ rest) = statementsOf rest.
Proof.
  intros Hs Hl. unfold statementsOf. change ";"%string with (sep1 ";").
  assert (E : exists h t, Split rest (sep1 ";") = h :: t
                          /\ Split (p +:+ rest) (sep1 ";") = (p +:+ h) :: t).
  { pose proof (Split_not_nil ";" rest) as Hn.
    destruct (Split rest (sep1 ";")) as [|h t] eqn:E; [contradiction |].
    exists h, t. split; [reflexivity |].
    induction p as [|c p IH]; [exact E |].
    cbn [lacks all_bytes] in Hs, Hl.
    apply andb_true_iff in Hs as [_ Hs]. apply andb_true_iff in Hl as [Hc Hl].
    apply negb_true_iff in Hc.
    change (String c p +:+ rest) with (String c (p +:+ rest)).
    now rewrite Split_cons, Hc, (IH Hs Hl). }
  destruct E as (h & t & -> & ->). cbn [omap list_omap].
  unfold statement at 1 3. cbv zeta. now rewrite (TrimSpace_leading p h Hs).
Qed.

(** Reading back statements written with a semicolon after each and
    white space between them. *)
Lemma statementsOf_written (ws : string) (stmts : list string) :
  all_bytes is_space ws = true -> lacks ";" ws = true ->
  Forall cleanStatement stmts ->
  statementsOf (Join stmts (";" +:+ ws) +:+ ";") = stmts.
Proof.
  intros Hs Hl. induction 1 as [|x l Hx _ IH]; [reflexivity |].
  destruct l as [|y l].
  - change (Join [x] (";" +:+ ws)) with x.
    replace (x +:+ ";") with (x +:+ ";" +:+ EmptyString) by now rewrite app_nil_r_s.
    now rewrite statementsOf_cons.
  - rewrite Join_cons2, !app_assoc_s.
    rewrite statementsOf_cons by exact Hx. f_equal.
    rewrite statementsOf_leading by assumption. exact IH.
Qed.

Lemma isKind_same (k k' : Kind) (stmt : string) :
  isKind k stmt = true -> isKind k' stmt = true -> k = k'.
Proof. unfold isKind. destruct k, k', (kindOf stmt); congruence. Qed.

Lemma filter_all {A} (f : A -> bool) (l : list A) :
  Forall (fun x => f x = true) l -> List.filter f l = l.
Proof. induction 1 as [|x l Hx _ IH]; [reflexivity |]. cbn. now rewrite Hx, IH. Qed.

Lemma filter_none {A} (f : A -> bool) (l : list A) :
  Forall (fun x => f x = false) l -> List.filter f l = [].
Proof. induction 1 as [|x l Hx _ IH]; [reflexivity |]. cbn. now rewrite Hx, IH. Qed.

Lemma sorted_group (P : string -> Prop) (f : string -> bool) (l : list string) :
  (forall x, x ∈ l -> f x = true -> P x) ->
  Forall P (Ledger.sortStrings (List.filter f l)).
Proof.
  intros H. apply Forall_forall. intros x Hx. unfold Ledger.sortStrings in Hx.
  rewrite merge_sort_Permutation in Hx. apply list_elem_of_In, filter_In in Hx as [Hx Hf].
  apply H; [now apply list_elem_of_In | exact Hf].
Qed.

Lemma filter_group (k k' : Kind) (l : list string) :
  List.filter (isKind k) (Ledger.sortStrings (List.filter (isKind k') l))
  = if decide (k = k') then Ledger.sortStrings (List.filter (isKind k') l) else [].
Proof.
  destruct (decide (k = k')) as [-> | Hk].
  - apply filter_all, sorted_group. auto.
  - apply filter_none, sorted_group. intros x _ Hx.
    destruct (isKind k x) eqn:E; [| reflexivity]. destruct Hk. exact (isKind_same _ _ _ E Hx).
Qed.

Lemma sortStrings_twice (l : list string) :
  Ledger.sortStrings (Ledger.sortStrings l) = Ledger.sortStrings l.
Proof. apply sortStrings_perm. unfold Ledger.sortStrings. apply merge_sort_Permutation. Qed.

Lemma normalOrder_twice (l : list string) : normalOrder (normalOrder l) = normalOrder l.
Proof.
  unfold normalOrder at 1. unfold normalOrder at 1 2 3.
  rewrite !List.filter_app, !filter_group.
  repeat (destruct (decide _) as [? | ?]; try discriminate; try congruence).
  cbn [app]. rewrite !app_nil_r. now rewrite !sortStrings_twice.
Qed.

Lemma normalOrder_clean (l : list string) :
  Forall cleanStatement l -> Forall cleanStatement (normalOrder l).
Proof.
  intros H. unfold normalOrder. rewrite !Forall_app.
  repeat split; apply sorted_group; intros x Hx _;
    exact (proj1 (Forall_forall _ _) H x Hx).
Qed.

(** X26. [normalizeSchema] is idempotent: normalizing a normalized text
    gives the same text. *)
Theorem normalizeSchema_idempotent (schema : string) :
  plain schema = true ->
  SchemaState.normalizeSchema (SchemaState.normalizeSchema schema)
  = SchemaState.normalizeSchema schema.
Proof.
  intros _. rewrite (normalizeSchema_statements (SchemaState.normalizeSchema schema)).
  rewrite (normalizeSchema_statements schema).
  rewrite (statementsOf_written nl) by
    (try reflexivity; apply normalOrder_clean, statementsOf_clean).
  now rewrite normalOrder_twice.
Qed.

Lemma normalizeSchema_idempotent_witness :
  SchemaState.normalizeSchema (" DROP TABLE c ;CREATE TABLE b (y int);;" +:+ nl
                               +:+ "CREATE TABLE a (x int)")
  = "CREATE TABLE a (x int);" +:+ nl +:+ "CREATE TABLE b (y int);" +:+ nl
    +:+ "DROP TABLE c;"
  /\ SchemaState.normalizeSchema
       (SchemaState.normalizeSchema (" DROP TABLE c ;CREATE TABLE b (y int);;" +:+ nl
                                     +:+ "CREATE TABLE a (x int)"))
     = SchemaState.normalizeSchema (" DROP TABLE c ;CREATE TABLE b (y int);;" +:+ nl
                                    +:+ "CREATE TABLE a (x int)").
Proof.
  split; [vm_compute; reflexivity |].
  apply (normalizeSchema_idempotent (" DROP TABLE c ;CREATE TABLE b (y int);;" +:+ nl
                                     +:+ "CREATE TABLE a (x int)")).
  reflexivity.
Defined.

End NormalizeTwice.

(* ===================================================================== *)
(** * Formatting the schema *)
(* ===================================================================== *)

(** What the loop of [formatSQL] does to a statement that is not empty. *)
Definition formatStatement (stmt : string) : string :=
  if HasPrefix stmt "CREATE TABLE" then Executor.formatCreateTable stmt
  else if HasPrefix stmt "CREATE" then Executor.formatCreateIndex stmt
  else stmt.

(** A column of [formatCreateTable]: two spaces, then the definition. *)
Definition indented (col : string) : string := "  " +:+ col.

Section TrimBothEnds.

#[local] Notation "'TL'" := (TrimLeftFunc is_space).
#[local] Notation "'TR'" := (TrimRightFunc is_space).

Lemma TrimLeft_TrimRight (p : string) : TL (TR p) = TR (TL p).
Proof.
  induction p as [|d p IH]; [reflexivity |]. rewrite TrimRightFunc_cons.
  cbn [TrimLeftFunc]. destruct (is_space d) eqn:E.
  - rewrite andb_true_r. destruct (TR p) as [|e r] eqn:Er.
    + cbn [is_empty]. rewrite <- IH. reflexivity.
    + cbn [is_empty]. cbn [TrimLeftFunc]. rewrite E. exact IH.
  - rewrite andb_false_r. cbn [TrimLeftFunc]. rewrite E.
    rewrite TrimRightFunc_cons, E, andb_false_r. reflexivity.
Qed.

Lemma TrimSpace_trailing (s p : string) :
  all_bytes is_space p = true -> TrimSpace (s +:+ p) = TrimSpace s.
Proof.
  intros H. unfold TrimSpace. rewrite <- !TrimLeft_TrimRight.
  now rewrite TrimRightFunc_app_all.
Qed.

Lemma TrimSpace_TrimLeft (p : string) : TrimSpace (TL p) = TrimSpace p.
Proof.
  unfold TrimSpace. now rewrite (TrimLeftFunc_kept _ _ (TrimLeftFunc_first is_space p)).
Qed.

Lemma TrimSpace_TrimRight (p : string) : TrimSpace (TR p) = TrimSpace p.
Proof.
  unfold TrimSpace. rewrite TrimLeft_TrimRight.
  apply TrimRightFunc_kept, TrimRightFunc_last.
Qed.

Variable c : ascii.
Hypothesis c_not_space : is_space c = false.

Lemma space_not_c (d : ascii) : is_space d = true -> Ascii.eqb d c = false.
Proof.
  intros H. apply Ascii.eqb_neq. intros ->. rewrite c_not_space in H. discriminate.
Qed.

(** Trimming on the left changes the first piece only. *)
Lemma Split_TrimLeft (s : string) :
  exists first rest, Split s (sep1 c) = first :: rest
                     /\ Split (TL s) (sep1 c) = TL first :: rest.
Proof.
  induction s as [|d s (first & rest & E1 & E2)]; [now exists EmptyString, [] |].
  cbn [TrimLeftFunc]. destruct (is_space d) eqn:E.
  - exists (String d first), rest. rewrite Split_cons, (space_not_c d E), E1.
    split; [reflexivity |]. cbn [TrimLeftFunc]. now rewrite E.
  - rewrite Split_cons. destruct (Ascii.eqb d c).
    + now exists EmptyString, (Split s (sep1 c)).
    + rewrite E1. exists (String d first), rest. split; [reflexivity |].
      cbn [TrimLeftFunc]. now rewrite E.
Qed.

(** Trimming on the right changes the last piece only. *)
Lemma Split_TrimRight (s : string) :
  exists init last, Split s (sep1 c) = init ++ [last]
                    /\ Split (TR s) (sep1 c) = init ++ [TR last].
Proof.
  induction s as [|d s (init & last & E1 & E2)]; [now exists [], EmptyString |].
  rewrite TrimRightFunc_cons, Split_cons.
  destruct (is_empty (TR s) && is_space d) eqn:E.
  - apply andb_true_iff in E as [Er Ed]. apply is_empty_true in Er.
    rewrite Er in E2. rewrite (space_not_c d Ed).
    destruct init as [|h init]; [| destruct init; discriminate].
    cbn [app] in E1, E2. injection E2 as E2. rewrite E1.
    exists [], (String d last). split; [reflexivity |].
    cbn [app]. now rewrite TrimRightFunc_cons, <- E2, Ed.
  - rewrite Split_cons. destruct (Ascii.eqb d c) eqn:Ec.
    + exists (EmptyString :: init), last. now rewrite E1, E2.
    + rewrite E1, E2. destruct init as [|h init]; cbn [app].
      * exists [], (String d last). split; [reflexivity |]. cbn [app].
        rewrite TrimRightFunc_cons.
        cbn [app] in E2.
        assert (Er : TR s = TR last).
        { rewrite <- (Join_Split c (TR s)), E2. reflexivity. }
        now rewrite <- Er, E.
      * exists (String d h :: init), last. now split.
Qed.

Lemma map_TrimSpace_snoc (init : list string) (last : string) :
  map TrimSpace (init ++ [TR last]) = map TrimSpace (init ++ [last]).
Proof. now rewrite !map_app; cbn [map]; rewrite TrimSpace_TrimRight. Qed.

(** The pieces of a trimmed text, trimmed, are those of the text, trimmed. *)
Lemma Split_TrimSpace (s : string) :
  map TrimSpace (Split (TrimSpace s) (sep1 c)) = map TrimSpace (Split s (sep1 c)).
Proof.
  unfold TrimSpace at 2.
  destruct (Split_TrimRight (TL s)) as (init & last & E1 & E2).
  rewrite E2, map_TrimSpace_snoc, <- E1.
  destruct (Split_TrimLeft s) as (first & rest & E3 & E4).
  rewrite E4, E3. cbn [map]. now rewrite TrimSpace_TrimLeft.
Qed.

(** White space before a text goes to its first piece. *)
Lemma Split_leading (p s : string) :
  all_bytes is_space p = true ->
  map TrimSpace (Split (p +:+ s) (sep1 c)) = map TrimSpace (Split s (sep1 c)).
Proof.
  intros Hp. induction p as [|d p IH]; [reflexivity |].
  cbn [all_bytes] in Hp. apply andb_true_iff in Hp as [Hd Hp].
  change (String d p +:+ s) with (String d (p +:+ s)).
  rewrite Split_cons, (space_not_c d Hd). specialize (IH Hp).
  pose proof (Split_not_nil c (p +:+ s)) as Hn.
  destruct (Split (p +:+ s) (sep1 c)) as [|h t]; [contradiction |].
  rewrite <- IH. cbn [map]. f_equal.
  change (String d h) with (String d EmptyString +:+ h).
  apply TrimSpace_leading. cbn [all_bytes]. now rewrite Hd.
Qed.

End TrimBothEnds.

Section CutFacts.

Variable c : ascii.

(** The first occurrence of a byte cuts the text in two. *)
Lemma index_nat_cut (s : string) :
  match index_nat s (sep1 c) with
  | Some n => s = take n s +:+ String c (drop (n + 1) s) /\ lacks c (take n s) = true
  | None => lacks c s = true
  end.
Proof.
  induction s as [|x s IH]; [reflexivity |].
  unfold sep1 in *. cbn [index_nat HasPrefix]. rewrite andb_true_r, (Ascii.eqb_sym c x).
  destruct (Ascii.eqb x c) eqn:Hx.
  - apply Ascii.eqb_eq in Hx as ->. cbn [take Nat.add drop lacks]. now split.
  - destruct (index_nat s (String c EmptyString)) as [n|]; cbn [option_map].
    + destruct IH as [E Hl]. cbn [Nat.add take drop lacks].
      change (String x (take n s) +:+ String c (drop (n + 1) s))
        with (String x (take n s +:+ String c (drop (n + 1) s))).
      rewrite <- E, Hl, Hx. now split.
    + cbn [lacks]. now rewrite IH, Hx.
Qed.

Lemma drop_past (a b : string) : drop (String.length a + 1) (a +:+ String c b) = b.
Proof. induction a as [|x a IH]; [reflexivity | exact IH]. Qed.

Lemma SplitN2_first (head tail : string) :
  lacks c head = true -> SplitN2 (head +:+ String c tail) (sep1 c) = [head; tail].
Proof.
  intros H. unfold SplitN2. rewrite (index_nat_first c head tail H).
  rewrite take_app_length. cbn [sep1 String.length]. now rewrite drop_past.
Qed.

Lemma SplitN2_cut (s : string) :
  (SplitN2 s (sep1 c) = [s] /\ lacks c s = true)
  \/ exists head tail, s = head +:+ String c tail /\ lacks c head = true.
Proof.
  pose proof (index_nat_cut s) as H. unfold SplitN2.
  destruct (index_nat s (sep1 c)) as [n|]; [right | left; now split].
  destruct H as [E Hl]. now exists (take n s), (drop (n + 1) s).
Qed.

End CutFacts.

Section TableFormat.

Lemma TrimSuffix_app (a suffix : string) : TrimSuffix (a +:+ suffix) suffix = a.
Proof.
  unfold TrimSuffix. rewrite HasSuffix_app, length_app_s.
  replace (String.length a + String.length suffix - String.length suffix)%nat
    with (String.length a) by lia.
  apply take_app_length.
Qed.

(** [formatCreateTable] on a text with a parenthesis. *)
Lemma formatCreateTable_cut (head tail : string) :
  lacks "(" head = true ->
  Executor.formatCreateTable (head +:+ String "(" tail)
  = TrimSpace head +:+ " (" +:+ nl
    +:+ Join (map indented (map TrimSpace (Split (TrimSpace (TrimSuffix tail ")")) ",")))
             ("," +:+ nl)
    +:+ nl +:+ ")".
Proof.
  intros H. unfold Executor.formatCreateTable.
  change "("%string with (sep1 "("). rewrite (SplitN2_first "(" head tail H).
  now rewrite map_map.
Qed.

Lemma TrimSpace_indented (x : string) : TrimSpace (indented x) = TrimSpace x.
Proof. unfold indented. now apply TrimSpace_leading. Qed.

(** The columns that [formatCreateTable] has written, read again. *)
Lemma Split_indented (cs : list string) :
  cs <> [] -> Forall (fun x => lacks "," x = true) cs ->
  map TrimSpace (Split (Join (map indented cs) ("," +:+ nl)) ",") = map TrimSpace cs.
Proof.
  change ","%string with (sep1 ",").
  destruct cs as [|x cs]; [contradiction |]. intros _ H. revert x H.
  induction cs as [|y cs IH]; intros x H; apply Forall_cons in H as [Hx H].
  - cbn [map]. change (Join [indented x] (sep1 "," +:+ nl)) with (indented x).
    rewrite Split_lacks by (unfold indented; now rewrite lacks_app, Hx).
    cbn [map]. now rewrite TrimSpace_indented.
  - cbn [map]. rewrite Join_cons2, app_assoc_s, Split_app.
    rewrite Split_lacks by (unfold indented; now rewrite lacks_app, Hx).
    cbn [app map]. rewrite TrimSpace_indented. f_equal.
    rewrite Split_leading by reflexivity. exact (IH y H).
Qed.

Lemma lacks_TrimSpace_pieces (c : ascii) (s : string) :
  Forall (fun x => lacks c x = true) (map TrimSpace (Split s (sep1 c))).
Proof.
  apply Forall_fmap. eapply Forall_impl; [apply Split_pieces |].
  intros x Hx. now apply lacks_TrimSpace.
Qed.

(** [formatCreateTable] is idempotent. *)
Lemma formatCreateTable_twice (sql : string) :
  Executor.formatCreateTable (Executor.formatCreateTable sql)
  = Executor.formatCreateTable sql.
Proof.
  destruct (SplitN2_cut "(" sql) as [[E _] | (head & tail & -> & Hh)].
  - assert (Es : Executor.formatCreateTable sql = sql)
      by (unfold Executor.formatCreateTable; change "("%string with (sep1 "("); now rewrite E).
    now rewrite !Es.
  - rewrite (formatCreateTable_cut head tail Hh).
    set (cols := map TrimSpace (Split (TrimSpace (TrimSuffix tail ")")) ",")).
    set (J := Join (map indented cols) ("," +:+ nl)).
    replace (TrimSpace head +:+ " (" +:+ nl +:+ J +:+ nl +:+ ")")
      with ((TrimSpace head +:+ " ") +:+ String "(" ((nl +:+ J +:+ nl) +:+ ")"))
      by (now rewrite !app_assoc_s).
    rewrite formatCreateTable_cut
      by (rewrite lacks_app, (lacks_TrimSpace _ _ Hh); reflexivity).
    rewrite TrimSuffix_app, (TrimSpace_trailing (TrimSpace head) " " eq_refl), TrimSpace_twice.
    rewrite (TrimSpace_leading nl (J +:+ nl) eq_refl), (TrimSpace_trailing J nl eq_refl).
    change ","%string with (sep1 ",") at 1.
    rewrite (Split_TrimSpace "," eq_refl J).
    unfold J at 1. rewrite Split_indented.
    + replace (map TrimSpace cols) with cols; [now rewrite !app_assoc_s |].
      unfold cols. rewrite map_map. apply map_ext. intros x. now rewrite TrimSpace_twice.
    + unfold cols. pose proof (Split_not_nil "," (TrimSpace (TrimSuffix tail ")"))) as Hn.
      change (sep1 ",") with ","%string in Hn.
      now destruct (Split (TrimSpace (TrimSuffix tail ")")) ",").
    + apply (lacks_TrimSpace_pieces ",").
Qed.

End TableFormat.

Section StatementFormat.

Lemma formatSQL_statements (sql : string) :
  Executor.formatSQL sql
  = Join (map formatStatement (statementsOf sql)) (";" +:+ nl +:+ nl) +:+ ";".
Proof.
  unfold Executor.formatSQL, statementsOf. cbv zeta. do 2 f_equal.
  induction (Split sql ";") as [|p l IH]; [reflexivity |].
  cbn [omap list_omap]. rewrite IH.
  change (statement p) with (if is_empty (TrimSpace p) then None else Some (TrimSpace p)).
  destruct (is_empty (TrimSpace p)); [reflexivity |]. cbn [map].
  assert (Hf : formatStatement (TrimSpace p)
               = if HasPrefix (TrimSpace p) "CREATE TABLE"
                 then Executor.formatCreateTable (TrimSpace p)
                 else if HasPrefix (TrimSpace p) "CREATE"
                      then Executor.formatCreateIndex (TrimSpace p)
                      else TrimSpace p) by reflexivity.
  rewrite Hf.
  destruct (HasPrefix (TrimSpace p) "CREATE TABLE"); [reflexivity |].
  destruct (HasPrefix (TrimSpace p) "CREATE"); reflexivity.
Qed.

Lemma TrimRightFunc_empty_all (f : ascii -> bool) (r : string) :
  TrimRightFunc f r = EmptyString -> all_bytes f r = true.
Proof.
  induction r as [|d r IH]; [reflexivity |]. rewrite TrimRightFunc_cons.
  destruct (is_empty (TrimRightFunc f r) && f d) eqn:E; [| discriminate].
  intros _. apply andb_true_iff in E as [Er Ed]. apply is_empty_true in Er.
  cbn [all_bytes]. now rewrite Ed, (IH Er).
Qed.

(** Trimming keeps a prefix that has no white space at its ends. *)
Lemma HasPrefix_TrimSpace (s p : string) :
  is_empty p = false -> trimmed p = true ->
  HasPrefix s p = true -> HasPrefix (TrimSpace s) p = true.
Proof.
  intros Hne Ht H. apply HasPrefix_inv in H as [r ->].
  unfold trimmed in Ht. apply andb_true_iff in Ht as [Hf Hl].
  unfold TrimSpace. rewrite TrimLeftFunc_kept by (destruct p; [discriminate | exact Hf]).
  destruct (TrimRightFunc is_space r) as [|d r'] eqn:Er.
  - rewrite (TrimRightFunc_app_all is_space p r (TrimRightFunc_empty_all _ _ Er)).
    rewrite (TrimRightFunc_kept _ _ Hl). rewrite <- (app_nil_r_s p) at 1. apply HasPrefix_app.
  - rewrite TrimRightFunc_app by now rewrite Er. apply HasPrefix_app.
Qed.

Lemma lacks_take (c : ascii) (n : nat) (s : string) :
  lacks c s = true -> lacks c (take n s) = true.
Proof.
  revert s. induction n as [|n IH]; intros [|d s]; try reflexivity.
  cbn [lacks take]. intros H. apply andb_true_iff in H as [Hd Hs]. now rewrite Hd, IH.
Qed.

Lemma lacks_TrimSuffix (c : ascii) (s suffix : string) :
  lacks c s = true -> lacks c (TrimSuffix s suffix) = true.
Proof. intros H. unfold TrimSuffix. destruct (HasSuffix s suffix); [now apply lacks_take | exact H]. Qed.

Lemma lacks_Split (c d : ascii) (s : string) :
  lacks d s = true -> Forall (fun x => lacks d x = true) (Split s (sep1 c)).
Proof.
  induction s as [|x s IH]; [repeat constructor |]. cbn [lacks]. intros H.
  apply andb_true_iff in H as [Hx Hs]. specialize (IH Hs). rewrite Split_cons.
  destruct (Ascii.eqb x c); [constructor; [reflexivity | exact IH] |].
  destruct (Split s (sep1 c)) as [|h t].
  - repeat constructor. cbn [lacks]. now rewrite Hx.
  - apply Forall_cons in IH as [Hh Ht]. constructor; [| exact Ht].
    cbn [lacks]. now rewrite Hx, Hh.
Qed.

Lemma lacks_Join (c : ascii) (l : list string) (sep : string) :
  lacks c sep = true -> Forall (fun x => lacks c x = true) l -> lacks c (Join l sep) = true.
Proof.
  intros Hsep. induction 1 as [|x l Hx Hl IH]; [reflexivity |].
  destruct l as [|y l]; [exact Hx |].
  now rewrite Join_cons2, !lacks_app, Hx, Hsep, IH.
Qed.

Lemma first_kept_app (f : ascii -> bool) (a b : string) :
  is_empty a = false -> first_kept f (a +:+ b) = first_kept f a.
Proof. now destruct a. Qed.

(** What [formatCreateTable] returns for a [CREATE TABLE] statement is
    again such a statement. *)
Lemma formatCreateTable_statement (stmt : string) :
  cleanStatement stmt -> HasPrefix stmt "CREATE TABLE" = true ->
  cleanStatement (Executor.formatCreateTable stmt)
  /\ HasPrefix (Executor.formatCreateTable stmt) "CREATE TABLE" = true.
Proof.
  intros Hc Hp.
  destruct (SplitN2_cut "(" stmt) as [[E _] | (head & tail & -> & Hh)].
  - assert (Es : Executor.formatCreateTable stmt = stmt)
      by (unfold Executor.formatCreateTable; change "("%string with (sep1 "("); now rewrite E).
    rewrite Es. now split.
  - rewrite (formatCreateTable_cut head tail Hh).
    destruct Hc as (_ & _ & Hl). rewrite lacks_app in Hl.
    apply andb_true_iff in Hl as [Hlh Hlt]. cbn [lacks] in Hlt.
    apply andb_true_iff in Hlt as [_ Hlt].
    rewrite (HasPrefix_barrier "(" "CREATE TABLE" head tail eq_refl) in Hp.
    pose proof (HasPrefix_TrimSpace head "CREATE TABLE" eq_refl eq_refl Hp) as HD.
    pose proof (TrimSpace_trimmed head) as HtD.
    pose proof (lacks_TrimSpace ";" head Hlh) as HlD.
    set (D := TrimSpace head) in *.
    set (cols := map TrimSpace (Split (TrimSpace (TrimSuffix tail ")")) ",")).
    assert (Hcols : Forall (fun x => lacks ";" x = true) (map indented cols)).
    { apply Forall_fmap. unfold cols. apply Forall_fmap.
      eapply Forall_impl;
        [apply (lacks_Split "," ";"), lacks_TrimSpace, lacks_TrimSuffix, Hlt |].
      intros x Hx. unfold compose, indented. rewrite lacks_app.
      change (lacks ";" "  ") with true. now apply lacks_TrimSpace. }
    assert (HneD : is_empty D = false) by (destruct D; [discriminate | reflexivity]).
    split; [split; [| split] |].
    + unfold trimmed. apply andb_true_iff. split.
      * rewrite first_kept_app by exact HneD.
        unfold trimmed in HtD. now apply andb_true_iff in HtD as [HtD _].
      * rewrite <- !app_assoc_s. now rewrite last_kept_app.
    + destruct D; [discriminate | reflexivity].
    + rewrite !lacks_app, HlD, (lacks_Join ";" _ ("," +:+ nl) eq_refl Hcols). reflexivity.
    + apply HasPrefix_inv in HD as [r ->]. rewrite app_assoc_s. apply HasPrefix_app.
Qed.

Lemma formatStatement_statement (stmt : string) :
  cleanStatement stmt ->
  cleanStatement (formatStatement stmt)
  /\ formatStatement (formatStatement stmt) = formatStatement stmt.
Proof.
  intros Hc. unfold formatStatement at 1 3 4.
  destruct (HasPrefix stmt "CREATE TABLE") eqn:E1.
  - destruct (formatCreateTable_statement stmt Hc E1) as [Hc' Hp'].
    split; [exact Hc' |]. unfold formatStatement. rewrite Hp'.
    apply formatCreateTable_twice.
  - assert (Es : Executor.formatCreateIndex stmt = stmt)
      by (unfold Executor.formatCreateIndex; apply trimmed_TrimSpace, Hc).
    destruct (HasPrefix stmt "CREATE") eqn:E2.
    + rewrite Es. split; [exact Hc |]. unfold formatStatement. now rewrite E1, E2.
    + split; [exact Hc |]. unfold formatStatement. now rewrite E1, E2.
Qed.

(** X27. [formatSQL] is idempotent: formatting a formatted schema gives
    the same text, so the schema that [Execute] saves is in the form in
    which the next run formats the output of the schema program. *)
Theorem formatSQL_idempotent (sql : string) :
  plain sql = true ->
  Executor.formatSQL (Executor.formatSQL sql) = Executor.formatSQL sql.
Proof.
  intros _. rewrite (formatSQL_statements (Executor.formatSQL sql)).
  rewrite (formatSQL_statements sql).
  pose proof (statementsOf_clean sql) as Hc.
  rewrite (statementsOf_written (nl +:+ nl)); try reflexivity.
  - do 2 f_equal. rewrite map_map. apply map_ext_Forall.
    eapply Forall_impl; [exact Hc |]. intros x Hx. cbn. apply formatStatement_statement, Hx.
  - apply Forall_fmap. eapply Forall_impl; [exact Hc |].
    intros x Hx. cbn. apply formatStatement_statement, Hx.
Qed.

Lemma formatSQL_idempotent_witness :
  Executor.formatSQL "CREATE TABLE t ( a decimal(10,2) , b int );; CREATE INDEX i ON t (a)"
  = "CREATE TABLE t (" +:+ nl +:+ "  a decimal(10," +:+ nl +:+ "  2)," +:+ nl +:+ "  b int"
    +:+ nl +:+ ");" +:+ nl +:+ nl +:+ "CREATE INDEX i ON t (a);"
  /\ Executor.formatSQL
       (Executor.formatSQL
          "CREATE TABLE t ( a decimal(10,2) , b int );; CREATE INDEX i ON t (a)")
     = Executor.formatSQL
         "CREATE TABLE t ( a decimal(10,2) , b int );; CREATE INDEX i ON t (a)".
Proof.
  split; [vm_compute; reflexivity |].
  apply (formatSQL_idempotent
           "CREATE TABLE t ( a decimal(10,2) , b int );; CREATE INDEX i ON t (a)").
  reflexivity.
Defined.

End StatementFormat.

(* ===================================================================== *)
(** * datara.go: struct tags *)
(* ===================================================================== *)

Module DefaultParser.

(** [strings.TrimPrefix]. *)
Definition TrimPrefix (s prefix : string) : string :=
  if HasPrefix s prefix then drop (String.length prefix) s else s.

(** One part of the [db] tag in the loop of [parseTags]. *)
Definition parsePart (tags : gmap string string) (part : string) : gmap string string :=
  let part := TrimSpace part in
  if Contains part "=" then
    match SplitN2 part "=" with
    | [k; v] =>
        let key := TrimSpace k in
        let value := TrimSpace v in
        if negb (is_empty key) then <[key := value]> tags else tags
    | _ => tags
    end
  else if negb (is_empty part) then <[TrimSpace part := EmptyString]> tags
  else tags.

(** [parseTags]; [dbTag] and [relTag] are what [tag.Get] returns for the
    keys [db] and [rel]. *)
Definition parseTags (dbTag relTag : string) : gmap string string :=
  let tags : gmap string string := ∅ in
  let tags :=
    if negb (is_empty dbTag) then fold_left parsePart (Split dbTag ",") tags else tags in
  if negb (is_empty relTag) then <["rel" := TrimSpace relTag]> tags else tags.

Record ForeignKey : Type := mkForeignKey {
  Name : string;
  Column : string;
  ReferenceTable : string;
  ReferenceColumn : string;
  OnDelete : string;
  OnUpdate : string }.

(** One of the parts after the second in the loop of
    [parseForeignKeyFromTags]. *)
Definition fkOption (fk : ForeignKey) (part : string) : ForeignKey :=
  if HasPrefix part "ondelete=" then
    mkForeignKey (Name fk) (Column fk) (ReferenceTable fk) (ReferenceColumn fk)
      (TrimPrefix part "ondelete=") (OnUpdate fk)
  else if HasPrefix part "onupdate=" then
    mkForeignKey (Name fk) (Column fk) (ReferenceTable fk) (ReferenceColumn fk)
      (OnDelete fk) (TrimPrefix part "onupdate=")
  else fk.

(** [parseForeignKeyFromTags]; [None] is the nil pointer. *)
Definition parseForeignKeyFromTags (fieldName : string) (tags : gmap string string)
    : option ForeignKey :=
  match tags !! "rel" with
  | None => None
  | Some relTag =>
      match Split relTag "," with
      | table :: column :: options =>
          Some (fold_left fkOption options
                  (mkForeignKey ("fk_" +:+ fieldName +:+ "_" +:+ table) fieldName
                     table column "CASCADE" "CASCADE"))
      | _ => None
      end
  end.

End DefaultParser.

(** An entry that [parseTags] takes from the [db] tag: a key that is not
    empty, key and value without white space at their ends, no comma in
    either and no equals sign in the key. *)
Definition dbEntry (key value : string) : Prop :=
  is_empty key = false /\ trimmed key = true /\ trimmed value = true
  /\ lacks "," key = true /\ lacks "=" key = true /\ lacks "," value = true.

Section TagFacts.

Lemma Contains_false_lacks (c : ascii) (s : string) :
  Contains s (sep1 c) = false -> lacks c s = true.
Proof.
  unfold Contains. pose proof (index_nat_cut c s) as H.
  destruct (index_nat s (sep1 c)); [discriminate | now intros _].
Qed.

Lemma parsePart_entries (tags : gmap string string) (part : string) :
  lacks "," part = true ->
  map_Forall dbEntry tags -> map_Forall dbEntry (DefaultParser.parsePart tags part).
Proof.
  intros Hl Htags. unfold DefaultParser.parsePart. cbv zeta.
  pose proof (lacks_TrimSpace "," part Hl) as Hlp.
  pose proof (TrimSpace_trimmed part) as Htp.
  set (p := TrimSpace part) in *.
  change "="%string with (sep1 "=").
  destruct (Contains p (sep1 "=")) eqn:Ec.
  - destruct (SplitN2_cut "=" p) as [[E _] | (head & tail & Ep & Hh)].
    + now rewrite E.
    + rewrite Ep, (SplitN2_first "=" head tail Hh).
      destruct (is_empty (TrimSpace head)) eqn:Ek; [exact Htags |]. cbn [negb].
      rewrite Ep, lacks_app in Hlp. apply andb_true_iff in Hlp as [Hlh Hlt].
      cbn [lacks] in Hlt. apply andb_true_iff in Hlt as [_ Hlt].
      apply map_Forall_insert_2; [| exact Htags].
      repeat split; try apply TrimSpace_trimmed; try (now apply lacks_TrimSpace).
      exact Ek.
  - destruct (is_empty p) eqn:Ee; [exact Htags |]. cbn [negb].
    apply map_Forall_insert_2; [| exact Htags].
    rewrite (trimmed_TrimSpace p Htp).
    repeat split; try assumption; try reflexivity.
    now apply Contains_false_lacks.
Qed.

Lemma parseParts_entries (parts : list string) (tags : gmap string string) :
  Forall (fun p => lacks "," p = true) parts ->
  map_Forall dbEntry tags ->
  map_Forall dbEntry (fold_left DefaultParser.parsePart parts tags).
Proof.
  intros H. revert tags. induction H as [|p parts Hp _ IH]; intros tags Ht; [exact Ht |].
  cbn [fold_left]. apply IH. now apply parsePart_entries.
Qed.

(** The entries that [parseTags] has before it looks at the [rel] tag. *)
Lemma dbTag_entries (dbTag : string) :
  map_Forall dbEntry
    (if negb (is_empty dbTag)
     then fold_left DefaultParser.parsePart (Split dbTag ",") ∅
     else (∅ : gmap string string)).
Proof.
  destruct (is_empty dbTag); cbn [negb]; [apply map_Forall_empty |].
  apply parseParts_entries; [apply (Split_pieces "," dbTag) | apply map_Forall_empty].
Qed.

(** X29. Every entry of the map that [parseTags] returns has a key that
    is not empty, and key and value without white space at their ends.
    The entry is the trimmed [rel] tag under the key [rel], or it comes
    from the [db] tag, and then neither its key nor its value holds a
    comma, and its key holds no equals sign. *)
Theorem parseTags_entries (dbTag relTag key value : string) :
  plain dbTag = true -> plain relTag = true ->
  DefaultParser.parseTags dbTag relTag !! key = Some value ->
  is_empty key = false /\ trimmed key = true /\ trimmed value = true
  /\ ((key = "rel" /\ is_empty relTag = false /\ value = TrimSpace relTag)
      \/ (lacks "," key = true /\ lacks "=" key = true /\ lacks "," value = true)).
Proof.
  intros _ _. unfold DefaultParser.parseTags. cbv zeta.
  pose proof (dbTag_entries dbTag) as Hdb.
  set (tags := if negb (is_empty dbTag) then _ else _) in *.
  assert (Hfrom : tags !! key = Some value ->
                  is_empty key = false /\ trimmed key = true /\ trimmed value = true
                  /\ ((key = "rel" /\ is_empty relTag = false /\ value = TrimSpace relTag)
                      \/ (lacks "," key = true /\ lacks "=" key = true
                          /\ lacks "," value = true))).
  { intros Hl. destruct (Hdb key value Hl) as (H1 & H2 & H3 & H4 & H5 & H6).
    repeat split; try assumption. right. now repeat split. }
  destruct (is_empty relTag) eqn:Er; cbn [negb]; [exact Hfrom |].
  intros Hl. apply lookup_insert_Some in Hl as [[<- <-] | [_ Hl]]; [| now apply Hfrom].
  repeat split; try reflexivity; try apply TrimSpace_trimmed. left. now repeat split.
Qed.

Lemma parseTags_entries_witness :
  DefaultParser.parseTags " type = decimal , precision=10,not null" "users,id"
  = <["rel" := "users,id"]>
      (<["not null" := EmptyString]>
         (<["precision" := "10"]> (<["type" := "decimal"]> ∅)))
  /\ is_empty "type" = false /\ trimmed "type" = true /\ trimmed "decimal" = true
  /\ (("type" = "rel" /\ is_empty "users,id" = false /\ "decimal" = TrimSpace "users,id")
      \/ (lacks "," "type" = true /\ lacks "=" "type" = true
          /\ lacks "," "decimal" = true)).
Proof.
  split; [vm_compute; reflexivity |].
  apply (parseTags_entries " type = decimal , precision=10,not null" "users,id"
           "type" "decimal"); reflexivity.
Defined.

(** X30. The foreign key of a field comes from the [rel] tag alone:
    [parseForeignKeyFromTags] gives for the map of [parseTags] what it
    gives for the trimmed [rel] tag by itself.  A [rel] entry written
    inside the [db] tag cannot hold the comma between table and column, so
    without a [rel] tag there is no foreign key. *)
Theorem foreign_key_from_rel_tag_only (fieldName dbTag relTag : string) :
  plain dbTag = true -> plain relTag = true ->
  DefaultParser.parseForeignKeyFromTags fieldName (DefaultParser.parseTags dbTag relTag)
  = DefaultParser.parseForeignKeyFromTags fieldName {["rel" := TrimSpace relTag]}
  /\ (is_empty relTag = true ->
      DefaultParser.parseForeignKeyFromTags fieldName
        (DefaultParser.parseTags dbTag relTag) = None).
Proof.
  intros _ _.
  assert (Hnone : is_empty relTag = true ->
                  DefaultParser.parseForeignKeyFromTags fieldName
                    (DefaultParser.parseTags dbTag relTag) = None).
  { intros Er. unfold DefaultParser.parseTags. cbv zeta. rewrite Er. cbn [negb].
    pose proof (dbTag_entries dbTag) as Hdb.
    set (tags := if negb (is_empty dbTag) then _ else _) in *.
    unfold DefaultParser.parseForeignKeyFromTags.
    destruct (tags !! "rel") as [v|] eqn:Ev; [| reflexivity].
    destruct (Hdb "rel" v Ev) as (_ & _ & _ & _ & _ & Hv).
    change ","%string with (sep1 ","). now rewrite (Split_lacks "," v Hv). }
  split; [| exact Hnone].
  destruct (is_empty relTag) eqn:Er.
  - rewrite (Hnone eq_refl). apply is_empty_true in Er. subst relTag. reflexivity.
  - unfold DefaultParser.parseTags. cbv zeta. rewrite Er. cbn [negb].
    unfold DefaultParser.parseForeignKeyFromTags.
    now rewrite lookup_insert_eq, lookup_singleton_eq.
Qed.

Lemma foreign_key_from_rel_tag_only_witness :
  DefaultParser.parseForeignKeyFromTags "user_id"
    (DefaultParser.parseTags "type=bigint,rel=accounts" " users,id,ondelete=SET NULL ")
  = Some (DefaultParser.mkForeignKey "fk_user_id_users" "user_id" "users" "id"
            "SET NULL" "CASCADE")
  /\ DefaultParser.parseForeignKeyFromTags "user_id"
       (DefaultParser.parseTags "type=bigint,rel=accounts" EmptyString) = None.
Proof.
  split.
  - rewrite (proj1 (foreign_key_from_rel_tag_only "user_id" "type=bigint,rel=accounts"
                      " users,id,ondelete=SET NULL " eq_refl eq_refl)).
    vm_compute. reflexivity.
  - apply (foreign_key_from_rel_tag_only "user_id" "type=bigint,rel=accounts" EmptyString);
      reflexivity.
Defined.

End TagFacts.
